(** * DutyDB: the in-memory duty database of core/dutydb/memory.go

    A shallow embedding of [MemDB] and its operations, followed by the
    properties of the store, the waiter registry, the resolver and the
    evictor.

    Conventions of the embedding.
    - [uint64] values are [N]; the code only compares and copies them.
    - [eth2p0.Root] ([32]byte) is read as a number, [N].
    - Go maps are [gmap]s; a missing slice value is [[]].
    - Pointers stored in the maps are never written through by this
      package, so the maps hold the pointed-to values.
    - The payload types and their methods ([Clone], [HashTreeRoot],
      [String], [Slot], [Root], [Data]) live in other packages; they are
      the fields of the class [Codec].
    - Channels live in heaps outside [MemDB]: a response channel is a
      buffer of capacity one, a cancel channel is open or closed.
    - The deadliner is the environment: each [Store] is given the answer of
      [Add] and the duties its channel yields while the store drains it. *)

From stdpp Require Import gmap strings pretty list fin_maps.

Abbreviation uint64 := N (only parsing).
Abbreviation Root := N (only parsing).
Abbreviation PubKey := string (only parsing).
Abbreviation chan := nat (only parsing).

(** ** Duties *)

(** The duty types this package dispatches on; every other value of
    [core.DutyType] is [DutyOther]. *)
Inductive DutyType :=
| DutyProposer
| DutyAttester
| DutyBuilderProposer
| DutyAggregator
| DutySyncContribution
| DutyOther (code : N).

#[global] Instance DutyType_eq_dec : EqDecision DutyType.
Proof. solve_decision. Defined.

Module Duty.
Record t := mk { Slot : uint64; Type_ : DutyType }.
#[global] Instance eq_dec : EqDecision t.
Proof. solve_decision. Defined.
End Duty.

(** ** Keys *)

(** attKey is the key to lookup an attester value in the DB. *)
Module attKey.
Record t := mk { Slot : uint64; CommIdx : uint64 }.
#[global] Instance eq_dec : EqDecision t.
Proof. solve_decision. Defined.
#[global] Instance countable : Countable t.
Proof.
  apply (inj_countable' (fun k => (Slot k, CommIdx k))
                        (fun p => mk p.1 p.2)).
  by intros [].
Defined.
End attKey.

(** pkKey is the key to lookup pubkeys by attestation in the DB. *)
Module pkKey.
Record t := mk { Slot : uint64; CommIdx : uint64; ValIdx : uint64 }.
#[global] Instance eq_dec : EqDecision t.
Proof. solve_decision. Defined.
#[global] Instance countable : Countable t.
Proof.
  apply (inj_countable' (fun k => (Slot k, CommIdx k, ValIdx k))
                        (fun p => mk p.1.1 p.1.2 p.2)).
  by intros [].
Defined.
End pkKey.

(** aggKey is the key to lookup an aggregated attestation by root in the DB. *)
Module aggKey.
Record t := mk { Slot : uint64; Root_ : Root }.
#[global] Instance eq_dec : EqDecision t.
Proof. solve_decision. Defined.
#[global] Instance countable : Countable t.
Proof.
  apply (inj_countable' (fun k => (Slot k, Root_ k))
                        (fun p => mk p.1 p.2)).
  by intros [].
Defined.
End aggKey.

(** contribKey is the key to look up sync contribution by root and
    subcommittee index in the DB. *)
Module contribKey.
Record t := mk { Slot : uint64; SubcommIdx : uint64; Root_ : Root }.
#[global] Instance eq_dec : EqDecision t.
Proof. solve_decision. Defined.
#[global] Instance countable : Countable t.
Proof.
  apply (inj_countable' (fun k => (Slot k, SubcommIdx k, Root_ k))
                        (fun p => mk p.1.1 p.1.2 p.2)).
  by intros [].
Defined.
End contribKey.

(** ** Waiters *)

(** attQuery, proQuery, aggQuery and contribQuery: a key, the channel the
    value is sent on and the channel whose closing cancels the query. *)
Record query (K : Type) := mkQuery { Key : K; Response : chan; Cancel : chan }.
Arguments mkQuery {K}.
Arguments Key {K}.
Arguments Response {K}.
Arguments Cancel {K}.

(** A response channel [make(chan T, 1)]: its buffer, and the number of
    sends it has completed since it was made. *)
Record buffered (V : Type) := mkChan { buf : list V; sends : nat }.
Arguments mkChan {V}.
Arguments buf {V}.
Arguments sends {V}.

Definition capacity : nat := 1.

(** [ch <- v]: completes when the buffer has room; [None] when the send
    would block (full buffer, or no such channel). *)
Definition send {V} (ch : chan) (v : V) (heap : gmap chan (buffered V))
  : option (gmap chan (buffered V)) :=
  match heap !! ch with
  | Some c =>
      if decide (length (buf c) < capacity)
      then Some (<[ch := mkChan (buf c ++ [v]) (S (sends c))]> heap)
      else None
  | None => None
  end.

(** cancelled returns true if channel has been closed. *)
Definition cancelled (closed : gset chan) (cancel : chan) : bool :=
  bool_decide (cancel ∈ closed).

(** ** Payloads *)

(** The fields of [eth2v1.AttesterDuty] this package reads. *)
Module AttesterDuty.
Record t := mk { Slot : uint64; CommitteeIndex : uint64; ValidatorIndex : uint64 }.
End AttesterDuty.

(** [core.AttestationData]: the attestation data and the duty it is for. *)
Record AttestationData (D : Type) := mkAttestationData {
  Data : D;
  Duty_ : AttesterDuty.t
}.
Arguments mkAttestationData {D}.
Arguments Data {D}.
Arguments Duty_ {D}.

Inductive res (E A : Type) :=
| Ok (a : A)
| Err (e : E).
Arguments Ok {E A}.
Arguments Err {E A}.

(** The payload types of go-eth2-client and of package core, with the
    methods and type assertions this package calls. *)
Class Codec := {
  CodecError : Type;
  (** a value of the interface [core.UnsignedData] *)
  UnsignedData : Type;
  (** [eth2p0.AttestationData] *)
  p0AttestationData : Type;
  (** [eth2api.VersionedProposal], embedded in [core.VersionedProposal] *)
  VersionedProposal : Type;
  (** [core.VersionedAggregatedAttestation] *)
  VersionedAggregatedAttestation : Type;
  (** [altair.SyncCommitteeContribution], embedded in [core.SyncContribution] *)
  SyncCommitteeContribution : Type;

  Clone : UnsignedData -> res CodecError UnsignedData;
  (** [cloned.(core.AttestationData)] and the other type assertions *)
  asAttestationData : UnsignedData -> option (AttestationData p0AttestationData);
  asVersionedProposal : UnsignedData -> option VersionedProposal;
  asVersionedAggregatedAttestation : UnsignedData -> option VersionedAggregatedAttestation;
  asSyncContribution : UnsignedData -> option SyncCommitteeContribution;
  (** [value.Clone()] of [AwaitAggAttestation], on the stored type *)
  ofVersionedAggregatedAttestation : VersionedAggregatedAttestation -> UnsignedData;

  att_Slot : p0AttestationData -> uint64;
  att_String : p0AttestationData -> string;
  att_HashTreeRoot : p0AttestationData -> res CodecError Root;

  pro_Slot : VersionedProposal -> res CodecError uint64;
  pro_Root : VersionedProposal -> res CodecError Root;

  agg_Data : VersionedAggregatedAttestation -> res CodecError p0AttestationData;

  contrib_Slot : SyncCommitteeContribution -> uint64;
  contrib_SubcommitteeIndex : SyncCommitteeContribution -> uint64;
  contrib_BeaconBlockRoot : SyncCommitteeContribution -> Root;
  contrib_HashTreeRoot : SyncCommitteeContribution -> res CodecError Root
}.

(** [ctx.Err()] *)
Inductive CtxError := Canceled | DeadlineExceeded.

Section DutyDB.
Context `{Codec}.

(** The errors of this package ([errors.New], [errors.Wrap]) and the ones
    it passes on. *)
Inductive error :=
| ErrExpiredDuty            (* "not storing unsigned data for expired duty" *)
| ErrProposerSetLength (n : nat) (* "unexpected proposer data set length" *)
| ErrDeprecatedDutyBuilderProposer
| ErrUnsupportedDutyType    (* "unsupported duty type" *)
| ErrUnknownDutyType        (* "unknown duty type" *)
| ErrInvalid (what : string) (* a failed type assertion *)
| ErrClashingPubKey (k : pkKey.t)      (* "clashing public key" *)
| ErrClashingAttData (k : attKey.t)    (* "clashing attestation data" *)
| ErrClashingDataRoot (existing provided : Root) (* "clashing data root" *)
| ErrClashingSyncContributions         (* "clashing sync contributions" *)
| ErrClashingBlocks                    (* "clashing blocks" *)
| ErrPubKeyNotFound                    (* "pubkey not found" *)
| ErrShutdown                          (* "dutydb shutdown" *)
| ErrCtx (e : CtxError)
| ErrCodec (e : CodecError)
| ErrWrap (msg : string) (e : CodecError).

(** The spec's [ClashingData]: a second store with the same key and a
    different content hash. *)
Definition is_ClashingData (e : error) : bool :=
  match e with
  | ErrClashingAttData _ | ErrClashingDataRoot _ _
  | ErrClashingSyncContributions | ErrClashingBlocks => true
  | _ => false
  end.

Definition is_ClashingPubKey (e : error) : bool :=
  match e with ErrClashingPubKey _ => true | _ => false end.

(** MemDB is an in-memory dutyDB implementation. *)
Record MemDB := mkMemDB {
  (* DutyAttester *)
  attDuties : gmap attKey.t p0AttestationData;
  attPubKeys : gmap pkKey.t PubKey;
  attKeysBySlot : gmap uint64 (list pkKey.t);
  attQueries : list (query attKey.t);
  (* DutyProposer *)
  proDuties : gmap uint64 VersionedProposal;
  proQueries : list (query uint64);
  (* DutyAggregator *)
  aggDuties : gmap aggKey.t VersionedAggregatedAttestation;
  aggKeysBySlot : gmap uint64 (list aggKey.t);
  aggQueries : list (query aggKey.t);
  (* DutySyncContribution *)
  contribDuties : gmap contribKey.t SyncCommitteeContribution;
  contribKeysBySlot : gmap uint64 (list contribKey.t);
  contribQueries : list (query contribKey.t);
  (* true once the shutdown channel is closed *)
  shutdown : bool
}.

(** NewMemDB returns a new in-memory dutyDB instance. *)
Definition NewMemDB : MemDB :=
  mkMemDB ∅ ∅ ∅ [] ∅ [] ∅ ∅ [] ∅ ∅ [] false.

Definition set_attDuties (m : gmap attKey.t p0AttestationData) (db : MemDB) : MemDB :=
  mkMemDB m (attPubKeys db) (attKeysBySlot db) (attQueries db)
          (proDuties db) (proQueries db)
          (aggDuties db) (aggKeysBySlot db) (aggQueries db)
          (contribDuties db) (contribKeysBySlot db) (contribQueries db) (shutdown db).
Definition set_attPubKeys (m : gmap pkKey.t PubKey) (db : MemDB) : MemDB :=
  mkMemDB (attDuties db) m (attKeysBySlot db) (attQueries db)
          (proDuties db) (proQueries db)
          (aggDuties db) (aggKeysBySlot db) (aggQueries db)
          (contribDuties db) (contribKeysBySlot db) (contribQueries db) (shutdown db).
Definition set_attKeysBySlot (m : gmap uint64 (list pkKey.t)) (db : MemDB) : MemDB :=
  mkMemDB (attDuties db) (attPubKeys db) m (attQueries db)
          (proDuties db) (proQueries db)
          (aggDuties db) (aggKeysBySlot db) (aggQueries db)
          (contribDuties db) (contribKeysBySlot db) (contribQueries db) (shutdown db).
Definition set_attQueries (l : list (query attKey.t)) (db : MemDB) : MemDB :=
  mkMemDB (attDuties db) (attPubKeys db) (attKeysBySlot db) l
          (proDuties db) (proQueries db)
          (aggDuties db) (aggKeysBySlot db) (aggQueries db)
          (contribDuties db) (contribKeysBySlot db) (contribQueries db) (shutdown db).
Definition set_proDuties (m : gmap uint64 VersionedProposal) (db : MemDB) : MemDB :=
  mkMemDB (attDuties db) (attPubKeys db) (attKeysBySlot db) (attQueries db)
          m (proQueries db)
          (aggDuties db) (aggKeysBySlot db) (aggQueries db)
          (contribDuties db) (contribKeysBySlot db) (contribQueries db) (shutdown db).
Definition set_proQueries (l : list (query uint64)) (db : MemDB) : MemDB :=
  mkMemDB (attDuties db) (attPubKeys db) (attKeysBySlot db) (attQueries db)
          (proDuties db) l
          (aggDuties db) (aggKeysBySlot db) (aggQueries db)
          (contribDuties db) (contribKeysBySlot db) (contribQueries db) (shutdown db).
Definition set_aggDuties (m : gmap aggKey.t VersionedAggregatedAttestation) (db : MemDB) : MemDB :=
  mkMemDB (attDuties db) (attPubKeys db) (attKeysBySlot db) (attQueries db)
          (proDuties db) (proQueries db)
          m (aggKeysBySlot db) (aggQueries db)
          (contribDuties db) (contribKeysBySlot db) (contribQueries db) (shutdown db).
Definition set_aggKeysBySlot (m : gmap uint64 (list aggKey.t)) (db : MemDB) : MemDB :=
  mkMemDB (attDuties db) (attPubKeys db) (attKeysBySlot db) (attQueries db)
          (proDuties db) (proQueries db)
          (aggDuties db) m (aggQueries db)
          (contribDuties db) (contribKeysBySlot db) (contribQueries db) (shutdown db).
Definition set_aggQueries (l : list (query aggKey.t)) (db : MemDB) : MemDB :=
  mkMemDB (attDuties db) (attPubKeys db) (attKeysBySlot db) (attQueries db)
          (proDuties db) (proQueries db)
          (aggDuties db) (aggKeysBySlot db) l
          (contribDuties db) (contribKeysBySlot db) (contribQueries db) (shutdown db).
Definition set_contribDuties (m : gmap contribKey.t SyncCommitteeContribution) (db : MemDB) : MemDB :=
  mkMemDB (attDuties db) (attPubKeys db) (attKeysBySlot db) (attQueries db)
          (proDuties db) (proQueries db)
          (aggDuties db) (aggKeysBySlot db) (aggQueries db)
          m (contribKeysBySlot db) (contribQueries db) (shutdown db).
Definition set_contribKeysBySlot (m : gmap uint64 (list contribKey.t)) (db : MemDB) : MemDB :=
  mkMemDB (attDuties db) (attPubKeys db) (attKeysBySlot db) (attQueries db)
          (proDuties db) (proQueries db)
          (aggDuties db) (aggKeysBySlot db) (aggQueries db)
          (contribDuties db) m (contribQueries db) (shutdown db).
Definition set_contribQueries (l : list (query contribKey.t)) (db : MemDB) : MemDB :=
  mkMemDB (attDuties db) (attPubKeys db) (attKeysBySlot db) (attQueries db)
          (proDuties db) (proQueries db)
          (aggDuties db) (aggKeysBySlot db) (aggQueries db)
          (contribDuties db) (contribKeysBySlot db) l (shutdown db).
Definition set_shutdown (b : bool) (db : MemDB) : MemDB :=
  mkMemDB (attDuties db) (attPubKeys db) (attKeysBySlot db) (attQueries db)
          (proDuties db) (proQueries db)
          (aggDuties db) (aggKeysBySlot db) (aggQueries db)
          (contribDuties db) (contribKeysBySlot db) (contribQueries db) b.

(** ** The functions that assume the lock is held

    They run in a state-and-error monad over [MemDB]: a function that
    returns an error leaves the map writes it made before. *)
Definition DB (A : Type) : Type := MemDB -> MemDB * res error A.

Definition ret {A} (a : A) : DB A := fun db => (db, Ok a).
Definition fail {A} (e : error) : DB A := fun db => (db, Err e).
Definition bind {A B} (m : DB A) (f : A -> DB B) : DB B :=
  fun db => match m db with
            | (db', Ok a) => f a db'
            | (db', Err e) => (db', Err e)
            end.
Definition get : DB MemDB := fun db => (db, Ok db).
Definition modify (f : MemDB -> MemDB) : DB unit := fun db => (f db, Ok tt).
(** [v, err := f(); if err != nil { return wrap(err) }] *)
Definition try {A} (r : res CodecError A) (wrap : CodecError -> error) : DB A :=
  match r with Ok a => ret a | Err e => fail (wrap e) end.
(** [v, ok := x.(T); if !ok { return err }] *)
Definition assert_type {A} (o : option A) (e : error) : DB A :=
  match o with Some a => ret a | None => fail e end.

Notation "'do' x <- m ; k" := (bind m (fun x => k))
  (at level 20, x name, m at level 100, k at level 200, only parsing).

(** [for _, x := range xs { err := f(x); if err != nil { return err } }] *)
Fixpoint forEach {A} (f : A -> DB unit) (xs : list A) : DB unit :=
  match xs with
  | [] => ret tt
  | x :: rest => do _ <- f x; forEach f rest
  end.

(** [m[k] = append(m[k], x)] *)
Definition append_at {K} `{Countable K} {A} (k : K) (x : A) (m : gmap K (list A))
  : gmap K (list A) :=
  <[k := default [] (m !! k) ++ [x]]> m.

(** The two blocks "Store key and value for PubKeyByAttestation" of
    [storeAttestationUnsafe] (lines 308-315 and 347-354): they differ in
    the key only. *)
Definition storePubKey (pKey : pkKey.t) (pubkeyStore : PubKey) (dutySlot : uint64)
  : DB unit :=
  do db <- get;
  match attPubKeys db !! pKey with
  | Some value =>
      if decide (value ≠ pubkeyStore) then fail (ErrClashingPubKey pKey) else ret tt
  | None =>
      do _ <- modify (fun db => set_attPubKeys (<[pKey := pubkeyStore]> (attPubKeys db)) db);
      modify (fun db => set_attKeysBySlot (append_at dutySlot pKey (attKeysBySlot db)) db)
  end.

(** The two blocks "Store key and value for AwaitAttestation" (lines
    323-329 and 362-368). *)
Definition storeAttData (aKey : attKey.t) (data : p0AttestationData) : DB unit :=
  do db <- get;
  match attDuties db !! aKey with
  | Some value =>
      if decide (att_String value ≠ att_String data)
      then fail (ErrClashingAttData aKey) else ret tt
  | None => modify (fun db => set_attDuties (<[aKey := data]> (attDuties db)) db)
  end.

(** storeAttestationUnsafe stores the unsigned attestation. It is unsafe
    since it assumes the lock is held. *)
Definition storeAttestationUnsafe (pubkey : PubKey) (unsignedData : UnsignedData)
  : DB unit :=
  do cloned <- try (Clone unsignedData) ErrCodec;
  do attData <- assert_type (asAttestationData cloned)
                            (ErrInvalid "invalid unsigned attestation data");
  let pubkeyStore := pubkey in
  let pKey := pkKey.mk (att_Slot (Data attData))
                       (AttesterDuty.CommitteeIndex (Duty_ attData))
                       (AttesterDuty.ValidatorIndex (Duty_ attData)) in
  do _ <- storePubKey pKey pubkeyStore (AttesterDuty.Slot (Duty_ attData));
  let aKey := attKey.mk (att_Slot (Data attData))
                        (AttesterDuty.CommitteeIndex (Duty_ attData)) in
  do _ <- storeAttData aKey (Data attData);
  let pKeyCommIdx0 := pkKey.mk (att_Slot (Data attData)) 0
                               (AttesterDuty.ValidatorIndex (Duty_ attData)) in
  do _ <- storePubKey pKeyCommIdx0 pubkeyStore (AttesterDuty.Slot (Duty_ attData));
  let aKeyCommIdx0 := attKey.mk (att_Slot (Data attData)) 0 in
  storeAttData aKeyCommIdx0 (Data attData).

(** The four steps of [storeAttestationUnsafe], once the payload is cloned
    and asserted. *)
Definition attSteps (pubkey : PubKey) (attData : AttestationData p0AttestationData)
  : DB unit :=
  bind (storePubKey (pkKey.mk (att_Slot (Data attData))
                              (AttesterDuty.CommitteeIndex (Duty_ attData))
                              (AttesterDuty.ValidatorIndex (Duty_ attData)))
                    pubkey (AttesterDuty.Slot (Duty_ attData))) (fun _ =>
  bind (storeAttData (attKey.mk (att_Slot (Data attData))
                                (AttesterDuty.CommitteeIndex (Duty_ attData)))
                     (Data attData)) (fun _ =>
  bind (storePubKey (pkKey.mk (att_Slot (Data attData)) 0
                              (AttesterDuty.ValidatorIndex (Duty_ attData)))
                    pubkey (AttesterDuty.Slot (Duty_ attData))) (fun _ =>
  storeAttData (attKey.mk (att_Slot (Data attData)) 0) (Data attData)))).

(** storeAggAttestationUnsafe stores the unsigned aggregated attestation. *)
Definition storeAggAttestationUnsafe (unsignedData : UnsignedData) : DB unit :=
  do cloned <- try (Clone unsignedData) ErrCodec;
  do aggAtt <- assert_type (asVersionedAggregatedAttestation cloned)
                           (ErrInvalid "invalid unsigned aggregated attestation");
  do aggAttData <- try (agg_Data aggAtt) ErrCodec;
  do aggRoot <- try (att_HashTreeRoot aggAttData)
                    (ErrWrap "hash aggregated attestation root");
  let slot := att_Slot aggAttData in
  let key := aggKey.mk slot aggRoot in
  do db <- get;
  match aggDuties db !! key with
  | Some existing =>
      do existingData <- try (agg_Data existing) (ErrWrap "existing data");
      do existingDataRoot <- try (att_HashTreeRoot existingData)
                                 (ErrWrap "existing data root");
      let provided := aggAtt in
      do providedData <- try (agg_Data provided) (ErrWrap "provided data");
      do providedDataRoot <- try (att_HashTreeRoot providedData)
                                 (ErrWrap "provided data root");
      if decide (existingDataRoot ≠ providedDataRoot)
      then fail (ErrClashingDataRoot existingDataRoot providedDataRoot)
      else modify (fun db => set_aggDuties (<[key := provided]> (aggDuties db)) db)
  | None =>
      do _ <- modify (fun db => set_aggDuties (<[key := aggAtt]> (aggDuties db)) db);
      modify (fun db => set_aggKeysBySlot (append_at slot key (aggKeysBySlot db)) db)
  end.

(** storeSyncContributionUnsafe stores the sync committee contribution. *)
Definition storeSyncContributionUnsafe (unsignedData : UnsignedData) : DB unit :=
  do cloned <- try (Clone unsignedData) ErrCodec;
  do contrib <- assert_type (asSyncContribution cloned)
                            (ErrInvalid "invalid unsigned sync committee contribution");
  do contribRoot <- try (contrib_HashTreeRoot contrib)
                        (ErrWrap "hash sync committee contribution");
  let key := contribKey.mk (contrib_Slot contrib)
                           (contrib_SubcommitteeIndex contrib)
                           (contrib_BeaconBlockRoot contrib) in
  do db <- get;
  match contribDuties db !! key with
  | Some existing =>
      do existingRoot <- try (contrib_HashTreeRoot existing)
                             (ErrWrap "sync committee contribution root");
      if decide (existingRoot ≠ contribRoot)
      then fail ErrClashingSyncContributions else ret tt
  | None =>
      do _ <- modify (fun db => set_contribDuties (<[key := contrib]> (contribDuties db)) db);
      modify (fun db => set_contribKeysBySlot
                          (append_at (contrib_Slot contrib) key (contribKeysBySlot db)) db)
  end.

(** storeProposalUnsafe stores the unsigned Proposal. *)
Definition storeProposalUnsafe (unsignedData : UnsignedData) : DB unit :=
  do cloned <- try (Clone unsignedData) ErrCodec;
  do proposal <- assert_type (asVersionedProposal cloned)
                             (ErrInvalid "invalid versioned proposal");
  do slot <- try (pro_Slot proposal) ErrCodec;
  do db <- get;
  match proDuties db !! slot with
  | Some existing =>
      do existingRoot <- try (pro_Root existing) (ErrWrap "proposal root");
      do providedRoot <- try (pro_Root proposal) (ErrWrap "proposal root");
      if decide (existingRoot ≠ providedRoot) then fail ErrClashingBlocks else ret tt
  | None => modify (fun db => set_proDuties (<[slot := proposal]> (proDuties db)) db)
  end.

(** The body of the attester loop of [deleteDutyUnsafe]. *)
Definition deleteAttKey (db : MemDB) (key : pkKey.t) : MemDB :=
  set_attDuties (delete (attKey.mk (pkKey.Slot key) (pkKey.CommIdx key)) (attDuties db))
                (set_attPubKeys (delete key (attPubKeys db)) db).

(** deleteDutyUnsafe deletes the duty from the database. *)
Definition deleteDutyUnsafe (duty : Duty.t) : DB unit :=
  match Duty.Type_ duty with
  | DutyProposer =>
      modify (fun db => set_proDuties (delete (Duty.Slot duty) (proDuties db)) db)
  | DutyBuilderProposer => fail ErrDeprecatedDutyBuilderProposer
  | DutyAttester =>
      do _ <- modify (fun db => foldl deleteAttKey db
                                  (default [] (attKeysBySlot db !! Duty.Slot duty)));
      modify (fun db => set_attKeysBySlot (delete (Duty.Slot duty) (attKeysBySlot db)) db)
  | DutyAggregator =>
      do _ <- modify (fun db =>
                foldl (fun db key => set_aggDuties (delete key (aggDuties db)) db) db
                      (default [] (aggKeysBySlot db !! Duty.Slot duty)));
      modify (fun db => set_aggKeysBySlot (delete (Duty.Slot duty) (aggKeysBySlot db)) db)
  | DutySyncContribution =>
      do _ <- modify (fun db =>
                foldl (fun db key => set_contribDuties (delete key (contribDuties db)) db) db
                      (default [] (contribKeysBySlot db !! Duty.Slot duty)));
      modify (fun db => set_contribKeysBySlot
                          (delete (Duty.Slot duty) (contribKeysBySlot db)) db)
  | DutyOther _ => fail ErrUnknownDutyType
  end.

(** PubKeyByAttestation implements core.DutyDB. *)
Definition PubKeyByAttestation (slot commIdx valIdx : uint64) (db : MemDB)
  : res error PubKey :=
  let key := pkKey.mk slot commIdx valIdx in
  match attPubKeys db !! key with
  | Some pubkey => Ok pubkey
  | None => Err ErrPubKeyNotFound
  end.

(** ** The resolver *)

(** The loop shared by [resolveAttQueriesUnsafe], [resolveProQueriesUnsafe],
    [resolveAggQueriesUnsafe] and [resolveContribQueriesUnsafe]: the four
    differ in the map, the list and the channel type only. It returns the
    unresolved queries and the heap of response channels, or [None] when a
    send blocks. *)
Fixpoint resolveQueries {K} `{Countable K} {V}
    (duties : gmap K V) (closed : gset chan)
    (queries : list (query K)) (heap : gmap chan (buffered V))
  : option (list (query K) * gmap chan (buffered V)) :=
  match queries with
  | [] => Some ([], heap)
  | query :: rest =>
      if cancelled closed (Cancel query)
      then resolveQueries duties closed rest heap (* Drop cancelled queries. *)
      else match duties !! Key query with
           | None =>
               match resolveQueries duties closed rest heap with
               | Some (unresolved, heap') => Some (query :: unresolved, heap')
               | None => None
               end
           | Some value =>
               match send (Response query) value heap with
               | Some heap' => resolveQueries duties closed rest heap'
               | None => None
               end
           end
  end.

(** The database together with the channels its waiters hold. *)
Record World := mkWorld {
  db : MemDB;
  proResp : gmap chan (buffered VersionedProposal);
  attResp : gmap chan (buffered p0AttestationData);
  aggResp : gmap chan (buffered VersionedAggregatedAttestation);
  contribResp : gmap chan (buffered SyncCommitteeContribution);
  (** the cancel channels that are closed *)
  closed : gset chan;
  (** the next address [make] hands out *)
  nextChan : chan
}.

Definition NewWorld : World := mkWorld NewMemDB ∅ ∅ ∅ ∅ ∅ 0.

Definition set_db (d : MemDB) (w : World) : World :=
  mkWorld d (proResp w) (attResp w) (aggResp w) (contribResp w) (closed w) (nextChan w).
Definition set_proResp (h : gmap chan (buffered VersionedProposal)) (w : World) : World :=
  mkWorld (db w) h (attResp w) (aggResp w) (contribResp w) (closed w) (nextChan w).
Definition set_attResp (h : gmap chan (buffered p0AttestationData)) (w : World) : World :=
  mkWorld (db w) (proResp w) h (aggResp w) (contribResp w) (closed w) (nextChan w).
Definition set_aggResp (h : gmap chan (buffered VersionedAggregatedAttestation)) (w : World)
  : World :=
  mkWorld (db w) (proResp w) (attResp w) h (contribResp w) (closed w) (nextChan w).
Definition set_contribResp (h : gmap chan (buffered SyncCommitteeContribution)) (w : World)
  : World :=
  mkWorld (db w) (proResp w) (attResp w) (aggResp w) h (closed w) (nextChan w).
Definition set_closed (c : gset chan) (w : World) : World :=
  mkWorld (db w) (proResp w) (attResp w) (aggResp w) (contribResp w) c (nextChan w).
Definition set_nextChan (n : chan) (w : World) : World :=
  mkWorld (db w) (proResp w) (attResp w) (aggResp w) (contribResp w) (closed w) n.

(** resolveAttQueriesUnsafe resolve any attQuery to a result if found. *)
Definition resolveAttQueriesUnsafe (w : World) : option World :=
  match resolveQueries (attDuties (db w)) (closed w) (attQueries (db w)) (attResp w) with
  | Some (unresolved, heap) =>
      Some (set_db (set_attQueries unresolved (db w)) (set_attResp heap w))
  | None => None
  end.

(** resolveProQueriesUnsafe resolve any proQuery to a result if found. *)
Definition resolveProQueriesUnsafe (w : World) : option World :=
  match resolveQueries (proDuties (db w)) (closed w) (proQueries (db w)) (proResp w) with
  | Some (unresolved, heap) =>
      Some (set_db (set_proQueries unresolved (db w)) (set_proResp heap w))
  | None => None
  end.

(** resolveAggQueriesUnsafe resolve any aggQuery to a result if found. *)
Definition resolveAggQueriesUnsafe (w : World) : option World :=
  match resolveQueries (aggDuties (db w)) (closed w) (aggQueries (db w)) (aggResp w) with
  | Some (unresolved, heap) =>
      Some (set_db (set_aggQueries unresolved (db w)) (set_aggResp heap w))
  | None => None
  end.

(** resolveContribQueriesUnsafe resolves any contribQuery to a result if found. *)
Definition resolveContribQueriesUnsafe (w : World) : option World :=
  match resolveQueries (contribDuties (db w)) (closed w)
                       (contribQueries (db w)) (contribResp w) with
  | Some (unresolved, heap) =>
      Some (set_db (set_contribQueries unresolved (db w)) (set_contribResp heap w))
  | None => None
  end.

(** ** Store *)

(** What [Store] does once the deadliner has accepted the duty and the
    duty type has chosen the store function and the resolver: store every
    payload, returning at the first error; resolve the queries; delete the
    expired duties the deadliner yields, returning at the first error.
    [None] when the resolver blocks. *)
Definition storeResolveDelete (stores : DB unit) (resolve : World -> option World)
    (expired : list Duty.t) (w : World) : option (World * res error unit) :=
  match stores (db w) with
  | (db1, Err e) => Some (set_db db1 w, Err e)
  | (db1, Ok _) =>
      match resolve (set_db db1 w) with
      | None => None
      | Some w2 =>
          match forEach deleteDutyUnsafe expired (db w2) with
          | (db3, r) => Some (set_db db3 w2, r)
          end
      end
  end.

(** Store implements core.DutyDB. [addOk] is the answer of
    [db.deadliner.Add(duty)], [expired] the duties [db.deadliner.C()]
    yields during this call, [unsignedSet] the pairs of the map in the
    order the range loop visits them. *)
Definition Store (addOk : bool) (expired : list Duty.t) (duty : Duty.t)
    (unsignedSet : list (PubKey * UnsignedData)) (w : World)
  : option (World * res error unit) :=
  if negb addOk then Some (w, Err ErrExpiredDuty)
  else match Duty.Type_ duty with
       | DutyProposer =>
           (* Sanity check max one proposer per slot *)
           if decide (1 < length unsignedSet)
           then Some (w, Err (ErrProposerSetLength (length unsignedSet)))
           else storeResolveDelete
                  (forEach (fun p => storeProposalUnsafe p.2) unsignedSet)
                  resolveProQueriesUnsafe expired w
       | DutyBuilderProposer => Some (w, Err ErrDeprecatedDutyBuilderProposer)
       | DutyAttester =>
           storeResolveDelete
             (forEach (fun p => storeAttestationUnsafe p.1 p.2) unsignedSet)
             resolveAttQueriesUnsafe expired w
       | DutyAggregator =>
           storeResolveDelete
             (forEach (fun p => storeAggAttestationUnsafe p.2) unsignedSet)
             resolveAggQueriesUnsafe expired w
       | DutySyncContribution =>
           storeResolveDelete
             (forEach (fun p => storeSyncContributionUnsafe p.2) unsignedSet)
             resolveContribQueriesUnsafe expired w
       | DutyOther _ => Some (w, Err ErrUnsupportedDutyType)
       end.

(** Shutdown results in all blocking queries to return shutdown errors.
    Note this may only be called *once*: closing the closed channel
    panics, which is [None]. *)
Definition Shutdown (w : World) : option World :=
  if shutdown (db w) then None else Some (set_db (set_shutdown true (db w)) w).

(** ** Await

    An Await call has two parts. Under the lock it makes its two channels,
    appends its query and runs the resolver ([register]); then, the lock
    released, it waits in a [select] ([AwaitReturn]). Other calls may run
    in between. The call is named by the address of its channels. *)

(** [cancel := make(chan struct{}); response := make(chan T, 1)]: both at
    the next address, each in the heap of its type. *)
Definition make_chans {V} (heap : gmap chan (buffered V)) (w : World)
  : chan * gmap chan (buffered V) * World :=
  (nextChan w, <[nextChan w := mkChan [] 0]> heap, set_nextChan (S (nextChan w)) w).

Definition AwaitProposal_register (slot : uint64) (w : World) : option (World * chan) :=
  let '(id, heap, w1) := make_chans (proResp w) w in
  let w2 := set_proResp heap w1 in
  let w3 := set_db (set_proQueries (proQueries (db w2) ++ [mkQuery slot id id]) (db w2)) w2 in
  match resolveProQueriesUnsafe w3 with
  | Some w4 => Some (w4, id)
  | None => None
  end.

Definition AwaitAttestation_register (slot commIdx : uint64) (w : World)
  : option (World * chan) :=
  let '(id, heap, w1) := make_chans (attResp w) w in
  let w2 := set_attResp heap w1 in
  let w3 := set_db (set_attQueries
                      (attQueries (db w2) ++ [mkQuery (attKey.mk slot commIdx) id id])
                      (db w2)) w2 in
  match resolveAttQueriesUnsafe w3 with
  | Some w4 => Some (w4, id)
  | None => None
  end.

Definition AwaitAggAttestation_register (slot : uint64) (attestationRoot : Root) (w : World)
  : option (World * chan) :=
  let '(id, heap, w1) := make_chans (aggResp w) w in
  let w2 := set_aggResp heap w1 in
  let w3 := set_db (set_aggQueries
                      (aggQueries (db w2) ++ [mkQuery (aggKey.mk slot attestationRoot) id id])
                      (db w2)) w2 in
  match resolveAggQueriesUnsafe w3 with
  | Some w4 => Some (w4, id)
  | None => None
  end.

Definition AwaitSyncContribution_register (slot subcommIdx : uint64) (beaconBlockRoot : Root)
    (w : World) : option (World * chan) :=
  let '(id, heap, w1) := make_chans (contribResp w) w in
  let w2 := set_contribResp heap w1 in
  let w3 := set_db (set_contribQueries
                      (contribQueries (db w2)
                         ++ [mkQuery (contribKey.mk slot subcommIdx beaconBlockRoot) id id])
                      (db w2)) w2 in
  match resolveContribQueriesUnsafe w3 with
  | Some w4 => Some (w4, id)
  | None => None
  end.

(** The cases of the [select] of an Await call that can proceed, in the
    order they are written: shutdown closed, context done, a value in the
    response channel. Go picks any one of them; with none the call
    waits. *)
Definition select_ready {V} (shutdown_closed : bool) (ctxErr : option CtxError)
    (response : list V) : list (res error V) :=
  (if shutdown_closed then [Err ErrShutdown] else [])
  ++ match ctxErr with Some e => [Err (ErrCtx e)] | None => [] end
  ++ match response with v :: _ => [Ok v] | [] => [] end.

(** The value left in a response channel after the chosen case ran. *)
Definition after_select {V} (r : res error V) (c : buffered V) : buffered V :=
  match r with
  | Ok _ => mkChan (tail (buf c)) (sends c)
  | Err _ => c
  end.

(** The [select] of call [id] picks its [pick]-th ready case and the call
    returns, closing its cancel channel ([defer close(cancel)]). [None]
    when the call has already returned, when no case is ready, or when
    [pick] names none. *)
Definition select_return {V} (id : chan) (ctxErr : option CtxError) (pick : nat)
    (heap : gmap chan (buffered V)) (w : World)
  : option (gmap chan (buffered V) * World * res error V) :=
  if cancelled (closed w) id then None
  else match heap !! id with
       | None => None
       | Some c =>
           match select_ready (shutdown (db w)) ctxErr (buf c) !! pick with
           | None => None
           | Some r =>
               Some (<[id := after_select r c]> heap,
                     set_closed ({[id]} ∪ closed w) w, r)
           end
       end.

Definition AwaitProposal_return (id : chan) (ctxErr : option CtxError) (pick : nat)
    (w : World) : option (World * res error VersionedProposal) :=
  match select_return id ctxErr pick (proResp w) w with
  | Some (heap, w1, r) => Some (set_proResp heap w1, r)
  | None => None
  end.

Definition AwaitAttestation_return (id : chan) (ctxErr : option CtxError) (pick : nat)
    (w : World) : option (World * res error p0AttestationData) :=
  match select_return id ctxErr pick (attResp w) w with
  | Some (heap, w1, r) => Some (set_attResp heap w1, r)
  | None => None
  end.

(** [value.Clone()] and the type assertion of AwaitAggAttestation: what the
    call returns for the [value] it received. *)
Definition cloned_aggregate (value : VersionedAggregatedAttestation)
  : res error VersionedAggregatedAttestation :=
  match Clone (ofVersionedAggregatedAttestation value) with
  | Err e => Err (ErrCodec e)
  | Ok clone =>
      match asVersionedAggregatedAttestation clone with
      | None => Err (ErrInvalid "invalid aggregated attestation")
      | Some aggAtt => Ok aggAtt
      end
  end.

(** AwaitAggAttestation clones the value before returning it. *)
Definition AwaitAggAttestation_return (id : chan) (ctxErr : option CtxError) (pick : nat)
    (w : World) : option (World * res error VersionedAggregatedAttestation) :=
  match select_return id ctxErr pick (aggResp w) w with
  | Some (heap, w1, r) =>
      Some (set_aggResp heap w1,
            match r with
            | Err e => Err e
            | Ok value => cloned_aggregate value
            end)
  | None => None
  end.

Definition AwaitSyncContribution_return (id : chan) (ctxErr : option CtxError) (pick : nat)
    (w : World) : option (World * res error SyncCommitteeContribution) :=
  match select_return id ctxErr pick (contribResp w) w with
  | Some (heap, w1, r) => Some (set_contribResp heap w1, r)
  | None => None
  end.

(** ** Runs of the database *)

(** The calls of the package, as the steps of a run. *)
Inductive Op :=
| OpStore (addOk : bool) (expired : list Duty.t) (duty : Duty.t)
          (unsignedSet : list (PubKey * UnsignedData))
| OpAwaitProposal (slot : uint64)
| OpAwaitAttestation (slot commIdx : uint64)
| OpAwaitAggAttestation (slot : uint64) (attestationRoot : Root)
| OpAwaitSyncContribution (slot subcommIdx : uint64) (beaconBlockRoot : Root)
| OpReturnProposal (id : chan) (ctxErr : option CtxError) (pick : nat)
| OpReturnAttestation (id : chan) (ctxErr : option CtxError) (pick : nat)
| OpReturnAggAttestation (id : chan) (ctxErr : option CtxError) (pick : nat)
| OpReturnSyncContribution (id : chan) (ctxErr : option CtxError) (pick : nat)
| OpShutdown.

Definition exec (op : Op) (w : World) : option World :=
  match op with
  | OpStore addOk expired duty unsignedSet =>
      fst <$> Store addOk expired duty unsignedSet w
  | OpAwaitProposal slot => fst <$> AwaitProposal_register slot w
  | OpAwaitAttestation slot commIdx => fst <$> AwaitAttestation_register slot commIdx w
  | OpAwaitAggAttestation slot root => fst <$> AwaitAggAttestation_register slot root w
  | OpAwaitSyncContribution slot subcommIdx root =>
      fst <$> AwaitSyncContribution_register slot subcommIdx root w
  | OpReturnProposal id ctxErr pick => fst <$> AwaitProposal_return id ctxErr pick w
  | OpReturnAttestation id ctxErr pick => fst <$> AwaitAttestation_return id ctxErr pick w
  | OpReturnAggAttestation id ctxErr pick =>
      fst <$> AwaitAggAttestation_return id ctxErr pick w
  | OpReturnSyncContribution id ctxErr pick =>
      fst <$> AwaitSyncContribution_return id ctxErr pick w
  | OpShutdown => Shutdown w
  end.

Fixpoint run (ops : list Op) (w : World) : option World :=
  match ops with
  | [] => Some w
  | op :: rest =>
      match exec op w with
      | Some w' => run rest w'
      | None => None
      end
  end.

(** The worlds a new database can be in. *)
Definition reachable (w : World) : Prop := exists ops, run ops NewWorld = Some w.

(** ** Frames *)

(** [d'] has the maps of [d]. *)
Definition same_maps (d d' : MemDB) : Prop :=
  attDuties d' = attDuties d /\ attPubKeys d' = attPubKeys d
  /\ attKeysBySlot d' = attKeysBySlot d
  /\ proDuties d' = proDuties d
  /\ aggDuties d' = aggDuties d /\ aggKeysBySlot d' = aggKeysBySlot d
  /\ contribDuties d' = contribDuties d /\ contribKeysBySlot d' = contribKeysBySlot d.

(** [d'] has the query lists and the shutdown flag of [d]. *)
Definition same_waiters (d d' : MemDB) : Prop :=
  attQueries d' = attQueries d /\ proQueries d' = proQueries d
  /\ aggQueries d' = aggQueries d /\ contribQueries d' = contribQueries d
  /\ shutdown d' = shutdown d.

(** The maps of one duty type are the same in [d] and [d']. *)
Definition same_attester (d d' : MemDB) : Prop :=
  attDuties d' = attDuties d /\ attPubKeys d' = attPubKeys d
  /\ attKeysBySlot d' = attKeysBySlot d.
Definition same_proposer (d d' : MemDB) : Prop := proDuties d' = proDuties d.
Definition same_aggregator (d d' : MemDB) : Prop :=
  aggDuties d' = aggDuties d /\ aggKeysBySlot d' = aggKeysBySlot d.
Definition same_contrib (d d' : MemDB) : Prop :=
  contribDuties d' = contribDuties d /\ contribKeysBySlot d' = contribKeysBySlot d.

(** [m] keeps [P], whatever it returns. *)
Definition preserves {A} (P : MemDB -> Prop) (m : DB A) : Prop :=
  forall d d' r, P d -> m d = (d', r) -> P d'.

(** [P] reads the maps only. *)
Definition maps_only (P : MemDB -> Prop) : Prop :=
  forall d d', same_maps d d' -> P d -> P d'.

(** ** The attester maps *)

(** Every attester entry of [d] is in [d'], with the same value. *)
Definition att_extends (d d' : MemDB) : Prop :=
  (forall k pk, attPubKeys d !! k = Some pk -> attPubKeys d' !! k = Some pk)
  /\ (forall a data, attDuties d !! a = Some data -> attDuties d' !! a = Some data).

(** The attestation of [attData] and the public key are recorded under
    the committee index of the duty and under committee index 0. *)
Definition att_duplicated (pubkey : PubKey) (attData : AttestationData p0AttestationData)
    (d : MemDB) (a_c a_0 : p0AttestationData) : Prop :=
  let slot := att_Slot (Data attData) in
  let commIdx := AttesterDuty.CommitteeIndex (Duty_ attData) in
  let valIdx := AttesterDuty.ValidatorIndex (Duty_ attData) in
  attDuties d !! attKey.mk slot commIdx = Some a_c
  /\ attDuties d !! attKey.mk slot 0 = Some a_0
  /\ att_String a_c = att_String (Data attData)
  /\ att_String a_0 = att_String (Data attData)
  /\ ((forall x y, att_String x = att_String y -> x = y) ->
      a_c = Data attData /\ a_0 = Data attData)
  /\ attPubKeys d !! pkKey.mk slot commIdx valIdx = Some pubkey
  /\ attPubKeys d !! pkKey.mk slot 0 valIdx = Some pubkey
  /\ PubKeyByAttestation slot commIdx valIdx d = Ok pubkey
  /\ PubKeyByAttestation slot 0 valIdx d = Ok pubkey.

(** AwaitAttestation called in [w] is sent [value] while it registers,
    and returns it when the database runs and the context is live. *)
Definition await_attestation_yields (slot commIdx : uint64) (value : p0AttestationData)
    (w : World) : Prop :=
  exists w1,
    AwaitAttestation_register slot commIdx w = Some (w1, nextChan w)
    /\ attResp w1 !! nextChan w = Some (mkChan [value] 1)
    /\ (shutdown (db w) = false ->
        (exists w2, AwaitAttestation_return (nextChan w) None 0 w1 = Some (w2, Ok value))
        /\ forall pick w2 r,
             AwaitAttestation_return (nextChan w) None pick w1 = Some (w2, r) ->
             r = Ok value).

(** ** Awaiting a proposal, and shutdown *)

(** AwaitProposal called in [w] is sent [value] while it registers, and
    returns it when the database runs and the context is live. *)
Definition await_proposal_yields (slot : uint64) (value : VersionedProposal) (w : World)
  : Prop :=
  exists w1,
    AwaitProposal_register slot w = Some (w1, nextChan w)
    /\ proResp w1 !! nextChan w = Some (mkChan [value] 1)
    /\ (shutdown (db w) = false ->
        (exists w2, AwaitProposal_return (nextChan w) None 0 w1 = Some (w2, Ok value))
        /\ forall pick w2 r,
             AwaitProposal_return (nextChan w) None pick w1 = Some (w2, r) ->
             r = Ok value).

(** The shutdown claim as the specification states it, for the proposal
    calls of [w] with a live context: once the database is shut down, an
    Await returns a shutdown error, whatever its channel holds. *)
Definition awaits_fail_after_shutdown (w : World) : Prop :=
  shutdown (db w) = true ->
  forall id pick w' r,
    AwaitProposal_return id None pick w = Some (w', r) -> r = Err ErrShutdown.

(** Every Await call of [w] with a live context whose channel is empty
    returns a shutdown error, whichever ready case its select takes. *)
Definition empty_awaits_fail (w : World) : Prop :=
  (forall id pick w' r,
     AwaitProposal_return id None pick w = Some (w', r) ->
     (forall c, proResp w !! id = Some c -> buf c = []) -> r = Err ErrShutdown)
  /\ (forall id pick w' r,
        AwaitAttestation_return id None pick w = Some (w', r) ->
        (forall c, attResp w !! id = Some c -> buf c = []) -> r = Err ErrShutdown)
  /\ (forall id pick w' r,
        AwaitAggAttestation_return id None pick w = Some (w', r) ->
        (forall c, aggResp w !! id = Some c -> buf c = []) -> r = Err ErrShutdown)
  /\ (forall id pick w' r,
        AwaitSyncContribution_return id None pick w = Some (w', r) ->
        (forall c, contribResp w !! id = Some c -> buf c = []) -> r = Err ErrShutdown).

(** The channel of every queued query is empty: the calls that wait. *)
Definition queued_are_empty (w : World) : Prop :=
  (forall q c, q ∈ proQueries (db w) -> proResp w !! Response q = Some c -> buf c = [])
  /\ (forall q c, q ∈ attQueries (db w) -> attResp w !! Response q = Some c -> buf c = [])
  /\ (forall q c, q ∈ aggQueries (db w) -> aggResp w !! Response q = Some c -> buf c = [])
  /\ (forall q c, q ∈ contribQueries (db w) ->
                  contribResp w !! Response q = Some c -> buf c = []).

(** What the [select] of call [id] can return in [w]: a shutdown error,
    the error of a done context, or the value at the head of its channel. *)
Definition select_outcome {V} (id : chan) (ctxErr : option CtxError)
    (heap : gmap chan (buffered V)) (r : res error V) : Prop :=
  r = Err ErrShutdown
  \/ (exists e, ctxErr = Some e /\ r = Err (ErrCtx e))
  \/ (exists c value, heap !! id = Some c /\ head (buf c) = Some value /\ r = Ok value).

(** Between [d] and [d'] the record of [slot] grew by the pubkey keys
    that were inserted, each once, and no other record changed. *)
Definition appended_once (slot : uint64) (d d' : MemDB) : Prop :=
  exists added,
    default [] (attKeysBySlot d' !! slot) = default [] (attKeysBySlot d !! slot) ++ added
    /\ (forall t, t ≠ slot -> attKeysBySlot d' !! t = attKeysBySlot d !! t)
    /\ NoDup added
    /\ (forall k, k ∈ added <-> attPubKeys d !! k = None /\ is_Some (attPubKeys d' !! k))
    /\ (forall k, is_Some (attPubKeys d !! k) -> is_Some (attPubKeys d' !! k)).

(** No map of [d'] has a key that the map of [d] lacks. *)
Definition shrinks (d d' : MemDB) : Prop :=
  (forall k, attDuties d !! k = None -> attDuties d' !! k = None)
  /\ (forall k, attPubKeys d !! k = None -> attPubKeys d' !! k = None)
  /\ (forall k, attKeysBySlot d !! k = None -> attKeysBySlot d' !! k = None)
  /\ (forall k, proDuties d !! k = None -> proDuties d' !! k = None)
  /\ (forall k, aggDuties d !! k = None -> aggDuties d' !! k = None)
  /\ (forall k, aggKeysBySlot d !! k = None -> aggKeysBySlot d' !! k = None)
  /\ (forall k, contribDuties d !! k = None -> contribDuties d' !! k = None)
  /\ (forall k, contribKeysBySlot d !! k = None -> contribKeysBySlot d' !! k = None).

(** ** Invariants of the runs *)

(** The waiters of one duty type: every queued query has a response
    channel of its own that nothing was sent on yet; every response
    channel was made by [make_chans], holds what was sent and not yet
    received, and was sent on at most once. *)
Definition waiters_ok {K V} (queries : list (query K)) (heap : gmap chan (buffered V))
    (next : chan) : Prop :=
  NoDup (Response <$> queries)
  /\ (forall q, q ∈ queries -> heap !! Response q = Some (mkChan [] 0))
  /\ (forall id c, heap !! id = Some c ->
        id < next /\ length (buf c) <= sends c /\ sends c <= 1).

Definition chan_inv (w : World) : Prop :=
  waiters_ok (attQueries (db w)) (attResp w) (nextChan w)
  /\ waiters_ok (proQueries (db w)) (proResp w) (nextChan w)
  /\ waiters_ok (aggQueries (db w)) (aggResp w) (nextChan w)
  /\ waiters_ok (contribQueries (db w)) (contribResp w) (nextChan w)
  /\ (forall id, id ∈ closed w -> id < nextChan w).

(** A query stays queued by a resolver pass: not cancelled, key absent. *)
Definition stays_queued {K} `{Countable K} {V} (duties : gmap K V) (closed : gset chan)
    (q : query K) : bool :=
  negb (cancelled closed (Cancel q)) && bool_decide (duties !! Key q = None).

(** What one resolver pass does to the queue and to the channels. *)
Definition pass_spec {K} `{Countable K} {V} (duties : gmap K V) (closed : gset chan)
    (queries : list (query K)) (heap : gmap chan (buffered V)) : Prop :=
  exists heap',
    resolveQueries duties closed queries heap
      = Some (filter (fun q => stays_queued duties closed q = true) queries, heap')
    /\ (forall q, q ∈ queries ->
          if cancelled closed (Cancel q) then heap' !! Response q = heap !! Response q
          else match duties !! Key q with
               | Some value =>
                   heap !! Response q = Some (mkChan [] 0)
                   /\ heap' !! Response q = Some (mkChan [value] 1)
               | None => heap' !! Response q = heap !! Response q
               end)
    /\ (forall id, id ∉ Response <$> queries -> heap' !! id = heap !! id).



(** Every aggregate is stored under the slot and hash root of its own
    attestation data, and is listed in the record of its slot. *)
Definition agg_inv (d : MemDB) : Prop :=
  (forall k v, aggDuties d !! k = Some v ->
     exists data, agg_Data v = Ok data
                  /\ att_HashTreeRoot data = Ok (aggKey.Root_ k)
                  /\ att_Slot data = aggKey.Slot k)
  /\ (forall k, is_Some (aggDuties d !! k) ->
        k ∈ default [] (aggKeysBySlot d !! aggKey.Slot k)).

(** Every contribution is listed in the record of its slot. *)
Definition contrib_inv (d : MemDB) : Prop :=
  forall k, is_Some (contribDuties d !! k) ->
            k ∈ default [] (contribKeysBySlot d !! contribKey.Slot k).

(** The attester index when every payload stored so far had the slot of
    its duty: a record lists live pubkey keys of its own slot, once each;
    every pubkey key is listed; every attestation has a listed pubkey key
    with its slot and committee index. *)
Definition att_inv (d : MemDB) : Prop :=
  (forall t k, k ∈ default [] (attKeysBySlot d !! t) ->
               pkKey.Slot k = t /\ is_Some (attPubKeys d !! k))
  /\ (forall t, NoDup (default [] (attKeysBySlot d !! t)))
  /\ (forall k, is_Some (attPubKeys d !! k) ->
                k ∈ default [] (attKeysBySlot d !! pkKey.Slot k))
  /\ (forall a, is_Some (attDuties d !! a) ->
                exists v, is_Some (attPubKeys d !! pkKey.mk (attKey.Slot a) (attKey.CommIdx a) v)).

(** The attestation payloads of a store carry the slot of their duty. *)
Definition slots_agree (op : Op) : Prop :=
  match op with
  | OpStore _ _ duty unsignedSet =>
      Duty.Type_ duty = DutyAttester ->
      forall p cloned attData,
        p ∈ unsignedSet -> Clone p.2 = Ok cloned ->
        asAttestationData cloned = Some attData ->
        att_Slot (Data attData) = AttesterDuty.Slot (Duty_ attData)
  | _ => True
  end.

(** The store deletes the proposal of [slot]. *)
Definition evicts_proposal (slot : uint64) (op : Op) : Prop :=
  match op with
  | OpStore _ expired _ _ => Duty.mk slot DutyProposer ∈ expired
  | _ => False
  end.


(** No payload, pubkey or slot record of the duty's slot and type is left. *)
Definition no_entries_for (duty : Duty.t) (d : MemDB) : Prop :=
  match Duty.Type_ duty with
  | DutyProposer => proDuties d !! Duty.Slot duty = None
  | DutyAttester =>
      (forall k, attKey.Slot k = Duty.Slot duty -> attDuties d !! k = None)
      /\ (forall k, pkKey.Slot k = Duty.Slot duty -> attPubKeys d !! k = None)
      /\ attKeysBySlot d !! Duty.Slot duty = None
  | DutyAggregator =>
      (forall k, aggKey.Slot k = Duty.Slot duty -> aggDuties d !! k = None)
      /\ aggKeysBySlot d !! Duty.Slot duty = None
  | DutySyncContribution =>
      (forall k, contribKey.Slot k = Duty.Slot duty -> contribDuties d !! k = None)
      /\ contribKeysBySlot d !! Duty.Slot duty = None
  | _ => True
  end.

(** An Await call for the duty's slot and type, registered in [w], is left
    waiting: its query stays queued and nothing is sent to it. *)
Definition no_await_succeeds (duty : Duty.t) (w : World) : Prop :=
  match Duty.Type_ duty with
  | DutyProposer =>
      exists w' id, AwaitProposal_register (Duty.Slot duty) w = Some (w', id)
                    /\ mkQuery (Duty.Slot duty) id id ∈ proQueries (db w')
                    /\ proResp w' !! id = Some (mkChan [] 0)
  | DutyAttester =>
      forall commIdx,
      exists w' id, AwaitAttestation_register (Duty.Slot duty) commIdx w = Some (w', id)
                    /\ mkQuery (attKey.mk (Duty.Slot duty) commIdx) id id ∈ attQueries (db w')
                    /\ attResp w' !! id = Some (mkChan [] 0)
  | DutyAggregator =>
      forall root,
      exists w' id, AwaitAggAttestation_register (Duty.Slot duty) root w = Some (w', id)
                    /\ mkQuery (aggKey.mk (Duty.Slot duty) root) id id ∈ aggQueries (db w')
                    /\ aggResp w' !! id = Some (mkChan [] 0)
  | DutySyncContribution =>
      forall subcommIdx root,
      exists w' id,
        AwaitSyncContribution_register (Duty.Slot duty) subcommIdx root w = Some (w', id)
        /\ mkQuery (contribKey.mk (Duty.Slot duty) subcommIdx root) id id
             ∈ contribQueries (db w')
        /\ contribResp w' !! id = Some (mkChan [] 0)
  | _ => True
  end.

(** Eviction completeness as the specification states it, for the
    expiration of [duty] processed in [w]. *)
Definition eviction_complete (duty : Duty.t) (w : World) : Prop :=
  forall d', deleteDutyUnsafe duty (db w) = (d', Ok tt) ->
             no_entries_for duty d' /\ no_await_succeeds duty (set_db d' w).

(** ** Errors, frames and invariants of the further properties *)

(** The errors [deleteDutyUnsafe] returns. *)
Definition is_delete_error (e : error) : bool :=
  match e with
  | ErrDeprecatedDutyBuilderProposer | ErrUnknownDutyType => true
  | _ => false
  end.

(** The errors the store function of a duty type returns: a failed clone
    or method, a failed type assertion, or the clash of its map. *)
Definition is_store_error (t : DutyType) (e : error) : bool :=
  match e with
  | ErrCodec _ | ErrInvalid _ => true
  | ErrWrap _ _ => negb (bool_decide (t = DutyAttester))
  | ErrClashingBlocks => bool_decide (t = DutyProposer)
  | ErrClashingPubKey _ | ErrClashingAttData _ => bool_decide (t = DutyAttester)
  | ErrClashingDataRoot _ _ => bool_decide (t = DutyAggregator)
  | ErrClashingSyncContributions => bool_decide (t = DutySyncContribution)
  | _ => false
  end.

(** The duty types [Store] has a store function for. *)
Definition is_stored_type (t : DutyType) : bool :=
  match t with
  | DutyProposer | DutyAttester | DutyAggregator | DutySyncContribution => true
  | _ => false
  end.

(** Where an error of [Store] comes from. *)
Definition error_origin (addOk : bool) (expired : list Duty.t) (duty : Duty.t)
    (unsignedSet : list (PubKey * UnsignedData)) (w w' : World) (e : error) : Prop :=
  match e with
  | ErrExpiredDuty => addOk = false /\ w' = w
  | ErrProposerSetLength n =>
      addOk = true /\ Duty.Type_ duty = DutyProposer
      /\ n = length unsignedSet /\ 1 < n /\ w' = w
  | ErrUnsupportedDutyType =>
      addOk = true /\ (exists code, Duty.Type_ duty = DutyOther code) /\ w' = w
  | ErrDeprecatedDutyBuilderProposer =>
      addOk = true
      /\ ((Duty.Type_ duty = DutyBuilderProposer /\ w' = w)
          \/ (is_stored_type (Duty.Type_ duty) = true
              /\ exists x, x ∈ expired /\ Duty.Type_ x = DutyBuilderProposer))
  | ErrUnknownDutyType =>
      addOk = true /\ is_stored_type (Duty.Type_ duty) = true
      /\ exists x code, x ∈ expired /\ Duty.Type_ x = DutyOther code
  | ErrPubKeyNotFound | ErrShutdown | ErrCtx _ => False
  | _ =>
      addOk = true /\ is_stored_type (Duty.Type_ duty) = true
      /\ is_store_error (Duty.Type_ duty) e = true /\ unsignedSet ≠ []
  end.

(** The channels and the queues of [w'] are those of [w]. *)
Definition same_channels (w w' : World) : Prop :=
  same_waiters (db w) (db w')
  /\ proResp w' = proResp w /\ attResp w' = attResp w
  /\ aggResp w' = aggResp w /\ contribResp w' = contribResp w
  /\ closed w' = closed w /\ nextChan w' = nextChan w.

(** No query of the duty type is queued for a key its map has. *)
Definition none_waits_for_present (t : DutyType) (w : World) : Prop :=
  match t with
  | DutyProposer =>
      forall q, q ∈ proQueries (db w) -> proDuties (db w) !! Key q = None
  | DutyAttester =>
      forall q, q ∈ attQueries (db w) -> attDuties (db w) !! Key q = None
  | DutyAggregator =>
      forall q, q ∈ aggQueries (db w) -> aggDuties (db w) !! Key q = None
  | DutySyncContribution =>
      forall q, q ∈ contribQueries (db w) -> contribDuties (db w) !! Key q = None
  | _ => True
  end.

(** The maps of the duty type are the same in [d] and [d']. *)
Definition same_type (t : DutyType) (d d' : MemDB) : Prop :=
  match t with
  | DutyProposer => same_proposer d d'
  | DutyAttester => same_attester d d'
  | DutyAggregator => same_aggregator d d'
  | DutySyncContribution => same_contrib d d'
  | _ => True
  end.

(** The queue and the response channels of the duty type are the same in
    [w] and [w']. *)
Definition same_waiters_of (t : DutyType) (w w' : World) : Prop :=
  match t with
  | DutyProposer => proQueries (db w') = proQueries (db w) /\ proResp w' = proResp w
  | DutyAttester => attQueries (db w') = attQueries (db w) /\ attResp w' = attResp w
  | DutyAggregator => aggQueries (db w') = aggQueries (db w) /\ aggResp w' = aggResp w
  | DutySyncContribution =>
      contribQueries (db w') = contribQueries (db w) /\ contribResp w' = contribResp w
  | _ => True
  end.

(** [w] with the shutdown channel open ([false]) or closed ([true]). *)
Definition with_shutdown (b : bool) (w : World) : World :=
  set_db (set_shutdown b (db w)) w.

(** [m] does not read the shutdown channel: it does the same with the
    channel in either state. *)
Definition ignores_shutdown {A} (m : DB A) : Prop :=
  forall b d, m (set_shutdown b d) = (set_shutdown b (m d).1, (m d).2).

(** The record of a slot lists keys of that slot only, for the aggregates
    and for the contributions. *)
Definition listed_inv (d : MemDB) : Prop :=
  (forall t k, k ∈ default [] (aggKeysBySlot d !! t) -> aggKey.Slot k = t)
  /\ (forall t k, k ∈ default [] (contribKeysBySlot d !! t) -> contribKey.Slot k = t).

(** Deleting [duty] left the entries of the other slots of its type. *)
Definition spares_other_slots (duty : Duty.t) (d d' : MemDB) : Prop :=
  match Duty.Type_ duty with
  | DutyProposer =>
      forall s, s ≠ Duty.Slot duty -> proDuties d' !! s = proDuties d !! s
  | DutyAttester =>
      (forall k, attKey.Slot k ≠ Duty.Slot duty -> attDuties d' !! k = attDuties d !! k)
      /\ (forall k, pkKey.Slot k ≠ Duty.Slot duty -> attPubKeys d' !! k = attPubKeys d !! k)
      /\ (forall s, s ≠ Duty.Slot duty -> attKeysBySlot d' !! s = attKeysBySlot d !! s)
  | DutyAggregator =>
      (forall k, aggKey.Slot k ≠ Duty.Slot duty -> aggDuties d' !! k = aggDuties d !! k)
      /\ (forall s, s ≠ Duty.Slot duty -> aggKeysBySlot d' !! s = aggKeysBySlot d !! s)
  | DutySyncContribution =>
      (forall k, contribKey.Slot k ≠ Duty.Slot duty ->
                 contribDuties d' !! k = contribDuties d !! k)
      /\ (forall s, s ≠ Duty.Slot duty ->
                    contribKeysBySlot d' !! s = contribKeysBySlot d !! s)
  | _ => True
  end.

(** [stored] is the contribution of a payload of the set. *)
Definition contribution_of_set (unsignedSet : list (PubKey * UnsignedData))
    (stored : SyncCommitteeContribution) : Prop :=
  exists p cloned, p ∈ unsignedSet /\ Clone p.2 = Ok cloned
                   /\ asSyncContribution cloned = Some stored.

(** AwaitSyncContribution called in [w] is sent [value] while it
    registers, and returns it when the database runs and the context is
    live. *)
Definition await_contribution_yields (key : contribKey.t)
    (value : SyncCommitteeContribution) (w : World) : Prop :=
  exists w1,
    AwaitSyncContribution_register (contribKey.Slot key) (contribKey.SubcommIdx key)
                                   (contribKey.Root_ key) w = Some (w1, nextChan w)
    /\ contribResp w1 !! nextChan w = Some (mkChan [value] 1)
    /\ (shutdown (db w) = false ->
        (exists w2, AwaitSyncContribution_return (nextChan w) None 0 w1
                    = Some (w2, Ok value))
        /\ forall pick w2 r,
             AwaitSyncContribution_return (nextChan w) None pick w1 = Some (w2, r) ->
             r = Ok value).

(** Call [id] is left waiting in [w1]: with a live context its select has
    no case to take; once its context is done the call returns the
    context's error, and nothing else. [ret] is the select of its Await
    function. *)
Definition waits {V} (ret : chan -> option CtxError -> nat -> World
                            -> option (World * res error V))
    (id : chan) (w1 : World) : Prop :=
  (forall pick, ret id None pick w1 = None)
  /\ forall e,
       (exists w2, ret id (Some e) 0 w1 = Some (w2, Err (ErrCtx e)))
       /\ forall pick w2 r, ret id (Some e) pick w1 = Some (w2, r) -> r = Err (ErrCtx e).

(** Every queued query holds the two channels of one call. *)
Definition paired (w : World) : Prop :=
  (forall q, q ∈ proQueries (db w) -> Cancel q = Response q)
  /\ (forall q, q ∈ attQueries (db w) -> Cancel q = Response q)
  /\ (forall q, q ∈ aggQueries (db w) -> Cancel q = Response q)
  /\ (forall q, q ∈ contribQueries (db w) -> Cancel q = Response q).

(** Call [id] has returned in [w], and its channels are in [w'] as they
    are in [w]. *)
Definition left_alone (id : chan) (w w' : World) : Prop :=
  id ∈ closed w'
  /\ proResp w' !! id = proResp w !! id /\ attResp w' !! id = attResp w !! id
  /\ aggResp w' !! id = aggResp w !! id /\ contribResp w' !! id = contribResp w !! id.

(** A store of the payload [cloned] for the slot and type of [duty], in
    [d], succeeds and leaves the payload itself under its keys. *)
Definition accepts_fresh (duty : Duty.t) (pubkey : PubKey) (ud cloned : UnsignedData)
    (d : MemDB) : Prop :=
  match Duty.Type_ duty with
  | DutyProposer =>
      forall proposal,
        asVersionedProposal cloned = Some proposal ->
        pro_Slot proposal = Ok (Duty.Slot duty) ->
        exists d', storeProposalUnsafe ud d = (d', Ok tt)
                   /\ proDuties d' !! Duty.Slot duty = Some proposal
  | DutyAttester =>
      forall attData,
        asAttestationData cloned = Some attData ->
        att_Slot (Data attData) = Duty.Slot duty ->
        exists d', storeAttestationUnsafe pubkey ud d = (d', Ok tt)
                   /\ att_duplicated pubkey attData d' (Data attData) (Data attData)
  | DutyAggregator =>
      forall aggAtt data root,
        asVersionedAggregatedAttestation cloned = Some aggAtt ->
        agg_Data aggAtt = Ok data -> att_HashTreeRoot data = Ok root ->
        att_Slot data = Duty.Slot duty ->
        exists d', storeAggAttestationUnsafe ud d = (d', Ok tt)
                   /\ aggDuties d' !! aggKey.mk (Duty.Slot duty) root = Some aggAtt
  | DutySyncContribution =>
      forall contrib root,
        asSyncContribution cloned = Some contrib ->
        contrib_HashTreeRoot contrib = Ok root ->
        contrib_Slot contrib = Duty.Slot duty ->
        exists d', storeSyncContributionUnsafe ud d = (d', Ok tt)
                   /\ contribDuties d' !! contribKey.mk (Duty.Slot duty)
                                          (contrib_SubcommitteeIndex contrib)
                                          (contrib_BeaconBlockRoot contrib)
                      = Some contrib
  | _ => True
  end.

(** Every entry is stored under the key its own fields give: a proposal
    under its slot, an attestation under the slot of its data, a
    contribution under its slot, subcommittee index and beacon block
    root, an aggregate under the slot and hash root of its data. *)
Definition own_key_inv (d : MemDB) : Prop :=
  (forall s v, proDuties d !! s = Some v -> pro_Slot v = Ok s)
  /\ (forall k v, attDuties d !! k = Some v -> att_Slot v = attKey.Slot k)
  /\ (forall k v, contribDuties d !! k = Some v ->
        k = contribKey.mk (contrib_Slot v) (contrib_SubcommitteeIndex v)
                          (contrib_BeaconBlockRoot v))
  /\ (forall k v, aggDuties d !! k = Some v ->
        exists data, agg_Data v = Ok data
                     /\ att_HashTreeRoot data = Ok (aggKey.Root_ k)
                     /\ att_Slot data = aggKey.Slot k).

(** The store processes no expiration of a duty of type [t]. *)
Definition expires_no (t : DutyType) (op : Op) : Prop :=
  match op with
  | OpStore _ expired _ _ => Forall (fun x => Duty.Type_ x ≠ t) expired
  | _ => True
  end.

(** Every entry of type [t] of [d] is in [d'] with the same value; for an
    aggregate, with the same key. *)
Definition keeps_entries (t : DutyType) (d d' : MemDB) : Prop :=
  match t with
  | DutyProposer => forall k v, proDuties d !! k = Some v -> proDuties d' !! k = Some v
  | DutyAttester => att_extends d d'
  | DutyAggregator => forall k, is_Some (aggDuties d !! k) -> is_Some (aggDuties d' !! k)
  | DutySyncContribution =>
      forall k v, contribDuties d !! k = Some v -> contribDuties d' !! k = Some v
  | _ => True
  end.

(** The duty has nothing to delete in [d]: no proposal of its slot for a
    proposer duty, no record of its slot for the three other types. *)
Definition nothing_to_delete (duty : Duty.t) (d : MemDB) : Prop :=
  match Duty.Type_ duty with
  | DutyProposer => proDuties d !! Duty.Slot duty = None
  | DutyAttester => attKeysBySlot d !! Duty.Slot duty = None
  | DutyAggregator => aggKeysBySlot d !! Duty.Slot duty = None
  | DutySyncContribution => contribKeysBySlot d !! Duty.Slot duty = None
  | _ => False
  end.





End DutyDB.

(** ** A small codec for examples

    Attestation data is a slot and a body, a proposal a slot and a root,
    an aggregate its attestation data and its aggregation bits, a
    contribution its slot, subcommittee index, block root and bits.
    [Clone] copies; the hashes and the string cover every field. *)
Module Sample.
Inductive unsigned :=
| UAttestation (a : AttestationData (N * N))
| UProposal (p : N * N)
| UAggregate (g : N * N * N)
| UContribution (c : N * N * N * N)
| UOther.

Definition pair_code (d : N * N) : N := (2 ^ d.1 * (2 * d.2 + 1))%N.

#[global] Instance codec : Codec := {|
  CodecError := unit;
  UnsignedData := unsigned;
  p0AttestationData := N * N;
  VersionedProposal := N * N;
  VersionedAggregatedAttestation := N * N * N;
  SyncCommitteeContribution := N * N * N * N;
  Clone u := Ok u;
  asAttestationData u := match u with UAttestation a => Some a | _ => None end;
  asVersionedProposal u := match u with UProposal p => Some p | _ => None end;
  asVersionedAggregatedAttestation u := match u with UAggregate g => Some g | _ => None end;
  asSyncContribution u := match u with UContribution c => Some c | _ => None end;
  ofVersionedAggregatedAttestation g := UAggregate g;
  att_Slot d := d.1;
  att_String d := pretty d.1 +:+ ":" +:+ pretty d.2;
  att_HashTreeRoot d := Ok (pair_code d);
  pro_Slot p := Ok p.1;
  pro_Root p := Ok p.2;
  agg_Data g := Ok g.1;
  contrib_Slot c := c.1.1.1;
  contrib_SubcommitteeIndex c := c.1.1.2;
  contrib_BeaconBlockRoot c := c.1.2;
  contrib_HashTreeRoot c := Ok (pair_code (pair_code (c.1.1.1, c.1.1.2),
                                           pair_code (c.1.2, c.2)))
|}.

(** An attestation payload: data slot and body, then the duty's slot,
    committee index and validator index. *)
Definition attestation (slot body dutySlot commIdx valIdx : N) : unsigned :=
  UAttestation (mkAttestationData (slot, body) (AttesterDuty.mk dutySlot commIdx valIdx)).

(** Databases with one entry. *)
Definition db_proposal : MemDB := set_proDuties {[5%N := (5%N, 204%N)]} NewMemDB.
Definition db_contrib : MemDB :=
  set_contribDuties {[contribKey.mk 11 0 255 := (11%N, 0%N, 255%N, 1%N)]} NewMemDB.
Definition db_attestation : MemDB :=
  set_attDuties {[attKey.mk 42 3 := (42%N, 1%N)]} NewMemDB.
Definition db_pubkey : MemDB :=
  set_attPubKeys {[pkKey.mk 42 0 7 := "other"%string]} NewMemDB.

(** The database after the attestation of slot 42 with body 187, for
    committee 3 and validator 7, is stored in a new one. *)
Definition db_attested : MemDB :=
  (storeAttestationUnsafe "pk7" (attestation 42 187 42 3 7) NewMemDB).1.
End Sample.

(** * Properties *)

Section Properties.
Context `{Codec}.

(** ** Sending and the resolver pass *)

Lemma send_empty {V} (ch : chan) (v : V) (heap : gmap chan (buffered V)) :
  heap !! ch = Some (mkChan [] 0) ->
  send ch v heap = Some (<[ch := mkChan [v] 1]> heap).
Proof. intros Hch. unfold send. rewrite Hch. reflexivity. Qed.

Lemma cancelled_true (closed : gset chan) (c : chan) :
  cancelled closed c = true <-> c ∈ closed.
Proof. unfold cancelled. apply bool_decide_eq_true. Qed.

Lemma cancelled_false (closed : gset chan) (c : chan) :
  cancelled closed c = false <-> c ∉ closed.
Proof. unfold cancelled. apply bool_decide_eq_false. Qed.

Lemma stays_queued_spec {K} `{Countable K} {V} (duties : gmap K V) (closed : gset chan)
    (q : query K) :
  stays_queued duties closed q = true
  <-> cancelled closed (Cancel q) = false /\ duties !! Key q = None.
Proof.
  unfold stays_queued. rewrite andb_true_iff, negb_true_iff, bool_decide_eq_true.
  reflexivity.
Qed.

(** One pass over queries whose channels are distinct and empty. *)
Lemma resolve_pass {K} `{Countable K} {V} (duties : gmap K V) (closed : gset chan)
    (queries : list (query K)) :
  forall heap : gmap chan (buffered V),
    NoDup (Response <$> queries) ->
    (forall q, q ∈ queries -> heap !! Response q = Some (mkChan [] 0)) ->
    pass_spec duties closed queries heap.
Proof.
  induction queries as [|q rest IH]; intros heap Hnd Hemp.
  - exists heap. split; [reflexivity|]. split; [|done].
    intros q Hq. by apply elem_of_nil in Hq.
  - rewrite fmap_cons in Hnd. apply NoDup_cons in Hnd as [Hfresh Hnd].
    assert (Hq : heap !! Response q = Some (mkChan [] 0))
      by (apply Hemp; left).
    assert (Hrest : forall q', q' ∈ rest -> heap !! Response q' = Some (mkChan [] 0))
      by (intros q' Hq'; apply Hemp; by right).
    unfold pass_spec. simpl.
    destruct (cancelled closed (Cancel q)) eqn:Hc; simpl.
    + destruct (IH heap Hnd Hrest) as (heap' & Hres & Hin & Hout).
      exists heap'. rewrite filter_cons_False
        by (rewrite stays_queued_spec; intros [? _]; congruence).
      split; [exact Hres|]. split.
      * intros q' Hq'. apply elem_of_cons in Hq' as [->|Hq'].
        -- rewrite Hc. apply Hout. exact Hfresh.
        -- by apply Hin.
      * intros id Hid. apply Hout. simpl in Hid.
        by apply not_elem_of_cons in Hid as [_ ?].
    + destruct (duties !! Key q) as [value|] eqn:Hk.
      * rewrite (send_empty _ _ _ Hq).
        assert (Hrest' : forall q', q' ∈ rest ->
                  <[Response q := mkChan [value] 1]> heap !! Response q'
                  = Some (mkChan [] 0)).
        { intros q' Hq'. rewrite lookup_insert_ne; [by apply Hrest|].
          intros Heq. apply Hfresh. rewrite Heq.
          by apply list_elem_of_fmap_2. }
        destruct (IH _ Hnd Hrest') as (heap' & Hres & Hin & Hout).
        exists heap'. rewrite filter_cons_False
          by (rewrite stays_queued_spec; intros [_ ?]; congruence).
        split; [exact Hres|]. split.
        -- intros q' Hq'. apply elem_of_cons in Hq' as [->|Hq'].
           ++ rewrite Hc, Hk. split; [exact Hq|].
              rewrite (Hout _ Hfresh). apply lookup_insert_eq.
           ++ assert (Hne : Response q ≠ Response q').
              { intros Heq. apply Hfresh. rewrite Heq. by apply list_elem_of_fmap_2. }
              specialize (Hin q' Hq'). rewrite lookup_insert_ne in Hin by exact Hne.
              exact Hin.
        -- intros id Hid. simpl in Hid.
           apply not_elem_of_cons in Hid as [Hne Hid].
           rewrite (Hout _ Hid). by apply lookup_insert_ne.
      * destruct (IH heap Hnd Hrest) as (heap' & Hres & Hin & Hout).
        exists heap'. rewrite Hres.
        rewrite filter_cons_True by (by apply stays_queued_spec).
        split; [reflexivity|]. split.
        -- intros q' Hq'. apply elem_of_cons in Hq' as [->|Hq'].
           ++ rewrite Hc, Hk. apply Hout. exact Hfresh.
           ++ by apply Hin.
        -- intros id Hid. apply Hout. simpl in Hid.
           by apply not_elem_of_cons in Hid as [_ ?].
Qed.

Lemma waiters_ok_pass {K} `{Countable K} {V} (duties : gmap K V) (closed : gset chan)
    (queries : list (query K)) (heap : gmap chan (buffered V)) (next : chan) :
  waiters_ok queries heap next -> pass_spec duties closed queries heap.
Proof. intros (Hnd & Hemp & _). by apply resolve_pass. Qed.

(** A pass keeps the waiters in order. *)
Lemma resolve_keeps_ok {K} `{Countable K} {V} (duties : gmap K V) (closed : gset chan)
    (queries unresolved : list (query K)) (heap heap' : gmap chan (buffered V))
    (next : chan) :
  waiters_ok queries heap next ->
  resolveQueries duties closed queries heap = Some (unresolved, heap') ->
  waiters_ok unresolved heap' next.
Proof.
  intros Hok Hres.
  destruct (waiters_ok_pass duties closed _ _ _ Hok) as (heap2 & Hres2 & Hin & Hout).
  rewrite Hres in Hres2. injection Hres2 as -> ->.
  destruct Hok as (Hnd & Hemp & Hall).
  split; [|split].
  - eapply sublist_NoDup; [exact Hnd|]. apply fmap_sublist, sublist_filter.
  - intros q Hq. apply list_elem_of_filter in Hq as [Hst Hq].
    apply stays_queued_spec in Hst as [Hc Hk].
    specialize (Hin q Hq). rewrite Hc, Hk in Hin. rewrite Hin. by apply Hemp.
  - intros id c Hid.
    destruct (decide (id ∈ Response <$> queries)) as [Hmem|Hmem].
    + apply list_elem_of_fmap in Hmem as (q & -> & Hq).
      specialize (Hin q Hq). pose proof (Hemp q Hq) as He.
      destruct (Hall _ _ He) as (Hlt & _).
      destruct (cancelled closed (Cancel q)).
      * rewrite Hin in Hid. by apply Hall in Hid.
      * destruct (duties !! Key q).
        -- destruct Hin as [_ Hin]. rewrite Hin in Hid. injection Hid as <-.
           simpl. split; [exact Hlt|lia].
        -- rewrite Hin in Hid. by apply Hall in Hid.
    + rewrite (Hout _ Hmem) in Hid. by apply Hall in Hid.
Qed.

(** ** The store functions, case by case *)

Ltac db_unfold :=
  repeat (progress (unfold bind, ret, fail, get, modify, try, assert_type in *;
                    simpl in * )).

Ltac db_inv H := db_unfold; injection H as <- <-.

Lemma storePubKey_spec (pKey : pkKey.t) (pk : PubKey) (slot : uint64) (d d' : MemDB)
    (r : res error unit) :
  storePubKey pKey pk slot d = (d', r) ->
  (attPubKeys d !! pKey = Some pk /\ d' = d /\ r = Ok tt)
  \/ (exists other, attPubKeys d !! pKey = Some other /\ other ≠ pk
                    /\ d' = d /\ r = Err (ErrClashingPubKey pKey))
  \/ (attPubKeys d !! pKey = None /\ r = Ok tt
      /\ d' = set_attKeysBySlot (append_at slot pKey (attKeysBySlot d))
                (set_attPubKeys (<[pKey := pk]> (attPubKeys d)) d)).
Proof.
  unfold storePubKey. db_unfold.
  destruct (attPubKeys d !! pKey) as [value|] eqn:Hk.
  - destruct (decide (value ≠ pk)) as [Hne|Heq]; simpl; intros Hr; db_inv Hr.
    + right; left. by exists value.
    + left. apply dec_stable in Heq. by subst.
  - intros Hr; db_inv Hr. right; right. done.
Qed.

Lemma storeAttData_spec (aKey : attKey.t) (data : p0AttestationData) (d d' : MemDB)
    (r : res error unit) :
  storeAttData aKey data d = (d', r) ->
  (exists value, attDuties d !! aKey = Some value
                 /\ att_String value = att_String data /\ d' = d /\ r = Ok tt)
  \/ (exists value, attDuties d !! aKey = Some value
                    /\ att_String value ≠ att_String data
                    /\ d' = d /\ r = Err (ErrClashingAttData aKey))
  \/ (attDuties d !! aKey = None /\ r = Ok tt
      /\ d' = set_attDuties (<[aKey := data]> (attDuties d)) d).
Proof.
  unfold storeAttData. db_unfold.
  destruct (attDuties d !! aKey) as [value|] eqn:Hk.
  - destruct (decide (att_String value ≠ att_String data)) as [Hne|Heq];
      simpl; intros Hr; db_inv Hr.
    + right; left. by exists value.
    + left. apply dec_stable in Heq. by exists value.
  - intros Hr; db_inv Hr. right; right. done.
Qed.

Lemma storeAttestationUnsafe_steps (pubkey : PubKey) (ud cloned : UnsignedData)
    (attData : AttestationData p0AttestationData) (d : MemDB) :
  Clone ud = Ok cloned -> asAttestationData cloned = Some attData ->
  storeAttestationUnsafe pubkey ud d = attSteps pubkey attData d.
Proof.
  intros Hc Ha. unfold storeAttestationUnsafe, attSteps.
  unfold bind at 1. unfold try. rewrite Hc. unfold ret at 1.
  unfold bind at 1. unfold assert_type. rewrite Ha. reflexivity.
Qed.

Lemma storeAttestationUnsafe_cases (pubkey : PubKey) (ud : UnsignedData) (d d' : MemDB)
    (r : res error unit) :
  storeAttestationUnsafe pubkey ud d = (d', r) ->
  (d' = d /\ exists e, r = Err e /\ is_ClashingData e = false
                       /\ is_ClashingPubKey e = false)
  \/ (exists cloned attData,
        Clone ud = Ok cloned /\ asAttestationData cloned = Some attData
        /\ attSteps pubkey attData d = (d', r)).
Proof.
  intros Hr. destruct (Clone ud) as [cloned|e] eqn:Hc.
  - destruct (asAttestationData cloned) as [attData|] eqn:Ha.
    + right. exists cloned, attData. split; [done|]. split; [done|].
      by rewrite <- (storeAttestationUnsafe_steps _ _ _ _ _ Hc Ha).
    + left. unfold storeAttestationUnsafe in Hr. db_unfold.
      rewrite Hc in Hr. simpl in Hr. rewrite Ha in Hr. db_inv Hr. eauto.
  - left. unfold storeAttestationUnsafe in Hr. db_unfold.
    rewrite Hc in Hr. db_inv Hr. eauto.
Qed.

Lemma storeProposalUnsafe_spec (ud : UnsignedData) (d d' : MemDB) (r : res error unit) :
  storeProposalUnsafe ud d = (d', r) ->
  d' = d
  \/ (exists cloned proposal slot,
        Clone ud = Ok cloned /\ asVersionedProposal cloned = Some proposal
        /\ pro_Slot proposal = Ok slot /\ proDuties d !! slot = None
        /\ r = Ok tt /\ d' = set_proDuties (<[slot := proposal]> (proDuties d)) d).
Proof.
  unfold storeProposalUnsafe. db_unfold.
  destruct (Clone ud) as [cloned|e]; [|db_unfold; intros Hr; db_inv Hr; by left].
  destruct (asVersionedProposal cloned) as [proposal|] eqn:Ha;
    [|db_unfold; intros Hr; db_inv Hr; by left].
  destruct (pro_Slot proposal) as [slot|e] eqn:Hs; [|db_unfold; intros Hr; db_inv Hr; by left].
  destruct (proDuties d !! slot) as [existing|] eqn:Hk.
  - destruct (pro_Root existing); [|db_unfold; intros Hr; db_inv Hr; by left].
    destruct (pro_Root proposal); [|db_unfold; intros Hr; db_inv Hr; by left].
    destruct (decide _); db_unfold; intros Hr; db_inv Hr; by left.
  - db_unfold; intros Hr; db_inv Hr. right. exists cloned, proposal, slot. done.
Qed.

Lemma storeSyncContributionUnsafe_spec (ud : UnsignedData) (d d' : MemDB)
    (r : res error unit) :
  storeSyncContributionUnsafe ud d = (d', r) ->
  d' = d
  \/ (exists contrib key,
        key = contribKey.mk (contrib_Slot contrib) (contrib_SubcommitteeIndex contrib)
                            (contrib_BeaconBlockRoot contrib)
        /\ contribDuties d !! key = None /\ r = Ok tt
        /\ d' = set_contribKeysBySlot
                  (append_at (contrib_Slot contrib) key (contribKeysBySlot d))
                  (set_contribDuties (<[key := contrib]> (contribDuties d)) d)).
Proof.
  unfold storeSyncContributionUnsafe. db_unfold.
  destruct (Clone ud) as [cloned|e]; [|db_unfold; intros Hr; db_inv Hr; by left].
  destruct (asSyncContribution cloned) as [contrib|]; [|db_unfold; intros Hr; db_inv Hr; by left].
  destruct (contrib_HashTreeRoot contrib) as [root|e]; [|db_unfold; intros Hr; db_inv Hr; by left].
  destruct (contribDuties d !! _) as [existing|] eqn:Hk.
  - destruct (contrib_HashTreeRoot existing); [|db_unfold; intros Hr; db_inv Hr; by left].
    destruct (decide _); db_unfold; intros Hr; db_inv Hr; by left.
  - db_unfold; intros Hr; db_inv Hr. right. eexists contrib, _. done.
Qed.

Lemma storeAggAttestationUnsafe_spec (ud : UnsignedData) (d d' : MemDB)
    (r : res error unit) :
  storeAggAttestationUnsafe ud d = (d', r) ->
  (d' = d /\ (forall a b, r = Err (ErrClashingDataRoot a b) ->
              exists cloned aggAtt data root existing edata,
                Clone ud = Ok cloned
                /\ asVersionedAggregatedAttestation cloned = Some aggAtt
                /\ agg_Data aggAtt = Ok data /\ att_HashTreeRoot data = Ok root
                /\ aggDuties d !! aggKey.mk (att_Slot data) root = Some existing
                /\ agg_Data existing = Ok edata
                /\ att_HashTreeRoot edata = Ok a /\ a ≠ root))
  \/ (exists aggAtt data key,
        agg_Data aggAtt = Ok data
        /\ att_HashTreeRoot data = Ok (aggKey.Root_ key)
        /\ att_Slot data = aggKey.Slot key
        /\ r = Ok tt
        /\ ((is_Some (aggDuties d !! key)
             /\ d' = set_aggDuties (<[key := aggAtt]> (aggDuties d)) d)
            \/ (aggDuties d !! key = None
                /\ d' = set_aggKeysBySlot
                          (append_at (aggKey.Slot key) key (aggKeysBySlot d))
                          (set_aggDuties (<[key := aggAtt]> (aggDuties d)) d)))).
Proof.
  unfold storeAggAttestationUnsafe. db_unfold.
  destruct (Clone ud) as [cloned|e] eqn:Hc;
    [|db_unfold; intros Hr; db_inv Hr; left; by split].
  destruct (asVersionedAggregatedAttestation cloned) as [aggAtt|] eqn:Ha;
    [|db_unfold; intros Hr; db_inv Hr; left; by split].
  destruct (agg_Data aggAtt) as [data|e] eqn:Hd; [|db_unfold; intros Hr; db_inv Hr; left; by split].
  destruct (att_HashTreeRoot data) as [root|e] eqn:Hroot;
    [|db_unfold; intros Hr; db_inv Hr; left; by split].
  destruct (aggDuties d !! _) as [existing|] eqn:Hk.
  - destruct (agg_Data existing) as [edata|e] eqn:Hed;
      [|db_unfold; intros Hr; db_inv Hr; left; by split].
    destruct (att_HashTreeRoot edata) as [eroot|e] eqn:Her;
      [|db_unfold; intros Hr; db_inv Hr; left; by split].
    destruct (decide (eroot ≠ root)) as [Hne|Heq]; db_unfold; intros Hr; db_inv Hr.
    + left. split; [done|]. intros a b [= <- <-].
      exists cloned, aggAtt, data, root, existing, edata. done.
    + right. exists aggAtt, data, (aggKey.mk (att_Slot data) root).
      repeat (split; [done|]). left. split; [by rewrite Hk|done].
  - db_unfold; intros Hr; db_inv Hr. right.
    exists aggAtt, data, (aggKey.mk (att_Slot data) root).
    repeat (split; [done|]). right. done.
Qed.

(** ** Frames: what each function leaves alone *)

Lemma preserves_forEach {A} (P : MemDB -> Prop) (f : A -> DB unit) (xs : list A) :
  (forall x, x ∈ xs -> preserves P (f x)) -> preserves P (forEach f xs).
Proof.
  induction xs as [|x rest IH]; intros Hf d d' r HP Hr.
  - simpl in Hr. db_inv Hr. exact HP.
  - simpl in Hr. unfold bind in Hr.
    destruct (f x d) as [d1 [[]|e]] eqn:Hx.
    + eapply IH; [|eapply Hf; [left|exact HP|exact Hx]|exact Hr].
      intros y Hy. apply Hf. by right.
    + db_inv Hr. eapply Hf; [left|exact HP|exact Hx].
Qed.

Lemma same_waiters_refl (d : MemDB) : same_waiters d d.
Proof. by repeat split. Qed.

Lemma same_maps_refl (d : MemDB) : same_maps d d.
Proof. by repeat split. Qed.

Lemma storePubKey_waiters (d0 : MemDB) pKey pk slot :
  preserves (same_waiters d0) (storePubKey pKey pk slot).
Proof.
  intros d d' r HP Hr.
  apply storePubKey_spec in Hr as [(_ & -> & _)|[(? & _ & _ & -> & _)|(_ & _ & ->)]];
    exact HP.
Qed.

Lemma storeAttData_waiters (d0 : MemDB) aKey data :
  preserves (same_waiters d0) (storeAttData aKey data).
Proof.
  intros d d' r HP Hr.
  apply storeAttData_spec in Hr
    as [(? & _ & _ & -> & _)|[(? & _ & _ & -> & _)|(_ & _ & ->)]]; exact HP.
Qed.

(** A property kept by the two helpers is kept by the four steps. *)
Lemma attSteps_preserves (P : MemDB -> Prop) pubkey attData :
  (forall pKey, preserves P (storePubKey pKey pubkey (AttesterDuty.Slot (Duty_ attData)))) ->
  (forall aKey, preserves P (storeAttData aKey (Data attData))) ->
  preserves P (attSteps pubkey attData).
Proof.
  intros Hpk Hatt d d' r HP Hr. unfold attSteps, bind in Hr.
  destruct (storePubKey _ _ _ d) as [d1 [[]|e1]] eqn:E1;
    [|db_inv Hr; by eapply Hpk].
  assert (P d1) by (by eapply Hpk).
  destruct (storeAttData _ _ d1) as [d2 [[]|e2]] eqn:E2;
    [|db_inv Hr; by eapply Hatt].
  assert (P d2) by (by eapply Hatt).
  destruct (storePubKey _ _ _ d2) as [d3 [[]|e3]] eqn:E3;
    [|db_inv Hr; by eapply Hpk].
  assert (P d3) by (by eapply Hpk).
  by eapply Hatt.
Qed.

Lemma storeAttestationUnsafe_waiters (d0 : MemDB) pubkey ud :
  preserves (same_waiters d0) (storeAttestationUnsafe pubkey ud).
Proof.
  intros d d' r HP Hr.
  apply storeAttestationUnsafe_cases in Hr as [[-> _]|(cloned & attData & _ & _ & Hr)];
    [exact HP|].
  eapply attSteps_preserves; [| |exact HP|exact Hr].
  - intros. apply storePubKey_waiters.
  - intros. apply storeAttData_waiters.
Qed.

Lemma storeProposalUnsafe_waiters (d0 : MemDB) ud :
  preserves (same_waiters d0) (storeProposalUnsafe ud).
Proof.
  intros d d' r HP Hr.
  apply storeProposalUnsafe_spec in Hr
    as [->|(? & ? & ? & _ & _ & _ & _ & _ & ->)]; exact HP.
Qed.

Lemma storeAggAttestationUnsafe_waiters (d0 : MemDB) ud :
  preserves (same_waiters d0) (storeAggAttestationUnsafe ud).
Proof.
  intros d d' r HP Hr.
  apply storeAggAttestationUnsafe_spec in Hr
    as [[-> _]|(? & ? & ? & _ & _ & _ & _ & [[_ ->]|[_ ->]])]; exact HP.
Qed.

Lemma storeSyncContributionUnsafe_waiters (d0 : MemDB) ud :
  preserves (same_waiters d0) (storeSyncContributionUnsafe ud).
Proof.
  intros d d' r HP Hr.
  apply storeSyncContributionUnsafe_spec in Hr
    as [->|(? & ? & _ & _ & _ & ->)]; exact HP.
Qed.

(** The loops of [deleteDutyUnsafe]. *)
Lemma foldl_deleteAttKey (keys : list pkKey.t) :
  forall d : MemDB,
    let d' := foldl deleteAttKey d keys in
    same_waiters d d'
    /\ attKeysBySlot d' = attKeysBySlot d /\ proDuties d' = proDuties d
    /\ aggDuties d' = aggDuties d /\ aggKeysBySlot d' = aggKeysBySlot d
    /\ contribDuties d' = contribDuties d /\ contribKeysBySlot d' = contribKeysBySlot d
    /\ (forall k, attPubKeys d' !! k
                  = if decide (k ∈ keys) then None else attPubKeys d !! k)
    /\ (forall a, attDuties d' !! a
                  = if decide (a ∈ (fun k => attKey.mk (pkKey.Slot k) (pkKey.CommIdx k)) <$> keys)
                    then None else attDuties d !! a).
Proof.
  induction keys as [|key rest IH]; intros d; simpl.
  - repeat split; done.
  - destruct (IH (deleteAttKey d key))
      as ((Ha & Hp & Hg & Hc & Hs) & H1 & H2 & H3 & H4 & H5 & H6 & Hpk & Hatt).
    split; [by repeat split|]. repeat (split; [done|]). split.
    + intros k. rewrite Hpk. simpl.
      destruct (decide (k ∈ rest)) as [Hin|Hin].
      * rewrite decide_True; [done|by right].
      * destruct (decide (k = key)) as [->|Hne].
        -- rewrite decide_True by left. apply lookup_delete_eq.
        -- rewrite decide_False by (by intros [?|?]%elem_of_cons).
           by apply lookup_delete_ne.
    + intros a. rewrite Hatt. simpl.
      set (proj := fun k => attKey.mk (pkKey.Slot k) (pkKey.CommIdx k)).
      destruct (decide (a ∈ proj <$> rest)) as [Hin|Hin].
      * rewrite decide_True; [done|by right].
      * destruct (decide (a = proj key)) as [->|Hne].
        -- rewrite decide_True by left. apply lookup_delete_eq.
        -- rewrite decide_False by (by intros [?|?]%elem_of_cons).
           by apply lookup_delete_ne.
Qed.

Lemma foldl_deleteAgg (keys : list aggKey.t) :
  forall d : MemDB,
    let d' := foldl (fun db key => set_aggDuties (delete key (aggDuties db)) db) d keys in
    same_waiters d d'
    /\ attDuties d' = attDuties d /\ attPubKeys d' = attPubKeys d
    /\ attKeysBySlot d' = attKeysBySlot d /\ proDuties d' = proDuties d
    /\ aggKeysBySlot d' = aggKeysBySlot d
    /\ contribDuties d' = contribDuties d /\ contribKeysBySlot d' = contribKeysBySlot d
    /\ (forall k, aggDuties d' !! k
                  = if decide (k ∈ keys) then None else aggDuties d !! k).
Proof.
  induction keys as [|key rest IH]; intros d; simpl.
  - repeat split; done.
  - destruct (IH (set_aggDuties (delete key (aggDuties d)) d))
      as ((Ha & Hp & Hg & Hc & Hs) & H1 & H2 & H3 & H4 & H5 & H6 & H7 & Hk).
    split; [by repeat split|]. repeat (split; [done|]).
    intros k. rewrite Hk. simpl.
    destruct (decide (k ∈ rest)) as [Hin|Hin].
    + rewrite decide_True; [done|by right].
    + destruct (decide (k = key)) as [->|Hne].
      * rewrite decide_True by left. apply lookup_delete_eq.
      * rewrite decide_False by (by intros [?|?]%elem_of_cons).
        by apply lookup_delete_ne.
Qed.

Lemma foldl_deleteContrib (keys : list contribKey.t) :
  forall d : MemDB,
    let d' := foldl (fun db key => set_contribDuties (delete key (contribDuties db)) db)
                    d keys in
    same_waiters d d'
    /\ attDuties d' = attDuties d /\ attPubKeys d' = attPubKeys d
    /\ attKeysBySlot d' = attKeysBySlot d /\ proDuties d' = proDuties d
    /\ aggDuties d' = aggDuties d /\ aggKeysBySlot d' = aggKeysBySlot d
    /\ contribKeysBySlot d' = contribKeysBySlot d
    /\ (forall k, contribDuties d' !! k
                  = if decide (k ∈ keys) then None else contribDuties d !! k).
Proof.
  induction keys as [|key rest IH]; intros d; simpl.
  - repeat split; done.
  - destruct (IH (set_contribDuties (delete key (contribDuties d)) d))
      as ((Ha & Hp & Hg & Hc & Hs) & H1 & H2 & H3 & H4 & H5 & H6 & H7 & Hk).
    split; [by repeat split|]. repeat (split; [done|]).
    intros k. rewrite Hk. simpl.
    destruct (decide (k ∈ rest)) as [Hin|Hin].
    + rewrite decide_True; [done|by right].
    + destruct (decide (k = key)) as [->|Hne].
      * rewrite decide_True by left. apply lookup_delete_eq.
      * rewrite decide_False by (by intros [?|?]%elem_of_cons).
        by apply lookup_delete_ne.
Qed.

Lemma deleteDutyUnsafe_waiters (d0 : MemDB) duty :
  preserves (same_waiters d0) (deleteDutyUnsafe duty).
Proof.
  intros d d' r HP Hr. unfold deleteDutyUnsafe in Hr.
  destruct (Duty.Type_ duty); db_inv Hr; try exact HP.
  - destruct (foldl_deleteAttKey (default [] (attKeysBySlot d !! Duty.Slot duty)) d)
      as ((? & ? & ? & ? & ?) & _).
    destruct HP as (? & ? & ? & ? & ?). repeat split; simpl; congruence.
  - destruct (foldl_deleteAgg (default [] (aggKeysBySlot d !! Duty.Slot duty)) d)
      as ((? & ? & ? & ? & ?) & _).
    destruct HP as (? & ? & ? & ? & ?). repeat split; simpl; congruence.
  - destruct (foldl_deleteContrib (default [] (contribKeysBySlot d !! Duty.Slot duty)) d)
      as ((? & ? & ? & ? & ?) & _).
    destruct HP as (? & ? & ? & ? & ?). repeat split; simpl; congruence.
Qed.

(** ** Runs keep the waiters in order *)

Lemma run_invariant (Q : Op -> Prop) (P : World -> Prop) :
  (forall op w w', Q op -> P w -> exec op w = Some w' -> P w') ->
  forall ops w w', Forall Q ops -> P w -> run ops w = Some w' -> P w'.
Proof.
  intros Hstep ops. induction ops as [|op rest IH]; intros w w' HQ HP Hrun.
  - simpl in Hrun. by injection Hrun as <-.
  - simpl in Hrun. apply Forall_cons in HQ as [Hop HQ].
    destruct (exec op w) as [w1|] eqn:Hex; [|done].
    eapply IH; [exact HQ| |exact Hrun]. eapply Hstep; eauto.
Qed.

Lemma run_app (ops1 ops2 : list Op) (w : World) :
  run (ops1 ++ ops2) w = match run ops1 w with
                         | Some w1 => run ops2 w1
                         | None => None
                         end.
Proof.
  revert w. induction ops1 as [|op rest IH]; intros w; simpl; [done|].
  destruct (exec op w); [apply IH|done].
Qed.

Lemma reachable_step (op : Op) (w w' : World) :
  reachable w -> exec op w = Some w' -> reachable w'.
Proof.
  intros [ops Hops] Hex. exists (ops ++ [op]).
  rewrite run_app, Hops. simpl. by rewrite Hex.
Qed.

Lemma reachable_run (ops : list Op) (w w' : World) :
  reachable w -> run ops w = Some w' -> reachable w'.
Proof.
  intros [ops0 Hops] Hrun. exists (ops0 ++ ops). by rewrite run_app, Hops.
Qed.

Lemma chan_inv_set_db (d : MemDB) (w : World) :
  same_waiters (db w) d -> chan_inv w -> chan_inv (set_db d w).
Proof.
  intros (Ha & Hp & Hg & Hc & _) (Hatt & Hpro & Hagg & Hcon & Hcl).
  unfold chan_inv. simpl. rewrite Ha, Hp, Hg, Hc. done.
Qed.

Lemma resolveAttQueriesUnsafe_chan_inv (w w' : World) :
  chan_inv w -> resolveAttQueriesUnsafe w = Some w' -> chan_inv w'.
Proof.
  intros (Hatt & Hpro & Hagg & Hcon & Hcl). unfold resolveAttQueriesUnsafe.
  destruct (resolveQueries _ _ _ _) as [[unresolved heap]|] eqn:Hres; [|done].
  intros [= <-]. unfold chan_inv. simpl. split_and!; try done.
  eapply (resolve_keeps_ok _ _ _ _ _ _ _ Hatt Hres).
Qed.

Lemma resolveProQueriesUnsafe_chan_inv (w w' : World) :
  chan_inv w -> resolveProQueriesUnsafe w = Some w' -> chan_inv w'.
Proof.
  intros (Hatt & Hpro & Hagg & Hcon & Hcl). unfold resolveProQueriesUnsafe.
  destruct (resolveQueries _ _ _ _) as [[unresolved heap]|] eqn:Hres; [|done].
  intros [= <-]. unfold chan_inv. simpl. split_and!; try done.
  eapply (resolve_keeps_ok _ _ _ _ _ _ _ Hpro Hres).
Qed.

Lemma resolveAggQueriesUnsafe_chan_inv (w w' : World) :
  chan_inv w -> resolveAggQueriesUnsafe w = Some w' -> chan_inv w'.
Proof.
  intros (Hatt & Hpro & Hagg & Hcon & Hcl). unfold resolveAggQueriesUnsafe.
  destruct (resolveQueries _ _ _ _) as [[unresolved heap]|] eqn:Hres; [|done].
  intros [= <-]. unfold chan_inv. simpl. split_and!; try done.
  eapply (resolve_keeps_ok _ _ _ _ _ _ _ Hagg Hres).
Qed.

Lemma resolveContribQueriesUnsafe_chan_inv (w w' : World) :
  chan_inv w -> resolveContribQueriesUnsafe w = Some w' -> chan_inv w'.
Proof.
  intros (Hatt & Hpro & Hagg & Hcon & Hcl). unfold resolveContribQueriesUnsafe.
  destruct (resolveQueries _ _ _ _) as [[unresolved heap]|] eqn:Hres; [|done].
  intros [= <-]. unfold chan_inv. simpl. split_and!; try done.
  eapply (resolve_keeps_ok _ _ _ _ _ _ _ Hcon Hres).
Qed.

(** The parts of a store that ran. *)
Lemma storeResolveDelete_cases (stores : DB unit) (resolve : World -> option World)
    (expired : list Duty.t) (w w' : World) (r : res error unit) :
  storeResolveDelete stores resolve expired w = Some (w', r) ->
  (exists d1 e, stores (db w) = (d1, Err e) /\ w' = set_db d1 w /\ r = Err e)
  \/ (exists d1 w2 d3,
        stores (db w) = (d1, Ok tt) /\ resolve (set_db d1 w) = Some w2
        /\ forEach deleteDutyUnsafe expired (db w2) = (d3, r) /\ w' = set_db d3 w2).
Proof.
  unfold storeResolveDelete.
  destruct (stores (db w)) as [d1 [[]|e]] eqn:Hst.
  - destruct (resolve (set_db d1 w)) as [w2|] eqn:Hres; [|done].
    destruct (forEach deleteDutyUnsafe expired (db w2)) as [d3 r3] eqn:Hdel.
    intros [= <- <-]. right. by exists d1, w2, d3.
  - intros [= <- <-]. left. by exists d1, e.
Qed.

Lemma storeResolveDelete_chan_inv (stores : DB unit) (resolve : World -> option World)
    (expired : list Duty.t) (w w' : World) (r : res error unit) :
  (forall d0, preserves (same_waiters d0) stores) ->
  (forall w1 w2, chan_inv w1 -> resolve w1 = Some w2 -> chan_inv w2) ->
  chan_inv w ->
  storeResolveDelete stores resolve expired w = Some (w', r) -> chan_inv w'.
Proof.
  intros Hst Hres Hinv Hr.
  apply storeResolveDelete_cases in Hr
    as [(d1 & e & H1 & -> & _)|(d1 & w2 & d3 & H1 & H2 & H3 & ->)].
  - apply chan_inv_set_db; [|done]. eapply Hst; [apply same_waiters_refl|exact H1].
  - apply chan_inv_set_db.
    + eapply (preserves_forEach (same_waiters (db w2))); [|apply same_waiters_refl|exact H3].
      intros. apply deleteDutyUnsafe_waiters.
    + eapply Hres; [|exact H2]. apply chan_inv_set_db; [|done].
      eapply Hst; [apply same_waiters_refl|exact H1].
Qed.

Lemma Store_chan_inv addOk expired duty unsignedSet (w w' : World) (r : res error unit) :
  chan_inv w -> Store addOk expired duty unsignedSet w = Some (w', r) -> chan_inv w'.
Proof.
  intros Hinv. unfold Store. destruct addOk; simpl; [|by intros [= <- <-]].
  destruct (Duty.Type_ duty); try (by intros [= <- <-]).
  - destruct (decide _); [by intros [= <- <-]|].
    apply storeResolveDelete_chan_inv; [|apply resolveProQueriesUnsafe_chan_inv|done].
    intros d0. apply preserves_forEach. intros. apply storeProposalUnsafe_waiters.
  - apply storeResolveDelete_chan_inv; [|apply resolveAttQueriesUnsafe_chan_inv|done].
    intros d0. apply preserves_forEach. intros. apply storeAttestationUnsafe_waiters.
  - apply storeResolveDelete_chan_inv; [|apply resolveAggQueriesUnsafe_chan_inv|done].
    intros d0. apply preserves_forEach. intros. apply storeAggAttestationUnsafe_waiters.
  - apply storeResolveDelete_chan_inv; [|apply resolveContribQueriesUnsafe_chan_inv|done].
    intros d0. apply preserves_forEach. intros. apply storeSyncContributionUnsafe_waiters.
Qed.

(** Registration: a fresh channel, one more query. *)
Lemma waiters_ok_register {K V} (queries : list (query K)) (heap : gmap chan (buffered V))
    (next : chan) (key : K) :
  waiters_ok queries heap next ->
  waiters_ok (queries ++ [mkQuery key next next]) (<[next := mkChan [] 0]> heap) (S next).
Proof.
  intros (Hnd & Hemp & Hall).
  assert (Hfresh : heap !! next = None).
  { destruct (heap !! next) as [c|] eqn:Hc; [|done]. apply Hall in Hc. lia. }
  split; [|split].
  - rewrite fmap_app. apply NoDup_app. split; [done|]. split; [|apply NoDup_singleton].
    intros id Hid Hin. simpl in Hin. apply list_elem_of_singleton in Hin as ->.
    apply list_elem_of_fmap in Hid as (q & Hq & Hin).
    apply Hemp in Hin. rewrite <- Hq in Hin. congruence.
  - intros q [Hq|Hq]%elem_of_app.
    + rewrite lookup_insert_ne; [by apply Hemp|].
      intros Heq. apply Hemp in Hq. rewrite <- Heq in Hq. congruence.
    + apply list_elem_of_singleton in Hq as ->. simpl. apply lookup_insert_eq.
  - intros id c Hid. destruct (decide (next = id)) as [<-|Hne].
    + rewrite lookup_insert_eq in Hid. injection Hid as <-. simpl. lia.
    + rewrite lookup_insert_ne in Hid by done. apply Hall in Hid. lia.
Qed.

Lemma waiters_ok_next {K V} (queries : list (query K)) (heap : gmap chan (buffered V))
    (next : chan) :
  waiters_ok queries heap next -> waiters_ok queries heap (S next).
Proof.
  intros (Hnd & Hemp & Hall). split; [done|]. split; [done|].
  intros id c Hid. apply Hall in Hid. lia.
Qed.

Lemma AwaitProposal_register_chan_inv slot (w w' : World) (id : chan) :
  chan_inv w -> AwaitProposal_register slot w = Some (w', id) -> chan_inv w'.
Proof.
  intros (Hatt & Hpro & Hagg & Hcon & Hcl). unfold AwaitProposal_register. simpl.
  destruct (resolveProQueriesUnsafe _) as [w4|] eqn:Hres; [|done].
  intros [= <- <-]. eapply resolveProQueriesUnsafe_chan_inv; [|exact Hres].
  unfold chan_inv. simpl.
  split_and!; try (by apply waiters_ok_next); try (by apply waiters_ok_register).
  intros i Hi. apply Hcl in Hi. lia.
Qed.

Lemma AwaitAttestation_register_chan_inv slot commIdx (w w' : World) (id : chan) :
  chan_inv w -> AwaitAttestation_register slot commIdx w = Some (w', id) -> chan_inv w'.
Proof.
  intros (Hatt & Hpro & Hagg & Hcon & Hcl). unfold AwaitAttestation_register. simpl.
  destruct (resolveAttQueriesUnsafe _) as [w4|] eqn:Hres; [|done].
  intros [= <- <-]. eapply resolveAttQueriesUnsafe_chan_inv; [|exact Hres].
  unfold chan_inv. simpl.
  split_and!; try (by apply waiters_ok_next); try (by apply waiters_ok_register).
  intros i Hi. apply Hcl in Hi. lia.
Qed.

Lemma AwaitAggAttestation_register_chan_inv slot root (w w' : World) (id : chan) :
  chan_inv w -> AwaitAggAttestation_register slot root w = Some (w', id) -> chan_inv w'.
Proof.
  intros (Hatt & Hpro & Hagg & Hcon & Hcl). unfold AwaitAggAttestation_register. simpl.
  destruct (resolveAggQueriesUnsafe _) as [w4|] eqn:Hres; [|done].
  intros [= <- <-]. eapply resolveAggQueriesUnsafe_chan_inv; [|exact Hres].
  unfold chan_inv. simpl.
  split_and!; try (by apply waiters_ok_next); try (by apply waiters_ok_register).
  intros i Hi. apply Hcl in Hi. lia.
Qed.

Lemma AwaitSyncContribution_register_chan_inv slot subcommIdx root (w w' : World)
    (id : chan) :
  chan_inv w -> AwaitSyncContribution_register slot subcommIdx root w = Some (w', id) ->
  chan_inv w'.
Proof.
  intros (Hatt & Hpro & Hagg & Hcon & Hcl). unfold AwaitSyncContribution_register. simpl.
  destruct (resolveContribQueriesUnsafe _) as [w4|] eqn:Hres; [|done].
  intros [= <- <-]. eapply resolveContribQueriesUnsafe_chan_inv; [|exact Hres].
  unfold chan_inv. simpl.
  split_and!; try (by apply waiters_ok_next); try (by apply waiters_ok_register).
  intros i Hi. apply Hcl in Hi. lia.
Qed.

(** The select of a call. *)
Lemma select_return_cases {V} (id : chan) ctxErr pick (heap heap' : gmap chan (buffered V))
    (w w1 : World) (r : res error V) :
  select_return id ctxErr pick heap w = Some (heap', w1, r) ->
  (id ∉ closed w)
  /\ exists c, heap !! id = Some c
               /\ select_ready (shutdown (db w)) ctxErr (buf c) !! pick = Some r
               /\ heap' = <[id := after_select r c]> heap
               /\ w1 = set_closed ({[id]} ∪ closed w) w.
Proof.
  unfold select_return. destruct (cancelled (closed w) id) eqn:Hc; [done|].
  apply cancelled_false in Hc.
  destruct (heap !! id) as [c|]; [|done].
  destruct ((select_ready _ _ _) !! pick) as [r0|] eqn:Hp; [|done].
  intros [= <- <- <-]. split; [done|]. by exists c.
Qed.

Lemma select_ready_Ok {V} (sd : bool) ctxErr (response : list V) (pick : nat) (v : V) :
  select_ready sd ctxErr response !! pick = Some (Ok v) -> head response = Some v.
Proof.
  unfold select_ready. intros Hp. apply list_elem_of_lookup_2 in Hp.
  apply elem_of_app in Hp as [Hp|Hp].
  { destruct sd; [apply list_elem_of_singleton in Hp; done|by apply elem_of_nil in Hp]. }
  apply elem_of_app in Hp as [Hp|Hp].
  { destruct ctxErr; [apply list_elem_of_singleton in Hp; done|by apply elem_of_nil in Hp]. }
  destruct response as [|v0 rest]; [by apply elem_of_nil in Hp|].
  apply list_elem_of_singleton in Hp. by injection Hp as ->.
Qed.

Lemma waiters_ok_return {K V} (queries : list (query K)) (heap : gmap chan (buffered V))
    (next : chan) (id : chan) (c : buffered V) sd ctxErr pick (r : res error V) :
  waiters_ok queries heap next ->
  heap !! id = Some c ->
  select_ready sd ctxErr (buf c) !! pick = Some r ->
  waiters_ok queries (<[id := after_select r c]> heap) next.
Proof.
  intros (Hnd & Hemp & Hall) Hid Hp. split; [done|]. split.
  - intros q Hq. destruct (decide (id = Response q)) as [->|Hne].
    + rewrite lookup_insert_eq. pose proof (Hemp q Hq) as He.
      rewrite Hid in He. injection He as ->.
      destruct r as [v|e]; [|done]. apply select_ready_Ok in Hp. done.
    + rewrite lookup_insert_ne by done. by apply Hemp.
  - intros id' c' Hc'. destruct (decide (id = id')) as [<-|Hne].
    + rewrite lookup_insert_eq in Hc'. injection Hc' as <-.
      destruct (Hall _ _ Hid) as (? & ? & ?).
      destruct r; simpl; [|done]. split; [done|]. split; [|done].
      destruct (buf c); simpl in *; lia.
    + rewrite lookup_insert_ne in Hc' by done. by apply Hall in Hc'.
Qed.

Lemma closed_ok_return {K V} (queries : list (query K)) (heap : gmap chan (buffered V))
    (next : chan) (id : chan) (c : buffered V) (closed : gset chan) :
  waiters_ok queries heap next -> heap !! id = Some c ->
  (forall i, i ∈ closed -> i < next) ->
  forall i, i ∈ {[id]} ∪ closed -> i < next.
Proof.
  intros (_ & _ & Hall) Hid Hcl i [Hi|Hi]%elem_of_union; [|by apply Hcl].
  apply elem_of_singleton in Hi as ->. by apply Hall in Hid as (? & _).
Qed.

Lemma AwaitProposal_return_chan_inv id ctxErr pick (w w' : World) r :
  chan_inv w -> AwaitProposal_return id ctxErr pick w = Some (w', r) -> chan_inv w'.
Proof.
  intros (Hatt & Hpro & Hagg & Hcon & Hcl). unfold AwaitProposal_return.
  destruct (select_return _ _ _ _ _) as [[[heap w1] r1]|] eqn:Hs; [|done].
  intros [= <- <-].
  apply select_return_cases in Hs as (_ & c & Hid & Hp & -> & ->).
  unfold chan_inv. simpl. split_and!; try done.
  - exact (waiters_ok_return _ _ _ _ _ _ _ _ _ Hpro Hid Hp).
  - exact (closed_ok_return _ _ _ _ _ _ Hpro Hid Hcl).
Qed.

Lemma AwaitAttestation_return_chan_inv id ctxErr pick (w w' : World) r :
  chan_inv w -> AwaitAttestation_return id ctxErr pick w = Some (w', r) -> chan_inv w'.
Proof.
  intros (Hatt & Hpro & Hagg & Hcon & Hcl). unfold AwaitAttestation_return.
  destruct (select_return _ _ _ _ _) as [[[heap w1] r1]|] eqn:Hs; [|done].
  intros [= <- <-].
  apply select_return_cases in Hs as (_ & c & Hid & Hp & -> & ->).
  unfold chan_inv. simpl. split_and!; try done.
  - exact (waiters_ok_return _ _ _ _ _ _ _ _ _ Hatt Hid Hp).
  - exact (closed_ok_return _ _ _ _ _ _ Hatt Hid Hcl).
Qed.

Lemma AwaitAggAttestation_return_chan_inv id ctxErr pick (w w' : World) r :
  chan_inv w -> AwaitAggAttestation_return id ctxErr pick w = Some (w', r) -> chan_inv w'.
Proof.
  intros (Hatt & Hpro & Hagg & Hcon & Hcl). unfold AwaitAggAttestation_return.
  destruct (select_return _ _ _ _ _) as [[[heap w1] r1]|] eqn:Hs; [|done].
  intros [= <- _].
  apply select_return_cases in Hs as (_ & c & Hid & Hp & -> & ->).
  unfold chan_inv. simpl. split_and!; try done.
  - exact (waiters_ok_return _ _ _ _ _ _ _ _ _ Hagg Hid Hp).
  - exact (closed_ok_return _ _ _ _ _ _ Hagg Hid Hcl).
Qed.

Lemma AwaitSyncContribution_return_chan_inv id ctxErr pick (w w' : World) r :
  chan_inv w -> AwaitSyncContribution_return id ctxErr pick w = Some (w', r) ->
  chan_inv w'.
Proof.
  intros (Hatt & Hpro & Hagg & Hcon & Hcl). unfold AwaitSyncContribution_return.
  destruct (select_return _ _ _ _ _) as [[[heap w1] r1]|] eqn:Hs; [|done].
  intros [= <- <-].
  apply select_return_cases in Hs as (_ & c & Hid & Hp & -> & ->).
  unfold chan_inv. simpl. split_and!; try done.
  - exact (waiters_ok_return _ _ _ _ _ _ _ _ _ Hcon Hid Hp).
  - exact (closed_ok_return _ _ _ _ _ _ Hcon Hid Hcl).
Qed.

Lemma exec_chan_inv (op : Op) (w w' : World) :
  chan_inv w -> exec op w = Some w' -> chan_inv w'.
Proof.
  intros Hinv. destruct op; simpl.
  - destruct (Store _ _ _ _ _) as [[w1 r]|] eqn:Hs; [|done]. intros [= <-].
    by eapply Store_chan_inv.
  - destruct (AwaitProposal_register _ _) as [[w1 id]|] eqn:Hs; [|done]. intros [= <-].
    by eapply AwaitProposal_register_chan_inv.
  - destruct (AwaitAttestation_register _ _ _) as [[w1 id]|] eqn:Hs; [|done].
    intros [= <-]. by eapply AwaitAttestation_register_chan_inv.
  - destruct (AwaitAggAttestation_register _ _ _) as [[w1 id]|] eqn:Hs; [|done].
    intros [= <-]. by eapply AwaitAggAttestation_register_chan_inv.
  - destruct (AwaitSyncContribution_register _ _ _ _) as [[w1 id]|] eqn:Hs; [|done].
    intros [= <-]. by eapply AwaitSyncContribution_register_chan_inv.
  - destruct (AwaitProposal_return _ _ _ _) as [[w1 r]|] eqn:Hs; [|done].
    intros [= <-]. by eapply AwaitProposal_return_chan_inv.
  - destruct (AwaitAttestation_return _ _ _ _) as [[w1 r]|] eqn:Hs; [|done].
    intros [= <-]. by eapply AwaitAttestation_return_chan_inv.
  - destruct (AwaitAggAttestation_return _ _ _ _) as [[w1 r]|] eqn:Hs; [|done].
    intros [= <-]. by eapply AwaitAggAttestation_return_chan_inv.
  - destruct (AwaitSyncContribution_return _ _ _ _) as [[w1 r]|] eqn:Hs; [|done].
    intros [= <-]. by eapply AwaitSyncContribution_return_chan_inv.
  - unfold Shutdown. destruct (shutdown (db w)); [done|]. intros [= <-].
    exact Hinv.
Qed.

Lemma waiters_ok_new {K V} (next : chan) : @waiters_ok K V [] ∅ next.
Proof.
  split; [apply NoDup_nil_2|]. split.
  - intros q Hq. by apply elem_of_nil in Hq.
  - intros id c Hc. by rewrite lookup_empty in Hc.
Qed.

Lemma chan_inv_new : chan_inv NewWorld.
Proof.
  unfold chan_inv, NewWorld. simpl.
  split_and!; try apply waiters_ok_new.
  intros id Hid. by apply not_elem_of_empty in Hid.
Qed.

Lemma reachable_chan_inv (w : World) : reachable w -> chan_inv w.
Proof.
  intros [ops Hrun].
  eapply (run_invariant (fun _ => True) chan_inv); [| |apply chan_inv_new|exact Hrun].
  - intros op w1 w2 _. apply exec_chan_inv.
  - by apply Forall_true.
Qed.

(** ** Registration: served at once, or left waiting *)

Lemma register_pass {K} `{Countable K} {V} (duties : gmap K V) (closed : gset chan)
    (queries : list (query K)) (heap : gmap chan (buffered V)) (next : chan) (key : K) :
  waiters_ok queries heap next ->
  (forall id, id ∈ closed -> id < next) ->
  exists heap',
    resolveQueries duties closed (queries ++ [mkQuery key next next])
                   (<[next := mkChan [] 0]> heap)
    = Some (filter (fun q => stays_queued duties closed q = true) queries
              ++ match duties !! key with
                 | Some _ => []
                 | None => [mkQuery key next next]
                 end, heap')
    /\ heap' !! next = Some (match duties !! key with
                             | Some value => mkChan [value] 1
                             | None => mkChan [] 0
                             end).
Proof.
  intros Hok Hcl.
  destruct (waiters_ok_pass duties closed _ _ _ (waiters_ok_register _ _ _ key Hok))
    as (heap' & Hres & Hin & _).
  exists heap'. rewrite Hres, filter_app.
  assert (Hopen : cancelled closed next = false).
  { apply cancelled_false. intros Hc. apply Hcl in Hc. lia. }
  specialize (Hin (mkQuery key next next)). simpl in Hin. rewrite Hopen in Hin.
  rewrite lookup_insert_eq in Hin.
  destruct (duties !! key) as [value|] eqn:Hk.
  - rewrite filter_cons_False, filter_nil
      by (rewrite stays_queued_spec; simpl; intros [_ ?]; congruence).
    split; [done|]. apply Hin. apply elem_of_app. right. left.
  - rewrite filter_cons_True, filter_nil by (by apply stays_queued_spec).
    split; [done|]. apply Hin. apply elem_of_app. right. left.
Qed.

Lemma AwaitProposal_register_spec (slot : uint64) (w : World) :
  chan_inv w ->
  exists w',
    AwaitProposal_register slot w = Some (w', nextChan w)
    /\ same_maps (db w) (db w') /\ shutdown (db w') = shutdown (db w)
    /\ closed w' = closed w
    /\ match proDuties (db w) !! slot with
       | Some value =>
           proResp w' !! nextChan w = Some (mkChan [value] 1)
           /\ mkQuery slot (nextChan w) (nextChan w) ∉ proQueries (db w')
       | None =>
           proResp w' !! nextChan w = Some (mkChan [] 0)
           /\ mkQuery slot (nextChan w) (nextChan w) ∈ proQueries (db w')
       end.
Proof.
  intros (Hatt & Hpro & Hagg & Hcon & Hcl).
  destruct (register_pass (proDuties (db w)) (closed w) _ _ _ slot Hpro Hcl)
    as (heap' & Hres & Hnew).
  unfold AwaitProposal_register, resolveProQueriesUnsafe. simpl. rewrite Hres.
  eexists. split; [reflexivity|]. simpl. split; [by repeat split|].
  split; [done|]. split; [done|].
  destruct (proDuties (db w) !! slot) as [value|].
  - split; [done|]. rewrite app_nil_r. intros Hq.
    apply list_elem_of_filter in Hq as [_ Hq].
    destruct Hpro as (_ & Hemp & Hall). apply Hemp, Hall in Hq. simpl in Hq. lia.
  - split; [done|]. apply elem_of_app. right. left.
Qed.

Lemma AwaitAttestation_register_spec (slot commIdx : uint64) (w : World) :
  chan_inv w ->
  exists w',
    AwaitAttestation_register slot commIdx w = Some (w', nextChan w)
    /\ same_maps (db w) (db w') /\ shutdown (db w') = shutdown (db w)
    /\ closed w' = closed w
    /\ match attDuties (db w) !! attKey.mk slot commIdx with
       | Some value =>
           attResp w' !! nextChan w = Some (mkChan [value] 1)
           /\ mkQuery (attKey.mk slot commIdx) (nextChan w) (nextChan w)
                ∉ attQueries (db w')
       | None =>
           attResp w' !! nextChan w = Some (mkChan [] 0)
           /\ mkQuery (attKey.mk slot commIdx) (nextChan w) (nextChan w)
                ∈ attQueries (db w')
       end.
Proof.
  intros (Hatt & Hpro & Hagg & Hcon & Hcl).
  destruct (register_pass (attDuties (db w)) (closed w) _ _ _
              (attKey.mk slot commIdx) Hatt Hcl) as (heap' & Hres & Hnew).
  unfold AwaitAttestation_register, resolveAttQueriesUnsafe. simpl. rewrite Hres.
  eexists. split; [reflexivity|]. simpl. split; [by repeat split|].
  split; [done|]. split; [done|].
  destruct (attDuties (db w) !! _) as [value|].
  - split; [done|]. rewrite app_nil_r. intros Hq.
    apply list_elem_of_filter in Hq as [_ Hq].
    destruct Hatt as (_ & Hemp & Hall). apply Hemp, Hall in Hq. simpl in Hq. lia.
  - split; [done|]. apply elem_of_app. right. left.
Qed.

Lemma AwaitAggAttestation_register_spec (slot : uint64) (root : Root) (w : World) :
  chan_inv w ->
  exists w',
    AwaitAggAttestation_register slot root w = Some (w', nextChan w)
    /\ same_maps (db w) (db w') /\ shutdown (db w') = shutdown (db w)
    /\ closed w' = closed w
    /\ match aggDuties (db w) !! aggKey.mk slot root with
       | Some value =>
           aggResp w' !! nextChan w = Some (mkChan [value] 1)
           /\ mkQuery (aggKey.mk slot root) (nextChan w) (nextChan w)
                ∉ aggQueries (db w')
       | None =>
           aggResp w' !! nextChan w = Some (mkChan [] 0)
           /\ mkQuery (aggKey.mk slot root) (nextChan w) (nextChan w)
                ∈ aggQueries (db w')
       end.
Proof.
  intros (Hatt & Hpro & Hagg & Hcon & Hcl).
  destruct (register_pass (aggDuties (db w)) (closed w) _ _ _
              (aggKey.mk slot root) Hagg Hcl) as (heap' & Hres & Hnew).
  unfold AwaitAggAttestation_register, resolveAggQueriesUnsafe. simpl. rewrite Hres.
  eexists. split; [reflexivity|]. simpl. split; [by repeat split|].
  split; [done|]. split; [done|].
  destruct (aggDuties (db w) !! _) as [value|].
  - split; [done|]. rewrite app_nil_r. intros Hq.
    apply list_elem_of_filter in Hq as [_ Hq].
    destruct Hagg as (_ & Hemp & Hall). apply Hemp, Hall in Hq. simpl in Hq. lia.
  - split; [done|]. apply elem_of_app. right. left.
Qed.

Lemma AwaitSyncContribution_register_spec (slot subcommIdx : uint64) (root : Root)
    (w : World) :
  chan_inv w ->
  exists w',
    AwaitSyncContribution_register slot subcommIdx root w = Some (w', nextChan w)
    /\ same_maps (db w) (db w') /\ shutdown (db w') = shutdown (db w)
    /\ closed w' = closed w
    /\ match contribDuties (db w) !! contribKey.mk slot subcommIdx root with
       | Some value =>
           contribResp w' !! nextChan w = Some (mkChan [value] 1)
           /\ mkQuery (contribKey.mk slot subcommIdx root) (nextChan w) (nextChan w)
                ∉ contribQueries (db w')
       | None =>
           contribResp w' !! nextChan w = Some (mkChan [] 0)
           /\ mkQuery (contribKey.mk slot subcommIdx root) (nextChan w) (nextChan w)
                ∈ contribQueries (db w')
       end.
Proof.
  intros (Hatt & Hpro & Hagg & Hcon & Hcl).
  destruct (register_pass (contribDuties (db w)) (closed w) _ _ _
              (contribKey.mk slot subcommIdx root) Hcon Hcl) as (heap' & Hres & Hnew).
  unfold AwaitSyncContribution_register, resolveContribQueriesUnsafe. simpl.
  rewrite Hres.
  eexists. split; [reflexivity|]. simpl. split; [by repeat split|].
  split; [done|]. split; [done|].
  destruct (contribDuties (db w) !! _) as [value|].
  - split; [done|]. rewrite app_nil_r. intros Hq.
    apply list_elem_of_filter in Hq as [_ Hq].
    destruct Hcon as (_ & Hemp & Hall). apply Hemp, Hall in Hq. simpl in Hq. lia.
  - split; [done|]. apply elem_of_app. right. left.
Qed.

(** A call whose channel holds a value, with the database running and
    the context live, has one ready case. *)
Lemma select_return_value {V} (id : chan) (heap : gmap chan (buffered V)) (w : World)
    (value : V) (n : nat) :
  heap !! id = Some (mkChan [value] n) -> id ∉ closed w -> shutdown (db w) = false ->
  select_return id None 0 heap w
  = Some (<[id := mkChan [] n]> heap, set_closed ({[id]} ∪ closed w) w, Ok value)
  /\ forall pick heap' w' r,
       select_return id None pick heap w = Some (heap', w', r) -> r = Ok value.
Proof.
  intros Hid Hopen Hsd. unfold select_return.
  apply cancelled_false in Hopen. rewrite Hopen, Hid, Hsd. simpl.
  split; [done|]. intros pick heap' w' r.
  destruct pick as [|pick]; simpl; [by intros [= <- <- <-]|done].
Qed.

(** ** Each function writes the maps of its own duty type *)

Lemma storePubKey_frame pKey pk slot (d d' : MemDB) r :
  storePubKey pKey pk slot d = (d', r) ->
  attDuties d' = attDuties d
  /\ same_proposer d d' /\ same_aggregator d d' /\ same_contrib d d'.
Proof.
  intros Hr.
  apply storePubKey_spec in Hr as [(_ & -> & _)|[(? & _ & _ & -> & _)|(_ & _ & ->)]];
    by repeat split.
Qed.

Lemma storeAttData_frame aKey data (d d' : MemDB) r :
  storeAttData aKey data d = (d', r) ->
  attPubKeys d' = attPubKeys d /\ attKeysBySlot d' = attKeysBySlot d
  /\ same_proposer d d' /\ same_aggregator d d' /\ same_contrib d d'.
Proof.
  intros Hr.
  apply storeAttData_spec in Hr
    as [(? & _ & _ & -> & _)|[(? & _ & _ & -> & _)|(_ & _ & ->)]]; by repeat split.
Qed.

Lemma storeAttestationUnsafe_frame pubkey ud (d d' : MemDB) r :
  storeAttestationUnsafe pubkey ud d = (d', r) ->
  same_proposer d d' /\ same_aggregator d d' /\ same_contrib d d'.
Proof.
  intros Hr.
  apply storeAttestationUnsafe_cases in Hr as [[-> _]|(cloned & attData & _ & _ & Hr)];
    [by repeat split|].
  eapply (attSteps_preserves
            (fun x => same_proposer d x /\ same_aggregator d x /\ same_contrib d x));
    [| | |exact Hr].
  - intros pKey x x' r' (Hp & (Hg1 & Hg2) & (Hc1 & Hc2)) Hx.
    apply storePubKey_frame in Hx as (_ & Hp' & (? & ?) & (? & ?)).
    unfold same_proposer, same_aggregator, same_contrib in *.
    repeat split; congruence.
  - intros aKey x x' r' (Hp & (Hg1 & Hg2) & (Hc1 & Hc2)) Hx.
    apply storeAttData_frame in Hx as (_ & _ & Hp' & (? & ?) & (? & ?)).
    unfold same_proposer, same_aggregator, same_contrib in *.
    repeat split; congruence.
  - by repeat split.
Qed.

Lemma storeProposalUnsafe_frame ud (d d' : MemDB) r :
  storeProposalUnsafe ud d = (d', r) ->
  same_attester d d' /\ same_aggregator d d' /\ same_contrib d d'.
Proof.
  intros Hr.
  apply storeProposalUnsafe_spec in Hr
    as [->|(? & ? & ? & _ & _ & _ & _ & _ & ->)]; by repeat split.
Qed.

Lemma storeAggAttestationUnsafe_frame ud (d d' : MemDB) r :
  storeAggAttestationUnsafe ud d = (d', r) ->
  same_attester d d' /\ same_proposer d d' /\ same_contrib d d'.
Proof.
  intros Hr.
  apply storeAggAttestationUnsafe_spec in Hr
    as [[-> _]|(? & ? & ? & _ & _ & _ & _ & [[_ ->]|[_ ->]])]; by repeat split.
Qed.

Lemma storeSyncContributionUnsafe_frame ud (d d' : MemDB) r :
  storeSyncContributionUnsafe ud d = (d', r) ->
  same_attester d d' /\ same_proposer d d' /\ same_aggregator d d'.
Proof.
  intros Hr.
  apply storeSyncContributionUnsafe_spec in Hr
    as [->|(? & ? & _ & _ & _ & ->)]; by repeat split.
Qed.

(** What [deleteDutyUnsafe] leaves, by duty type. *)
Lemma deleteDutyUnsafe_spec (duty : Duty.t) (d d' : MemDB) (r : res error unit) :
  deleteDutyUnsafe duty d = (d', r) ->
  match Duty.Type_ duty with
  | DutyProposer =>
      r = Ok tt /\ proDuties d' = delete (Duty.Slot duty) (proDuties d)
      /\ same_attester d d' /\ same_aggregator d d' /\ same_contrib d d'
  | DutyAttester =>
      r = Ok tt
      /\ attKeysBySlot d' = delete (Duty.Slot duty) (attKeysBySlot d)
      /\ (forall k, attPubKeys d' !! k
                    = if decide (k ∈ default [] (attKeysBySlot d !! Duty.Slot duty))
                      then None else attPubKeys d !! k)
      /\ (forall a, attDuties d' !! a
                    = if decide (a ∈ (fun k => attKey.mk (pkKey.Slot k) (pkKey.CommIdx k))
                                       <$> default [] (attKeysBySlot d !! Duty.Slot duty))
                      then None else attDuties d !! a)
      /\ same_proposer d d' /\ same_aggregator d d' /\ same_contrib d d'
  | DutyAggregator =>
      r = Ok tt
      /\ aggKeysBySlot d' = delete (Duty.Slot duty) (aggKeysBySlot d)
      /\ (forall k, aggDuties d' !! k
                    = if decide (k ∈ default [] (aggKeysBySlot d !! Duty.Slot duty))
                      then None else aggDuties d !! k)
      /\ same_attester d d' /\ same_proposer d d' /\ same_contrib d d'
  | DutySyncContribution =>
      r = Ok tt
      /\ contribKeysBySlot d' = delete (Duty.Slot duty) (contribKeysBySlot d)
      /\ (forall k, contribDuties d' !! k
                    = if decide (k ∈ default [] (contribKeysBySlot d !! Duty.Slot duty))
                      then None else contribDuties d !! k)
      /\ same_attester d d' /\ same_proposer d d' /\ same_aggregator d d'
  | DutyBuilderProposer => d' = d /\ r = Err ErrDeprecatedDutyBuilderProposer
  | DutyOther _ => d' = d /\ r = Err ErrUnknownDutyType
  end.
Proof.
  unfold deleteDutyUnsafe. destruct (Duty.Type_ duty); intros Hr; db_inv Hr.
  - by repeat split.
  - destruct (foldl_deleteAttKey (default [] (attKeysBySlot d !! Duty.Slot duty)) d)
      as (_ & Hidx & ? & ? & ? & ? & ? & Hpk & Hatt).
    split; [done|]. split; [by rewrite Hidx|]. by repeat split.
  - done.
  - destruct (foldl_deleteAgg (default [] (aggKeysBySlot d !! Duty.Slot duty)) d)
      as (_ & ? & ? & ? & ? & Hidx & ? & ? & Hk).
    split; [done|]. split; [by rewrite Hidx|]. by repeat split.
  - destruct (foldl_deleteContrib (default [] (contribKeysBySlot d !! Duty.Slot duty)) d)
      as (_ & ? & ? & ? & ? & ? & ? & Hidx & Hk).
    split; [done|]. split; [by rewrite Hidx|]. by repeat split.
  - done.
Qed.

(** ** What a step does to the maps *)

Lemma resolvers_frame (w w' : World) :
  resolveAttQueriesUnsafe w = Some w' \/ resolveProQueriesUnsafe w = Some w'
  \/ resolveAggQueriesUnsafe w = Some w' \/ resolveContribQueriesUnsafe w = Some w' ->
  same_maps (db w) (db w') /\ shutdown (db w') = shutdown (db w)
  /\ closed w' = closed w /\ nextChan w' = nextChan w.
Proof.
  unfold resolveAttQueriesUnsafe, resolveProQueriesUnsafe, resolveAggQueriesUnsafe,
    resolveContribQueriesUnsafe.
  intros [Hr|[Hr|[Hr|Hr]]];
    destruct (resolveQueries _ _ _ _) as [[unresolved heap]|]; try done;
    injection Hr as <-; simpl; by repeat split.
Qed.

Lemma exec_frame (op : Op) (w w' : World) :
  exec op w = Some w' ->
  match op with
  | OpStore _ _ _ _ => True
  | OpShutdown => same_maps (db w) (db w') /\ shutdown (db w') = true
  | _ => same_maps (db w) (db w') /\ shutdown (db w') = shutdown (db w)
  end.
Proof.
  destruct op; simpl; [done| | | | | | | | |].
  - unfold AwaitProposal_register. simpl.
    destruct (resolveProQueriesUnsafe _) as [w4|] eqn:Hres; [|done]. intros [= <-].
    destruct (resolvers_frame _ _ (or_intror (or_introl Hres))) as (Hm & Hs & _).
    simpl in *. done.
  - unfold AwaitAttestation_register. simpl.
    destruct (resolveAttQueriesUnsafe _) as [w4|] eqn:Hres; [|done]. intros [= <-].
    destruct (resolvers_frame _ _ (or_introl Hres)) as (Hm & Hs & _).
    simpl in *. done.
  - unfold AwaitAggAttestation_register. simpl.
    destruct (resolveAggQueriesUnsafe _) as [w4|] eqn:Hres; [|done]. intros [= <-].
    destruct (resolvers_frame _ _ (or_intror (or_intror (or_introl Hres)))) as (Hm & Hs & _).
    simpl in *. done.
  - unfold AwaitSyncContribution_register. simpl.
    destruct (resolveContribQueriesUnsafe _) as [w4|] eqn:Hres; [|done]. intros [= <-].
    destruct (resolvers_frame _ _ (or_intror (or_intror (or_intror Hres)))) as (Hm & Hs & _).
    simpl in *. done.
  - unfold AwaitProposal_return.
    destruct (select_return _ _ _ _ _) as [[[heap w1] r1]|] eqn:Hs; [|done].
    intros [= <-]. apply select_return_cases in Hs as (_ & c & _ & _ & _ & ->).
    simpl. by repeat split.
  - unfold AwaitAttestation_return.
    destruct (select_return _ _ _ _ _) as [[[heap w1] r1]|] eqn:Hs; [|done].
    intros [= <-]. apply select_return_cases in Hs as (_ & c & _ & _ & _ & ->).
    simpl. by repeat split.
  - unfold AwaitAggAttestation_return.
    destruct (select_return _ _ _ _ _) as [[[heap w1] r1]|] eqn:Hs; [|done].
    intros [= <-]. apply select_return_cases in Hs as (_ & c & _ & _ & _ & ->).
    simpl. by repeat split.
  - unfold AwaitSyncContribution_return.
    destruct (select_return _ _ _ _ _) as [[[heap w1] r1]|] eqn:Hs; [|done].
    intros [= <-]. apply select_return_cases in Hs as (_ & c & _ & _ & _ & ->).
    simpl. by repeat split.
  - unfold Shutdown. destruct (shutdown (db w)); [done|]. intros [= <-].
    simpl. by repeat split.
Qed.

(** A property of the maps kept by the store functions and by the
    evictor is kept by [Store]. *)
Lemma storeResolveDelete_maps_inv (P : MemDB -> Prop) (stores : DB unit)
    (resolve : World -> option World) (expired : list Duty.t) (w w' : World)
    (r : res error unit) :
  maps_only P -> preserves P stores ->
  (forall duty, duty ∈ expired -> preserves P (deleteDutyUnsafe duty)) ->
  (forall w1 w2, resolve w1 = Some w2 -> same_maps (db w1) (db w2)) ->
  P (db w) ->
  storeResolveDelete stores resolve expired w = Some (w', r) -> P (db w').
Proof.
  intros Hmaps Hst Hdel Hres HP Hr.
  apply storeResolveDelete_cases in Hr
    as [(d1 & e & H1 & -> & _)|(d1 & w2 & d3 & H1 & H2 & H3 & ->)]; simpl.
  - by eapply Hst.
  - eapply (preserves_forEach P); [exact Hdel| |exact H3].
    eapply Hmaps; [eapply Hres; exact H2|]. simpl. by eapply Hst.
Qed.

Lemma Store_maps_inv (P : MemDB -> Prop) addOk expired duty unsignedSet
    (w w' : World) (r : res error unit) :
  maps_only P ->
  (forall p, p ∈ unsignedSet -> preserves P (storeProposalUnsafe p.2)) ->
  (Duty.Type_ duty = DutyAttester ->
   forall p, p ∈ unsignedSet -> preserves P (storeAttestationUnsafe p.1 p.2)) ->
  (forall p, p ∈ unsignedSet -> preserves P (storeAggAttestationUnsafe p.2)) ->
  (forall p, p ∈ unsignedSet -> preserves P (storeSyncContributionUnsafe p.2)) ->
  (forall x, x ∈ expired -> preserves P (deleteDutyUnsafe x)) ->
  P (db w) ->
  Store addOk expired duty unsignedSet w = Some (w', r) -> P (db w').
Proof.
  intros Hmaps Hpro Hatt Hagg Hcon Hdel HP. unfold Store.
  destruct addOk; simpl; [|by intros [= <- <-]].
  destruct (Duty.Type_ duty) eqn:Hty; try (by intros [= <- <-]).
  - destruct (decide _); [by intros [= <- <-]|].
    apply storeResolveDelete_maps_inv; try done.
    + by apply preserves_forEach.
    + intros w1 w2 Hr. apply resolvers_frame. auto.
  - apply storeResolveDelete_maps_inv; try done.
    + apply preserves_forEach. by apply Hatt.
    + intros w1 w2 Hr. apply resolvers_frame. auto.
  - apply storeResolveDelete_maps_inv; try done.
    + by apply preserves_forEach.
    + intros w1 w2 Hr. apply resolvers_frame. auto.
  - apply storeResolveDelete_maps_inv; try done.
    + by apply preserves_forEach.
    + intros w1 w2 Hr. apply resolvers_frame. auto.
Qed.

Lemma exec_maps_inv (P : MemDB -> Prop) (Q : Op -> Prop) :
  maps_only P ->
  (forall ud, preserves P (storeProposalUnsafe ud)) ->
  (forall addOk expired duty unsignedSet,
     Q (OpStore addOk expired duty unsignedSet) ->
     Duty.Type_ duty = DutyAttester ->
     forall p, p ∈ unsignedSet -> preserves P (storeAttestationUnsafe p.1 p.2)) ->
  (forall ud, preserves P (storeAggAttestationUnsafe ud)) ->
  (forall ud, preserves P (storeSyncContributionUnsafe ud)) ->
  (forall addOk expired duty unsignedSet,
     Q (OpStore addOk expired duty unsignedSet) ->
     forall x, x ∈ expired -> preserves P (deleteDutyUnsafe x)) ->
  forall op w w', Q op -> P (db w) -> exec op w = Some w' -> P (db w').
Proof.
  intros Hmaps Hpro Hatt Hagg Hcon Hdel op w w' HQ HP Hex.
  destruct op; try (apply exec_frame in Hex as [Hm _]; by eapply Hmaps).
  simpl in Hex.
  destruct (Store _ _ _ _ _) as [[w1 r]|] eqn:Hs; [|done]. injection Hex as <-.
  eapply (Store_maps_inv P); [done| | | | | |exact HP|exact Hs]; eauto.
Qed.

(** Once closed, the shutdown channel stays closed. *)
Lemma exec_shutdown (op : Op) (w w' : World) :
  exec op w = Some w' -> shutdown (db w) = true -> shutdown (db w') = true.
Proof.
  intros Hex Hsd.
  destruct op; try (apply exec_frame in Hex as [_ Hs]; congruence).
  simpl in Hex.
  destruct (Store _ _ _ _ _) as [[w1 r]|] eqn:Hs; [|done]. injection Hex as <-.
  assert (Hkeep : forall stores resolve,
             (forall d0, preserves (same_waiters d0) stores) ->
             (forall w1 w2, resolve w1 = Some w2 -> shutdown (db w2) = shutdown (db w1)) ->
             storeResolveDelete stores resolve expired w = Some (w1, r) ->
             shutdown (db w1) = true).
  { intros stores resolve Hst Hres Hr.
    apply storeResolveDelete_cases in Hr
      as [(d1 & e & H1 & -> & _)|(d1 & w2 & d3 & H1 & H2 & H3 & ->)]; simpl.
    - destruct (Hst (db w) _ _ _ (same_waiters_refl _) H1) as (_ & _ & _ & _ & Hs1).
      congruence.
    - destruct (Hst (db w) _ _ _ (same_waiters_refl _) H1) as (_ & _ & _ & _ & Hs1).
      apply Hres in H2. simpl in H2.
      assert (Hd : same_waiters (db w2) d3).
      { eapply (preserves_forEach (same_waiters (db w2)));
          [intros; apply deleteDutyUnsafe_waiters|apply same_waiters_refl|exact H3]. }
      destruct Hd as (_ & _ & _ & _ & Hs3). congruence. }
  revert Hs. unfold Store. destruct addOk; simpl; [|by intros [= <- <-]].
  destruct (Duty.Type_ duty); try (by intros [= <- <-]).
  - destruct (decide _); [by intros [= <- <-]|]. apply Hkeep.
    + intros d0. apply preserves_forEach. intros. apply storeProposalUnsafe_waiters.
    + intros w2 w3 Hr. apply resolvers_frame. auto.
  - apply Hkeep.
    + intros d0. apply preserves_forEach. intros. apply storeAttestationUnsafe_waiters.
    + intros w2 w3 Hr. apply resolvers_frame. auto.
  - apply Hkeep.
    + intros d0. apply preserves_forEach. intros. apply storeAggAttestationUnsafe_waiters.
    + intros w2 w3 Hr. apply resolvers_frame. auto.
  - apply Hkeep.
    + intros d0. apply preserves_forEach. intros.
      apply storeSyncContributionUnsafe_waiters.
    + intros w2 w3 Hr. apply resolvers_frame. auto.
Qed.

(** ** The aggregator and contribution maps and their slot records *)

Lemma lookup_append_at {K} `{Countable K} {A} (k k' : K) (x : A) (m : gmap K (list A)) :
  default [] (append_at k x m !! k')
  = if decide (k = k') then default [] (m !! k) ++ [x] else default [] (m !! k').
Proof.
  unfold append_at. destruct (decide (k = k')) as [->|Hne].
  - by rewrite lookup_insert_eq.
  - by rewrite lookup_insert_ne.
Qed.

Lemma agg_inv_ext (d d' : MemDB) : same_aggregator d d' -> agg_inv d -> agg_inv d'.
Proof. intros [Hd Hk]. unfold agg_inv. by rewrite Hd, Hk. Qed.

Lemma contrib_inv_ext (d d' : MemDB) : same_contrib d d' -> contrib_inv d -> contrib_inv d'.
Proof. intros [Hd Hk]. unfold contrib_inv. by rewrite Hd, Hk. Qed.

Lemma storeAggAttestationUnsafe_agg_inv ud :
  preserves agg_inv (storeAggAttestationUnsafe ud).
Proof.
  intros d d' r [Hroot Hidx] Hr.
  apply storeAggAttestationUnsafe_spec in Hr
    as [[-> _]|(aggAtt & data & key & Hd & Hh & Hs & _ & [[Hsome ->]|[Hnone ->]])];
    [done| |]; split; simpl.
  - intros k v. destruct (decide (key = k)) as [<-|Hne].
    + rewrite lookup_insert_eq. intros [= <-]. by exists data.
    + rewrite lookup_insert_ne by done. apply Hroot.
  - intros k. destruct (decide (key = k)) as [<-|Hne].
    + intros _. by apply Hidx.
    + rewrite lookup_insert_ne by done. apply Hidx.
  - intros k v. destruct (decide (key = k)) as [<-|Hne].
    + rewrite lookup_insert_eq. intros [= <-]. by exists data.
    + rewrite lookup_insert_ne by done. apply Hroot.
  - intros k. rewrite lookup_append_at. destruct (decide (key = k)) as [<-|Hne].
    + intros _. rewrite decide_True by done. apply elem_of_app. right. left.
    + rewrite lookup_insert_ne by done. intros Hk. apply Hidx in Hk.
      destruct (decide _) as [Heq|_]; [|done]. rewrite Heq. apply elem_of_app. by left.
Qed.

Lemma storeSyncContributionUnsafe_contrib_inv ud :
  preserves contrib_inv (storeSyncContributionUnsafe ud).
Proof.
  intros d d' r Hidx Hr.
  apply storeSyncContributionUnsafe_spec in Hr
    as [->|(contrib & key & Hkey & Hnone & _ & ->)]; [done|].
  intros k. simpl. rewrite lookup_append_at.
  assert (Hslot : contribKey.Slot key = contrib_Slot contrib) by (by rewrite Hkey).
  destruct (decide (key = k)) as [Heq|Hne].
  - subst k. intros _. rewrite Hslot, decide_True by done.
    apply elem_of_app. right. left.
  - rewrite lookup_insert_ne by done. intros Hk. apply Hidx in Hk.
    destruct (decide _) as [Heq|_]; [|done]. rewrite Heq. apply elem_of_app. by left.
Qed.

Lemma deleteDutyUnsafe_agg_inv duty : preserves agg_inv (deleteDutyUnsafe duty).
Proof.
  intros d d' r Hinv Hr. apply deleteDutyUnsafe_spec in Hr.
  destruct (Duty.Type_ duty).
  - destruct Hr as (_ & _ & _ & Hg & _). by eapply agg_inv_ext.
  - destruct Hr as (_ & _ & _ & _ & _ & Hg & _). by eapply agg_inv_ext.
  - by destruct Hr as [-> _].
  - destruct Hr as (_ & Hidx & Hk & _). destruct Hinv as [Hroot Hlisted]. split.
    + intros k v. rewrite Hk. destruct (decide _); [done|]. apply Hroot.
    + intros k. rewrite Hk, Hidx. destruct (decide _) as [Hin|Hout].
      { intros [? ?]. done. }
      intros Hsome. pose proof (Hlisted k Hsome) as Hl.
      rewrite lookup_delete_ne; [done|]. intros Heq. apply Hout. by rewrite Heq.
  - destruct Hr as (_ & _ & _ & _ & _ & Hg). by eapply agg_inv_ext.
  - by destruct Hr as [-> _].
Qed.

Lemma deleteDutyUnsafe_contrib_inv duty : preserves contrib_inv (deleteDutyUnsafe duty).
Proof.
  intros d d' r Hinv Hr. apply deleteDutyUnsafe_spec in Hr.
  destruct (Duty.Type_ duty).
  - destruct Hr as (_ & _ & _ & _ & Hc). by eapply contrib_inv_ext.
  - destruct Hr as (_ & _ & _ & _ & _ & _ & Hc). by eapply contrib_inv_ext.
  - by destruct Hr as [-> _].
  - destruct Hr as (_ & _ & _ & _ & _ & Hc). by eapply contrib_inv_ext.
  - destruct Hr as (_ & Hidx & Hk & _).
    intros k. rewrite Hk, Hidx. destruct (decide _) as [Hin|Hout].
    { intros [? ?]. done. }
    intros Hsome. pose proof (Hinv k Hsome) as Hl.
    rewrite lookup_delete_ne; [done|]. intros Heq. apply Hout. by rewrite Heq.
  - by destruct Hr as [-> _].
Qed.

Lemma exec_agg_inv (op : Op) (w w' : World) :
  agg_inv (db w) -> exec op w = Some w' -> agg_inv (db w').
Proof.
  intros Hinv Hex.
  eapply (exec_maps_inv agg_inv (fun _ => True)); [| | | | | |done|exact Hinv|exact Hex].
  - intros d d' (_ & _ & _ & _ & Hg1 & Hg2 & _). by apply agg_inv_ext.
  - intros ud d d' r HP Hr. apply storeProposalUnsafe_frame in Hr as (_ & Hg & _).
    by eapply agg_inv_ext.
  - intros _ _ _ _ _ _ p _ d d' r HP Hr.
    apply storeAttestationUnsafe_frame in Hr as (_ & Hg & _). by eapply agg_inv_ext.
  - apply storeAggAttestationUnsafe_agg_inv.
  - intros ud d d' r HP Hr. apply storeSyncContributionUnsafe_frame in Hr as (_ & _ & Hg).
    by eapply agg_inv_ext.
  - intros. apply deleteDutyUnsafe_agg_inv.
Qed.

Lemma exec_contrib_inv (op : Op) (w w' : World) :
  contrib_inv (db w) -> exec op w = Some w' -> contrib_inv (db w').
Proof.
  intros Hinv Hex.
  eapply (exec_maps_inv contrib_inv (fun _ => True));
    [| | | | | |done|exact Hinv|exact Hex].
  - intros d d' (_ & _ & _ & _ & _ & _ & Hc1 & Hc2). by apply contrib_inv_ext.
  - intros ud d d' r HP Hr. apply storeProposalUnsafe_frame in Hr as (_ & _ & Hc).
    by eapply contrib_inv_ext.
  - intros _ _ _ _ _ _ p _ d d' r HP Hr.
    apply storeAttestationUnsafe_frame in Hr as (_ & _ & Hc). by eapply contrib_inv_ext.
  - intros ud d d' r HP Hr. apply storeAggAttestationUnsafe_frame in Hr as (_ & _ & Hc).
    by eapply contrib_inv_ext.
  - apply storeSyncContributionUnsafe_contrib_inv.
  - intros. apply deleteDutyUnsafe_contrib_inv.
Qed.

Lemma reachable_agg_inv (w : World) : reachable w -> agg_inv (db w).
Proof.
  intros [ops Hrun].
  eapply (run_invariant (fun _ => True) (fun w => agg_inv (db w)));
    [| | |exact Hrun].
  - intros op w1 w2 _. apply exec_agg_inv.
  - by apply Forall_true.
  - split; simpl.
    + intros k v Hk. by rewrite lookup_empty in Hk.
    + intros k [v Hk]. by rewrite lookup_empty in Hk.
Qed.

Lemma reachable_contrib_inv (w : World) : reachable w -> contrib_inv (db w).
Proof.
  intros [ops Hrun].
  eapply (run_invariant (fun _ => True) (fun w => contrib_inv (db w)));
    [| | |exact Hrun].
  - intros op w1 w2 _. apply exec_contrib_inv.
  - by apply Forall_true.
  - intros k [v Hk]. simpl in Hk. by rewrite lookup_empty in Hk.
Qed.

(** ** Clashes (C2, C3, C8) *)

Lemma set_db_id (w : World) : set_db (db w) w = w.
Proof. by destruct w. Qed.

(** A store of one payload that fails returns the error, with the
    database as the store function left it. *)
Lemma storeResolveDelete_one_err (f : PubKey * UnsignedData -> DB unit)
    (resolve : World -> option World) (expired : list Duty.t) (w : World)
    (p : PubKey * UnsignedData) (d' : MemDB) (e : error) :
  f p (db w) = (d', Err e) ->
  storeResolveDelete (forEach f [p]) resolve expired w = Some (set_db d' w, Err e).
Proof.
  intros Hf. unfold storeResolveDelete. simpl. unfold bind. by rewrite Hf.
Qed.

(** C2. For a proposer or sync-contribution key that has an entry, a
    second store with a different content hash returns a clashing-data
    error and changes nothing, and a second store with an equal content
    hash succeeds and changes nothing: the first entry stays. *)
Theorem second_store_clash_or_noop (ud cloned : UnsignedData) (d : MemDB) :
  Clone ud = Ok cloned ->
  (forall proposal slot existing existingRoot providedRoot,
     asVersionedProposal cloned = Some proposal -> pro_Slot proposal = Ok slot ->
     proDuties d !! slot = Some existing ->
     pro_Root existing = Ok existingRoot -> pro_Root proposal = Ok providedRoot ->
     (existingRoot ≠ providedRoot ->
      storeProposalUnsafe ud d = (d, Err ErrClashingBlocks)
      /\ is_ClashingData ErrClashingBlocks = true
      /\ forall w pk expired duty,
           db w = d -> Duty.Type_ duty = DutyProposer ->
           Store true expired duty [(pk, ud)] w = Some (w, Err ErrClashingBlocks))
     /\ (existingRoot = providedRoot -> storeProposalUnsafe ud d = (d, Ok tt)))
  /\ (forall contrib existing existingRoot contribRoot,
        asSyncContribution cloned = Some contrib ->
        contribDuties d !! contribKey.mk (contrib_Slot contrib)
                                         (contrib_SubcommitteeIndex contrib)
                                         (contrib_BeaconBlockRoot contrib) = Some existing ->
        contrib_HashTreeRoot existing = Ok existingRoot ->
        contrib_HashTreeRoot contrib = Ok contribRoot ->
        (existingRoot ≠ contribRoot ->
         storeSyncContributionUnsafe ud d = (d, Err ErrClashingSyncContributions)
         /\ is_ClashingData ErrClashingSyncContributions = true
         /\ forall w pk expired duty,
              db w = d -> Duty.Type_ duty = DutySyncContribution ->
              Store true expired duty [(pk, ud)] w
              = Some (w, Err ErrClashingSyncContributions))
        /\ (existingRoot = contribRoot -> storeSyncContributionUnsafe ud d = (d, Ok tt))).
Proof.
  intros Hc. split.
  - intros proposal slot existing rE rP Ha Hs Hk HrE HrP.
    assert (Hrun : storeProposalUnsafe ud d
                   = (d, if decide (rE ≠ rP) then Err ErrClashingBlocks else Ok tt)).
    { unfold storeProposalUnsafe. db_unfold. rewrite Hc. db_unfold. rewrite Ha.
      db_unfold. rewrite Hs. db_unfold. rewrite Hk, HrE. db_unfold. rewrite HrP.
      db_unfold. by destruct (decide (rE ≠ rP)). }
    split.
    + intros Hne. rewrite decide_True in Hrun by done. split; [done|]. split; [done|].
      intros w pk expired duty Hd Hty. subst d. unfold Store. simpl. rewrite Hty.
      rewrite (storeResolveDelete_one_err (fun p => storeProposalUnsafe p.2)
                 _ _ _ (pk, ud) _ _ Hrun).
      by rewrite set_db_id.
    + intros Heq. rewrite decide_False in Hrun by (by intros ?). done.
  - intros contrib existing rE rC Ha Hk HrE HrC.
    assert (Hrun : storeSyncContributionUnsafe ud d
                   = (d, if decide (rE ≠ rC) then Err ErrClashingSyncContributions
                         else Ok tt)).
    { unfold storeSyncContributionUnsafe. db_unfold. rewrite Hc. db_unfold. rewrite Ha.
      db_unfold. rewrite HrC. db_unfold. rewrite Hk, HrE. db_unfold.
      by destruct (decide (rE ≠ rC)). }
    split.
    + intros Hne. rewrite decide_True in Hrun by done. split; [done|]. split; [done|].
      intros w pk expired duty Hd Hty. subst d. unfold Store. simpl. rewrite Hty.
      rewrite (storeResolveDelete_one_err (fun p => storeSyncContributionUnsafe p.2)
                 _ _ _ (pk, ud) _ _ Hrun).
      by rewrite set_db_id.
    + intros Heq. rewrite decide_False in Hrun by (by intros ?). done.
Qed.

(** The aggregator store at a key that has an entry. *)
Lemma storeAggAttestationUnsafe_existing (ud cloned : UnsignedData)
    (provided existing : VersionedAggregatedAttestation)
    (data edata : p0AttestationData) (root eroot : Root) (d : MemDB) :
  Clone ud = Ok cloned ->
  asVersionedAggregatedAttestation cloned = Some provided ->
  agg_Data provided = Ok data -> att_HashTreeRoot data = Ok root ->
  aggDuties d !! aggKey.mk (att_Slot data) root = Some existing ->
  agg_Data existing = Ok edata -> att_HashTreeRoot edata = Ok eroot ->
  storeAggAttestationUnsafe ud d
  = if decide (eroot ≠ root) then (d, Err (ErrClashingDataRoot eroot root))
    else (set_aggDuties (<[aggKey.mk (att_Slot data) root := provided]> (aggDuties d)) d,
          Ok tt).
Proof.
  intros Hc Ha Hd Hr Hk Hed Her.
  unfold storeAggAttestationUnsafe. db_unfold.
  repeat (first [rewrite Hc|rewrite Ha|rewrite Hd|rewrite Hr|rewrite Hk
                |rewrite Hed|rewrite Her]; db_unfold).
  by destruct (decide (eroot ≠ root)).
Qed.


(** The clashing-data-root error comes from the aggregator store only,
    and only past an entry whose data root differs from its key. *)
Lemma storeAggAttestationUnsafe_no_clash ud (d d' : MemDB) r a b :
  agg_inv d -> storeAggAttestationUnsafe ud d = (d', r) ->
  r ≠ Err (ErrClashingDataRoot a b).
Proof.
  intros [Hroot _] Hr Hclash.
  apply storeAggAttestationUnsafe_spec in Hr as [[_ Hc]|(? & ? & ? & _ & _ & _ & -> & _)];
    [|done].
  destruct (Hc a b Hclash)
    as (cloned & aggAtt & data & root & existing & edata & _ & _ & _ & _
        & Hk & Hed & Her & Hne).
  destruct (Hroot _ _ Hk) as (data0 & Hd0 & Hr0 & _). simpl in Hr0. congruence.
Qed.

Lemma storeProposalUnsafe_no_clash ud (d d' : MemDB) r a b :
  storeProposalUnsafe ud d = (d', r) -> r ≠ Err (ErrClashingDataRoot a b).
Proof.
  unfold storeProposalUnsafe. db_unfold.
  destruct (Clone ud) as [cloned|e]; [|db_unfold; intros Hr; db_inv Hr; done].
  destruct (asVersionedProposal cloned) as [proposal|];
    [|db_unfold; intros Hr; db_inv Hr; done].
  destruct (pro_Slot proposal) as [slot|e]; [|db_unfold; intros Hr; db_inv Hr; done].
  destruct (proDuties d !! slot) as [existing|].
  - destruct (pro_Root existing); [|db_unfold; intros Hr; db_inv Hr; done].
    destruct (pro_Root proposal); [|db_unfold; intros Hr; db_inv Hr; done].
    destruct (decide _); db_unfold; intros Hr; db_inv Hr; done.
  - db_unfold; intros Hr; db_inv Hr. done.
Qed.

Lemma storeSyncContributionUnsafe_no_clash ud (d d' : MemDB) r a b :
  storeSyncContributionUnsafe ud d = (d', r) -> r ≠ Err (ErrClashingDataRoot a b).
Proof.
  unfold storeSyncContributionUnsafe. db_unfold.
  destruct (Clone ud) as [cloned|e]; [|db_unfold; intros Hr; db_inv Hr; done].
  destruct (asSyncContribution cloned) as [contrib|];
    [|db_unfold; intros Hr; db_inv Hr; done].
  destruct (contrib_HashTreeRoot contrib) as [root|e];
    [|db_unfold; intros Hr; db_inv Hr; done].
  destruct (contribDuties d !! _) as [existing|].
  - destruct (contrib_HashTreeRoot existing); [|db_unfold; intros Hr; db_inv Hr; done].
    destruct (decide _); db_unfold; intros Hr; db_inv Hr; done.
  - db_unfold; intros Hr; db_inv Hr. done.
Qed.

Lemma storeAttestationUnsafe_no_clash pubkey ud (d d' : MemDB) r a b :
  storeAttestationUnsafe pubkey ud d = (d', r) -> r ≠ Err (ErrClashingDataRoot a b).
Proof.
  intros Hr.
  apply storeAttestationUnsafe_cases in Hr
    as [[_ (e & -> & He & _)]|(cloned & attData & _ & _ & Hr)].
  { intros [= ->]. done. }
  unfold attSteps, bind in Hr.
  destruct (storePubKey _ _ _ d) as [d1 [[]|e1]] eqn:E1.
  2:{ db_inv Hr.
      apply storePubKey_spec in E1 as [(_ & _ & ?)|[(? & _ & _ & _ & ?)|(_ & ? & _)]];
        congruence. }
  destruct (storeAttData _ _ d1) as [d2 [[]|e2]] eqn:E2.
  2:{ db_inv Hr.
      apply storeAttData_spec in E2
        as [(? & _ & _ & _ & ?)|[(? & _ & _ & _ & ?)|(_ & ? & _)]]; congruence. }
  destruct (storePubKey _ _ _ d2) as [d3 [[]|e3]] eqn:E3.
  2:{ db_inv Hr.
      apply storePubKey_spec in E3 as [(_ & _ & ?)|[(? & _ & _ & _ & ?)|(_ & ? & _)]];
        congruence. }
  apply storeAttData_spec in Hr
    as [(? & _ & _ & _ & ?)|[(? & _ & _ & _ & ?)|(_ & ? & _)]]; congruence.
Qed.

Lemma deleteDutyUnsafe_no_clash duty (d d' : MemDB) r a b :
  deleteDutyUnsafe duty d = (d', r) -> r ≠ Err (ErrClashingDataRoot a b).
Proof.
  intros Hr. apply deleteDutyUnsafe_spec in Hr.
  destruct (Duty.Type_ duty);
    first [by destruct Hr as [_ ->]|by destruct Hr as [-> _]].
Qed.

Lemma forEach_no_clash {A} (P : MemDB -> Prop) (f : A -> DB unit) (xs : list A) a b :
  (forall x, preserves P (f x)) ->
  (forall x d d' r, P d -> f x d = (d', r) -> r ≠ Err (ErrClashingDataRoot a b)) ->
  forall d d' r, P d -> forEach f xs d = (d', r) -> r ≠ Err (ErrClashingDataRoot a b).
Proof.
  intros Hpres Hf. induction xs as [|x rest IH]; intros d d' r HP Hr.
  - simpl in Hr. db_inv Hr. done.
  - simpl in Hr. unfold bind in Hr.
    destruct (f x d) as [d1 [[]|e]] eqn:Hx.
    + eapply IH; [|exact Hr]. by eapply Hpres.
    + db_inv Hr. by eapply Hf.
Qed.

(** C8. In a reachable database the clashing-data-root branch of
    [storeAggAttestationUnsafe] is never taken: an entry found under the
    key has the data root of the key, so the store function, and [Store]
    with it, never returns that error, and a repeat store at a key that
    has an entry overwrites it. *)
Theorem aggregator_clash_unreachable (w : World) :
  reachable w ->
  (forall ud d' r a b,
     storeAggAttestationUnsafe ud (db w) = (d', r) ->
     r ≠ Err (ErrClashingDataRoot a b))
  /\ (forall addOk expired duty unsignedSet w' r a b,
        Store addOk expired duty unsignedSet w = Some (w', r) ->
        r ≠ Err (ErrClashingDataRoot a b))
  /\ (forall ud cloned aggAtt data root,
        Clone ud = Ok cloned ->
        asVersionedAggregatedAttestation cloned = Some aggAtt ->
        agg_Data aggAtt = Ok data -> att_HashTreeRoot data = Ok root ->
        is_Some (aggDuties (db w) !! aggKey.mk (att_Slot data) root) ->
        storeAggAttestationUnsafe ud (db w)
        = (set_aggDuties (<[aggKey.mk (att_Slot data) root := aggAtt]> (aggDuties (db w)))
                         (db w), Ok tt)).
Proof.
  intros Hw. pose proof (reachable_agg_inv w Hw) as Hinv. split; [|split].
  - intros ud d' r a b. by apply storeAggAttestationUnsafe_no_clash.
  - intros addOk expired duty unsignedSet w' r a b. unfold Store.
    destruct addOk; simpl; [|by intros [= <- <-]].
    assert (Hkeep : forall (f : PubKey * UnsignedData -> DB unit) resolve,
               (forall x, preserves agg_inv (f x)) ->
               (forall x d d' r, agg_inv d -> f x d = (d', r) ->
                                 r ≠ Err (ErrClashingDataRoot a b)) ->
               storeResolveDelete (forEach f unsignedSet) resolve expired w
               = Some (w', r) ->
               r ≠ Err (ErrClashingDataRoot a b)).
    { intros f resolve Hpres Hf Hr.
      apply storeResolveDelete_cases in Hr
        as [(d1 & e & H1 & _ & ->)|(d1 & w2 & d3 & _ & _ & H3 & _)].
      - by eapply (forEach_no_clash agg_inv).
      - eapply (forEach_no_clash (fun _ => True)); [| |done|exact H3]; [done|].
        intros. by eapply deleteDutyUnsafe_no_clash. }
    destruct (Duty.Type_ duty); try (by intros [= <- <-]).
    + destruct (decide _); [by intros [= <- <-]|]. apply Hkeep.
      * intros x d d1 r1 HP Hr. apply storeProposalUnsafe_frame in Hr as (_ & Hg & _).
        by eapply agg_inv_ext.
      * intros. by eapply storeProposalUnsafe_no_clash.
    + apply Hkeep.
      * intros x d d1 r1 HP Hr. apply storeAttestationUnsafe_frame in Hr as (_ & Hg & _).
        by eapply agg_inv_ext.
      * intros. by eapply storeAttestationUnsafe_no_clash.
    + apply Hkeep.
      * intros x. apply storeAggAttestationUnsafe_agg_inv.
      * intros. by eapply storeAggAttestationUnsafe_no_clash.
    + apply Hkeep.
      * intros x d d1 r1 HP Hr.
        apply storeSyncContributionUnsafe_frame in Hr as (_ & _ & Hg).
        by eapply agg_inv_ext.
      * intros. by eapply storeSyncContributionUnsafe_no_clash.
  - intros ud cloned aggAtt data root Hc Ha Hd Hr [existing Hk].
    destruct Hinv as [Hroot _].
    destruct (Hroot _ _ Hk) as (edata & Hed & Her & _). simpl in Her.
    rewrite (storeAggAttestationUnsafe_existing _ _ _ _ _ _ _ _ _ Hc Ha Hd Hr Hk Hed Her).
    by rewrite decide_False by (by intros ?).
Qed.

(** ** The attester store (C4, C9) *)

Lemma att_extends_refl (d : MemDB) : att_extends d d.
Proof. by split. Qed.

Lemma att_extends_trans (d1 d2 d3 : MemDB) :
  att_extends d1 d2 -> att_extends d2 d3 -> att_extends d1 d3.
Proof. intros [H1 H2] [H3 H4]. split; eauto. Qed.

Lemma storePubKey_extends pKey pk slot (d d' : MemDB) r :
  storePubKey pKey pk slot d = (d', r) -> att_extends d d'.
Proof.
  intros Hr.
  apply storePubKey_spec in Hr as [(_ & -> & _)|[(? & _ & _ & -> & _)|(Hn & _ & ->)]];
    try apply att_extends_refl.
  split; simpl; [|done]. intros k v Hk.
  rewrite lookup_insert_ne; [done|]. intros <-. congruence.
Qed.

Lemma storeAttData_extends aKey data (d d' : MemDB) r :
  storeAttData aKey data d = (d', r) -> att_extends d d'.
Proof.
  intros Hr.
  apply storeAttData_spec in Hr
    as [(? & _ & _ & -> & _)|[(? & _ & _ & -> & _)|(Hn & _ & ->)]];
    try apply att_extends_refl.
  split; simpl; [done|]. intros k v Hk.
  rewrite lookup_insert_ne; [done|]. intros <-. congruence.
Qed.

Lemma storeAttestationUnsafe_extends pubkey ud (d d' : MemDB) r :
  storeAttestationUnsafe pubkey ud d = (d', r) -> att_extends d d'.
Proof.
  intros Hr.
  apply storeAttestationUnsafe_cases in Hr as [[-> _]|(cloned & attData & _ & _ & Hr)];
    [apply att_extends_refl|].
  eapply (attSteps_preserves (att_extends d)); [| |apply att_extends_refl|exact Hr].
  - intros pKey x x' r' Hx Hs. eapply att_extends_trans; [exact Hx|].
    by eapply storePubKey_extends.
  - intros aKey x x' r' Hx Hs. eapply att_extends_trans; [exact Hx|].
    by eapply storeAttData_extends.
Qed.

Lemma storePubKey_ok pKey pk slot (d d' : MemDB) :
  storePubKey pKey pk slot d = (d', Ok tt) -> attPubKeys d' !! pKey = Some pk.
Proof.
  intros Hr.
  apply storePubKey_spec in Hr as [(? & -> & _)|[(? & _ & _ & _ & ?)|(_ & _ & ->)]];
    [done|done|]. simpl. apply lookup_insert_eq.
Qed.

Lemma storeAttData_ok aKey data (d d' : MemDB) :
  storeAttData aKey data d = (d', Ok tt) ->
  exists value, attDuties d' !! aKey = Some value
                /\ att_String value = att_String data
                /\ ((forall x y, att_String x = att_String y -> x = y) -> value = data).
Proof.
  intros Hr.
  apply storeAttData_spec in Hr
    as [(value & ? & ? & -> & _)|[(? & _ & _ & _ & ?)|(_ & _ & ->)]]; [|done|].
  - exists value. split; [done|]. split; [done|]. intros Hinj. by apply Hinj.
  - exists data. simpl. split; [apply lookup_insert_eq|]. done.
Qed.

(** The four steps, when all succeed. *)
Lemma attSteps_ok pubkey attData (d d' : MemDB) :
  attSteps pubkey attData d = (d', Ok tt) ->
  exists a_c a_0, att_duplicated pubkey attData d' a_c a_0.
Proof.
  intros Hr. unfold attSteps, bind in Hr.
  destruct (storePubKey _ _ _ d) as [d1 [[]|e1]] eqn:E1; [|done].
  destruct (storeAttData _ _ d1) as [d2 [[]|e2]] eqn:E2; [|done].
  destruct (storePubKey _ _ _ d2) as [d3 [[]|e3]] eqn:E3; [|done].
  pose proof (storePubKey_ok _ _ _ _ _ E1) as Hpk.
  destruct (storeAttData_ok _ _ _ _ E2) as (a_c & Hac & Hsc & Hic).
  pose proof (storePubKey_ok _ _ _ _ _ E3) as Hpk0.
  destruct (storeAttData_ok _ _ _ _ Hr) as (a_0 & Ha0 & Hs0 & Hi0).
  destruct (storeAttData_extends _ _ _ _ _ E2) as [X2 _].
  destruct (storePubKey_extends _ _ _ _ _ _ E3) as [X3 Y3].
  destruct (storeAttData_extends _ _ _ _ _ Hr) as [X4 Y4].
  exists a_c, a_0. unfold att_duplicated, PubKeyByAttestation.
  rewrite (X4 _ _ (X3 _ _ (X2 _ _ Hpk))), (X4 _ _ Hpk0), (Y4 _ _ (Y3 _ _ Hac)), Ha0.
  split_and!; try done. intros Hinj. split; [by apply Hic|by apply Hi0].
Qed.

Lemma att_duplicated_extends pubkey attData (d d' : MemDB) a_c a_0 :
  att_extends d d' -> att_duplicated pubkey attData d a_c a_0 ->
  att_duplicated pubkey attData d' a_c a_0.
Proof.
  intros [Hpk Hatt] (H1 & H2 & H3 & H4 & H5 & H6 & H7 & _ & _).
  unfold att_duplicated, PubKeyByAttestation.
  rewrite (Hatt _ _ H1), (Hatt _ _ H2), (Hpk _ _ H6), (Hpk _ _ H7). done.
Qed.

Lemma forEach_extends (xs : list (PubKey * UnsignedData)) (d d' : MemDB) r :
  forEach (fun p => storeAttestationUnsafe p.1 p.2) xs d = (d', r) -> att_extends d d'.
Proof.
  intros Hr.
  eapply (preserves_forEach (att_extends d)); [|apply att_extends_refl|exact Hr].
  intros x _ y y' r' Hy Hs. eapply att_extends_trans; [exact Hy|].
  by eapply storeAttestationUnsafe_extends.
Qed.

(** A batch that succeeds has recorded each of its payloads twice. *)
Lemma forEach_att_ok (xs : list (PubKey * UnsignedData)) :
  forall (d d' : MemDB) pubkey ud cloned attData,
    forEach (fun p => storeAttestationUnsafe p.1 p.2) xs d = (d', Ok tt) ->
    (pubkey, ud) ∈ xs -> Clone ud = Ok cloned -> asAttestationData cloned = Some attData ->
    exists a_c a_0, att_duplicated pubkey attData d' a_c a_0.
Proof.
  induction xs as [|x rest IH]; intros d d' pubkey ud cloned attData Hr Hin Hc Ha.
  - by apply elem_of_nil in Hin.
  - simpl in Hr. unfold bind in Hr.
    destruct (storeAttestationUnsafe x.1 x.2 d) as [d1 [[]|e]] eqn:Hx; [|done].
    apply elem_of_cons in Hin as [Heq|Hin].
    + subst x. simpl in Hx. rewrite (storeAttestationUnsafe_steps _ _ _ _ _ Hc Ha) in Hx.
      destruct (attSteps_ok _ _ _ _ Hx) as (a_c & a_0 & Hdup).
      exists a_c, a_0. eapply att_duplicated_extends; [|exact Hdup].
      by eapply forEach_extends.
    + by eapply IH.
Qed.

Lemma await_attestation_yields_present (slot commIdx : uint64)
    (value : p0AttestationData) (w : World) :
  chan_inv w -> attDuties (db w) !! attKey.mk slot commIdx = Some value ->
  await_attestation_yields slot commIdx value w.
Proof.
  intros Hinv Hentry.
  destruct (AwaitAttestation_register_spec slot commIdx w Hinv)
    as (w1 & Hreg & _ & Hsd & Hcl & Hdel).
  rewrite Hentry in Hdel. destruct Hdel as [Hbuf _].
  exists w1. split; [done|]. split; [done|]. intros Hrunning.
  assert (Hopen : nextChan w ∉ closed w1).
  { rewrite Hcl. intros Hin. destruct Hinv as (_ & _ & _ & _ & Hlt).
    apply Hlt in Hin. lia. }
  rewrite <- Hsd in Hrunning.
  destruct (select_return_value _ _ _ _ _ Hbuf Hopen Hrunning) as [Hzero Hany].
  split.
  - unfold AwaitAttestation_return. rewrite Hzero. by eexists.
  - intros pick w2 r. unfold AwaitAttestation_return.
    destruct (select_return (nextChan w) None pick (attResp w1) w1)
      as [[[heap w3] r3]|] eqn:Hs; [|done].
    apply Hany in Hs as ->. by intros [= _ <-].
Qed.

Lemma deletes_keep_attester (expired : list Duty.t) (d d' : MemDB) r :
  Forall (fun x => Duty.Type_ x ≠ DutyAttester) expired ->
  forEach deleteDutyUnsafe expired d = (d', r) -> same_attester d d'.
Proof.
  intros Hexp Hr.
  eapply (preserves_forEach (same_attester d)); [|by repeat split|exact Hr].
  intros x Hx y y' r' (Hy1 & Hy2 & Hy3) Hdel.
  rewrite Forall_forall in Hexp. specialize (Hexp x Hx).
  apply deleteDutyUnsafe_spec in Hdel.
  destruct (Duty.Type_ x); try done.
  - destruct Hdel as (_ & _ & (? & ? & ?) & _). repeat split; congruence.
  - by destruct Hdel as [-> _].
  - destruct Hdel as (_ & _ & _ & (? & ? & ?) & _). repeat split; congruence.
  - destruct Hdel as (_ & _ & _ & (? & ? & ?) & _). repeat split; congruence.
  - by destruct Hdel as [-> _].
Qed.

(** C4. A successful attester store records the attestation under the
    committee index of the duty and under committee index 0, and the
    public key under both with the validator index; the two attestations
    print the same, so they are the same template, and AwaitAttestation
    for either committee index receives it; PubKeyByAttestation answers
    the public key for both. The first part is about the store function
    alone; the second about [Store] in a run, when the store does not
    process the expiration of an attester duty on its way out. *)
Theorem attester_store_duplicates :
  (forall (d d' : MemDB) pubkey ud cloned attData,
     Clone ud = Ok cloned -> asAttestationData cloned = Some attData ->
     storeAttestationUnsafe pubkey ud d = (d', Ok tt) ->
     exists a_c a_0, att_duplicated pubkey attData d' a_c a_0)
  /\ (forall (w w' : World) expired duty unsignedSet pubkey ud cloned attData,
        reachable w -> Duty.Type_ duty = DutyAttester ->
        (pubkey, ud) ∈ unsignedSet ->
        Clone ud = Ok cloned -> asAttestationData cloned = Some attData ->
        Forall (fun x => Duty.Type_ x ≠ DutyAttester) expired ->
        Store true expired duty unsignedSet w = Some (w', Ok tt) ->
        exists a_c a_0,
          att_duplicated pubkey attData (db w') a_c a_0
          /\ await_attestation_yields (att_Slot (Data attData))
               (AttesterDuty.CommitteeIndex (Duty_ attData)) a_c w'
          /\ await_attestation_yields (att_Slot (Data attData)) 0 a_0 w').
Proof.
  split.
  - intros d d' pubkey ud cloned attData Hc Ha Hr.
    rewrite (storeAttestationUnsafe_steps _ _ _ _ _ Hc Ha) in Hr.
    by eapply attSteps_ok.
  - intros w w' expired duty unsignedSet pubkey ud cloned attData
      Hw Hty Hin Hc Ha Hexp Hst.
    assert (Hw' : reachable w').
    { eapply (reachable_step (OpStore true expired duty unsignedSet)); [exact Hw|].
      simpl. by rewrite Hst. }
    pose proof (reachable_chan_inv _ Hw') as Hinv.
    unfold Store in Hst. simpl in Hst. rewrite Hty in Hst.
    apply storeResolveDelete_cases in Hst
      as [(d1 & e & _ & _ & ?)|(d1 & w2 & d3 & H1 & H2 & H3 & ->)]; [done|].
    destruct (forEach_att_ok _ _ _ _ _ _ _ H1 Hin Hc Ha) as (a_c & a_0 & Hdup).
    destruct (resolvers_frame _ _ (or_introl H2)) as ((E1 & E2 & _) & _).
    destruct (deletes_keep_attester _ _ _ _ Hexp H3) as (F1 & F2 & _).
    simpl in E1, E2.
    assert (Hdup' : att_duplicated pubkey attData d3 a_c a_0).
    { eapply att_duplicated_extends; [|exact Hdup].
      split; intros ? ? ?; congruence. }
    exists a_c, a_0. split; [exact Hdup'|].
    destruct Hdup' as (L1 & L2 & _).
    split; by apply await_attestation_yields_present.
Qed.

Lemma storePubKey_None pKey pk slot (d : MemDB) :
  attPubKeys d !! pKey = None ->
  storePubKey pKey pk slot d
  = (set_attKeysBySlot (append_at slot pKey (attKeysBySlot d))
       (set_attPubKeys (<[pKey := pk]> (attPubKeys d)) d), Ok tt).
Proof. intros Hk. unfold storePubKey. db_unfold. by rewrite Hk. Qed.

Lemma storePubKey_Some pKey pk slot (d : MemDB) value :
  attPubKeys d !! pKey = Some value ->
  storePubKey pKey pk slot d
  = (d, if decide (value ≠ pk) then Err (ErrClashingPubKey pKey) else Ok tt).
Proof.
  intros Hk. unfold storePubKey. db_unfold. rewrite Hk. by destruct (decide _).
Qed.

Lemma storeAttData_None aKey data (d : MemDB) :
  attDuties d !! aKey = None ->
  storeAttData aKey data d = (set_attDuties (<[aKey := data]> (attDuties d)) d, Ok tt).
Proof. intros Hk. unfold storeAttData. db_unfold. by rewrite Hk. Qed.

Lemma storeAttData_Some aKey data (d : MemDB) value :
  attDuties d !! aKey = Some value ->
  storeAttData aKey data d
  = (d, if decide (att_String value ≠ att_String data)
        then Err (ErrClashingAttData aKey) else Ok tt).
Proof.
  intros Hk. unfold storeAttData. db_unfold. rewrite Hk. by destruct (decide _).
Qed.

(** An attester batch that fails at one payload returns there. *)
Lemma forEach_app_err {A} (f : A -> DB unit) (xs ys : list A) (x : A)
    (d d1 d2 : MemDB) (e : error) :
  forEach f xs d = (d1, Ok tt) -> f x d1 = (d2, Err e) ->
  forEach f (xs ++ x :: ys) d = (d2, Err e).
Proof.
  revert d. induction xs as [|y rest IH]; intros d Hxs Hx; simpl in *.
  - unfold ret in Hxs. injection Hxs as <-. unfold bind. by rewrite Hx.
  - unfold bind in *. destruct (f y d) as [d0 [[]|e0]]; [by apply IH|done].
Qed.

(** C9. A failing attester store is not atomic. (1) When the public key
    is new and the attestation under the key of the duty clashes, the
    error is returned with the public key inserted and listed. (2) When
    the committee index is not 0, the entries under it are new and the
    public key under committee index 0 clashes, the error is returned
    with the public key and the attestation under the committee index of
    the duty inserted. (3) When a payload of a batch fails, [Store]
    returns the error with everything the earlier payloads and the
    failing one wrote; no resolver pass runs and no expired duty is
    deleted. *)
Theorem failing_attester_store_keeps_writes :
  (forall (d : MemDB) pubkey ud cloned attData value,
     let pKey := pkKey.mk (att_Slot (Data attData))
                          (AttesterDuty.CommitteeIndex (Duty_ attData))
                          (AttesterDuty.ValidatorIndex (Duty_ attData)) in
     let aKey := attKey.mk (att_Slot (Data attData))
                           (AttesterDuty.CommitteeIndex (Duty_ attData)) in
     Clone ud = Ok cloned -> asAttestationData cloned = Some attData ->
     attPubKeys d !! pKey = None ->
     attDuties d !! aKey = Some value ->
     att_String value ≠ att_String (Data attData) ->
     exists d',
       storeAttestationUnsafe pubkey ud d = (d', Err (ErrClashingAttData aKey))
       /\ attPubKeys d' !! pKey = Some pubkey
       /\ pKey ∈ default [] (attKeysBySlot d' !! AttesterDuty.Slot (Duty_ attData)))
  /\ (forall (d : MemDB) pubkey ud cloned attData other,
        let pKey := pkKey.mk (att_Slot (Data attData))
                             (AttesterDuty.CommitteeIndex (Duty_ attData))
                             (AttesterDuty.ValidatorIndex (Duty_ attData)) in
        let aKey := attKey.mk (att_Slot (Data attData))
                              (AttesterDuty.CommitteeIndex (Duty_ attData)) in
        let pKeyCommIdx0 := pkKey.mk (att_Slot (Data attData)) 0
                                     (AttesterDuty.ValidatorIndex (Duty_ attData)) in
        Clone ud = Ok cloned -> asAttestationData cloned = Some attData ->
        AttesterDuty.CommitteeIndex (Duty_ attData) ≠ 0%N ->
        attPubKeys d !! pKey = None -> attDuties d !! aKey = None ->
        attPubKeys d !! pKeyCommIdx0 = Some other -> other ≠ pubkey ->
        exists d',
          storeAttestationUnsafe pubkey ud d = (d', Err (ErrClashingPubKey pKeyCommIdx0))
          /\ attPubKeys d' !! pKey = Some pubkey
          /\ attDuties d' !! aKey = Some (Data attData))
  /\ (forall (w : World) expired duty earlier later p d1 d2 e,
        Duty.Type_ duty = DutyAttester ->
        forEach (fun p => storeAttestationUnsafe p.1 p.2) earlier (db w) = (d1, Ok tt) ->
        storeAttestationUnsafe p.1 p.2 d1 = (d2, Err e) ->
        Store true expired duty (earlier ++ p :: later) w = Some (set_db d2 w, Err e)
        /\ att_extends d1 d2
        /\ forall pubkey ud cloned attData,
             (pubkey, ud) ∈ earlier ->
             Clone ud = Ok cloned -> asAttestationData cloned = Some attData ->
             exists a_c a_0, att_duplicated pubkey attData d2 a_c a_0).
Proof.
  split; [|split].
  - intros d pubkey ud cloned attData value pKey aKey Hc Ha Hpk Hatt Hne.
    rewrite (storeAttestationUnsafe_steps _ _ _ _ _ Hc Ha).
    unfold attSteps, bind. fold pKey aKey.
    rewrite (storePubKey_None _ _ _ _ Hpk).
    erewrite storeAttData_Some by (simpl; exact Hatt).
    rewrite decide_True by done.
    eexists. split; [reflexivity|]. simpl. split; [apply lookup_insert_eq|].
    rewrite lookup_append_at, decide_True by done. apply elem_of_app. right. left.
  - intros d pubkey ud cloned attData other pKey aKey pKey0 Hc Ha Hidx Hpk Hatt Hpk0 Hne.
    rewrite (storeAttestationUnsafe_steps _ _ _ _ _ Hc Ha).
    unfold attSteps, bind. fold pKey aKey pKey0.
    rewrite (storePubKey_None _ _ _ _ Hpk).
    erewrite storeAttData_None by (simpl; exact Hatt).
    assert (Hdiff : pKey ≠ pKey0) by (unfold pKey, pKey0; congruence).
    erewrite storePubKey_Some
      by (simpl; rewrite lookup_insert_ne by exact Hdiff; exact Hpk0).
    rewrite decide_True by done.
    eexists. split; [reflexivity|]. simpl. split; apply lookup_insert_eq.
  - intros w expired duty earlier later p d1 d2 e Hty Hearlier Hfail.
    split; [|split].
    + unfold Store. simpl. rewrite Hty. unfold storeResolveDelete.
      by rewrite (forEach_app_err _ _ _ _ _ _ _ _ Hearlier Hfail).
    + by eapply storeAttestationUnsafe_extends.
    + intros pubkey ud cloned attData Hin Hc Ha.
      destruct (forEach_att_ok _ _ _ _ _ _ _ Hearlier Hin Hc Ha) as (a_c & a_0 & Hdup).
      exists a_c, a_0. eapply att_duplicated_extends; [|exact Hdup].
      by eapply storeAttestationUnsafe_extends.
Qed.

(** ** Shutdown (C7) *)

Lemma run_shutdown (ops : list Op) (w w' : World) :
  run ops w = Some w' -> shutdown (db w) = true -> shutdown (db w') = true.
Proof.
  intros Hrun Hsd.
  eapply (run_invariant (fun _ => True) (fun x => shutdown (db x) = true));
    [| |exact Hsd|exact Hrun].
  - intros op w1 w2 _ H1 H2. by eapply exec_shutdown.
  - by apply Forall_true.
Qed.

(** C7, amended. Once the database is shut down it stays shut down, and
    for every Await call, waiting or made later: the select has its
    shutdown case ready, so taking the first ready case the call returns
    a shutdown error without waiting; whatever case is taken, the call
    returns a shutdown error, the error of its context if that is done,
    or the value in its channel if one was sent; so with an empty channel
    and a live context it returns a shutdown error, as every call still
    queued in a run does. *)
Theorem await_after_shutdown (w : World) :
  shutdown (db w) = true ->
  (forall ops w', run ops w = Some w' -> shutdown (db w') = true)
  /\ (forall V (heap : gmap chan (buffered V)) id ctxErr,
        id ∉ closed w -> is_Some (heap !! id) ->
        exists heap' w', select_return id ctxErr 0 heap w
                         = Some (heap', w', Err ErrShutdown))
  /\ (forall V (heap heap' : gmap chan (buffered V)) id ctxErr pick w' r,
        select_return id ctxErr pick heap w = Some (heap', w', r) ->
        select_outcome id ctxErr heap r
        /\ (ctxErr = None -> (forall c, heap !! id = Some c -> buf c = []) ->
            r = Err ErrShutdown))
  /\ empty_awaits_fail w
  /\ (reachable w -> queued_are_empty w).
Proof.
  intros Hsd.
  assert (Hsel : forall V (heap heap' : gmap chan (buffered V)) id ctxErr pick w' r,
             select_return id ctxErr pick heap w = Some (heap', w', r) ->
             select_outcome id ctxErr heap r
             /\ (ctxErr = None -> (forall c, heap !! id = Some c -> buf c = []) ->
                 r = Err ErrShutdown)).
  { intros V heap heap' id ctxErr pick w' r Hs.
    apply select_return_cases in Hs as (_ & c & Hid & Hp & _ & _).
    rewrite Hsd in Hp. unfold select_ready in Hp.
    destruct pick as [|pick]; simpl in Hp.
    { injection Hp as <-. split; [by left|done]. }
    destruct ctxErr as [e|]; simpl in Hp.
    - destruct pick as [|pick]; simpl in Hp.
      { injection Hp as <-. split; [right; left; by exists e|done]. }
      destruct (buf c) as [|value rest] eqn:Hb; [done|].
      destruct pick; [|done]. simpl in Hp. injection Hp as <-.
      split; [|done]. right; right. exists c, value. by rewrite Hb.
    - destruct (buf c) as [|value rest] eqn:Hb; [done|].
      destruct pick; [|done]. simpl in Hp. injection Hp as <-.
      split.
      + right; right. exists c, value. by rewrite Hb.
      + intros _ Hempty. specialize (Hempty c Hid). congruence. }
  split_and!.
  - intros ops w' Hrun. by eapply run_shutdown.
  - intros V heap id ctxErr Hopen [c Hid]. unfold select_return.
    apply cancelled_false in Hopen. rewrite Hopen, Hid, Hsd. simpl. by eexists _, _.
  - exact Hsel.
  - unfold empty_awaits_fail. split_and!; intros id pick w' r.
    + unfold AwaitProposal_return.
      destruct (select_return id None pick (proResp w) w) as [[[heap w1] r1]|] eqn:Hs;
        [|done].
      intros [= _ <-] Hempty. by eapply Hsel.
    + unfold AwaitAttestation_return.
      destruct (select_return id None pick (attResp w) w) as [[[heap w1] r1]|] eqn:Hs;
        [|done].
      intros [= _ <-] Hempty. by eapply Hsel.
    + unfold AwaitAggAttestation_return.
      destruct (select_return id None pick (aggResp w) w) as [[[heap w1] r1]|] eqn:Hs;
        [|done].
      intros [= _ <-] Hempty.
      destruct (Hsel _ _ _ _ _ _ _ _ Hs) as [_ Hr]. by rewrite (Hr eq_refl Hempty).
    + unfold AwaitSyncContribution_return.
      destruct (select_return id None pick (contribResp w) w)
        as [[[heap w1] r1]|] eqn:Hs; [|done].
      intros [= _ <-] Hempty. by eapply Hsel.
  - intros Hw. destruct (reachable_chan_inv w Hw) as (Hatt & Hpro & Hagg & Hcon & _).
    unfold queued_are_empty. split_and!; intros q c Hq Hc.
    + destruct Hpro as (_ & Hemp & _). rewrite (Hemp q Hq) in Hc. by injection Hc as <-.
    + destruct Hatt as (_ & Hemp & _). rewrite (Hemp q Hq) in Hc. by injection Hc as <-.
    + destruct Hagg as (_ & Hemp & _). rewrite (Hemp q Hq) in Hc. by injection Hc as <-.
    + destruct Hcon as (_ & Hemp & _). rewrite (Hemp q Hq) in Hc. by injection Hc as <-.
Qed.

(** ** Store, then await (C1) *)

Lemma await_proposal_yields_present (slot : uint64) (value : VersionedProposal)
    (w : World) :
  chan_inv w -> proDuties (db w) !! slot = Some value ->
  await_proposal_yields slot value w.
Proof.
  intros Hinv Hentry.
  destruct (AwaitProposal_register_spec slot w Hinv)
    as (w1 & Hreg & _ & Hsd & Hcl & Hdel).
  rewrite Hentry in Hdel. destruct Hdel as [Hbuf _].
  exists w1. split; [done|]. split; [done|]. intros Hrunning.
  assert (Hopen : nextChan w ∉ closed w1).
  { rewrite Hcl. intros Hin. destruct Hinv as (_ & _ & _ & _ & Hlt).
    apply Hlt in Hin. lia. }
  rewrite <- Hsd in Hrunning.
  destruct (select_return_value _ _ _ _ _ Hbuf Hopen Hrunning) as [Hzero Hany].
  split.
  - unfold AwaitProposal_return. rewrite Hzero. by eexists.
  - intros pick w2 r. unfold AwaitProposal_return.
    destruct (select_return (nextChan w) None pick (proResp w1) w1)
      as [[[heap w3] r3]|] eqn:Hs; [|done].
    apply Hany in Hs as ->. by intros [= _ <-].
Qed.

(** A successful proposal store leaves the proposal of its slot: the one
    that was there, or the provided one. *)
Lemma storeProposalUnsafe_ok (ud cloned : UnsignedData) (proposal : VersionedProposal)
    (slot : uint64) (d d' : MemDB) :
  Clone ud = Ok cloned -> asVersionedProposal cloned = Some proposal ->
  pro_Slot proposal = Ok slot ->
  storeProposalUnsafe ud d = (d', Ok tt) ->
  proDuties d' !! slot = Some (default proposal (proDuties d !! slot)).
Proof.
  intros Hc Ha Hs. unfold storeProposalUnsafe. db_unfold.
  rewrite Hc. db_unfold. rewrite Ha. db_unfold. rewrite Hs. db_unfold.
  destruct (proDuties d !! slot) as [existing|] eqn:Hk.
  - destruct (pro_Root existing); [|db_unfold; by intros Hr].
    destruct (pro_Root proposal); [|db_unfold; by intros Hr].
    destruct (decide _); db_unfold; [by intros Hr|]. intros [= <-]. by rewrite Hk.
  - db_unfold. intros [= <-]. simpl. apply lookup_insert_eq.
Qed.

Lemma storeProposalUnsafe_keeps ud (slot : uint64) (value : VersionedProposal) :
  preserves (fun d => proDuties d !! slot = Some value) (storeProposalUnsafe ud).
Proof.
  intros d d' r Hk Hr.
  apply storeProposalUnsafe_spec in Hr
    as [->|(? & ? & slot' & _ & _ & _ & Hnone & _ & ->)]; [done|].
  simpl. rewrite lookup_insert_ne; [done|]. intros ->. congruence.
Qed.

Lemma deleteDutyUnsafe_keeps_proposal (x : Duty.t) (slot : uint64)
    (value : VersionedProposal) :
  x ≠ Duty.mk slot DutyProposer ->
  preserves (fun d => proDuties d !! slot = Some value) (deleteDutyUnsafe x).
Proof.
  intros Hne d d' r Hk Hr. apply deleteDutyUnsafe_spec in Hr.
  destruct x as [xslot xtype]. simpl in Hr. destruct xtype.
  - destruct Hr as (_ & -> & _). rewrite lookup_delete_ne; [done|]. congruence.
  - destruct Hr as (_ & _ & _ & _ & Hp & _). unfold same_proposer in Hp. congruence.
  - by destruct Hr as [-> _].
  - destruct Hr as (_ & _ & _ & _ & Hp & _). unfold same_proposer in Hp. congruence.
  - destruct Hr as (_ & _ & _ & _ & Hp & _). unfold same_proposer in Hp. congruence.
  - by destruct Hr as [-> _].
Qed.

(** A stored proposal stays until a store deletes its slot. *)
Lemma run_keeps_proposal (slot : uint64) (value : VersionedProposal) (ops : list Op)
    (w w' : World) :
  Forall (fun op => ~ evicts_proposal slot op) ops ->
  proDuties (db w) !! slot = Some value ->
  run ops w = Some w' -> proDuties (db w') !! slot = Some value.
Proof.
  apply (run_invariant (fun op => ~ evicts_proposal slot op)
           (fun x => proDuties (db x) !! slot = Some value)).
  intros op w1 w2 HQ HP Hex.
  eapply (exec_maps_inv (fun d => proDuties d !! slot = Some value)
            (fun op => ~ evicts_proposal slot op));
    [| | | | | |exact HQ|exact HP|exact Hex].
  - intros d d' (_ & _ & _ & Hp & _) Hk. by rewrite Hp.
  - intros ud. apply storeProposalUnsafe_keeps.
  - intros _ _ _ _ _ _ p _ d d' r Hk Hr.
    apply storeAttestationUnsafe_frame in Hr as (Hp & _).
    unfold same_proposer in Hp. congruence.
  - intros ud d d' r Hk Hr. apply storeAggAttestationUnsafe_frame in Hr as (_ & Hp & _).
    unfold same_proposer in Hp. congruence.
  - intros ud d d' r Hk Hr.
    apply storeSyncContributionUnsafe_frame in Hr as (_ & Hp & _).
    unfold same_proposer in Hp. congruence.
  - intros addOk expired duty unsignedSet Hev x Hx.
    apply deleteDutyUnsafe_keeps_proposal. intros ->. by apply Hev.
Qed.

(** C1. A proposer store of one payload for [slot] that succeeds: every
    query for [slot] that was queued and not cancelled has been sent the
    stored proposal, on its empty channel, and has left the queue by the
    time the store returns; unless the store itself deleted the slot the
    proposal is in the map; and as long as no later store deletes the
    slot, the proposal stays and AwaitProposal for [slot] is sent it by
    the resolver pass of its own registration and returns it. *)
Theorem store_then_await_proposal (w w' : World) expired duty pk ud cloned
    (proposal : VersionedProposal) (slot : uint64) :
  reachable w -> Duty.Type_ duty = DutyProposer ->
  Clone ud = Ok cloned -> asVersionedProposal cloned = Some proposal ->
  pro_Slot proposal = Ok slot ->
  Store true expired duty [(pk, ud)] w = Some (w', Ok tt) ->
  let stored := default proposal (proDuties (db w) !! slot) in
  (forall q, q ∈ proQueries (db w) -> Key q = slot -> Cancel q ∉ closed w ->
             proResp w !! Response q = Some (mkChan [] 0)
             /\ proResp w' !! Response q = Some (mkChan [stored] 1)
             /\ q ∉ proQueries (db w'))
  /\ (Duty.mk slot DutyProposer ∉ expired -> proDuties (db w') !! slot = Some stored)
  /\ (forall ops w2,
        proDuties (db w') !! slot = Some stored ->
        Forall (fun op => ~ evicts_proposal slot op) ops ->
        run ops w' = Some w2 ->
        proDuties (db w2) !! slot = Some stored
        /\ await_proposal_yields slot stored w2).
Proof.
  intros Hw Hty Hc Ha Hs Hst stored.
  assert (Hw' : reachable w').
  { eapply (reachable_step (OpStore true expired duty [(pk, ud)])); [exact Hw|].
    simpl. by rewrite Hst. }
  pose proof (reachable_chan_inv _ Hw) as Hinv.
  assert (Hlater : forall ops w2,
             proDuties (db w') !! slot = Some stored ->
             Forall (fun op => ~ evicts_proposal slot op) ops ->
             run ops w' = Some w2 ->
             proDuties (db w2) !! slot = Some stored
             /\ await_proposal_yields slot stored w2).
  { intros ops w3 Hentry Hops Hrun.
    pose proof (run_keeps_proposal _ _ _ _ _ Hops Hentry Hrun) as Hkept.
    split; [done|]. apply await_proposal_yields_present; [|done].
    apply reachable_chan_inv. by eapply reachable_run. }
  unfold Store in Hst. simpl in Hst. rewrite Hty in Hst.
  apply storeResolveDelete_cases in Hst
    as [(d1 & e & _ & _ & ?)|(d1 & w2 & d3 & H1 & H2 & H3 & ->)]; [done|].
  simpl in H1. unfold bind in H1.
  destruct (storeProposalUnsafe ud (db w)) as [d0 [[]|e0]] eqn:Hsto; [|done].
  unfold ret in H1. injection H1 as ->.
  pose proof (storeProposalUnsafe_ok _ _ _ _ _ _ Hc Ha Hs Hsto) as Hstored.
  fold stored in Hstored.
  destruct (storeProposalUnsafe_waiters (db w) ud _ _ _ (same_waiters_refl _) Hsto)
    as (_ & Hq & _).
  assert (Hdel : same_waiters (db w2) d3).
  { eapply (preserves_forEach (same_waiters (db w2)));
      [intros; apply deleteDutyUnsafe_waiters|apply same_waiters_refl|exact H3]. }
  destruct Hdel as (_ & Hq3 & _).
  unfold resolveProQueriesUnsafe in H2. simpl in H2. rewrite Hq in H2.
  destruct Hinv as (_ & Hpro & _).
  destruct (waiters_ok_pass (proDuties d1) (closed w) _ _ _ Hpro)
    as (heap' & Hres & Hin & _).
  rewrite Hres in H2. injection H2 as <-. simpl in *.
  split; [|split].
  - intros q Hq' Hkey Hopen. specialize (Hin q Hq').
    apply cancelled_false in Hopen. rewrite Hopen, Hkey, Hstored in Hin.
    destruct Hin as [Hbefore Hafter]. split; [done|]. split; [done|].
    rewrite Hq3. intros Hmem. apply list_elem_of_filter in Hmem as [Hstay _].
    apply stays_queued_spec in Hstay as [_ Hnone]. congruence.
  - intros Hnot.
    refine (preserves_forEach (fun d => proDuties d !! slot = Some stored)
              deleteDutyUnsafe expired _ _ _ _ _ H3); [|exact Hstored].
    intros x Hx. apply deleteDutyUnsafe_keeps_proposal. intros ->. done.
  - exact Hlater.
Qed.

(** ** The attester index (C10) *)

Lemma appended_once_refl (slot : uint64) (d : MemDB) : appended_once slot d d.
Proof.
  exists []. rewrite app_nil_r. split_and!; try done; [apply NoDup_nil_2|].
  intros k. split; [by intros ?%elem_of_nil|].
  intros [Hn [v Hs]]. congruence.
Qed.

Lemma appended_once_trans (slot : uint64) (d1 d2 d3 : MemDB) :
  appended_once slot d1 d2 -> appended_once slot d2 d3 -> appended_once slot d1 d3.
Proof.
  intros (a1 & Hl1 & Ho1 & Hn1 & Hi1 & Hm1) (a2 & Hl2 & Ho2 & Hn2 & Hi2 & Hm2).
  exists (a1 ++ a2). split_and!.
  - by rewrite Hl2, Hl1, app_assoc.
  - intros t Ht. by rewrite Ho2, Ho1.
  - apply NoDup_app. split; [done|]. split; [|done].
    intros k Hk1 Hk2. apply Hi1 in Hk1 as [_ [v Hv]]. apply Hi2 in Hk2 as [Hnone _].
    congruence.
  - intros k. rewrite elem_of_app, Hi1, Hi2. split.
    + intros [[Hn Hs]|[Hn Hs]]; split; auto.
      destruct (attPubKeys d1 !! k) eqn:Hk; [|done].
      destruct (Hm1 k) as [v Hv]; [by eexists|]. congruence.
    + intros [Hn Hs]. destruct (attPubKeys d2 !! k) eqn:Hk.
      * left. split; [done|]. by eexists.
      * right. done.
  - intros k Hk. by apply Hm2, Hm1.
Qed.

Lemma storePubKey_appended pKey pk slot (d d' : MemDB) r :
  storePubKey pKey pk slot d = (d', r) -> appended_once slot d d'.
Proof.
  intros Hr.
  apply storePubKey_spec in Hr as [(_ & -> & _)|[(? & _ & _ & -> & _)|(Hn & _ & ->)]];
    try apply appended_once_refl.
  exists [pKey]. simpl. split_and!.
  - by rewrite lookup_append_at, decide_True.
  - intros t Ht. unfold append_at. by rewrite lookup_insert_ne.
  - apply NoDup_singleton.
  - intros k. rewrite list_elem_of_singleton. split.
    + intros ->. split; [done|]. rewrite lookup_insert_eq. by eexists.
    + intros [Hnone Hsome]. destruct (decide (pKey = k)) as [<-|Hne]; [done|].
      rewrite lookup_insert_ne in Hsome by done. destruct Hsome. congruence.
  - intros k [v Hv]. destruct (decide (pKey = k)) as [<-|Hne].
    + rewrite lookup_insert_eq. by eexists.
    + rewrite lookup_insert_ne by done. by eexists.
Qed.

Lemma storeAttData_appended aKey data slot (d d' : MemDB) r :
  storeAttData aKey data d = (d', r) -> appended_once slot d d'.
Proof.
  intros Hr.
  apply storeAttData_spec in Hr
    as [(? & _ & _ & -> & _)|[(? & _ & _ & -> & _)|(Hn & _ & ->)]];
    try apply appended_once_refl.
  exists []. simpl. rewrite app_nil_r. split_and!; try done; [apply NoDup_nil_2|].
  intros k. split; [by intros ?%elem_of_nil|].
  intros [Hnone [v Hs]]. congruence.
Qed.

Lemma storeAttestationUnsafe_appended pubkey ud (d d' : MemDB) r :
  storeAttestationUnsafe pubkey ud d = (d', r) ->
  d' = d
  \/ exists cloned attData,
       Clone ud = Ok cloned /\ asAttestationData cloned = Some attData
       /\ appended_once (AttesterDuty.Slot (Duty_ attData)) d d'.
Proof.
  intros Hr.
  apply storeAttestationUnsafe_cases in Hr as [[-> _]|(cloned & attData & Hc & Ha & Hr)];
    [by left|].
  right. exists cloned, attData. split; [done|]. split; [done|].
  eapply (attSteps_preserves (appended_once (AttesterDuty.Slot (Duty_ attData)) d));
    [| |apply appended_once_refl|exact Hr].
  - intros pKey x x' r' Hx Hs. eapply appended_once_trans; [exact Hx|].
    by eapply storePubKey_appended.
  - intros aKey x x' r' Hx Hs. eapply appended_once_trans; [exact Hx|].
    by eapply storeAttData_appended.
Qed.

Lemma att_inv_ext (d d' : MemDB) : same_attester d d' -> att_inv d -> att_inv d'.
Proof. intros (Ha & Hp & Hk). unfold att_inv. by rewrite Ha, Hp, Hk. Qed.

Lemma storePubKey_att_inv pKey pk (d d' : MemDB) r :
  att_inv d -> storePubKey pKey pk (pkKey.Slot pKey) d = (d', r) -> att_inv d'.
Proof.
  intros (I1 & I2 & I3 & I4) Hr.
  apply storePubKey_spec in Hr as [(_ & -> & _)|[(? & _ & _ & -> & _)|(Hn & _ & ->)]];
    try done.
  assert (Hfresh : pKey ∉ default [] (attKeysBySlot d !! pkKey.Slot pKey)).
  { intros Hin. apply I1 in Hin as [_ [v Hv]]. congruence. }
  split_and!; simpl.
  - intros t k. rewrite lookup_append_at. destruct (decide _) as [<-|Hne].
    + rewrite elem_of_app, list_elem_of_singleton. intros [Hin| ->].
      * apply I1 in Hin as [Hs Hv]. split; [done|].
        by apply lookup_insert_is_Some'; right.
      * split; [done|]. rewrite lookup_insert_eq. by eexists.
    + intros Hin. apply I1 in Hin as [Hs Hv]. split; [done|].
      by apply lookup_insert_is_Some'; right.
  - intros t. rewrite lookup_append_at. destruct (decide _) as [<-|Hne]; [|apply I2].
    apply NoDup_app. split; [apply I2|]. split; [|apply NoDup_singleton].
    intros k Hk Hk'. apply list_elem_of_singleton in Hk' as ->. done.
  - intros k Hk. rewrite lookup_append_at.
    destruct (decide (pKey = k)) as [<-|Hne].
    + rewrite decide_True by done. apply elem_of_app. right. left.
    + rewrite lookup_insert_ne in Hk by done. apply I3 in Hk.
      destruct (decide _) as [Heq|_]; [|done]. rewrite Heq. apply elem_of_app. by left.
  - intros a Ha. destruct (I4 a Ha) as [v Hv]. exists v.
    by apply lookup_insert_is_Some'; right.
Qed.

Lemma storeAttData_att_inv aKey data (d d' : MemDB) r :
  att_inv d ->
  (exists v, is_Some (attPubKeys d !! pkKey.mk (attKey.Slot aKey) (attKey.CommIdx aKey) v)) ->
  storeAttData aKey data d = (d', r) -> att_inv d'.
Proof.
  intros (I1 & I2 & I3 & I4) Hpk Hr.
  apply storeAttData_spec in Hr
    as [(? & _ & _ & -> & _)|[(? & _ & _ & -> & _)|(Hn & _ & ->)]]; try done.
  split_and!; simpl; try done.
  intros a Ha. destruct (decide (aKey = a)) as [<-|Hne]; [done|].
  rewrite lookup_insert_ne in Ha by done. by apply I4.
Qed.

Lemma attSteps_att_inv pubkey attData (d d' : MemDB) r :
  att_Slot (Data attData) = AttesterDuty.Slot (Duty_ attData) ->
  att_inv d -> attSteps pubkey attData d = (d', r) -> att_inv d'.
Proof.
  intros Hslot Hinv Hr. unfold attSteps, bind in Hr. rewrite <- Hslot in Hr.
  destruct (storePubKey _ _ _ d) as [d1 [[]|e1]] eqn:E1.
  2:{ db_inv Hr. by eapply (storePubKey_att_inv (pkKey.mk _ _ _)). }
  pose proof (storePubKey_att_inv (pkKey.mk _ _ _) _ _ _ _ Hinv E1) as Hinv1.
  pose proof (storePubKey_ok _ _ _ _ _ E1) as Hpk.
  destruct (storeAttData _ _ d1) as [d2 [[]|e2]] eqn:E2.
  2:{ db_inv Hr. eapply storeAttData_att_inv; [exact Hinv1| |exact E2].
      simpl. eexists. by rewrite Hpk. }
  assert (Hinv2 : att_inv d2).
  { eapply storeAttData_att_inv; [exact Hinv1| |exact E2].
    simpl. eexists. by rewrite Hpk. }
  destruct (storePubKey _ _ _ d2) as [d3 [[]|e3]] eqn:E3.
  2:{ db_inv Hr. by eapply (storePubKey_att_inv (pkKey.mk _ _ _)). }
  pose proof (storePubKey_att_inv (pkKey.mk _ _ _) _ _ _ _ Hinv2 E3) as Hinv3.
  pose proof (storePubKey_ok _ _ _ _ _ E3) as Hpk0.
  eapply storeAttData_att_inv; [exact Hinv3| |exact Hr].
  simpl. eexists. by rewrite Hpk0.
Qed.

Lemma deleteDutyUnsafe_att_inv duty : preserves att_inv (deleteDutyUnsafe duty).
Proof.
  intros d d' r Hinv Hr. apply deleteDutyUnsafe_spec in Hr.
  destruct (Duty.Type_ duty).
  - destruct Hr as (_ & _ & Ha & _). by eapply att_inv_ext.
  - destruct Hr as (_ & Hidx & Hpk & Hatt & _).
    destruct Hinv as (I1 & I2 & I3 & I4).
    set (keys := default [] (attKeysBySlot d !! Duty.Slot duty)) in *.
    split_and!.
    + intros t k. rewrite Hidx, Hpk.
      destruct (decide (Duty.Slot duty = t)) as [<-|Hne].
      { rewrite lookup_delete_eq. simpl. by intros ?%elem_of_nil. }
      rewrite lookup_delete_ne by done. intros Hin.
      destruct (I1 _ _ Hin) as [Hs Hv]. split; [done|].
      rewrite decide_False; [done|]. intros Hk. apply I1 in Hk as [Hs' _]. congruence.
    + intros t. rewrite Hidx. destruct (decide (Duty.Slot duty = t)) as [<-|Hne].
      * rewrite lookup_delete_eq. apply NoDup_nil_2.
      * rewrite lookup_delete_ne by done. apply I2.
    + intros k. rewrite Hpk, Hidx. destruct (decide (k ∈ keys)) as [Hin|Hout].
      { by intros [? ?]. }
      intros Hk. pose proof (I3 k Hk) as Hl.
      rewrite lookup_delete_ne; [done|]. intros Heq. apply Hout.
      unfold keys. by rewrite Heq.
    + intros a. rewrite Hatt. destruct (decide _) as [Hin|Hout]; [by intros [? ?]|].
      intros Ha. destruct (I4 a Ha) as [v Hv]. exists v. rewrite Hpk.
      rewrite decide_False; [done|]. intros Hk. apply Hout.
      apply list_elem_of_fmap. eexists. split; [|exact Hk]. by destruct a.
  - by destruct Hr as [-> _].
  - destruct Hr as (_ & _ & _ & Ha & _). by eapply att_inv_ext.
  - destruct Hr as (_ & _ & _ & Ha & _). by eapply att_inv_ext.
  - by destruct Hr as [-> _].
Qed.

Lemma exec_att_inv (op : Op) (w w' : World) :
  slots_agree op -> att_inv (db w) -> exec op w = Some w' -> att_inv (db w').
Proof.
  intros Hop Hinv Hex.
  eapply (exec_maps_inv att_inv slots_agree); [| | | | | |exact Hop|exact Hinv|exact Hex].
  - intros d d' (Ha & Hp & Hk & _). by apply att_inv_ext.
  - intros ud d d' r HP Hr. apply storeProposalUnsafe_frame in Hr as (Ha & _).
    by eapply att_inv_ext.
  - intros addOk expired duty unsignedSet Hagree Hty p Hp d d' r HP Hr.
    apply storeAttestationUnsafe_cases in Hr
      as [[-> _]|(cloned & attData & Hc & Ha & Hr)]; [done|].
    eapply attSteps_att_inv; [|exact HP|exact Hr].
    simpl in Hagree. by eapply Hagree.
  - intros ud d d' r HP Hr. apply storeAggAttestationUnsafe_frame in Hr as (Ha & _).
    by eapply att_inv_ext.
  - intros ud d d' r HP Hr. apply storeSyncContributionUnsafe_frame in Hr as (Ha & _).
    by eapply att_inv_ext.
  - intros. apply deleteDutyUnsafe_att_inv.
Qed.

Lemma att_inv_new : att_inv NewMemDB.
Proof.
  split_and!; simpl.
  - intros t k. rewrite lookup_empty. simpl. by intros ?%elem_of_nil.
  - intros t. rewrite lookup_empty. apply NoDup_nil_2.
  - intros k [v Hv]. by rewrite lookup_empty in Hv.
  - intros a [v Hv]. by rewrite lookup_empty in Hv.
Qed.

Lemma run_att_inv (ops : list Op) (w : World) :
  Forall slots_agree ops -> run ops NewWorld = Some w -> att_inv (db w).
Proof.
  intros Hops Hrun.
  refine (run_invariant slots_agree (fun x => att_inv (db x)) _ ops NewWorld w
            Hops att_inv_new Hrun).
  intros op w1 w2. apply exec_att_inv.
Qed.

(** ** The evictor (C5) *)

Lemma deleteDutyUnsafe_shrinks duty (d d' : MemDB) r :
  deleteDutyUnsafe duty d = (d', r) -> shrinks d d'.
Proof.
  intros Hr. apply deleteDutyUnsafe_spec in Hr. unfold shrinks.
  destruct (Duty.Type_ duty).
  - destruct Hr as (_ & -> & (-> & -> & ->) & (-> & ->) & (-> & ->)).
    split_and!; try done. intros k Hk. apply lookup_delete_None. by right.
  - destruct Hr as (_ & -> & Hpk & Hatt & -> & (-> & ->) & (-> & ->)).
    split_and!; try done.
    + intros k Hk. rewrite Hatt. by destruct (decide _).
    + intros k Hk. rewrite Hpk. by destruct (decide _).
    + intros k Hk. apply lookup_delete_None. by right.
  - destruct Hr as [-> _]. by split_and!.
  - destruct Hr as (_ & -> & Hk & (-> & -> & ->) & -> & (-> & ->)).
    split_and!; try done.
    + intros k Hn. rewrite Hk. by destruct (decide _).
    + intros k Hn. apply lookup_delete_None. by right.
  - destruct Hr as (_ & -> & Hk & (-> & -> & ->) & -> & (-> & ->)).
    split_and!; try done.
    + intros k Hn. rewrite Hk. by destruct (decide _).
    + intros k Hn. apply lookup_delete_None. by right.
  - destruct Hr as [-> _]. by split_and!.
Qed.


(** One expiration, processed in a database whose index is in order. *)
Lemma deleteDutyUnsafe_complete (duty : Duty.t) (d d' : MemDB) :
  (Duty.Type_ duty = DutyAttester -> att_inv d) -> agg_inv d -> contrib_inv d ->
  deleteDutyUnsafe duty d = (d', Ok tt) -> no_entries_for duty d'.
Proof.
  intros Hatt [_ Hagg] Hcon Hr. apply deleteDutyUnsafe_spec in Hr.
  unfold no_entries_for. destruct (Duty.Type_ duty); try done.
  - destruct Hr as (_ & -> & _). apply lookup_delete_eq.
  - destruct Hr as (_ & Hidx & Hpk & Hdata & _).
    destruct (Hatt eq_refl) as (I1 & I2 & I3 & I4).
    assert (Hlisted : forall k, pkKey.Slot k = Duty.Slot duty ->
                                is_Some (attPubKeys d !! k) ->
                                k ∈ default [] (attKeysBySlot d !! Duty.Slot duty)).
    { intros k Hs Hk. rewrite <- Hs. by apply I3. }
    split_and!.
    + intros a Hs. rewrite Hdata. destruct (decide _) as [_|Hout]; [done|].
      destruct (attDuties d !! a) eqn:Ha; [|done]. exfalso. apply Hout.
      destruct (I4 a) as [v Hv]; [by eexists|].
      apply list_elem_of_fmap.
      exists (pkKey.mk (attKey.Slot a) (attKey.CommIdx a) v).
      split; [by destruct a|]. apply Hlisted; [exact Hs|exact Hv].
    + intros k Hs. rewrite Hpk. destruct (decide _) as [_|Hout]; [done|].
      destruct (attPubKeys d !! k) eqn:Hk; [|done]. exfalso. apply Hout.
      apply Hlisted; [done|by eexists].
    + rewrite Hidx. apply lookup_delete_eq.
  - destruct Hr as (_ & Hidx & Hk & _). split.
    + intros k Hs. rewrite Hk. destruct (decide _) as [_|Hout]; [done|].
      destruct (aggDuties d !! k) eqn:Hl; [|done]. exfalso. apply Hout.
      rewrite <- Hs. apply Hagg. by eexists.
    + rewrite Hidx. apply lookup_delete_eq.
  - destruct Hr as (_ & Hidx & Hk & _). split.
    + intros k Hs. rewrite Hk. destruct (decide _) as [_|Hout]; [done|].
      destruct (contribDuties d !! k) eqn:Hl; [|done]. exfalso. apply Hout.
      rewrite <- Hs. apply Hcon. by eexists.
    + rewrite Hidx. apply lookup_delete_eq.
Qed.


(** With no entry for the duty, an Await for its slot is left waiting. *)
Lemma no_await_succeeds_absent (duty : Duty.t) (w : World) :
  chan_inv w -> no_entries_for duty (db w) -> no_await_succeeds duty w.
Proof.
  intros Hinv. unfold no_entries_for, no_await_succeeds.
  destruct (Duty.Type_ duty); try done.
  - intros Hnone.
    destruct (AwaitProposal_register_spec (Duty.Slot duty) w Hinv)
      as (w' & Hreg & _ & _ & _ & Hq).
    rewrite Hnone in Hq. exists w', (nextChan w). by destruct Hq.
  - intros (Hnone & _) commIdx.
    destruct (AwaitAttestation_register_spec (Duty.Slot duty) commIdx w Hinv)
      as (w' & Hreg & _ & _ & _ & Hq).
    rewrite Hnone in Hq by done. exists w', (nextChan w). by destruct Hq.
  - intros (Hnone & _) root.
    destruct (AwaitAggAttestation_register_spec (Duty.Slot duty) root w Hinv)
      as (w' & Hreg & _ & _ & _ & Hq).
    rewrite Hnone in Hq by done. exists w', (nextChan w). by destruct Hq.
  - intros (Hnone & _) subcommIdx root.
    destruct (AwaitSyncContribution_register_spec (Duty.Slot duty) subcommIdx root w Hinv)
      as (w' & Hreg & _ & _ & _ & Hq).
    rewrite Hnone in Hq by done. exists w', (nextChan w). by destruct Hq.
Qed.


Lemma eviction_complete_inv (duty : Duty.t) (w : World) :
  chan_inv w -> (Duty.Type_ duty = DutyAttester -> att_inv (db w)) ->
  agg_inv (db w) -> contrib_inv (db w) -> eviction_complete duty w.
Proof.
  intros Hinv Hatt Hagg Hcon d' Hdel. split.
  - by eapply deleteDutyUnsafe_complete.
  - apply no_await_succeeds_absent.
    + apply chan_inv_set_db; [|done].
      eapply deleteDutyUnsafe_waiters; [apply same_waiters_refl|exact Hdel].
    + simpl. by eapply deleteDutyUnsafe_complete.
Qed.




(** C10. The pubkey keys of an attester payload are listed under the slot
    of the duty while the entries carry the slot of the attestation data.
    A store appends to the record of the duty's slot exactly the pubkey
    keys it inserts, each once: a key that was there, as on a store again
    or for the second key when the committee index is 0, is not appended.
    When every attestation stored in a run carries the slot of its duty,
    each pubkey key is listed once, in the record of its own slot and in
    no other, each attestation has a listed pubkey key of its slot and
    committee index, and the expiration of an attester duty removes every
    attester entry of its slot. *)
Theorem attester_index_when_slots_agree :
  (forall (d d' : MemDB) pubkey ud r,
     storeAttestationUnsafe pubkey ud d = (d', r) ->
     d' = d
     \/ exists cloned attData,
          Clone ud = Ok cloned /\ asAttestationData cloned = Some attData
          /\ appended_once (AttesterDuty.Slot (Duty_ attData)) d d')
  /\ (forall (ops : list Op) (w : World),
        Forall slots_agree ops -> run ops NewWorld = Some w ->
        (forall t, NoDup (default [] (attKeysBySlot (db w) !! t)))
        /\ (forall k, is_Some (attPubKeys (db w) !! k) ->
                      forall t, k ∈ default [] (attKeysBySlot (db w) !! t)
                                <-> t = pkKey.Slot k)
        /\ (forall a, is_Some (attDuties (db w) !! a) ->
                      (exists k, k ∈ default [] (attKeysBySlot (db w) !! attKey.Slot a)
                                 /\ attKey.mk (pkKey.Slot k) (pkKey.CommIdx k) = a)
                      /\ forall t k, k ∈ default [] (attKeysBySlot (db w) !! t) ->
                                     attKey.mk (pkKey.Slot k) (pkKey.CommIdx k) = a ->
                                     t = attKey.Slot a)
        /\ (forall slot, eviction_complete (Duty.mk slot DutyAttester) w)).
Proof.
  split.
  - intros d d' pubkey ud r. apply storeAttestationUnsafe_appended.
  - intros ops w Hops Hrun.
    destruct (run_att_inv _ _ Hops Hrun) as (I1 & I2 & I3 & I4).
    split_and!.
    + exact I2.
    + intros k Hk t. split.
      * intros Hin. apply I1 in Hin as [Hs _]. done.
      * intros ->. by apply I3.
    + intros a Ha. split.
      * destruct (I4 a Ha) as [v Hv].
        exists (pkKey.mk (attKey.Slot a) (attKey.CommIdx a) v). split.
        -- by apply (I3 (pkKey.mk (attKey.Slot a) (attKey.CommIdx a) v)).
        -- by destruct a.
      * intros t k Hin <-. apply I1 in Hin as [Hs _]. done.
    + intros slot.
      assert (Hw : reachable w) by (by exists ops).
      apply eviction_complete_inv; simpl.
      * by apply reachable_chan_inv.
      * intros _. by split_and!.
      * by apply reachable_agg_inv.
      * by apply reachable_contrib_inv.
Qed.

(** ** The resolver (C6) *)


(** * Further properties *)

(** ** The errors of the store functions *)

Lemma storeProposalUnsafe_errors ud (d d' : MemDB) e :
  storeProposalUnsafe ud d = (d', Err e) -> is_store_error DutyProposer e = true.
Proof.
  unfold storeProposalUnsafe. db_unfold.
  destruct (Clone ud) as [cloned|e0]; [|db_unfold; by intros [= _ <-]].
  destruct (asVersionedProposal cloned) as [proposal|]; [|db_unfold; by intros [= _ <-]].
  destruct (pro_Slot proposal) as [slot|e0]; [|db_unfold; by intros [= _ <-]].
  destruct (proDuties d !! slot) as [existing|]; [|db_unfold; by intros [=]].
  destruct (pro_Root existing); [|db_unfold; by intros [= _ <-]].
  destruct (pro_Root proposal); [|db_unfold; by intros [= _ <-]].
  destruct (decide _); db_unfold; [by intros [= _ <-]|by intros [=]].
Qed.

Lemma storeSyncContributionUnsafe_errors ud (d d' : MemDB) e :
  storeSyncContributionUnsafe ud d = (d', Err e) ->
  is_store_error DutySyncContribution e = true.
Proof.
  unfold storeSyncContributionUnsafe. db_unfold.
  destruct (Clone ud) as [cloned|e0]; [|db_unfold; by intros [= _ <-]].
  destruct (asSyncContribution cloned) as [contrib|]; [|db_unfold; by intros [= _ <-]].
  destruct (contrib_HashTreeRoot contrib) as [root|e0]; [|db_unfold; by intros [= _ <-]].
  destruct (contribDuties d !! _) as [existing|]; [|db_unfold; by intros [=]].
  destruct (contrib_HashTreeRoot existing); [|db_unfold; by intros [= _ <-]].
  destruct (decide _); db_unfold; [by intros [= _ <-]|by intros [=]].
Qed.

Lemma storeAggAttestationUnsafe_errors ud (d d' : MemDB) e :
  storeAggAttestationUnsafe ud d = (d', Err e) ->
  is_store_error DutyAggregator e = true.
Proof.
  unfold storeAggAttestationUnsafe. db_unfold.
  destruct (Clone ud) as [cloned|e0]; [|db_unfold; by intros [= _ <-]].
  destruct (asVersionedAggregatedAttestation cloned) as [aggAtt|];
    [|db_unfold; by intros [= _ <-]].
  destruct (agg_Data aggAtt) as [data|e0]; [|db_unfold; by intros [= _ <-]].
  destruct (att_HashTreeRoot data) as [root|e0]; [|db_unfold; by intros [= _ <-]].
  destruct (aggDuties d !! _) as [existing|]; [|db_unfold; by intros [=]].
  destruct (agg_Data existing) as [edata|e0]; [|db_unfold; by intros [= _ <-]].
  destruct (att_HashTreeRoot edata) as [eroot|e0]; [|db_unfold; by intros [= _ <-]].
  destruct (decide _); db_unfold; [by intros [= _ <-]|by intros [=]].
Qed.

Lemma storeAttestationUnsafe_errors pubkey ud (d d' : MemDB) e :
  storeAttestationUnsafe pubkey ud d = (d', Err e) ->
  is_store_error DutyAttester e = true.
Proof.
  intros Hr.
  destruct (Clone ud) as [cloned|e0] eqn:Hc.
  2:{ unfold storeAttestationUnsafe in Hr. rewrite Hc in Hr. db_unfold.
      by injection Hr as _ <-. }
  destruct (asAttestationData cloned) as [attData|] eqn:Ha.
  2:{ unfold storeAttestationUnsafe in Hr. rewrite Hc in Hr. db_unfold.
      rewrite Ha in Hr. db_unfold. by injection Hr as _ <-. }
  rewrite (storeAttestationUnsafe_steps _ _ _ _ _ Hc Ha) in Hr. rename Hr into Hsteps.
  unfold attSteps, bind in Hsteps.
  destruct (storePubKey _ _ _ d) as [d1 [[]|e1]] eqn:H1.
  2:{ injection Hsteps as _ <-.
        apply storePubKey_spec in H1 as [(_ & _ & ?)|[(o & _ & _ & _ & [= ->])|(_ & ? & _)]];
          done. }
    destruct (storeAttData _ _ d1) as [d2 [[]|e2]] eqn:H2.
    2:{ injection Hsteps as _ <-.
        apply storeAttData_spec in H2
          as [(v & _ & _ & _ & ?)|[(v & _ & _ & _ & [= ->])|(_ & ? & _)]]; done. }
    destruct (storePubKey _ _ _ d2) as [d3 [[]|e3]] eqn:H3.
    2:{ injection Hsteps as _ <-.
        apply storePubKey_spec in H3 as [(_ & _ & ?)|[(o & _ & _ & _ & [= ->])|(_ & ? & _)]];
          done. }
    apply storeAttData_spec in Hsteps
      as [(v & _ & _ & _ & ?)|[(v & _ & _ & _ & [= ->])|(_ & ? & _)]]; done.
Qed.

Lemma forEach_errors {A} (P : error -> Prop) (f : A -> DB unit) (xs : list A) :
  (forall x d d' e, x ∈ xs -> f x d = (d', Err e) -> P e) ->
  forall d d' e, forEach f xs d = (d', Err e) -> P e /\ xs ≠ [].
Proof.
  induction xs as [|x xs IH]; intros Hf d d' e Hr; [done|].
  simpl in Hr. unfold bind in Hr.
  destruct (f x d) as [d1 [[]|e1]] eqn:Hx.
  - split; [|done]. eapply IH; [|exact Hr].
    intros y ? ? ? Hy. apply Hf. by right.
  - injection Hr as _ <-. split; [|done]. eapply Hf; [|exact Hx]. by left.
Qed.

Lemma forEach_delete_errors (expired : list Duty.t) (d d' : MemDB) e :
  forEach deleteDutyUnsafe expired d = (d', Err e) ->
  (e = ErrDeprecatedDutyBuilderProposer
   /\ exists x, x ∈ expired /\ Duty.Type_ x = DutyBuilderProposer)
  \/ (e = ErrUnknownDutyType
      /\ exists x code, x ∈ expired /\ Duty.Type_ x = DutyOther code).
Proof.
  revert d. induction expired as [|x xs IH]; intros d Hr; [done|].
  simpl in Hr. unfold bind in Hr.
  destruct (deleteDutyUnsafe x d) as [d1 [[]|e1]] eqn:Hx.
  - destruct (IH _ Hr) as [(-> & y & Hy & Ht)|(-> & y & c & Hy & Ht)].
    + left. split; [done|]. exists y. split; [by right|done].
    + right. split; [done|]. exists y, c. split; [by right|done].
  - injection Hr as _ <-. apply deleteDutyUnsafe_spec in Hx.
    destruct (Duty.Type_ x) eqn:Ht.
    + by destruct Hx as [? _].
    + by destruct Hx as [? _].
    + destruct Hx as [_ [= ->]]. left. split; [done|]. exists x. split; [by left|done].
    + by destruct Hx as [? _].
    + by destruct Hx as [? _].
    + destruct Hx as [_ [= ->]]. right. split; [done|]. exists x, code.
      split; [by left|done].
Qed.

(** X1. Every error of [Store] tells where it comes from. The expired-duty
    error means the deadliner refused the duty, and nothing was done. The
    set-length error means a proposer duty came with more than one
    payload, the unsupported-type error a duty type without a store
    function; nothing was done either. The evictor's two errors come from
    the duty type itself (builder proposer, nothing done) or from an
    expired duty the deadliner yielded during the call. Every other error
    is an error of the store function of the duty's type, on a set that is
    not empty. [Store] returns no shutdown, context or pubkey-not-found
    error. *)
Theorem Store_error_origin addOk expired duty unsignedSet (w w' : World) (e : error) :
  Store addOk expired duty unsignedSet w = Some (w', Err e) ->
  error_origin addOk expired duty unsignedSet w w' e.
Proof.
  unfold Store. destruct addOk; simpl; [|by intros [= <- <-]].
  assert (Hgen : forall stores resolve,
            is_stored_type (Duty.Type_ duty) = true ->
            (forall d d' e, stores d = (d', Err e) ->
                            is_store_error (Duty.Type_ duty) e = true /\ unsignedSet ≠ []) ->
            storeResolveDelete stores resolve expired w = Some (w', Err e) ->
            error_origin true expired duty unsignedSet w w' e).
  { intros stores resolve Hty Hst Hr.
    apply storeResolveDelete_cases in Hr
      as [(d1 & e1 & H1 & -> & [= <-])|(d1 & w2 & d3 & H1 & H2 & H3 & ->)].
    - destruct (Hst _ _ _ H1) as [He Hne].
      destruct e; simpl in He; try done; by unfold error_origin.
    - apply forEach_delete_errors in H3 as [(-> & x & Hx)|(-> & x & c & Hx)]; simpl.
      + split; [done|]. right. split; [done|]. by exists x.
      + split; [done|]. split; [done|]. by exists x, c. }
  destruct (Duty.Type_ duty) eqn:Hty.
  - destruct (decide _) as [Hlen|Hlen]; [by intros [= <- <-]|].
    apply Hgen; [done|]. intros d d' e0 Hr.
    apply (forEach_errors (fun e => is_store_error DutyProposer e = true)) in Hr; [done|].
    intros x ? ? ? _. apply storeProposalUnsafe_errors.
  - apply Hgen; [done|]. intros d d' e0 Hr.
    apply (forEach_errors (fun e => is_store_error DutyAttester e = true)) in Hr; [done|].
    intros x ? ? ? _. apply storeAttestationUnsafe_errors.
  - intros [= <- <-]. simpl. split; [done|]. by left.
  - apply Hgen; [done|]. intros d d' e0 Hr.
    apply (forEach_errors (fun e => is_store_error DutyAggregator e = true)) in Hr; [done|].
    intros x ? ? ? _. apply storeAggAttestationUnsafe_errors.
  - apply Hgen; [done|]. intros d d' e0 Hr.
    apply (forEach_errors (fun e => is_store_error DutySyncContribution e = true)) in Hr;
      [done|].
    intros x ? ? ? _. apply storeSyncContributionUnsafe_errors.
  - intros [= <- <-]. simpl. split; [done|]. split; [by exists code|done].
Qed.

(** ** What a store does to the waiters *)

Lemma same_channels_refl (w : World) : same_channels w w.
Proof. unfold same_channels, same_waiters. by split_and!. Qed.

Lemma same_channels_set_db (d : MemDB) (w : World) :
  same_waiters (db w) d -> same_channels w (set_db d w).
Proof. intros Hd. unfold same_channels. simpl. by split_and!. Qed.

Lemma forEach_waiters {A} (f : A -> DB unit) (xs : list A) (d d' : MemDB) r :
  (forall x d0, preserves (same_waiters d0) (f x)) ->
  forEach f xs d = (d', r) -> same_waiters d d'.
Proof.
  intros Hf Hr.
  refine (preserves_forEach (same_waiters d) f xs _ _ _ _ (same_waiters_refl d) Hr).
  intros x _. apply Hf.
Qed.

(** X2. A [Store] that fails while it stores returns before the resolver:
    it sends to no waiter and leaves every queue as it was, also the
    waiters of the keys it has written. Only the error of an expired duty
    comes after the resolver pass. *)
Theorem failed_store_wakes_no_waiter addOk expired duty unsignedSet (w w' : World)
    (e : error) :
  Store addOk expired duty unsignedSet w = Some (w', Err e) ->
  is_delete_error e = false ->
  same_channels w w'.
Proof.
  unfold Store. destruct addOk; simpl; [|intros [= <- <-] _; apply same_channels_refl].
  intros Hr Hne.
  assert (Hgen : forall stores resolve,
            (forall d0, preserves (same_waiters d0) stores) ->
            storeResolveDelete stores resolve expired w = Some (w', Err e) ->
            same_channels w w').
  { intros stores resolve Hst Hs.
    apply storeResolveDelete_cases in Hs
      as [(d1 & e1 & H1 & -> & _)|(d1 & w2 & d3 & H1 & H2 & H3 & ->)].
    - apply same_channels_set_db. eapply Hst; [apply same_waiters_refl|exact H1].
    - apply forEach_delete_errors in H3 as [(-> & _)|(-> & _)]; done. }
  destruct (Duty.Type_ duty).
  - destruct (decide _); [injection Hr as <- _; apply same_channels_refl|].
    eapply Hgen; [|exact Hr]. intros d0 d d' r Hd Hf.
    eapply (preserves_forEach (same_waiters d0)); [|exact Hd|exact Hf].
    intros x _. apply storeProposalUnsafe_waiters.
  - eapply Hgen; [|exact Hr]. intros d0 d d' r Hd Hf.
    eapply (preserves_forEach (same_waiters d0)); [|exact Hd|exact Hf].
    intros x _. apply storeAttestationUnsafe_waiters.
  - injection Hr as <- _. apply same_channels_refl.
  - eapply Hgen; [|exact Hr]. intros d0 d d' r Hd Hf.
    eapply (preserves_forEach (same_waiters d0)); [|exact Hd|exact Hf].
    intros x _. apply storeAggAttestationUnsafe_waiters.
  - eapply Hgen; [|exact Hr]. intros d0 d d' r Hd Hf.
    eapply (preserves_forEach (same_waiters d0)); [|exact Hd|exact Hf].
    intros x _. apply storeSyncContributionUnsafe_waiters.
  - injection Hr as <- _. apply same_channels_refl.
Qed.

(** The queue a resolver pass leaves, whenever it completes. *)
Lemma resolveQueries_unresolved {K} `{Countable K} {V} (duties : gmap K V)
    (closed : gset chan) (queries : list (query K)) :
  forall (heap heap' : gmap chan (buffered V)) unresolved,
    resolveQueries duties closed queries heap = Some (unresolved, heap') ->
    unresolved = filter (fun q => stays_queued duties closed q = true) queries.
Proof.
  induction queries as [|q qs IH]; intros heap heap' unresolved Hr; simpl in Hr.
  - by injection Hr as <- _.
  - destruct (cancelled closed (Cancel q)) eqn:Hc.
    + rewrite filter_cons_False; [by eapply IH|].
      rewrite stays_queued_spec. intros [? _]. congruence.
    + destruct (duties !! Key q) as [value|] eqn:Hk.
      * destruct (send (Response q) value heap) as [heap1|]; [|done].
        rewrite filter_cons_False; [by eapply IH|].
        rewrite stays_queued_spec. intros [_ ?]. congruence.
      * destruct (resolveQueries duties closed qs heap) as [[un h1]|] eqn:Hrest; [|done].
        injection Hr as <- <-.
        rewrite filter_cons_True; [|by apply stays_queued_spec].
        f_equal. by eapply IH.
Qed.

Lemma forEach_delete_shrinks (expired : list Duty.t) :
  forall (d d' : MemDB) r, forEach deleteDutyUnsafe expired d = (d', r) -> shrinks d d'.
Proof.
  induction expired as [|x xs IH]; intros d d' r Hr; simpl in Hr.
  - injection Hr as <- _. unfold shrinks. by split_and!.
  - unfold bind in Hr. destruct (deleteDutyUnsafe x d) as [d1 [[]|e]] eqn:Hx.
    + apply deleteDutyUnsafe_shrinks in Hx. apply IH in Hr.
      unfold shrinks in *. destruct Hx as (A1 & A2 & A3 & A4 & A5 & A6 & A7 & A8).
      destruct Hr as (B1 & B2 & B3 & B4 & B5 & B6 & B7 & B8).
      split_and!; eauto.
    + injection Hr as <- _. by eapply deleteDutyUnsafe_shrinks.
Qed.

(** X3. When [Store] returns without error, no query of the duty's type
    is left queued for a key that is in the map: the resolver pass has
    answered or dropped every such query, and the deletions that follow
    only remove entries. The same holds when an Await call has
    registered. *)
Theorem successful_store_leaves_no_served_waiter :
  (forall addOk expired duty unsignedSet (w w' : World),
     Store addOk expired duty unsignedSet w = Some (w', Ok tt) ->
     none_waits_for_present (Duty.Type_ duty) w')
  /\ (forall slot (w w' : World) id,
        AwaitProposal_register slot w = Some (w', id) ->
        none_waits_for_present DutyProposer w')
  /\ (forall slot commIdx (w w' : World) id,
        AwaitAttestation_register slot commIdx w = Some (w', id) ->
        none_waits_for_present DutyAttester w')
  /\ (forall slot root (w w' : World) id,
        AwaitAggAttestation_register slot root w = Some (w', id) ->
        none_waits_for_present DutyAggregator w')
  /\ (forall slot subcommIdx root (w w' : World) id,
        AwaitSyncContribution_register slot subcommIdx root w = Some (w', id) ->
        none_waits_for_present DutySyncContribution w').
Proof.
  split_and!.
  - intros addOk expired duty unsignedSet w w'. unfold Store.
    destruct addOk; simpl; [|done].
    assert (Hgen : forall stores resolve,
              storeResolveDelete stores resolve expired w = Some (w', Ok tt) ->
              exists w2 d3, resolve (set_db (stores (db w)).1 w) = Some w2
                            /\ shrinks (db w2) d3 /\ same_waiters (db w2) d3
                            /\ w' = set_db d3 w2).
    { intros stores resolve Hs.
      apply storeResolveDelete_cases in Hs
        as [(d1 & e1 & _ & _ & ?)|(d1 & w2 & d3 & H1 & H2 & H3 & ->)]; [done|].
      exists w2, d3. rewrite H1. split; [done|]. split; [by eapply forEach_delete_shrinks|].
      split; [|done]. eapply forEach_waiters; [|exact H3].
      intros x d0. apply deleteDutyUnsafe_waiters. }
    destruct (Duty.Type_ duty); try done.
    + destruct (decide _); [done|]. intros Hr.
      apply Hgen in Hr as (w2 & d3 & Hres & Hsh & (_ & Hq & _) & ->).
      unfold resolveProQueriesUnsafe in Hres.
      destruct (resolveQueries _ _ _ _) as [[un heap]|] eqn:Hpass; [|done].
      injection Hres as <-. apply resolveQueries_unresolved in Hpass. simpl in *.
      intros q Hin. rewrite Hq, Hpass in Hin.
      apply list_elem_of_filter in Hin as [Hstay _].
      apply stays_queued_spec in Hstay as [_ Hnone].
      destruct Hsh as (_ & _ & _ & Hp & _). by apply Hp.
    + intros Hr.
      apply Hgen in Hr as (w2 & d3 & Hres & Hsh & (Hq & _) & ->).
      unfold resolveAttQueriesUnsafe in Hres.
      destruct (resolveQueries _ _ _ _) as [[un heap]|] eqn:Hpass; [|done].
      injection Hres as <-. apply resolveQueries_unresolved in Hpass. simpl in *.
      intros q Hin. rewrite Hq, Hpass in Hin.
      apply list_elem_of_filter in Hin as [Hstay _].
      apply stays_queued_spec in Hstay as [_ Hnone].
      destruct Hsh as (Hp & _). by apply Hp.
    + intros Hr.
      apply Hgen in Hr as (w2 & d3 & Hres & Hsh & (_ & _ & Hq & _) & ->).
      unfold resolveAggQueriesUnsafe in Hres.
      destruct (resolveQueries _ _ _ _) as [[un heap]|] eqn:Hpass; [|done].
      injection Hres as <-. apply resolveQueries_unresolved in Hpass. simpl in *.
      intros q Hin. rewrite Hq, Hpass in Hin.
      apply list_elem_of_filter in Hin as [Hstay _].
      apply stays_queued_spec in Hstay as [_ Hnone].
      destruct Hsh as (_ & _ & _ & _ & Hp & _). by apply Hp.
    + intros Hr.
      apply Hgen in Hr as (w2 & d3 & Hres & Hsh & (_ & _ & _ & Hq & _) & ->).
      unfold resolveContribQueriesUnsafe in Hres.
      destruct (resolveQueries _ _ _ _) as [[un heap]|] eqn:Hpass; [|done].
      injection Hres as <-. apply resolveQueries_unresolved in Hpass. simpl in *.
      intros q Hin. rewrite Hq, Hpass in Hin.
      apply list_elem_of_filter in Hin as [Hstay _].
      apply stays_queued_spec in Hstay as [_ Hnone].
      destruct Hsh as (_ & _ & _ & _ & _ & _ & Hp & _). by apply Hp.
  - intros slot w w' id. unfold AwaitProposal_register, resolveProQueriesUnsafe. simpl.
    destruct (resolveQueries _ _ _ _) as [[un heap]|] eqn:Hpass; [|done].
    intros [= <- _]. apply resolveQueries_unresolved in Hpass. simpl.
    intros q Hin. rewrite Hpass in Hin. apply list_elem_of_filter in Hin as [Hstay _].
    by apply stays_queued_spec in Hstay as [_ Hnone].
  - intros slot commIdx w w' id.
    unfold AwaitAttestation_register, resolveAttQueriesUnsafe. simpl.
    destruct (resolveQueries _ _ _ _) as [[un heap]|] eqn:Hpass; [|done].
    intros [= <- _]. apply resolveQueries_unresolved in Hpass. simpl.
    intros q Hin. rewrite Hpass in Hin. apply list_elem_of_filter in Hin as [Hstay _].
    by apply stays_queued_spec in Hstay as [_ Hnone].
  - intros slot root w w' id.
    unfold AwaitAggAttestation_register, resolveAggQueriesUnsafe. simpl.
    destruct (resolveQueries _ _ _ _) as [[un heap]|] eqn:Hpass; [|done].
    intros [= <- _]. apply resolveQueries_unresolved in Hpass. simpl.
    intros q Hin. rewrite Hpass in Hin. apply list_elem_of_filter in Hin as [Hstay _].
    by apply stays_queued_spec in Hstay as [_ Hnone].
  - intros slot subcommIdx root w w' id.
    unfold AwaitSyncContribution_register, resolveContribQueriesUnsafe. simpl.
    destruct (resolveQueries _ _ _ _) as [[un heap]|] eqn:Hpass; [|done].
    intros [= <- _]. apply resolveQueries_unresolved in Hpass. simpl.
    intros q Hin. rewrite Hpass in Hin. apply list_elem_of_filter in Hin as [Hstay _].
    by apply stays_queued_spec in Hstay as [_ Hnone].
Qed.

(** ** Storing again, deleting again *)

Lemma set_proDuties_id (d : MemDB) : set_proDuties (proDuties d) d = d.
Proof. by destruct d. Qed.
Lemma set_aggDuties_id (d : MemDB) : set_aggDuties (aggDuties d) d = d.
Proof. by destruct d. Qed.
Lemma set_attKeysBySlot_id (d : MemDB) : set_attKeysBySlot (attKeysBySlot d) d = d.
Proof. by destruct d. Qed.
Lemma set_aggKeysBySlot_id (d : MemDB) : set_aggKeysBySlot (aggKeysBySlot d) d = d.
Proof. by destruct d. Qed.
Lemma set_contribKeysBySlot_id (d : MemDB) :
  set_contribKeysBySlot (contribKeysBySlot d) d = d.
Proof. by destruct d. Qed.

Lemma attSteps_again pubkey attData (d d' : MemDB) :
  attSteps pubkey attData d = (d', Ok tt) -> attSteps pubkey attData d' = (d', Ok tt).
Proof.
  intros Hr. apply attSteps_ok in Hr as (a_c & a_0 & Hdup).
  destruct Hdup as (Hc & H0 & Hsc & Hs0 & _ & Hpc & Hp0 & _).
  unfold attSteps, bind.
  rewrite (storePubKey_Some _ _ _ _ _ Hpc). rewrite decide_False by (intros ?; done).
  rewrite (storeAttData_Some _ _ _ _ Hc). rewrite decide_False by (intros ?; done).
  rewrite (storePubKey_Some _ _ _ _ _ Hp0). rewrite decide_False by (intros ?; done).
  rewrite (storeAttData_Some _ _ _ _ H0). by rewrite decide_False by (intros ?; done).
Qed.

Lemma storeProposalUnsafe_existing (ud cloned : UnsignedData)
    (proposal existing : VersionedProposal) (slot : uint64) (d : MemDB) :
  Clone ud = Ok cloned -> asVersionedProposal cloned = Some proposal ->
  pro_Slot proposal = Ok slot -> proDuties d !! slot = Some existing ->
  storeProposalUnsafe ud d
  = (d, match pro_Root existing with
        | Err e => Err (ErrWrap "proposal root" e)
        | Ok existingRoot =>
            match pro_Root proposal with
            | Err e => Err (ErrWrap "proposal root" e)
            | Ok providedRoot =>
                if decide (existingRoot ≠ providedRoot) then Err ErrClashingBlocks
                else Ok tt
            end
        end).
Proof.
  intros Hc Ha Hs Hk. unfold storeProposalUnsafe. db_unfold.
  repeat (first [rewrite Hc|rewrite Ha|rewrite Hs|rewrite Hk]; db_unfold).
  destruct (pro_Root existing); db_unfold; [|done].
  destruct (pro_Root proposal); db_unfold; [|done].
  by destruct (decide _).
Qed.

(** X4. Storing a payload again changes nothing. After a store that
    succeeded, the same store leaves the database as it is; it succeeds
    for an attestation, an aggregate and a contribution, and for a proposal
    when the root of the proposal can be computed: the first store of a
    proposal does not compute it, the second one does. *)
Theorem repeated_store_is_noop (d d1 : MemDB) (ud : UnsignedData) :
  (forall pubkey, storeAttestationUnsafe pubkey ud d = (d1, Ok tt) ->
                  storeAttestationUnsafe pubkey ud d1 = (d1, Ok tt))
  /\ (storeAggAttestationUnsafe ud d = (d1, Ok tt) ->
      storeAggAttestationUnsafe ud d1 = (d1, Ok tt))
  /\ (storeSyncContributionUnsafe ud d = (d1, Ok tt) ->
      storeSyncContributionUnsafe ud d1 = (d1, Ok tt))
  /\ (storeProposalUnsafe ud d = (d1, Ok tt) ->
      (storeProposalUnsafe ud d1).1 = d1
      /\ forall cloned proposal,
           Clone ud = Ok cloned -> asVersionedProposal cloned = Some proposal ->
           match pro_Root proposal with
           | Ok _ => storeProposalUnsafe ud d1 = (d1, Ok tt)
           | Err e => storeProposalUnsafe ud d1 = (d1, Err (ErrWrap "proposal root" e))
           end).
Proof.
  split_and!.
  - intros pubkey Hr.
    pose proof Hr as Hr'.
    apply storeAttestationUnsafe_cases in Hr'
      as [(_ & e & ? & _)|(cloned & attData & Hc & Ha & Hsteps)]; [done|].
    rewrite (storeAttestationUnsafe_steps pubkey ud cloned attData d1 Hc Ha).
    exact (attSteps_again _ _ _ _ Hsteps).
  - intros Hr.
    assert (exists cloned aggAtt data root,
               Clone ud = Ok cloned /\ asVersionedAggregatedAttestation cloned = Some aggAtt
               /\ agg_Data aggAtt = Ok data /\ att_HashTreeRoot data = Ok root
               /\ aggDuties d1 !! aggKey.mk (att_Slot data) root = Some aggAtt)
      as (cloned & aggAtt & data & root & Hc & Ha & Hd & Hroot & Hk1).
    { revert Hr. unfold storeAggAttestationUnsafe. db_unfold.
      destruct (Clone ud) as [cloned|e]; [|done]. db_unfold.
      destruct (asVersionedAggregatedAttestation cloned) as [aggAtt|] eqn:Ha; [|done].
      db_unfold.
      destruct (agg_Data aggAtt) as [data|e] eqn:Hd; [|done]. db_unfold.
      destruct (att_HashTreeRoot data) as [root|e] eqn:Hroot; [|done]. db_unfold.
      intros Hr. exists cloned, aggAtt, data, root. split_and!; try done.
      destruct (aggDuties d !! _) as [existing|] eqn:Hk.
      - destruct (agg_Data existing) as [edata|e] eqn:Hed; [|done]. db_unfold.
        destruct (att_HashTreeRoot edata) as [eroot|e] eqn:Her; [|done]. db_unfold.
        destruct (decide _); db_unfold; [done|]. injection Hr as <-. simpl.
        by rewrite lookup_insert_eq.
      - injection Hr as <-. simpl. by rewrite lookup_insert_eq. }
    rewrite (storeAggAttestationUnsafe_existing ud cloned aggAtt aggAtt data data root root
               d1 Hc Ha Hd Hroot Hk1 Hd Hroot).
    rewrite decide_False by (intros ?; done).
    by rewrite (insert_id _ _ _ Hk1), set_aggDuties_id.
  - unfold storeSyncContributionUnsafe. db_unfold.
    destruct (Clone ud) as [cloned|e]; [|done]. db_unfold.
    destruct (asSyncContribution cloned) as [contrib|]; [|done]. db_unfold.
    destruct (contrib_HashTreeRoot contrib) as [root|e] eqn:Hroot; [|done]. db_unfold.
    destruct (contribDuties d !! _) as [existing|] eqn:Hk.
    + destruct (contrib_HashTreeRoot existing) as [eroot|e] eqn:Her; [|done]. db_unfold.
      destruct (decide _); db_unfold; [done|]. intros [= <-].
      rewrite Hk. db_unfold. rewrite Her. db_unfold. by rewrite decide_False.
    + intros [= <-]. simpl. rewrite lookup_insert_eq. db_unfold. rewrite Hroot. db_unfold.
      by rewrite decide_False by (intros ?; done).
  - intros Hr.
    assert (exists cloned proposal slot stored,
               Clone ud = Ok cloned /\ asVersionedProposal cloned = Some proposal
               /\ pro_Slot proposal = Ok slot /\ proDuties d1 !! slot = Some stored
               /\ (stored = proposal
                   \/ exists root, pro_Root stored = Ok root /\ pro_Root proposal = Ok root))
      as (cloned & proposal & slot & stored & Hc & Ha & Hs & Hk1 & Hstored).
    { revert Hr. unfold storeProposalUnsafe. db_unfold.
      destruct (Clone ud) as [cloned|e]; [|done]. db_unfold.
      destruct (asVersionedProposal cloned) as [proposal|] eqn:Ha; [|done]. db_unfold.
      destruct (pro_Slot proposal) as [slot|e] eqn:Hs; [|done]. db_unfold.
      destruct (proDuties d !! slot) as [existing|] eqn:Hk.
      - destruct (pro_Root existing) as [eroot|e] eqn:Her; [|done]. db_unfold.
        destruct (pro_Root proposal) as [root|e] eqn:Hroot; [|done]. db_unfold.
        destruct (decide _) as [|Heq]; db_unfold; [done|]. intros [= <-].
        exists cloned, proposal, slot, existing. split_and!; try done.
        right. exists root. split; [|done]. rewrite Her. f_equal.
        by destruct (decide (eroot = root)).
      - intros [= <-]. exists cloned, proposal, slot, proposal. simpl.
        rewrite lookup_insert_eq. split_and!; try done. by left. }
    rewrite (storeProposalUnsafe_existing ud cloned proposal stored slot d1 Hc Ha Hs Hk1).
    split; [done|]. intros c p Hc' Ha'.
    rewrite Hc in Hc'. injection Hc' as <-. rewrite Ha in Ha'. injection Ha' as <-.
    destruct Hstored as [->|(root & Hsr & Hpr)].
    + destruct (pro_Root proposal); [|done]. by rewrite decide_False by (intros ?; done).
    + rewrite Hsr, Hpr. by rewrite decide_False by (intros ?; done).
Qed.

Lemma deleteDutyUnsafe_missing (duty : Duty.t) (d : MemDB) :
  nothing_to_delete duty d -> deleteDutyUnsafe duty d = (d, Ok tt).
Proof.
  unfold nothing_to_delete, deleteDutyUnsafe.
  destruct (Duty.Type_ duty); intros Hk; try done; db_unfold.
  - by rewrite (delete_id _ _ Hk), set_proDuties_id.
  - rewrite Hk. simpl. by rewrite (delete_id _ _ Hk), set_attKeysBySlot_id.
  - rewrite Hk. simpl. by rewrite (delete_id _ _ Hk), set_aggKeysBySlot_id.
  - rewrite Hk. simpl. by rewrite (delete_id _ _ Hk), set_contribKeysBySlot_id.
Qed.

(** X5. Deleting a duty that has nothing to delete changes nothing and
    returns no error: no proposal of the slot for a proposer duty, no
    record of the slot for the three other types. A deletion that
    succeeded leaves nothing to delete, so deleting the duty again changes
    nothing. *)
Theorem delete_again_is_noop (duty : Duty.t) (d d1 : MemDB) :
  (nothing_to_delete duty d -> deleteDutyUnsafe duty d = (d, Ok tt))
  /\ (deleteDutyUnsafe duty d = (d1, Ok tt) ->
      nothing_to_delete duty d1 /\ deleteDutyUnsafe duty d1 = (d1, Ok tt)).
Proof.
  split; [apply deleteDutyUnsafe_missing|]. intros Hr.
  assert (Hnone : nothing_to_delete duty d1).
  { unfold nothing_to_delete. apply deleteDutyUnsafe_spec in Hr.
    destruct (Duty.Type_ duty).
    - destruct Hr as (_ & -> & _). apply lookup_delete_eq.
    - destruct Hr as (_ & -> & _). apply lookup_delete_eq.
    - by destruct Hr as [_ ?].
    - destruct Hr as (_ & -> & _). apply lookup_delete_eq.
    - destruct Hr as (_ & -> & _). apply lookup_delete_eq.
    - by destruct Hr as [_ ?]. }
  split; [done|]. by apply deleteDutyUnsafe_missing.
Qed.

(** ** Shutdown *)

(** X6. [Shutdown] may only be called once: no run of the database has
    two calls of it, the second one closes a closed channel. *)
Theorem shutdown_only_once (ops1 ops2 ops3 : list Op) (w : World) :
  run (ops1 ++ OpShutdown :: ops2 ++ OpShutdown :: ops3) w = None.
Proof.
  rewrite run_app. destruct (run ops1 w) as [w1|]; [|done].
  simpl. unfold Shutdown at 1. destruct (shutdown (db w1)) eqn:Hs1; [done|].
  rewrite run_app.
  destruct (run ops2 _) as [w2|] eqn:Hrun; [|done].
  apply run_shutdown in Hrun; [|done].
  simpl. unfold Shutdown. by rewrite Hrun.
Qed.

(** ** Expired duties the evictor rejects *)

Lemma forEach_app {A} (f : A -> DB unit) (xs ys : list A) (d d1 : MemDB) :
  forEach f xs d = (d1, Ok tt) -> forEach f (xs ++ ys) d = forEach f ys d1.
Proof.
  revert d. induction xs as [|x xs IH]; intros d Hr; simpl in *.
  - by injection Hr as <-.
  - unfold bind in *. destruct (f x d) as [d0 [[]|e]]; [|done]. by apply IH.
Qed.

(** X7. The deadliner may yield a duty the evictor has no case for: a
    builder-proposer duty, or a duty of a type this package does not
    store. [Store] then returns the evictor's error although it has
    stored the payloads, answered the waiters and deleted the duties
    yielded before; the duties behind are not deleted by this call. *)
Theorem rejected_expiry_fails_store_late addOk duty unsignedSet (w w' : World)
    (good rest : list Duty.t) (x : Duty.t) :
  Store addOk good duty unsignedSet w = Some (w', Ok tt) ->
  is_stored_type (Duty.Type_ x) = false ->
  Store addOk (good ++ x :: rest) duty unsignedSet w
  = Some (w', Err (if decide (Duty.Type_ x = DutyBuilderProposer)
                   then ErrDeprecatedDutyBuilderProposer else ErrUnknownDutyType)).
Proof.
  intros Hr Hx. revert Hr. unfold Store. destruct addOk; simpl; [|done].
  assert (Hdel : forall d, deleteDutyUnsafe x d
                 = (d, Err (if decide (Duty.Type_ x = DutyBuilderProposer)
                            then ErrDeprecatedDutyBuilderProposer
                            else ErrUnknownDutyType))).
  { intros d. unfold deleteDutyUnsafe. by destruct (Duty.Type_ x). }
  assert (Hgen : forall stores resolve,
            storeResolveDelete stores resolve good w = Some (w', Ok tt) ->
            storeResolveDelete stores resolve (good ++ x :: rest) w
            = Some (w', Err (if decide (Duty.Type_ x = DutyBuilderProposer)
                             then ErrDeprecatedDutyBuilderProposer
                             else ErrUnknownDutyType))).
  { intros stores resolve Hs.
    apply storeResolveDelete_cases in Hs
      as [(d1 & e1 & _ & _ & ?)|(d1 & w2 & d3 & H1 & H2 & H3 & ->)]; [done|].
    unfold storeResolveDelete. rewrite H1, H2.
    rewrite (forEach_app _ _ _ _ _ H3). simpl. unfold bind. by rewrite Hdel. }
  destruct (Duty.Type_ duty); try done.
  - destruct (decide (1 < length unsignedSet)); [done|]. apply Hgen.
  - apply Hgen.
  - apply Hgen.
  - apply Hgen.
Qed.

(** ** One duty type at a time *)

Lemma same_type_refl t (d : MemDB) : same_type t d d.
Proof. by destruct t. Qed.

Lemma same_type_trans t (d1 d2 d3 : MemDB) :
  same_type t d1 d2 -> same_type t d2 d3 -> same_type t d1 d3.
Proof.
  destruct t; simpl; try done.
  - unfold same_proposer. congruence.
  - unfold same_attester. intros (-> & -> & ->) (-> & -> & ->). done.
  - unfold same_aggregator. intros (-> & ->) (-> & ->). done.
  - unfold same_contrib. intros (-> & ->) (-> & ->). done.
Qed.

Lemma same_maps_type t (d d' : MemDB) : same_maps d d' -> same_type t d d'.
Proof.
  intros (? & ? & ? & ? & ? & ? & ? & ?). destruct t; simpl; try done.
Qed.

Lemma deleteDutyUnsafe_other_type t x (d d' : MemDB) r :
  Duty.Type_ x ≠ t -> deleteDutyUnsafe x d = (d', r) -> same_type t d d'.
Proof.
  intros Hne Hr. apply deleteDutyUnsafe_spec in Hr.
  destruct (Duty.Type_ x) eqn:Hx.
  - destruct Hr as (_ & _ & ? & ? & ?). by destruct t.
  - destruct Hr as (_ & _ & _ & _ & ? & ? & ?). by destruct t.
  - destruct Hr as [-> _]. apply same_type_refl.
  - destruct Hr as (_ & _ & _ & ? & ? & ?). by destruct t.
  - destruct Hr as (_ & _ & _ & ? & ? & ?). by destruct t.
  - destruct Hr as [-> _]. apply same_type_refl.
Qed.

Lemma forEach_delete_other_type t (expired : list Duty.t) :
  forall (d d' : MemDB) r,
    Forall (fun x => Duty.Type_ x ≠ t) expired ->
    forEach deleteDutyUnsafe expired d = (d', r) -> same_type t d d'.
Proof.
  induction expired as [|x xs IH]; intros d d' r Hall Hr; simpl in Hr.
  - injection Hr as <- _. apply same_type_refl.
  - apply Forall_cons in Hall as [Hx Hxs]. unfold bind in Hr.
    destruct (deleteDutyUnsafe x d) as [d1 [[]|e]] eqn:Hd.
    + eapply same_type_trans; [by eapply deleteDutyUnsafe_other_type|by eapply IH].
    + injection Hr as <- _. by eapply deleteDutyUnsafe_other_type.
Qed.

Lemma forEach_same_type {A} t (f : A -> DB unit) (xs : list A) :
  (forall x d d' r, f x d = (d', r) -> same_type t d d') ->
  forall (d d' : MemDB) r, forEach f xs d = (d', r) -> same_type t d d'.
Proof.
  intros Hf. induction xs as [|x xs IH]; intros d d' r Hr; simpl in Hr.
  - injection Hr as <- _. apply same_type_refl.
  - unfold bind in Hr. destruct (f x d) as [d1 [[]|e]] eqn:Hd.
    + eapply same_type_trans; [by eapply Hf|by eapply IH].
    + injection Hr as <- _. by eapply Hf.
Qed.

Lemma same_waiters_of_refl t (w : World) : same_waiters_of t w w.
Proof. by destruct t. Qed.

Lemma same_waiters_of_set_db t (d : MemDB) (w : World) :
  same_waiters (db w) d -> same_waiters_of t w (set_db d w).
Proof. intros (? & ? & ? & ? & _). by destruct t. Qed.

Lemma same_waiters_of_trans t (w1 w2 w3 : World) :
  same_waiters_of t w1 w2 -> same_waiters_of t w2 w3 -> same_waiters_of t w1 w3.
Proof. destruct t; simpl; try done; intros [-> ->] [-> ->]; done. Qed.

(** X8. [Store] works on one duty type at a time: it leaves the queue and
    the response channels of every other duty type as they were, and the
    maps of every other duty type too, unless the deadliner yields an
    expired duty of that type during the call. This holds whether the
    store succeeds or fails. *)
Theorem store_touches_own_type_only addOk expired duty unsignedSet (w w' : World)
    (r : res error unit) (t : DutyType) :
  Store addOk expired duty unsignedSet w = Some (w', r) ->
  t ≠ Duty.Type_ duty ->
  same_waiters_of t w w'
  /\ (Forall (fun x => Duty.Type_ x ≠ t) expired -> same_type t (db w) (db w')).
Proof.
  unfold Store. destruct addOk; simpl.
  2:{ intros [= <- _] _. split; [apply same_waiters_of_refl|intros; apply same_type_refl]. }
  intros Hr Hne.
  assert (Hgen : forall stores resolve,
            (forall d d' r, stores d = (d', r) -> same_type t d d' /\ same_waiters d d') ->
            (forall w1 w2, resolve w1 = Some w2 ->
                           same_waiters_of t w1 w2 /\ same_maps (db w1) (db w2)) ->
            storeResolveDelete stores resolve expired w = Some (w', r) ->
            same_waiters_of t w w'
            /\ (Forall (fun x => Duty.Type_ x ≠ t) expired -> same_type t (db w) (db w'))).
  { intros stores resolve Hst Hres Hs.
    apply storeResolveDelete_cases in Hs
      as [(d1 & e1 & H1 & -> & _)|(d1 & w2 & d3 & H1 & H2 & H3 & ->)].
    - apply Hst in H1 as [Hty Hw]. split; [by apply same_waiters_of_set_db|done].
    - apply Hst in H1 as [Hty Hw]. apply Hres in H2 as [Hw2 Hm2]. simpl in Hm2.
      split.
      + eapply same_waiters_of_trans; [by apply same_waiters_of_set_db|].
        eapply same_waiters_of_trans; [exact Hw2|].
        apply same_waiters_of_set_db. eapply forEach_waiters; [|exact H3].
        intros x d0. apply deleteDutyUnsafe_waiters.
      + intros Hall. simpl. eapply same_type_trans; [exact Hty|].
        eapply same_type_trans; [by apply same_maps_type|].
        by eapply forEach_delete_other_type. }
  assert (Hw : forall (f : PubKey * UnsignedData -> DB unit),
            (forall x d0, preserves (same_waiters d0) (f x)) ->
            forall d d' r, forEach f unsignedSet d = (d', r) -> same_waiters d d').
  { intros f Hf d d' r0 Hfr. by eapply forEach_waiters. }
  destruct (Duty.Type_ duty) eqn:Hty.
  - destruct (decide _).
    { injection Hr as <- _. split; [apply same_waiters_of_refl|intros; apply same_type_refl]. }
    eapply Hgen; [| |exact Hr].
    + intros d d' r0 Hf. split.
      * eapply forEach_same_type; [|exact Hf]. intros x ? ? ? Hx.
        apply storeProposalUnsafe_frame in Hx as (? & ? & ?). by destruct t.
      * eapply Hw; [|exact Hf]. intros. apply storeProposalUnsafe_waiters.
    + intros w1 w2 Hres. split; [|by eapply resolvers_frame; eauto].
      unfold resolveProQueriesUnsafe in Hres.
      destruct (resolveQueries _ _ _ _) as [[un heap]|]; [|done].
      injection Hres as <-. by destruct t.
  - eapply Hgen; [| |exact Hr].
    + intros d d' r0 Hf. split.
      * eapply forEach_same_type; [|exact Hf]. intros x ? ? ? Hx.
        apply storeAttestationUnsafe_frame in Hx as (? & ? & ?). by destruct t.
      * eapply Hw; [|exact Hf]. intros. apply storeAttestationUnsafe_waiters.
    + intros w1 w2 Hres. split; [|by eapply resolvers_frame; eauto].
      unfold resolveAttQueriesUnsafe in Hres.
      destruct (resolveQueries _ _ _ _) as [[un heap]|]; [|done].
      injection Hres as <-. by destruct t.
  - injection Hr as <- _. split; [apply same_waiters_of_refl|intros; apply same_type_refl].
  - eapply Hgen; [| |exact Hr].
    + intros d d' r0 Hf. split.
      * eapply forEach_same_type; [|exact Hf]. intros x ? ? ? Hx.
        apply storeAggAttestationUnsafe_frame in Hx as (? & ? & ?). by destruct t.
      * eapply Hw; [|exact Hf]. intros. apply storeAggAttestationUnsafe_waiters.
    + intros w1 w2 Hres. split; [|by eapply resolvers_frame; eauto 6].
      unfold resolveAggQueriesUnsafe in Hres.
      destruct (resolveQueries _ _ _ _) as [[un heap]|]; [|done].
      injection Hres as <-. by destruct t.
  - eapply Hgen; [| |exact Hr].
    + intros d d' r0 Hf. split.
      * eapply forEach_same_type; [|exact Hf]. intros x ? ? ? Hx.
        apply storeSyncContributionUnsafe_frame in Hx as (? & ? & ?). by destruct t.
      * eapply Hw; [|exact Hf]. intros. apply storeSyncContributionUnsafe_waiters.
    + intros w1 w2 Hres. split; [|by eapply resolvers_frame; eauto 6].
      unfold resolveContribQueriesUnsafe in Hres.
      destruct (resolveQueries _ _ _ _) as [[un heap]|]; [|done].
      injection Hres as <-. by destruct t.
  - injection Hr as <- _. split; [apply same_waiters_of_refl|intros; apply same_type_refl].
Qed.

(** ** One attestation per slot *)

(** X9. Every attester store also writes under committee index 0, so the
    entry under [(slot, 0)] binds the whole slot: once it is there, a store
    of an attestation for that slot that prints differently never
    succeeds, whatever its committee index, validator and public key are.
    It fails with a clashing error, and the entry under [(slot, 0)]
    stays. *)
Theorem attester_slot_has_one_data (d : MemDB) pubkey ud cloned attData value :
  Clone ud = Ok cloned -> asAttestationData cloned = Some attData ->
  attDuties d !! attKey.mk (att_Slot (Data attData)) 0 = Some value ->
  att_String value ≠ att_String (Data attData) ->
  exists d' e,
    storeAttestationUnsafe pubkey ud d = (d', Err e)
    /\ (is_ClashingData e = true \/ is_ClashingPubKey e = true)
    /\ attDuties d' !! attKey.mk (att_Slot (Data attData)) 0 = Some value.
Proof.
  intros Hc Ha Hk Hne.
  rewrite (storeAttestationUnsafe_steps pubkey ud cloned attData d Hc Ha).
  unfold attSteps, bind.
  destruct (storePubKey _ _ _ d) as [d1 [[]|e1]] eqn:H1.
  2:{ exists d1, e1. split; [done|].
      pose proof (storePubKey_frame _ _ _ _ _ _ H1) as (Hatt & _).
      apply storePubKey_spec in H1 as [(_ & _ & ?)|[(o & _ & _ & _ & [= ->])|(_ & ? & _)]];
        try done.
      split; [by right|]. by rewrite Hatt. }
  pose proof (storePubKey_frame _ _ _ _ _ _ H1) as (Hatt1 & _).
  assert (Hk1 : attDuties d1 !! attKey.mk (att_Slot (Data attData)) 0 = Some value)
    by (by rewrite Hatt1).
  destruct (storeAttData _ _ d1) as [d2 [[]|e2]] eqn:H2.
  2:{ exists d2, e2. split; [done|].
      apply storeAttData_spec in H2
        as [(v & _ & _ & _ & ?)|[(v & _ & _ & -> & [= ->])|(_ & ? & _)]]; try done.
      split; [by left|done]. }
  assert (Hk2 : attDuties d2 !! attKey.mk (att_Slot (Data attData)) 0 = Some value).
  { pose proof (storeAttData_extends _ _ _ _ _ H2) as [_ Hext]. by apply Hext. }
  destruct (storePubKey _ _ _ d2) as [d3 [[]|e3]] eqn:H3.
  2:{ exists d3, e3. split; [done|].
      pose proof (storePubKey_frame _ _ _ _ _ _ H3) as (Hatt & _).
      apply storePubKey_spec in H3 as [(_ & _ & ?)|[(o & _ & _ & _ & [= ->])|(_ & ? & _)]];
        try done.
      split; [by right|]. by rewrite Hatt. }
  pose proof (storePubKey_frame _ _ _ _ _ _ H3) as (Hatt3 & _).
  assert (Hk3 : attDuties d3 !! attKey.mk (att_Slot (Data attData)) 0 = Some value)
    by (by rewrite Hatt3).
  rewrite (storeAttData_Some _ _ _ _ Hk3). rewrite decide_True by done.
  exists d3, (ErrClashingAttData (attKey.mk (att_Slot (Data attData)) 0)).
  split; [done|]. split; [by left|done].
Qed.

(** ** Storing after shutdown *)

Lemma ignores_bind {A B} (m : DB A) (f : A -> DB B) :
  ignores_shutdown m -> (forall a, ignores_shutdown (f a)) -> ignores_shutdown (bind m f).
Proof.
  intros Hm Hf b d. unfold bind. rewrite Hm.
  destruct (m d) as [d1 [a|e]]; simpl; [apply Hf|done].
Qed.

Lemma ignores_try {A} (r : res CodecError A) wrap : ignores_shutdown (try r wrap).
Proof. by destruct r. Qed.

Lemma ignores_assert_type {A} (o : option A) e : ignores_shutdown (assert_type o e).
Proof. by destruct o. Qed.

Lemma storePubKey_ignores pKey pk slot : ignores_shutdown (storePubKey pKey pk slot).
Proof.
  intros b d. unfold storePubKey. db_unfold.
  destruct (attPubKeys d !! pKey); [by destruct (decide _)|done].
Qed.

Lemma storeAttData_ignores aKey data : ignores_shutdown (storeAttData aKey data).
Proof.
  intros b d. unfold storeAttData. db_unfold.
  destruct (attDuties d !! aKey); [by destruct (decide _)|done].
Qed.

Lemma storeAttestationUnsafe_ignores pubkey ud :
  ignores_shutdown (storeAttestationUnsafe pubkey ud).
Proof.
  unfold storeAttestationUnsafe.
  apply ignores_bind; [apply ignores_try|intros cloned].
  apply ignores_bind; [apply ignores_assert_type|intros attData].
  apply ignores_bind; [apply storePubKey_ignores|intros _].
  apply ignores_bind; [apply storeAttData_ignores|intros _].
  apply ignores_bind; [apply storePubKey_ignores|intros _].
  apply storeAttData_ignores.
Qed.

Lemma storeProposalUnsafe_ignores ud : ignores_shutdown (storeProposalUnsafe ud).
Proof.
  unfold storeProposalUnsafe.
  apply ignores_bind; [apply ignores_try|intros cloned].
  apply ignores_bind; [apply ignores_assert_type|intros proposal].
  apply ignores_bind; [apply ignores_try|intros slot].
  intros b d. db_unfold. destruct (proDuties d !! slot) as [existing|]; [|done].
  destruct (pro_Root existing); db_unfold; [|done].
  destruct (pro_Root proposal); db_unfold; [|done].
  by destruct (decide _).
Qed.

Lemma storeAggAttestationUnsafe_ignores ud :
  ignores_shutdown (storeAggAttestationUnsafe ud).
Proof.
  unfold storeAggAttestationUnsafe.
  apply ignores_bind; [apply ignores_try|intros cloned].
  apply ignores_bind; [apply ignores_assert_type|intros aggAtt].
  apply ignores_bind; [apply ignores_try|intros data].
  apply ignores_bind; [apply ignores_try|intros root].
  intros b d. db_unfold. destruct (aggDuties d !! _) as [existing|]; [|done].
  destruct (agg_Data existing) as [edata|]; db_unfold; [|done].
  destruct (att_HashTreeRoot edata); db_unfold; [|done].
  destruct (agg_Data aggAtt) as [pdata|]; db_unfold; [|done].
  destruct (att_HashTreeRoot pdata); db_unfold; [|done].
  by destruct (decide _).
Qed.

Lemma storeSyncContributionUnsafe_ignores ud :
  ignores_shutdown (storeSyncContributionUnsafe ud).
Proof.
  unfold storeSyncContributionUnsafe.
  apply ignores_bind; [apply ignores_try|intros cloned].
  apply ignores_bind; [apply ignores_assert_type|intros contrib].
  apply ignores_bind; [apply ignores_try|intros root].
  intros b d. db_unfold. destruct (contribDuties d !! _) as [existing|]; [|done].
  destruct (contrib_HashTreeRoot existing); db_unfold; [|done].
  by destruct (decide _).
Qed.

Lemma foldl_set_shutdown {A} (f : MemDB -> A -> MemDB) (b : bool) (xs : list A) :
  (forall d x, f (set_shutdown b d) x = set_shutdown b (f d x)) ->
  forall d, foldl f (set_shutdown b d) xs = set_shutdown b (foldl f d xs).
Proof.
  intros Hf. induction xs as [|x xs IH]; intros d; simpl; [done|].
  by rewrite Hf, IH.
Qed.

Lemma deleteDutyUnsafe_ignores duty : ignores_shutdown (deleteDutyUnsafe duty).
Proof.
  intros b d. unfold deleteDutyUnsafe. destruct (Duty.Type_ duty); db_unfold; try done.
  - by rewrite foldl_set_shutdown.
  - by rewrite foldl_set_shutdown.
  - by rewrite foldl_set_shutdown.
Qed.

Lemma forEach_ignores {A} (f : A -> DB unit) (xs : list A) :
  (forall x, ignores_shutdown (f x)) -> ignores_shutdown (forEach f xs).
Proof.
  intros Hf. induction xs as [|x xs IH]; simpl; [done|].
  apply ignores_bind; [apply Hf|intros _; apply IH].
Qed.

Lemma storeResolveDelete_ignores (stores : DB unit) (resolve : World -> option World)
    (expired : list Duty.t) (w : World) (b : bool) :
  ignores_shutdown stores ->
  (forall w1, resolve (with_shutdown b w1) = with_shutdown b <$> resolve w1) ->
  storeResolveDelete stores resolve expired (with_shutdown b w)
  = (fun p => (with_shutdown b p.1, p.2)) <$> storeResolveDelete stores resolve expired w.
Proof.
  intros Hst Hres. unfold storeResolveDelete. simpl. rewrite Hst.
  destruct (stores (db w)) as [d1 [[]|e]]; simpl; [|done].
  change (set_db (set_shutdown b d1) (with_shutdown b w))
    with (with_shutdown b (set_db d1 w)).
  rewrite Hres. destruct (resolve (set_db d1 w)) as [w2|]; simpl; [|done].
  rewrite (forEach_ignores deleteDutyUnsafe expired deleteDutyUnsafe_ignores).
  by destruct (forEach deleteDutyUnsafe expired (db w2)).
Qed.

(** X10. Nothing in [Store] reads the shutdown channel: after [Shutdown]
    a store writes the same entries, sends the same values to the same
    waiters, deletes the same duties and returns the same result as it
    would before. Neither does the part of an Await call that runs under
    the lock, nor [PubKeyByAttestation]. *)
Theorem store_ignores_shutdown (b : bool) (w : World) :
  (forall addOk expired duty unsignedSet,
     Store addOk expired duty unsignedSet (with_shutdown b w)
     = (fun p => (with_shutdown b p.1, p.2)) <$> Store addOk expired duty unsignedSet w)
  /\ (forall slot,
        AwaitProposal_register slot (with_shutdown b w)
        = (fun p => (with_shutdown b p.1, p.2)) <$> AwaitProposal_register slot w)
  /\ (forall slot commIdx,
        AwaitAttestation_register slot commIdx (with_shutdown b w)
        = (fun p => (with_shutdown b p.1, p.2)) <$> AwaitAttestation_register slot commIdx w)
  /\ (forall slot root,
        AwaitAggAttestation_register slot root (with_shutdown b w)
        = (fun p => (with_shutdown b p.1, p.2)) <$> AwaitAggAttestation_register slot root w)
  /\ (forall slot subcommIdx root,
        AwaitSyncContribution_register slot subcommIdx root (with_shutdown b w)
        = (fun p => (with_shutdown b p.1, p.2))
            <$> AwaitSyncContribution_register slot subcommIdx root w)
  /\ (forall slot commIdx valIdx,
        PubKeyByAttestation slot commIdx valIdx (db (with_shutdown b w))
        = PubKeyByAttestation slot commIdx valIdx (db w)).
Proof.
  assert (Hpro : forall w1, resolveProQueriesUnsafe (with_shutdown b w1)
                            = with_shutdown b <$> resolveProQueriesUnsafe w1).
  { intros w1. unfold resolveProQueriesUnsafe. simpl.
    by destruct (resolveQueries _ _ _ _) as [[un heap]|]. }
  assert (Hatt : forall w1, resolveAttQueriesUnsafe (with_shutdown b w1)
                            = with_shutdown b <$> resolveAttQueriesUnsafe w1).
  { intros w1. unfold resolveAttQueriesUnsafe. simpl.
    by destruct (resolveQueries _ _ _ _) as [[un heap]|]. }
  assert (Hagg : forall w1, resolveAggQueriesUnsafe (with_shutdown b w1)
                            = with_shutdown b <$> resolveAggQueriesUnsafe w1).
  { intros w1. unfold resolveAggQueriesUnsafe. simpl.
    by destruct (resolveQueries _ _ _ _) as [[un heap]|]. }
  assert (Hcon : forall w1, resolveContribQueriesUnsafe (with_shutdown b w1)
                            = with_shutdown b <$> resolveContribQueriesUnsafe w1).
  { intros w1. unfold resolveContribQueriesUnsafe. simpl.
    by destruct (resolveQueries _ _ _ _) as [[un heap]|]. }
  split_and!.
  - intros addOk expired duty unsignedSet. unfold Store.
    destruct addOk; simpl; [|done].
    destruct (Duty.Type_ duty); try done.
    + destruct (decide _); [done|].
      apply storeResolveDelete_ignores; [|exact Hpro].
      apply forEach_ignores. intros x. apply storeProposalUnsafe_ignores.
    + apply storeResolveDelete_ignores; [|exact Hatt].
      apply forEach_ignores. intros x. apply storeAttestationUnsafe_ignores.
    + apply storeResolveDelete_ignores; [|exact Hagg].
      apply forEach_ignores. intros x. apply storeAggAttestationUnsafe_ignores.
    + apply storeResolveDelete_ignores; [|exact Hcon].
      apply forEach_ignores. intros x. apply storeSyncContributionUnsafe_ignores.
  - intros slot. unfold AwaitProposal_register. simpl.
    match goal with |- context [resolveProQueriesUnsafe ?x] =>
      change x with (with_shutdown b
        (set_db (set_proQueries (proQueries (db w) ++ [mkQuery slot (nextChan w) (nextChan w)])
                                (db w))
                (set_proResp (<[nextChan w := mkChan [] 0]> (proResp w))
                             (set_nextChan (S (nextChan w)) w)))) end.
    rewrite Hpro. simpl. by destruct (resolveProQueriesUnsafe _).
  - intros slot commIdx. unfold AwaitAttestation_register. simpl.
    match goal with |- context [resolveAttQueriesUnsafe ?x] =>
      change x with (with_shutdown b
        (set_db (set_attQueries
                   (attQueries (db w)
                      ++ [mkQuery (attKey.mk slot commIdx) (nextChan w) (nextChan w)])
                   (db w))
                (set_attResp (<[nextChan w := mkChan [] 0]> (attResp w))
                             (set_nextChan (S (nextChan w)) w)))) end.
    rewrite Hatt. simpl. by destruct (resolveAttQueriesUnsafe _).
  - intros slot root. unfold AwaitAggAttestation_register. simpl.
    match goal with |- context [resolveAggQueriesUnsafe ?x] =>
      change x with (with_shutdown b
        (set_db (set_aggQueries
                   (aggQueries (db w)
                      ++ [mkQuery (aggKey.mk slot root) (nextChan w) (nextChan w)])
                   (db w))
                (set_aggResp (<[nextChan w := mkChan [] 0]> (aggResp w))
                             (set_nextChan (S (nextChan w)) w)))) end.
    rewrite Hagg. simpl. by destruct (resolveAggQueriesUnsafe _).
  - intros slot subcommIdx root. unfold AwaitSyncContribution_register. simpl.
    match goal with |- context [resolveContribQueriesUnsafe ?x] =>
      change x with (with_shutdown b
        (set_db (set_contribQueries
                   (contribQueries (db w)
                      ++ [mkQuery (contribKey.mk slot subcommIdx root)
                                  (nextChan w) (nextChan w)])
                   (db w))
                (set_contribResp (<[nextChan w := mkChan [] 0]> (contribResp w))
                                 (set_nextChan (S (nextChan w)) w)))) end.
    rewrite Hcon. simpl. by destruct (resolveContribQueriesUnsafe _).
  - done.
Qed.

(** ** Eviction is per slot *)

Lemma listed_inv_ext (d d' : MemDB) :
  aggKeysBySlot d' = aggKeysBySlot d -> contribKeysBySlot d' = contribKeysBySlot d ->
  listed_inv d -> listed_inv d'.
Proof. unfold listed_inv. by intros -> ->. Qed.

Lemma storeAggAttestationUnsafe_listed ud :
  preserves listed_inv (storeAggAttestationUnsafe ud).
Proof.
  intros d d' r [Hagg Hcon] Hr.
  apply storeAggAttestationUnsafe_spec in Hr
    as [[-> _]|(aggAtt & data & key & Hd & Hh & Hs & _ & [[Hsome ->]|[Hnone ->]])];
    [done|done|]. split; simpl; [|done].
  intros t k. rewrite lookup_append_at. destruct (decide _) as [<-|Hne]; [|apply Hagg].
  intros [Hin|Hin%list_elem_of_singleton]%elem_of_app; [by apply Hagg|by subst].
Qed.

Lemma storeSyncContributionUnsafe_listed ud :
  preserves listed_inv (storeSyncContributionUnsafe ud).
Proof.
  intros d d' r [Hagg Hcon] Hr.
  apply storeSyncContributionUnsafe_spec in Hr
    as [->|(contrib & key & Hkey & Hnone & _ & ->)]; [done|].
  split; simpl; [done|].
  intros t k. rewrite lookup_append_at. destruct (decide _) as [<-|Hne]; [|apply Hcon].
  intros [Hin|Hin%list_elem_of_singleton]%elem_of_app; [by apply Hcon|by subst].
Qed.

Lemma deleteDutyUnsafe_listed duty : preserves listed_inv (deleteDutyUnsafe duty).
Proof.
  intros d d' r [Hagg Hcon] Hr. apply deleteDutyUnsafe_spec in Hr.
  destruct (Duty.Type_ duty).
  - destruct Hr as (_ & _ & _ & (_ & Hg) & (_ & Hc)).
    by apply (listed_inv_ext d).
  - destruct Hr as (_ & _ & _ & _ & _ & (_ & Hg) & (_ & Hc)).
    by apply (listed_inv_ext d).
  - by destruct Hr as [-> _].
  - destruct Hr as (_ & Hidx & _ & _ & _ & (_ & Hc)). split.
    + intros t k. rewrite Hidx. destruct (decide (t = Duty.Slot duty)) as [->|Hne].
      * rewrite lookup_delete_eq. simpl. by intros ?%elem_of_nil.
      * rewrite lookup_delete_ne by done. apply Hagg.
    + rewrite Hc. apply Hcon.
  - destruct Hr as (_ & Hidx & _ & _ & _ & (_ & Hg)). split.
    + rewrite Hg. apply Hagg.
    + intros t k. rewrite Hidx. destruct (decide (t = Duty.Slot duty)) as [->|Hne].
      * rewrite lookup_delete_eq. simpl. by intros ?%elem_of_nil.
      * rewrite lookup_delete_ne by done. apply Hcon.
  - by destruct Hr as [-> _].
Qed.

Lemma exec_listed_inv (op : Op) (w w' : World) :
  listed_inv (db w) -> exec op w = Some w' -> listed_inv (db w').
Proof.
  intros Hinv Hex.
  eapply (exec_maps_inv listed_inv (fun _ => True));
    [| | | | | |done|exact Hinv|exact Hex].
  - intros d d' (_ & _ & _ & _ & _ & Hg & _ & Hc). by apply listed_inv_ext.
  - intros ud d d' r HP Hr.
    apply storeProposalUnsafe_frame in Hr as (_ & (_ & Hg) & (_ & Hc)).
    by eapply listed_inv_ext.
  - intros _ _ _ _ _ _ p _ d d' r HP Hr.
    apply storeAttestationUnsafe_frame in Hr as (_ & (_ & Hg) & (_ & Hc)).
    by eapply listed_inv_ext.
  - apply storeAggAttestationUnsafe_listed.
  - apply storeSyncContributionUnsafe_listed.
  - intros. apply deleteDutyUnsafe_listed.
Qed.

Lemma reachable_listed_inv (w : World) : reachable w -> listed_inv (db w).
Proof.
  intros [ops Hrun].
  eapply (run_invariant (fun _ => True) (fun w => listed_inv (db w)));
    [| | |exact Hrun].
  - intros op w1 w2 _. apply exec_listed_inv.
  - by apply Forall_true.
  - split; simpl; intros t k; rewrite lookup_empty; simpl; by intros ?%elem_of_nil.
Qed.

Lemma deleteDutyUnsafe_spares (duty : Duty.t) (d d' : MemDB) r :
  (Duty.Type_ duty = DutyAttester -> att_inv d) -> listed_inv d ->
  deleteDutyUnsafe duty d = (d', r) -> spares_other_slots duty d d'.
Proof.
  intros Hatt [Hagg Hcon] Hr. apply deleteDutyUnsafe_spec in Hr.
  unfold spares_other_slots. destruct (Duty.Type_ duty).
  - destruct Hr as (_ & -> & _). intros s Hs. by rewrite lookup_delete_ne.
  - destruct Hr as (_ & Hidx & Hpk & Hdata & _).
    destruct (Hatt eq_refl) as (Hown & _). split_and!.
    + intros k Hk. rewrite Hdata. destruct (decide _) as [Hin|]; [|done].
      apply list_elem_of_fmap in Hin as (pk & -> & Hin). apply Hown in Hin as [Hs _].
      simpl in Hk. done.
    + intros k Hk. rewrite Hpk. destruct (decide _) as [Hin|]; [|done].
      apply Hown in Hin as [Hs _]. done.
    + intros s Hs. rewrite Hidx. by rewrite lookup_delete_ne.
  - done.
  - destruct Hr as (_ & Hidx & Hk & _). split.
    + intros k Hs. rewrite Hk. destruct (decide _) as [Hin|]; [|done].
      by apply Hagg in Hin.
    + intros s Hs. rewrite Hidx. by rewrite lookup_delete_ne.
  - destruct Hr as (_ & Hidx & Hk & _). split.
    + intros k Hs. rewrite Hk. destruct (decide _) as [Hin|]; [|done].
      by apply Hcon in Hin.
    + intros s Hs. rewrite Hidx. by rewrite lookup_delete_ne.
  - done.
Qed.

(** X11. Eviction is per slot and per duty type. In a run from a new
    database, deleting an expired duty leaves every entry and every slot
    record of the other slots of its type, and all the maps of the other
    duty types; for an attester duty this needs that every attestation
    stored in the run carried the slot of its duty. *)
Theorem eviction_spares_other_slots (ops : list Op) (w : World) (duty : Duty.t)
    (d' : MemDB) (r : res error unit) :
  run ops NewWorld = Some w ->
  (Duty.Type_ duty = DutyAttester -> Forall slots_agree ops) ->
  deleteDutyUnsafe duty (db w) = (d', r) ->
  spares_other_slots duty (db w) d'
  /\ forall t, t ≠ Duty.Type_ duty -> same_type t (db w) d'.
Proof.
  intros Hrun Hagree Hr. split.
  - eapply deleteDutyUnsafe_spares; [| |exact Hr].
    + intros Hty. eapply run_att_inv; [by apply Hagree|exact Hrun].
    + apply reachable_listed_inv. by exists ops.
  - intros t Hne. eapply deleteDutyUnsafe_other_type; [|exact Hr]. done.
Qed.

(** ** Storing and awaiting a sync contribution *)

Lemma await_contribution_yields_present (key : contribKey.t)
    (value : SyncCommitteeContribution) (w : World) :
  chan_inv w -> contribDuties (db w) !! key = Some value ->
  await_contribution_yields key value w.
Proof.
  intros Hinv Hentry. destruct key as [slot subcommIdx root].
  destruct (AwaitSyncContribution_register_spec slot subcommIdx root w Hinv)
    as (w1 & Hreg & _ & Hsd & Hcl & Hdel).
  rewrite Hentry in Hdel. destruct Hdel as [Hbuf _].
  exists w1. split; [done|]. split; [done|]. intros Hrunning.
  assert (Hopen : nextChan w ∉ closed w1).
  { rewrite Hcl. intros Hin. destruct Hinv as (_ & _ & _ & _ & Hlt).
    apply Hlt in Hin. lia. }
  rewrite <- Hsd in Hrunning.
  destruct (select_return_value _ _ _ _ _ Hbuf Hopen Hrunning) as [Hzero Hany].
  split.
  - unfold AwaitSyncContribution_return. rewrite Hzero. by eexists.
  - intros pick w2 r. unfold AwaitSyncContribution_return.
    destruct (select_return (nextChan w) None pick (contribResp w1) w1)
      as [[[heap w3] r3]|] eqn:Hs; [|done].
    apply Hany in Hs as ->. by intros [= _ <-].
Qed.

Lemma storeSyncContributionUnsafe_keeps ud (key : contribKey.t)
    (value : SyncCommitteeContribution) :
  preserves (fun d => contribDuties d !! key = Some value)
            (storeSyncContributionUnsafe ud).
Proof.
  intros d d' r Hk Hr.
  apply storeSyncContributionUnsafe_spec in Hr
    as [->|(contrib & key' & _ & Hnone & _ & ->)]; [done|].
  simpl. rewrite lookup_insert_ne; [done|]. intros ->. congruence.
Qed.

Lemma storeSyncContributionUnsafe_ok (ud cloned : UnsignedData)
    (contrib : SyncCommitteeContribution) (d d' : MemDB) :
  Clone ud = Ok cloned -> asSyncContribution cloned = Some contrib ->
  storeSyncContributionUnsafe ud d = (d', Ok tt) ->
  let key := contribKey.mk (contrib_Slot contrib) (contrib_SubcommitteeIndex contrib)
                           (contrib_BeaconBlockRoot contrib) in
  contribDuties d' !! key = Some (default contrib (contribDuties d !! key))
  /\ contrib_HashTreeRoot (default contrib (contribDuties d !! key))
     = contrib_HashTreeRoot contrib.
Proof.
  intros Hc Ha Hr key. revert Hr. unfold storeSyncContributionUnsafe. db_unfold.
  rewrite Hc. db_unfold. rewrite Ha. db_unfold. fold key.
  destruct (contrib_HashTreeRoot contrib) as [root|e] eqn:Hroot; db_unfold; [|done].
  destruct (contribDuties d !! key) as [existing|] eqn:Hk.
  - destruct (contrib_HashTreeRoot existing) as [eroot|e] eqn:Her; db_unfold; [|done].
    destruct (decide _) as [|Heq]; db_unfold; [done|]. intros [= <-].
    rewrite Hk. split; [done|]. rewrite Her. f_equal.
    by destruct (decide (eroot = root)).
  - intros [= <-]. simpl. by rewrite lookup_insert_eq.
Qed.

Lemma storeSyncContributionUnsafe_decodes (ud : UnsignedData) (d d' : MemDB) :
  storeSyncContributionUnsafe ud d = (d', Ok tt) ->
  exists cloned contrib, Clone ud = Ok cloned /\ asSyncContribution cloned = Some contrib.
Proof.
  unfold storeSyncContributionUnsafe. db_unfold.
  destruct (Clone ud) as [cloned|e]; [|done]. db_unfold.
  destruct (asSyncContribution cloned) as [contrib|] eqn:Ha; [|done]. intros _.
  by exists cloned, contrib.
Qed.

Lemma storeSyncContributionUnsafe_other_key (ud cloned : UnsignedData)
    (contrib : SyncCommitteeContribution) (key : contribKey.t) (d d' : MemDB) r :
  Clone ud = Ok cloned -> asSyncContribution cloned = Some contrib ->
  key ≠ contribKey.mk (contrib_Slot contrib) (contrib_SubcommitteeIndex contrib)
                      (contrib_BeaconBlockRoot contrib) ->
  storeSyncContributionUnsafe ud d = (d', r) ->
  contribDuties d' !! key = contribDuties d !! key.
Proof.
  intros Hc Ha Hne. unfold storeSyncContributionUnsafe. db_unfold.
  rewrite Hc. db_unfold. rewrite Ha. db_unfold.
  destruct (contrib_HashTreeRoot contrib) as [root|e]; db_unfold; [|by intros [= <- _]].
  destruct (contribDuties d !! _) as [existing|] eqn:Hk.
  - destruct (contrib_HashTreeRoot existing); db_unfold; [|by intros [= <- _]].
    destruct (decide _); db_unfold; by intros [= <- _].
  - intros [= <- _]. simpl. by rewrite lookup_insert_ne.
Qed.

Lemma forEach_contrib_ok (xs : list (PubKey * UnsignedData)) :
  forall (d d' : MemDB) pk ud cloned contrib,
    forEach (fun p => storeSyncContributionUnsafe p.2) xs d = (d', Ok tt) ->
    (pk, ud) ∈ xs -> Clone ud = Ok cloned -> asSyncContribution cloned = Some contrib ->
    let key := contribKey.mk (contrib_Slot contrib) (contrib_SubcommitteeIndex contrib)
                             (contrib_BeaconBlockRoot contrib) in
    exists stored,
      contribDuties d' !! key = Some stored
      /\ contrib_HashTreeRoot stored = contrib_HashTreeRoot contrib
      /\ (forall v, contribDuties d !! key = Some v -> stored = v)
      /\ (contribDuties d !! key = None -> contribution_of_set xs stored).
Proof.
  induction xs as [|x xs IH]; intros d d' pk ud cloned contrib Hr Hin Hc Ha key.
  { by apply elem_of_nil in Hin. }
  simpl in Hr. unfold bind in Hr.
  destruct (storeSyncContributionUnsafe x.2 d) as [d1 [[]|e]] eqn:Hx; [|done].
  assert (Hkeep : forall v, contribDuties d !! key = Some v ->
                            contribDuties d' !! key = Some v).
  { intros v Hv.
    pose proof (storeSyncContributionUnsafe_keeps _ key v _ _ _ Hv Hx) as Hv1.
    refine (preserves_forEach (fun d => contribDuties d !! key = Some v)
              (fun p => storeSyncContributionUnsafe p.2) xs _ _ _ _ Hv1 Hr).
    intros y _. apply storeSyncContributionUnsafe_keeps. }
  apply elem_of_cons in Hin as [Heq|Hin].
  - subst x. simpl in Hx.
    destruct (storeSyncContributionUnsafe_ok _ _ _ _ _ Hc Ha Hx) as [Hk1 Hroot].
    fold key in Hk1, Hroot.
    exists (default contrib (contribDuties d !! key)). split_and!; [|done| |].
    + refine (preserves_forEach
                (fun d0 => contribDuties d0 !! key
                           = Some (default contrib (contribDuties d !! key)))
                (fun p => storeSyncContributionUnsafe p.2) xs _ _ _ _ Hk1 Hr).
      intros y _. apply storeSyncContributionUnsafe_keeps.
    + intros v Hv. by rewrite Hv.
    + intros ->. simpl. exists (pk, ud), cloned. split; [by left|done].
  - destruct (IH _ _ _ _ _ _ Hr Hin Hc Ha) as (stored & Hs & Hroot & Hfirst & Hset).
    fold key in Hs, Hroot, Hfirst, Hset.
    exists stored. split_and!; [done|done| |].
    + intros v Hv. apply Hkeep in Hv. congruence.
    + intros Hnone.
      destruct (contribDuties d1 !! key) as [v|] eqn:Hk1.
      * rewrite (Hfirst v eq_refl).
        destruct (storeSyncContributionUnsafe_decodes _ _ _ Hx) as (cx & contribx & Hcx & Hax).
        destruct (decide (key = contribKey.mk (contrib_Slot contribx)
                                              (contrib_SubcommitteeIndex contribx)
                                              (contrib_BeaconBlockRoot contribx)))
          as [Hkx|Hkx].
        -- destruct (storeSyncContributionUnsafe_ok _ _ _ _ _ Hcx Hax Hx) as [Hk1' _].
           rewrite <- Hkx in Hk1'. rewrite Hnone in Hk1'. simpl in Hk1'.
           rewrite Hk1 in Hk1'. injection Hk1' as ->.
           exists x, cx. split; [by left|done].
        -- rewrite (storeSyncContributionUnsafe_other_key _ _ _ _ _ _ _ Hcx Hax Hkx Hx)
             in Hk1. congruence.
      * destruct (Hset eq_refl) as (p & c & Hp & Hpc).
        exists p, c. split; [by right|done].
Qed.

Lemma forEach_delete_keeps_contrib (key : contribKey.t)
    (value : SyncCommitteeContribution) (expired : list Duty.t) :
  forall (d d' : MemDB) r,
    listed_inv d ->
    Forall (fun x => x ≠ Duty.mk (contribKey.Slot key) DutySyncContribution) expired ->
    forEach deleteDutyUnsafe expired d = (d', r) ->
    contribDuties d !! key = Some value -> contribDuties d' !! key = Some value.
Proof.
  induction expired as [|x xs IH]; intros d d' r Hinv Hall Hr Hk; simpl in Hr.
  - by injection Hr as <- _.
  - apply Forall_cons in Hall as [Hx Hxs]. unfold bind in Hr.
    destruct (deleteDutyUnsafe x d) as [d1 [[]|e]] eqn:Hd.
    + assert (Hk1 : contribDuties d1 !! key = Some value).
      { destruct (decide (Duty.Type_ x = DutySyncContribution)) as [Hty|Hty].
        - pose proof (deleteDutyUnsafe_spares x d d1 _ (fun E => ltac:(congruence))
                        Hinv Hd) as Hsp.
          unfold spares_other_slots in Hsp. rewrite Hty in Hsp. destruct Hsp as [Hsp _].
          rewrite Hsp; [done|]. intros Heq. apply Hx. destruct x; simpl in *. congruence.
        - pose proof (deleteDutyUnsafe_other_type DutySyncContribution x d d1 _ Hty Hd)
            as [Hsame _]. simpl in Hsame. by rewrite Hsame. }
      eapply IH; [|exact Hxs|exact Hr|exact Hk1].
      by eapply deleteDutyUnsafe_listed.
    + injection Hr as <- _. apply deleteDutyUnsafe_spec in Hd.
      destruct (Duty.Type_ x); try (by destruct Hd as [? _]).
      * by destruct Hd as [-> _].
      * by destruct Hd as [-> _].
Qed.

(** X12. Store, then await, for a sync contribution: the first write
    wins. A [Store] of sync contributions that succeeds leaves, under the
    key (slot, subcommittee index, beacon block root) of each payload, a
    contribution with the hash root of the payload: the one that was there
    before, else one of this set. Unless the same call deleted the
    slot, every query for the key that was queued and not cancelled has
    been sent that contribution and has left the queue, and an
    AwaitSyncContribution for the key that is called next receives it at
    registration and returns it. *)
Theorem store_then_await_sync_contribution (w w' : World) expired duty unsignedSet
    pk ud cloned (contrib : SyncCommitteeContribution) :
  reachable w -> Duty.Type_ duty = DutySyncContribution ->
  (pk, ud) ∈ unsignedSet ->
  Clone ud = Ok cloned -> asSyncContribution cloned = Some contrib ->
  Store true expired duty unsignedSet w = Some (w', Ok tt) ->
  let key := contribKey.mk (contrib_Slot contrib) (contrib_SubcommitteeIndex contrib)
                           (contrib_BeaconBlockRoot contrib) in
  exists stored,
    contrib_HashTreeRoot stored = contrib_HashTreeRoot contrib
    /\ (forall v, contribDuties (db w) !! key = Some v -> stored = v)
    /\ (contribDuties (db w) !! key = None -> contribution_of_set unsignedSet stored)
    /\ (forall q, q ∈ contribQueries (db w) -> Key q = key -> Cancel q ∉ closed w ->
                  contribResp w' !! Response q = Some (mkChan [stored] 1)
                  /\ q ∉ contribQueries (db w'))
    /\ (Duty.mk (contrib_Slot contrib) DutySyncContribution ∉ expired ->
        contribDuties (db w') !! key = Some stored
        /\ await_contribution_yields key stored w').
Proof.
  intros Hw Hty Hin Hc Ha Hst key.
  assert (Hw' : reachable w').
  { eapply (reachable_step (OpStore true expired duty unsignedSet)); [exact Hw|].
    simpl. by rewrite Hst. }
  pose proof (reachable_chan_inv _ Hw) as Hinv.
  pose proof (reachable_listed_inv _ Hw) as Hlisted.
  unfold Store in Hst. simpl in Hst. rewrite Hty in Hst.
  apply storeResolveDelete_cases in Hst
    as [(d1 & e & _ & _ & ?)|(d1 & w2 & d3 & H1 & H2 & H3 & ->)]; [done|].
  destruct (forEach_contrib_ok _ _ _ _ _ _ _ H1 Hin Hc Ha)
    as (stored & Hs & Hroot & Hfirst & Hset).
  fold key in Hs, Hroot, Hfirst, Hset.
  exists stored. split; [done|]. split; [done|]. split; [done|].
  assert (Hq1 : same_waiters (db w) d1).
  { eapply forEach_waiters; [|exact H1].
    intros x d0. apply storeSyncContributionUnsafe_waiters. }
  assert (Hl1 : listed_inv d1).
  { refine (preserves_forEach listed_inv (fun p => storeSyncContributionUnsafe p.2)
              unsignedSet _ _ _ _ Hlisted H1).
    intros x _. apply storeSyncContributionUnsafe_listed. }
  assert (Hdel : same_waiters (db w2) d3).
  { eapply forEach_waiters; [|exact H3]. intros x d0. apply deleteDutyUnsafe_waiters. }
  destruct Hq1 as (_ & _ & _ & Hq & _). destruct Hdel as (_ & _ & _ & Hq3 & _).
  unfold resolveContribQueriesUnsafe in H2. simpl in H2. rewrite Hq in H2.
  destruct Hinv as (_ & _ & _ & Hcon & _).
  destruct (waiters_ok_pass (contribDuties d1) (closed w) _ _ _ Hcon)
    as (heap' & Hres & Hsent & _).
  rewrite Hres in H2. injection H2 as <-. simpl in *.
  split.
  - intros q Hq' Hkey Hopen. specialize (Hsent q Hq').
    apply cancelled_false in Hopen. rewrite Hopen, Hkey, Hs in Hsent.
    destruct Hsent as [_ Hafter]. split; [done|].
    rewrite Hq3. intros Hmem. apply list_elem_of_filter in Hmem as [Hstay _].
    apply stays_queued_spec in Hstay as [_ Hnone]. congruence.
  - intros Hnot.
    assert (Hk3 : contribDuties d3 !! key = Some stored).
    { eapply (forEach_delete_keeps_contrib key stored expired); [| |exact H3|exact Hs].
      - exact Hl1.
      - apply Forall_forall. intros x Hx ->. done. }
    split; [done|].
    apply await_contribution_yields_present; [|done].
    by apply reachable_chan_inv.
Qed.

(** ** Waiting *)

Lemma select_return_empty {V} (id : chan) (heap : gmap chan (buffered V)) (w : World)
    (n : nat) :
  heap !! id = Some (mkChan [] n) -> id ∉ closed w -> shutdown (db w) = false ->
  (forall pick, select_return id None pick heap w = None)
  /\ forall e,
       select_return id (Some e) 0 heap w
       = Some (heap, set_closed ({[id]} ∪ closed w) w, Err (ErrCtx e))
       /\ forall pick heap' w' r,
            select_return id (Some e) pick heap w = Some (heap', w', r) ->
            r = Err (ErrCtx e).
Proof.
  intros Hid Hopen Hsd. apply cancelled_false in Hopen.
  unfold select_return. rewrite Hopen, Hid, Hsd. simpl. split.
  - intros pick. by destruct pick.
  - intros e. split.
    + by rewrite (insert_id _ _ _ Hid).
    + intros pick heap' w' r. destruct pick as [|pick]; simpl; [by intros [= _ _ <-]|].
      by destruct pick.
Qed.

(** X13. An Await call for a key that has no entry waits. In a run of a
    database that is not shut down, the call registers, nothing is sent to
    it, and its select has no case to take while its context is live; when
    its context is done the call returns the error of the context. *)
Theorem await_waits_for_absent_key (w : World) :
  reachable w -> shutdown (db w) = false ->
  (forall slot, proDuties (db w) !! slot = None ->
     exists w1, AwaitProposal_register slot w = Some (w1, nextChan w)
                /\ waits AwaitProposal_return (nextChan w) w1)
  /\ (forall slot commIdx, attDuties (db w) !! attKey.mk slot commIdx = None ->
        exists w1, AwaitAttestation_register slot commIdx w = Some (w1, nextChan w)
                   /\ waits AwaitAttestation_return (nextChan w) w1)
  /\ (forall slot root, aggDuties (db w) !! aggKey.mk slot root = None ->
        exists w1, AwaitAggAttestation_register slot root w = Some (w1, nextChan w)
                   /\ waits AwaitAggAttestation_return (nextChan w) w1)
  /\ (forall slot subcommIdx root,
        contribDuties (db w) !! contribKey.mk slot subcommIdx root = None ->
        exists w1,
          AwaitSyncContribution_register slot subcommIdx root w = Some (w1, nextChan w)
          /\ waits AwaitSyncContribution_return (nextChan w) w1).
Proof.
  intros Hw Hsd. pose proof (reachable_chan_inv _ Hw) as Hinv.
  assert (Hfresh : nextChan w ∉ closed w).
  { intros Hin. destruct Hinv as (_ & _ & _ & _ & Hlt). apply Hlt in Hin. lia. }
  split_and!.
  - intros slot Hnone.
    destruct (AwaitProposal_register_spec slot w Hinv)
      as (w1 & Hreg & _ & Hsd1 & Hcl & Hdel).
    rewrite Hnone in Hdel. destruct Hdel as [Hbuf _].
    exists w1. split; [done|].
    rewrite <- Hcl in Hfresh. rewrite <- Hsd1 in Hsd.
    destruct (select_return_empty _ _ _ _ Hbuf Hfresh Hsd) as [Hlive Hdone].
    unfold waits, AwaitProposal_return. split.
    + intros pick. by rewrite Hlive.
    + intros e. destruct (Hdone e) as [Hzero Hany]. split.
      * rewrite Hzero. by eexists.
      * intros pick w2 r.
        destruct (select_return _ _ pick _ _) as [[[heap w3] r3]|] eqn:Hs; [|done].
        apply Hany in Hs as ->. by intros [= _ <-].
  - intros slot commIdx Hnone.
    destruct (AwaitAttestation_register_spec slot commIdx w Hinv)
      as (w1 & Hreg & _ & Hsd1 & Hcl & Hdel).
    rewrite Hnone in Hdel. destruct Hdel as [Hbuf _].
    exists w1. split; [done|].
    rewrite <- Hcl in Hfresh. rewrite <- Hsd1 in Hsd.
    destruct (select_return_empty _ _ _ _ Hbuf Hfresh Hsd) as [Hlive Hdone].
    unfold waits, AwaitAttestation_return. split.
    + intros pick. by rewrite Hlive.
    + intros e. destruct (Hdone e) as [Hzero Hany]. split.
      * rewrite Hzero. by eexists.
      * intros pick w2 r.
        destruct (select_return _ _ pick _ _) as [[[heap w3] r3]|] eqn:Hs; [|done].
        apply Hany in Hs as ->. by intros [= _ <-].
  - intros slot root Hnone.
    destruct (AwaitAggAttestation_register_spec slot root w Hinv)
      as (w1 & Hreg & _ & Hsd1 & Hcl & Hdel).
    rewrite Hnone in Hdel. destruct Hdel as [Hbuf _].
    exists w1. split; [done|].
    rewrite <- Hcl in Hfresh. rewrite <- Hsd1 in Hsd.
    destruct (select_return_empty _ _ _ _ Hbuf Hfresh Hsd) as [Hlive Hdone].
    unfold waits, AwaitAggAttestation_return. split.
    + intros pick. by rewrite Hlive.
    + intros e. destruct (Hdone e) as [Hzero Hany]. split.
      * rewrite Hzero. by eexists.
      * intros pick w2 r.
        destruct (select_return _ _ pick _ _) as [[[heap w3] r3]|] eqn:Hs; [|done].
        apply Hany in Hs as ->. by intros [= _ <-].
  - intros slot subcommIdx root Hnone.
    destruct (AwaitSyncContribution_register_spec slot subcommIdx root w Hinv)
      as (w1 & Hreg & _ & Hsd1 & Hcl & Hdel).
    rewrite Hnone in Hdel. destruct Hdel as [Hbuf _].
    exists w1. split; [done|].
    rewrite <- Hcl in Hfresh. rewrite <- Hsd1 in Hsd.
    destruct (select_return_empty _ _ _ _ Hbuf Hfresh Hsd) as [Hlive Hdone].
    unfold waits, AwaitSyncContribution_return. split.
    + intros pick. by rewrite Hlive.
    + intros e. destruct (Hdone e) as [Hzero Hany]. split.
      * rewrite Hzero. by eexists.
      * intros pick w2 r.
        destruct (select_return _ _ pick _ _) as [[[heap w3] r3]|] eqn:Hs; [|done].
        apply Hany in Hs as ->. by intros [= _ <-].
Qed.

(** ** A call that has returned *)

Lemma paired_pass {K} `{Countable K} {V} (duties : gmap K V) (closed : gset chan)
    (queries unresolved : list (query K)) (heap heap' : gmap chan (buffered V)) :
  (forall q, q ∈ queries -> Cancel q = Response q) ->
  resolveQueries duties closed queries heap = Some (unresolved, heap') ->
  forall q, q ∈ unresolved -> Cancel q = Response q.
Proof.
  intros Hp Hr q Hq. apply resolveQueries_unresolved in Hr. subst unresolved.
  apply list_elem_of_filter in Hq as [_ Hq]. by apply Hp.
Qed.

(** A resolver pass sends nothing to a call that has returned. *)
Lemma pass_left_alone {K} `{Countable K} {V} (duties : gmap K V) (closed : gset chan)
    (queries unresolved : list (query K)) (heap heap' : gmap chan (buffered V))
    (next : chan) (id : chan) :
  waiters_ok queries heap next ->
  (forall q, q ∈ queries -> Cancel q = Response q) ->
  resolveQueries duties closed queries heap = Some (unresolved, heap') ->
  id ∈ closed -> heap' !! id = heap !! id.
Proof.
  intros Hok Hp Hr Hid.
  destruct (waiters_ok_pass duties closed _ _ _ Hok) as (heap1 & Hres & Hin & Hout).
  rewrite Hres in Hr. injection Hr as _ <-.
  destruct (decide (id ∈ Response <$> queries)) as [Hmem|Hmem]; [|by apply Hout].
  apply list_elem_of_fmap in Hmem as (q & -> & Hq).
  specialize (Hin q Hq). rewrite (Hp q Hq) in Hin.
  apply cancelled_true in Hid. by rewrite Hid in Hin.
Qed.

Lemma paired_set_db (d : MemDB) (w : World) :
  same_waiters (db w) d -> paired w -> paired (set_db d w).
Proof.
  intros (Ha & Hp & Hg & Hc & _). unfold paired. simpl. by rewrite Ha, Hp, Hg, Hc.
Qed.

Lemma left_alone_refl (id : chan) (w : World) : id ∈ closed w -> left_alone id w w.
Proof. intros Hid. unfold left_alone. by split_and!. Qed.

Lemma left_alone_trans (id : chan) (w1 w2 w3 : World) :
  left_alone id w1 w2 -> left_alone id w2 w3 -> left_alone id w1 w3.
Proof.
  intros (_ & A1 & A2 & A3 & A4) (Hc & B1 & B2 & B3 & B4). unfold left_alone.
  split_and!; congruence.
Qed.

Lemma left_alone_set_db (id : chan) (d : MemDB) (w : World) :
  id ∈ closed w -> left_alone id w (set_db d w).
Proof. intros Hid. unfold left_alone. simpl. by split_and!. Qed.

Lemma storeResolveDelete_left_alone (stores : DB unit) (resolve : World -> option World)
    (expired : list Duty.t) (w w' : World) (r : res error unit) (id : chan) :
  (forall d0, preserves (same_waiters d0) stores) ->
  (forall w1 w2, chan_inv w1 -> paired w1 -> id ∈ closed w1 -> resolve w1 = Some w2 ->
                 paired w2 /\ left_alone id w1 w2) ->
  chan_inv w -> paired w -> id ∈ closed w ->
  storeResolveDelete stores resolve expired w = Some (w', r) ->
  paired w' /\ left_alone id w w'.
Proof.
  intros Hst Hres Hinv Hp Hid Hs.
  apply storeResolveDelete_cases in Hs
    as [(d1 & e1 & H1 & -> & _)|(d1 & w2 & d3 & H1 & H2 & H3 & ->)].
  - pose proof (Hst _ _ _ _ (same_waiters_refl _) H1) as Hw.
    split; [by apply paired_set_db|by apply left_alone_set_db].
  - pose proof (Hst _ _ _ _ (same_waiters_refl _) H1) as Hw.
    destruct (Hres (set_db d1 w) w2) as [Hp2 Hl2]; try done.
    { by apply chan_inv_set_db. }
    { by apply paired_set_db. }
    assert (Hw3 : same_waiters (db w2) d3).
    { eapply forEach_waiters; [|exact H3]. intros x d0. apply deleteDutyUnsafe_waiters. }
    split; [by apply paired_set_db|].
    eapply left_alone_trans; [by apply (left_alone_set_db id d1)|].
    eapply left_alone_trans; [exact Hl2|]. apply left_alone_set_db. by destruct Hl2.
Qed.

Lemma resolvers_left_alone (id : chan) (w1 w2 : World) :
  chan_inv w1 -> paired w1 -> id ∈ closed w1 ->
  (resolveProQueriesUnsafe w1 = Some w2 \/ resolveAttQueriesUnsafe w1 = Some w2
   \/ resolveAggQueriesUnsafe w1 = Some w2 \/ resolveContribQueriesUnsafe w1 = Some w2) ->
  paired w2 /\ left_alone id w1 w2.
Proof.
  intros (Hatt & Hpro & Hagg & Hcon & _) (Pp & Pa & Pg & Pc) Hid
    [Hr|[Hr|[Hr|Hr]]].
  - unfold resolveProQueriesUnsafe in Hr.
    destruct (resolveQueries _ _ _ _) as [[un heap]|] eqn:Hpass; [|done].
    injection Hr as <-. split.
    + unfold paired. simpl. split_and!; try done. by eapply paired_pass.
    + unfold left_alone. simpl. split_and!; try done. by eapply pass_left_alone.
  - unfold resolveAttQueriesUnsafe in Hr.
    destruct (resolveQueries _ _ _ _) as [[un heap]|] eqn:Hpass; [|done].
    injection Hr as <-. split.
    + unfold paired. simpl. split_and!; try done. by eapply paired_pass.
    + unfold left_alone. simpl. split_and!; try done. by eapply pass_left_alone.
  - unfold resolveAggQueriesUnsafe in Hr.
    destruct (resolveQueries _ _ _ _) as [[un heap]|] eqn:Hpass; [|done].
    injection Hr as <-. split.
    + unfold paired. simpl. split_and!; try done. by eapply paired_pass.
    + unfold left_alone. simpl. split_and!; try done. by eapply pass_left_alone.
  - unfold resolveContribQueriesUnsafe in Hr.
    destruct (resolveQueries _ _ _ _) as [[un heap]|] eqn:Hpass; [|done].
    injection Hr as <-. split.
    + unfold paired. simpl. split_and!; try done. by eapply paired_pass.
    + unfold left_alone. simpl. split_and!; try done. by eapply pass_left_alone.
Qed.

Lemma Store_left_alone addOk expired duty unsignedSet (w w' : World) r (id : chan) :
  chan_inv w -> paired w -> id ∈ closed w ->
  Store addOk expired duty unsignedSet w = Some (w', r) ->
  paired w' /\ left_alone id w w'.
Proof.
  intros Hinv Hp Hid. unfold Store. destruct addOk; simpl.
  2:{ intros [= <- _]. split; [done|by apply left_alone_refl]. }
  destruct (Duty.Type_ duty).
  - destruct (decide _); [intros [= <- _]; split; [done|by apply left_alone_refl]|].
    apply storeResolveDelete_left_alone; try done.
    + intros d0. apply preserves_forEach. intros x _. apply storeProposalUnsafe_waiters.
    + intros w1 w2 ? ? ? ?. apply resolvers_left_alone; auto.
  - apply storeResolveDelete_left_alone; try done.
    + intros d0. apply preserves_forEach. intros x _. apply storeAttestationUnsafe_waiters.
    + intros w1 w2 ? ? ? ?. apply resolvers_left_alone; auto.
  - intros [= <- _]. split; [done|by apply left_alone_refl].
  - apply storeResolveDelete_left_alone; try done.
    + intros d0. apply preserves_forEach. intros x _. apply storeAggAttestationUnsafe_waiters.
    + intros w1 w2 ? ? ? ?. apply resolvers_left_alone; auto.
  - apply storeResolveDelete_left_alone; try done.
    + intros d0. apply preserves_forEach. intros x _.
      apply storeSyncContributionUnsafe_waiters.
    + intros w1 w2 ? ? ? ?. apply resolvers_left_alone; auto.
  - intros [= <- _]. split; [done|by apply left_alone_refl].
Qed.

Lemma resolvers_paired (w1 w2 : World) :
  paired w1 ->
  (resolveProQueriesUnsafe w1 = Some w2 \/ resolveAttQueriesUnsafe w1 = Some w2
   \/ resolveAggQueriesUnsafe w1 = Some w2 \/ resolveContribQueriesUnsafe w1 = Some w2) ->
  paired w2.
Proof.
  intros (Pp & Pa & Pg & Pc) [Hr|[Hr|[Hr|Hr]]].
  - unfold resolveProQueriesUnsafe in Hr.
    destruct (resolveQueries _ _ _ _) as [[un heap]|] eqn:Hpass; [|done].
    injection Hr as <-. unfold paired. simpl. split_and!; try done. by eapply paired_pass.
  - unfold resolveAttQueriesUnsafe in Hr.
    destruct (resolveQueries _ _ _ _) as [[un heap]|] eqn:Hpass; [|done].
    injection Hr as <-. unfold paired. simpl. split_and!; try done. by eapply paired_pass.
  - unfold resolveAggQueriesUnsafe in Hr.
    destruct (resolveQueries _ _ _ _) as [[un heap]|] eqn:Hpass; [|done].
    injection Hr as <-. unfold paired. simpl. split_and!; try done. by eapply paired_pass.
  - unfold resolveContribQueriesUnsafe in Hr.
    destruct (resolveQueries _ _ _ _) as [[un heap]|] eqn:Hpass; [|done].
    injection Hr as <-. unfold paired. simpl. split_and!; try done. by eapply paired_pass.
Qed.

Lemma Store_paired addOk expired duty unsignedSet (w w' : World) r :
  paired w -> Store addOk expired duty unsignedSet w = Some (w', r) -> paired w'.
Proof.
  intros Hp. unfold Store. destruct addOk; simpl; [|by intros [= <- _]].
  assert (Hgen : forall stores resolve,
            (forall d0, preserves (same_waiters d0) stores) ->
            (forall w1 w2, paired w1 -> resolve w1 = Some w2 -> paired w2) ->
            storeResolveDelete stores resolve expired w = Some (w', r) -> paired w').
  { intros stores resolve Hst Hres Hs.
    apply storeResolveDelete_cases in Hs
      as [(d1 & e1 & H1 & -> & _)|(d1 & w2 & d3 & H1 & H2 & H3 & ->)].
    - apply paired_set_db; [|done]. by eapply Hst; [apply same_waiters_refl|].
    - apply paired_set_db.
      + eapply forEach_waiters; [|exact H3]. intros x d0. apply deleteDutyUnsafe_waiters.
      + eapply Hres; [|exact H2]. apply paired_set_db; [|done].
        by eapply Hst; [apply same_waiters_refl|]. }
  destruct (Duty.Type_ duty).
  - destruct (decide _); [by intros [= <- _]|]. apply Hgen.
    + intros d0. apply preserves_forEach. intros x _. apply storeProposalUnsafe_waiters.
    + intros w1 w2 ? ?. eapply resolvers_paired; eauto.
  - apply Hgen.
    + intros d0. apply preserves_forEach. intros x _. apply storeAttestationUnsafe_waiters.
    + intros w1 w2 ? ?. eapply resolvers_paired; eauto.
  - by intros [= <- _].
  - apply Hgen.
    + intros d0. apply preserves_forEach. intros x _. apply storeAggAttestationUnsafe_waiters.
    + intros w1 w2 ? ?. eapply resolvers_paired; eauto 6.
  - apply Hgen.
    + intros d0. apply preserves_forEach. intros x _.
      apply storeSyncContributionUnsafe_waiters.
    + intros w1 w2 ? ?. eapply resolvers_paired; eauto 6.
  - by intros [= <- _].
Qed.

Lemma paired_snoc {K} (queries : list (query K)) (key : K) (next : chan) :
  (forall q, q ∈ queries -> Cancel q = Response q) ->
  forall q, q ∈ queries ++ [mkQuery key next next] -> Cancel q = Response q.
Proof.
  intros Hp q [Hq|Hq%list_elem_of_singleton]%elem_of_app; [by apply Hp|by subst].
Qed.

Lemma select_return_left_alone {V} (id id' : chan) ctxErr pick
    (heap heap' : gmap chan (buffered V)) (w w1 : World) (r : res error V) :
  select_return id' ctxErr pick heap w = Some (heap', w1, r) ->
  id ∈ closed w ->
  heap' !! id = heap !! id /\ w1 = set_closed ({[id']} ∪ closed w) w.
Proof.
  intros Hs Hid. apply select_return_cases in Hs as (Hopen & c & _ & _ & -> & ->).
  split; [|done]. rewrite lookup_insert_ne; [done|]. intros ->. done.
Qed.

(** One step of a run keeps the pairing, and leaves alone the channels of
    a call that has returned. *)
Lemma exec_left_alone (op : Op) (w w' : World) (id : chan) :
  chan_inv w -> paired w -> exec op w = Some w' ->
  paired w' /\ (id ∈ closed w -> left_alone id w w').
Proof.
  intros Hinv Hp Hex.
  assert (Hlt : id ∈ closed w -> id ≠ nextChan w).
  { intros Hid. destruct Hinv as (_ & _ & _ & _ & Hlt). apply Hlt in Hid. lia. }
  assert (Hreg : forall w3, chan_inv w3 /\ paired w3 /\ closed w3 = closed w ->
            forall w4,
              (resolveProQueriesUnsafe w3 = Some w4 \/ resolveAttQueriesUnsafe w3 = Some w4
               \/ resolveAggQueriesUnsafe w3 = Some w4
               \/ resolveContribQueriesUnsafe w3 = Some w4) ->
              (id ∈ closed w -> left_alone id w w3) ->
              paired w4 /\ (id ∈ closed w -> left_alone id w w4)).
  { intros w3 (Hi3 & Hp3 & Hc3) w4 Hres Hl3. split; [by eapply resolvers_paired|].
    intros Hid. eapply left_alone_trans; [by apply Hl3|].
    eapply resolvers_left_alone; [exact Hi3|exact Hp3| |exact Hres]. by rewrite Hc3. }
  destruct Hinv as (Iatt & Ipro & Iagg & Icon & Icl).
  destruct Hp as (Pp & Pa & Pg & Pc).
  assert (Icl' : forall i, i ∈ closed w -> i < S (nextChan w)).
  { intros i Hi. apply Icl in Hi. lia. }
  destruct op; simpl in Hex.
  - destruct (Store _ _ _ _ w) as [[w1 r]|] eqn:Hst; [|done]. injection Hex as <-.
    split; [by eapply Store_paired|].
    intros Hid. by eapply Store_left_alone.
  - unfold AwaitProposal_register in Hex. simpl in Hex.
    destruct (resolveProQueriesUnsafe _) as [w4|] eqn:Hres; [|done]. injection Hex as <-.
    eapply Hreg; [|by left|].
    + split_and!; [|by split_and!; try done; apply paired_snoc|done].
      unfold chan_inv. simpl. split_and!; try done; try (by apply waiters_ok_next).
      by apply waiters_ok_register.
    + intros Hid. unfold left_alone. simpl. split_and!; try done.
      rewrite lookup_insert_ne; [done|]. intros Heq. by apply Hlt.
  - unfold AwaitAttestation_register in Hex. simpl in Hex.
    destruct (resolveAttQueriesUnsafe _) as [w4|] eqn:Hres; [|done]. injection Hex as <-.
    eapply Hreg; [|right; by left|].
    + split_and!; [|by split_and!; try done; apply paired_snoc|done].
      unfold chan_inv. simpl. split_and!; try done; try (by apply waiters_ok_next).
      by apply waiters_ok_register.
    + intros Hid. unfold left_alone. simpl. split_and!; try done.
      rewrite lookup_insert_ne; [done|]. intros Heq. by apply Hlt.
  - unfold AwaitAggAttestation_register in Hex. simpl in Hex.
    destruct (resolveAggQueriesUnsafe _) as [w4|] eqn:Hres; [|done]. injection Hex as <-.
    eapply Hreg; [|right; right; by left|].
    + split_and!; [|by split_and!; try done; apply paired_snoc|done].
      unfold chan_inv. simpl. split_and!; try done; try (by apply waiters_ok_next).
      by apply waiters_ok_register.
    + intros Hid. unfold left_alone. simpl. split_and!; try done.
      rewrite lookup_insert_ne; [done|]. intros Heq. by apply Hlt.
  - unfold AwaitSyncContribution_register in Hex. simpl in Hex.
    destruct (resolveContribQueriesUnsafe _) as [w4|] eqn:Hres; [|done].
    injection Hex as <-.
    eapply Hreg; [|right; right; by right|].
    + split_and!; [|by split_and!; try done; apply paired_snoc|done].
      unfold chan_inv. simpl. split_and!; try done; try (by apply waiters_ok_next).
      by apply waiters_ok_register.
    + intros Hid. unfold left_alone. simpl. split_and!; try done.
      rewrite lookup_insert_ne; [done|]. intros Heq. by apply Hlt.
  - unfold AwaitProposal_return in Hex.
    destruct (select_return _ _ _ _ _) as [[[heap w1] r]|] eqn:Hs; [|done].
    injection Hex as <-. split.
    + apply select_return_cases in Hs as (_ & c & _ & _ & _ & ->). by split_and!.
    + intros Hid. destruct (select_return_left_alone id _ _ _ _ _ _ _ _ Hs Hid) as [Hh ->].
      unfold left_alone. simpl. split_and!; try done. apply elem_of_union. by right.
  - unfold AwaitAttestation_return in Hex.
    destruct (select_return _ _ _ _ _) as [[[heap w1] r]|] eqn:Hs; [|done].
    injection Hex as <-. split.
    + apply select_return_cases in Hs as (_ & c & _ & _ & _ & ->). by split_and!.
    + intros Hid. destruct (select_return_left_alone id _ _ _ _ _ _ _ _ Hs Hid) as [Hh ->].
      unfold left_alone. simpl. split_and!; try done. apply elem_of_union. by right.
  - unfold AwaitAggAttestation_return in Hex.
    destruct (select_return _ _ _ _ _) as [[[heap w1] r]|] eqn:Hs; [|done].
    injection Hex as <-. split.
    + apply select_return_cases in Hs as (_ & c & _ & _ & _ & ->). by split_and!.
    + intros Hid. destruct (select_return_left_alone id _ _ _ _ _ _ _ _ Hs Hid) as [Hh ->].
      unfold left_alone. simpl. split_and!; try done. apply elem_of_union. by right.
  - unfold AwaitSyncContribution_return in Hex.
    destruct (select_return _ _ _ _ _) as [[[heap w1] r]|] eqn:Hs; [|done].
    injection Hex as <-. split.
    + apply select_return_cases in Hs as (_ & c & _ & _ & _ & ->). by split_and!.
    + intros Hid. destruct (select_return_left_alone id _ _ _ _ _ _ _ _ Hs Hid) as [Hh ->].
      unfold left_alone. simpl. split_and!; try done. apply elem_of_union. by right.
  - unfold Shutdown in Hex. destruct (shutdown (db w)); [done|]. injection Hex as <-.
    split; [by split_and!|]. intros Hid. unfold left_alone. simpl. by split_and!.
Qed.

Lemma reachable_paired (w : World) : reachable w -> paired w.
Proof.
  intros [ops Hrun].
  assert (Hboth : chan_inv w /\ paired w); [|by destruct Hboth].
  eapply (run_invariant (fun _ => True) (fun w => chan_inv w /\ paired w));
    [| | |exact Hrun].
  - intros op w1 w2 _ [Hi Hp] Hex. split; [by eapply exec_chan_inv|].
    by eapply (exec_left_alone op w1 w2 0).
  - by apply Forall_true.
  - split; [apply chan_inv_new|]. unfold paired. simpl.
    split_and!; intros q Hq; by apply elem_of_nil in Hq.
Qed.

(** X14. A call that has returned is left alone. When an Await call
    returns it closes its cancel channel; from then on, in every run, no
    resolver pass sends on its response channel and nothing else touches
    it: what the channel holds stays as it is. *)
Theorem returned_call_is_left_alone (w : World) (id : chan) (ops : list Op) :
  reachable w -> id ∈ closed w ->
  forall w', run ops w = Some w' -> left_alone id w w'.
Proof.
  intros Hw Hid. revert w Hw Hid. induction ops as [|op ops IH]; intros w Hw Hid w' Hrun.
  - injection Hrun as <-. by apply left_alone_refl.
  - simpl in Hrun. destruct (exec op w) as [w1|] eqn:Hex; [|done].
    destruct (exec_left_alone op w w1 id (reachable_chan_inv _ Hw) (reachable_paired _ Hw)
                Hex) as [_ Hl].
    specialize (Hl Hid). eapply left_alone_trans; [exact Hl|].
    apply IH; [by eapply reachable_step|by destruct Hl|done].
Qed.

(** ** Storing after eviction *)

Lemma attSteps_fresh pubkey attData (d : MemDB) :
  (forall k, attKey.Slot k = att_Slot (Data attData) -> attDuties d !! k = None) ->
  (forall k, pkKey.Slot k = att_Slot (Data attData) -> attPubKeys d !! k = None) ->
  exists d', attSteps pubkey attData d = (d', Ok tt)
             /\ att_duplicated pubkey attData d' (Data attData) (Data attData).
Proof.
  intros Hatt Hpk.
  set (slot := att_Slot (Data attData)).
  set (c := AttesterDuty.CommitteeIndex (Duty_ attData)).
  set (v := AttesterDuty.ValidatorIndex (Duty_ attData)).
  set (t := AttesterDuty.Slot (Duty_ attData)).
  unfold attSteps, bind. fold slot c v t.
  rewrite (storePubKey_None (pkKey.mk slot c v) pubkey t d) by (by apply Hpk).
  set (d1 := set_attKeysBySlot _ _).
  rewrite (storeAttData_None (attKey.mk slot c) (Data attData) d1) by (by apply Hatt).
  set (d2 := set_attDuties _ d1).
  assert (Hp2 : attPubKeys d2 !! pkKey.mk slot c v = Some pubkey)
    by (simpl; apply lookup_insert_eq).
  assert (Ha2 : attDuties d2 !! attKey.mk slot c = Some (Data attData))
    by (simpl; apply lookup_insert_eq).
  destruct (decide (c = 0%N)) as [Hc|Hc].
  - rewrite Hc in *.
    rewrite (storePubKey_Some _ _ _ _ _ Hp2). rewrite decide_False by (intros ?; done).
    rewrite (storeAttData_Some _ _ _ _ Ha2). rewrite decide_False by (intros ?; done).
    exists d2. split; [done|]. unfold att_duplicated. fold slot c v. rewrite Hc.
    unfold PubKeyByAttestation. rewrite Hp2. by split_and!.
  - assert (Hp0 : attPubKeys d2 !! pkKey.mk slot 0 v = None).
    { simpl. rewrite lookup_insert_ne by congruence. by apply Hpk. }
    rewrite (storePubKey_None _ pubkey t d2 Hp0).
    set (d3 := set_attKeysBySlot _ _).
    assert (Ha0 : attDuties d3 !! attKey.mk slot 0 = None).
    { simpl. rewrite lookup_insert_ne by congruence. by apply Hatt. }
    rewrite (storeAttData_None _ (Data attData) d3 Ha0).
    eexists. split; [done|]. unfold att_duplicated. fold slot c v.
    unfold PubKeyByAttestation. simpl.
    rewrite lookup_insert_eq.
    rewrite (lookup_insert_ne _ (attKey.mk slot 0) (attKey.mk slot c)) by congruence.
    rewrite !lookup_insert_eq.
    rewrite (lookup_insert_ne _ (pkKey.mk slot 0 v) (pkKey.mk slot c v)) by congruence.
    rewrite !lookup_insert_eq. by split_and!.
Qed.

Lemma accepts_fresh_empty (duty : Duty.t) pubkey (ud cloned : UnsignedData) (d : MemDB) :
  Clone ud = Ok cloned -> no_entries_for duty d -> accepts_fresh duty pubkey ud cloned d.
Proof.
  intros Hc Hnone. unfold accepts_fresh, no_entries_for in *.
  destruct (Duty.Type_ duty); try done.
  - intros proposal Ha Hs.
    unfold storeProposalUnsafe. db_unfold. rewrite Hc. db_unfold. rewrite Ha. db_unfold.
    rewrite Hs. db_unfold. rewrite Hnone. eexists. split; [done|]. simpl.
    apply lookup_insert_eq.
  - intros attData Ha Hs. destruct Hnone as (Hatt & Hpk & _).
    rewrite (storeAttestationUnsafe_steps pubkey ud cloned attData d Hc Ha).
    apply attSteps_fresh; intros k Hk; [apply Hatt|apply Hpk]; congruence.
  - intros aggAtt data root Ha Hd Hroot Hs. destruct Hnone as (Hagg & _).
    unfold storeAggAttestationUnsafe. db_unfold. rewrite Hc. db_unfold. rewrite Ha. db_unfold.
    rewrite Hd. db_unfold. rewrite Hroot. db_unfold. rewrite Hs.
    rewrite (Hagg (aggKey.mk (Duty.Slot duty) root)) by done.
    eexists. split; [done|]. simpl. apply lookup_insert_eq.
  - intros contrib root Ha Hroot Hs. destruct Hnone as (Hcon & _).
    unfold storeSyncContributionUnsafe. db_unfold. rewrite Hc. db_unfold.
    rewrite Ha. db_unfold. rewrite Hroot. db_unfold. rewrite Hs.
    rewrite (Hcon (contribKey.mk (Duty.Slot duty) (contrib_SubcommitteeIndex contrib)
                                 (contrib_BeaconBlockRoot contrib))) by done.
    eexists. split; [done|]. simpl. apply lookup_insert_eq.
Qed.

(** X15. Eviction frees the slot. In a run from a new database, once an
    expired duty is deleted, a store for its slot and type is accepted
    whatever was stored for the slot before: it does not clash, and the
    payload it leaves under its keys is the new one. For an attester duty
    this needs that every attestation stored in the run carried the slot
    of its duty. *)
Theorem eviction_frees_the_slot (ops : list Op) (w : World) (duty : Duty.t) (d1 : MemDB)
    pubkey (ud cloned : UnsignedData) :
  run ops NewWorld = Some w ->
  (Duty.Type_ duty = DutyAttester -> Forall slots_agree ops) ->
  deleteDutyUnsafe duty (db w) = (d1, Ok tt) ->
  Clone ud = Ok cloned ->
  accepts_fresh duty pubkey ud cloned d1.
Proof.
  intros Hrun Hagree Hdel Hc. apply accepts_fresh_empty; [done|].
  assert (Hw : reachable w) by (by exists ops).
  eapply deleteDutyUnsafe_complete; [| | |exact Hdel].
  - intros Hty. eapply run_att_inv; [by apply Hagree|exact Hrun].
  - by apply reachable_agg_inv.
  - by apply reachable_contrib_inv.
Qed.

(** ** The resolver pass, again *)

Lemma resolveQueries_all_stay {K} `{Countable K} {V} (duties : gmap K V)
    (closed : gset chan) (queries : list (query K)) (heap : gmap chan (buffered V)) :
  (forall q, q ∈ queries -> stays_queued duties closed q = true) ->
  resolveQueries duties closed queries heap = Some (queries, heap).
Proof.
  induction queries as [|q qs IH]; intros Hall; simpl; [done|].
  assert (Hq : stays_queued duties closed q = true) by (apply Hall; by left).
  apply stays_queued_spec in Hq as [-> ->].
  rewrite IH; [done|]. intros q' Hq'. apply Hall. by right.
Qed.

Lemma resolveQueries_again {K} `{Countable K} {V} (duties : gmap K V)
    (closed : gset chan) (queries unresolved : list (query K))
    (heap heap' : gmap chan (buffered V)) :
  resolveQueries duties closed queries heap = Some (unresolved, heap') ->
  resolveQueries duties closed unresolved heap' = Some (unresolved, heap').
Proof.
  intros Hr. apply resolveQueries_unresolved in Hr. subst unresolved.
  apply resolveQueries_all_stay. intros q Hq.
  by apply list_elem_of_filter in Hq as [Hq _].
Qed.

(** X16. A resolver pass is idempotent: run again right after a pass that
    completed, it sends nothing and leaves the queue as it is. *)
Theorem resolver_pass_idempotent (w w1 : World) :
  (resolveProQueriesUnsafe w = Some w1 -> resolveProQueriesUnsafe w1 = Some w1)
  /\ (resolveAttQueriesUnsafe w = Some w1 -> resolveAttQueriesUnsafe w1 = Some w1)
  /\ (resolveAggQueriesUnsafe w = Some w1 -> resolveAggQueriesUnsafe w1 = Some w1)
  /\ (resolveContribQueriesUnsafe w = Some w1 -> resolveContribQueriesUnsafe w1 = Some w1).
Proof.
  split_and!.
  - unfold resolveProQueriesUnsafe.
    destruct (resolveQueries _ _ _ _) as [[un heap]|] eqn:Hpass; [|done].
    intros [= <-]. simpl. by rewrite (resolveQueries_again _ _ _ _ _ _ Hpass).
  - unfold resolveAttQueriesUnsafe.
    destruct (resolveQueries _ _ _ _) as [[un heap]|] eqn:Hpass; [|done].
    intros [= <-]. simpl. by rewrite (resolveQueries_again _ _ _ _ _ _ Hpass).
  - unfold resolveAggQueriesUnsafe.
    destruct (resolveQueries _ _ _ _) as [[un heap]|] eqn:Hpass; [|done].
    intros [= <-]. simpl. by rewrite (resolveQueries_again _ _ _ _ _ _ Hpass).
  - unfold resolveContribQueriesUnsafe.
    destruct (resolveQueries _ _ _ _) as [[un heap]|] eqn:Hpass; [|done].
    intros [= <-]. simpl. by rewrite (resolveQueries_again _ _ _ _ _ _ Hpass).
Qed.

(** ** Entries and their keys *)

Lemma own_key_inv_ext (d d' : MemDB) : same_maps d d' -> own_key_inv d -> own_key_inv d'.
Proof.
  intros (Ha & _ & _ & Hp & Hg & _ & Hc & _). unfold own_key_inv.
  by rewrite Ha, Hp, Hg, Hc.
Qed.

Lemma storeProposalUnsafe_own_key ud : preserves own_key_inv (storeProposalUnsafe ud).
Proof.
  intros d d' r (Hp & Ha & Hc & Hg) Hr.
  pose proof (storeProposalUnsafe_frame _ _ _ _ Hr) as ((Ea & _) & (Eg & _) & (Ec & _)).
  unfold own_key_inv. rewrite Ea, Eg, Ec. split_and!; try done.
  apply storeProposalUnsafe_spec in Hr
    as [->|(cloned & proposal & slot & _ & _ & Hs & _ & _ & ->)]; [done|].
  intros s v. simpl. destruct (decide (slot = s)) as [<-|Hne].
  - rewrite lookup_insert_eq. by intros [= <-].
  - rewrite lookup_insert_ne by done. apply Hp.
Qed.

Lemma storeSyncContributionUnsafe_own_key ud :
  preserves own_key_inv (storeSyncContributionUnsafe ud).
Proof.
  intros d d' r (Hp & Ha & Hc & Hg) Hr.
  pose proof (storeSyncContributionUnsafe_frame _ _ _ _ Hr) as ((Ea & _) & Ep & (Eg & _)).
  unfold same_proposer in Ep. unfold own_key_inv. rewrite Ea, Eg, Ep. split_and!; try done.
  apply storeSyncContributionUnsafe_spec in Hr
    as [->|(contrib & key & Hkey & _ & _ & ->)]; [done|].
  intros k v. simpl. destruct (decide (key = k)) as [<-|Hne].
  - rewrite lookup_insert_eq. by intros [= <-].
  - rewrite lookup_insert_ne by done. apply Hc.
Qed.

Lemma storeAggAttestationUnsafe_own_key ud :
  preserves own_key_inv (storeAggAttestationUnsafe ud).
Proof.
  intros d d' r (Hp & Ha & Hc & Hg) Hr.
  pose proof (storeAggAttestationUnsafe_frame _ _ _ _ Hr) as ((Ea & _) & Ep & (Ec & _)).
  unfold same_proposer in Ep. unfold own_key_inv. rewrite Ea, Ec, Ep. split_and!; try done.
  apply storeAggAttestationUnsafe_spec in Hr
    as [[-> _]|(aggAtt & data & key & Hd & Hh & Hs & _ & [[_ ->]|[_ ->]])];
    [done| |]; simpl.
  - intros k v. destruct (decide (key = k)) as [<-|Hne].
    + rewrite lookup_insert_eq. intros [= <-]. by exists data.
    + rewrite lookup_insert_ne by done. apply Hg.
  - intros k v. destruct (decide (key = k)) as [<-|Hne].
    + rewrite lookup_insert_eq. intros [= <-]. by exists data.
    + rewrite lookup_insert_ne by done. apply Hg.
Qed.

Lemma storeAttData_own_key aKey data (d d' : MemDB) r :
  att_Slot data = attKey.Slot aKey ->
  (forall k v, attDuties d !! k = Some v -> att_Slot v = attKey.Slot k) ->
  storeAttData aKey data d = (d', r) ->
  forall k v, attDuties d' !! k = Some v -> att_Slot v = attKey.Slot k.
Proof.
  intros Hs Ha Hr.
  apply storeAttData_spec in Hr
    as [(_ & _ & _ & -> & _)|[(_ & _ & _ & -> & _)|(_ & _ & ->)]]; [done|done|].
  intros k v. simpl. destruct (decide (aKey = k)) as [<-|Hne].
  - rewrite lookup_insert_eq. by intros [= <-].
  - rewrite lookup_insert_ne by done. apply Ha.
Qed.

Lemma storeAttestationUnsafe_own_key pubkey ud :
  preserves own_key_inv (storeAttestationUnsafe pubkey ud).
Proof.
  intros d d' r (Hp & Ha & Hc & Hg) Hr.
  pose proof (storeAttestationUnsafe_frame _ _ _ _ _ Hr) as (Ep & (Eg & _) & (Ec & _)).
  unfold same_proposer in Ep. unfold own_key_inv. rewrite Eg, Ec, Ep. split_and!; try done.
  apply storeAttestationUnsafe_cases in Hr
    as [(-> & _)|(cloned & attData & _ & _ & Hsteps)]; [done|].
  unfold attSteps, bind in Hsteps.
  destruct (storePubKey _ _ _ d) as [d1 [[]|e1]] eqn:H1.
  2:{ injection Hsteps as <- _. apply storePubKey_frame in H1 as (-> & _). done. }
  apply storePubKey_frame in H1 as (E1 & _). rewrite <- E1 in Ha.
  destruct (storeAttData _ _ d1) as [d2 [[]|e2]] eqn:H2.
  2:{ injection Hsteps as <- _. by eapply storeAttData_own_key; [| |exact H2]. }
  assert (Ha2 : forall k v, attDuties d2 !! k = Some v -> att_Slot v = attKey.Slot k)
    by (by eapply storeAttData_own_key; [| |exact H2]).
  destruct (storePubKey _ _ _ d2) as [d3 [[]|e3]] eqn:H3.
  2:{ injection Hsteps as <- _. apply storePubKey_frame in H3 as (-> & _). done. }
  apply storePubKey_frame in H3 as (E3 & _). rewrite <- E3 in Ha2.
  by eapply storeAttData_own_key; [| |exact Hsteps].
Qed.

Lemma deleteDutyUnsafe_submap (duty : Duty.t) (d d' : MemDB) r :
  deleteDutyUnsafe duty d = (d', r) ->
  (forall k v, proDuties d' !! k = Some v -> proDuties d !! k = Some v)
  /\ (forall k v, attDuties d' !! k = Some v -> attDuties d !! k = Some v)
  /\ (forall k v, contribDuties d' !! k = Some v -> contribDuties d !! k = Some v)
  /\ (forall k v, aggDuties d' !! k = Some v -> aggDuties d !! k = Some v).
Proof.
  intros Hr. apply deleteDutyUnsafe_spec in Hr. destruct (Duty.Type_ duty).
  - destruct Hr as (_ & -> & (-> & _) & (-> & _) & (-> & _)). split_and!; try done.
    intros k v Hk. by apply lookup_delete_Some in Hk as [_ ?].
  - destruct Hr as (_ & _ & _ & Hatt & -> & (-> & _) & (-> & _)). split_and!; try done.
    intros k v. rewrite Hatt. by destruct (decide _).
  - by destruct Hr as [-> _].
  - destruct Hr as (_ & _ & Hk & (-> & _) & -> & (-> & _)). split_and!; try done.
    intros k v. rewrite Hk. by destruct (decide _).
  - destruct Hr as (_ & _ & Hk & (-> & _) & -> & (-> & _)). split_and!; try done.
    intros k v. rewrite Hk. by destruct (decide _).
  - by destruct Hr as [-> _].
Qed.

Lemma deleteDutyUnsafe_own_key duty : preserves own_key_inv (deleteDutyUnsafe duty).
Proof.
  intros d d' r (Hp & Ha & Hc & Hg) Hr.
  apply deleteDutyUnsafe_submap in Hr as (Sp & Sa & Sc & Sg).
  unfold own_key_inv. split_and!; eauto.
Qed.

Lemma exec_own_key (op : Op) (w w' : World) :
  own_key_inv (db w) -> exec op w = Some w' -> own_key_inv (db w').
Proof.
  intros Hinv Hex.
  eapply (exec_maps_inv own_key_inv (fun _ => True));
    [| | | | | |done|exact Hinv|exact Hex].
  - intros d d'. apply own_key_inv_ext.
  - apply storeProposalUnsafe_own_key.
  - intros. apply storeAttestationUnsafe_own_key.
  - apply storeAggAttestationUnsafe_own_key.
  - apply storeSyncContributionUnsafe_own_key.
  - intros. apply deleteDutyUnsafe_own_key.
Qed.

(** X17. In every run from a new database each entry is stored under the
    key its own fields give: a proposal under its slot, an attestation
    under the slot of its data, a contribution under its slot,
    subcommittee index and beacon block root, an aggregate under the slot
    and the hash root of its attestation data. So the value an Await call
    is sent has the slot the call asked for. *)
Theorem entries_stored_under_own_key (w : World) :
  reachable w ->
  own_key_inv (db w)
  /\ (forall slot w1 id value n,
        AwaitProposal_register slot w = Some (w1, id) ->
        proResp w1 !! id = Some (mkChan [value] n) -> pro_Slot value = Ok slot)
  /\ (forall slot commIdx w1 id value n,
        AwaitAttestation_register slot commIdx w = Some (w1, id) ->
        attResp w1 !! id = Some (mkChan [value] n) -> att_Slot value = slot)
  /\ (forall slot subcommIdx root w1 id value n,
        AwaitSyncContribution_register slot subcommIdx root w = Some (w1, id) ->
        contribResp w1 !! id = Some (mkChan [value] n) ->
        contrib_Slot value = slot /\ contrib_SubcommitteeIndex value = subcommIdx
        /\ contrib_BeaconBlockRoot value = root)
  /\ (forall slot root w1 id value n,
        AwaitAggAttestation_register slot root w = Some (w1, id) ->
        aggResp w1 !! id = Some (mkChan [value] n) ->
        exists data, agg_Data value = Ok data /\ att_HashTreeRoot data = Ok root
                     /\ att_Slot data = slot).
Proof.
  intros Hw.
  assert (Hown : own_key_inv (db w)).
  { destruct Hw as [ops Hrun].
    eapply (run_invariant (fun _ => True) (fun w => own_key_inv (db w)));
      [| | |exact Hrun].
    - intros op w1 w2 _. apply exec_own_key.
    - by apply Forall_true.
    - unfold own_key_inv. simpl. split_and!; intros k v Hk; by rewrite lookup_empty in Hk. }
  pose proof (reachable_chan_inv _ Hw) as Hinv.
  destruct Hown as (Hp & Ha & Hc & Hg). split; [done|]. split_and!.
  - intros slot w1 id value n Hreg Hbuf.
    destruct (AwaitProposal_register_spec slot w Hinv) as (w1' & Hreg' & _ & _ & _ & Hdel).
    rewrite Hreg in Hreg'. injection Hreg' as <- ->.
    destruct (proDuties (db w) !! slot) as [v|] eqn:Hk.
    + destruct Hdel as [Hb _]. rewrite Hb in Hbuf. injection Hbuf as <- _. by apply Hp.
    + destruct Hdel as [Hb _]. rewrite Hb in Hbuf. done.
  - intros slot commIdx w1 id value n Hreg Hbuf.
    destruct (AwaitAttestation_register_spec slot commIdx w Hinv)
      as (w1' & Hreg' & _ & _ & _ & Hdel).
    rewrite Hreg in Hreg'. injection Hreg' as <- ->.
    destruct (attDuties (db w) !! _) as [v|] eqn:Hk.
    + destruct Hdel as [Hb _]. rewrite Hb in Hbuf. injection Hbuf as <- _.
      by apply Ha in Hk.
    + destruct Hdel as [Hb _]. rewrite Hb in Hbuf. done.
  - intros slot subcommIdx root w1 id value n Hreg Hbuf.
    destruct (AwaitSyncContribution_register_spec slot subcommIdx root w Hinv)
      as (w1' & Hreg' & _ & _ & _ & Hdel).
    rewrite Hreg in Hreg'. injection Hreg' as <- ->.
    destruct (contribDuties (db w) !! _) as [v|] eqn:Hk.
    + destruct Hdel as [Hb _]. rewrite Hb in Hbuf. injection Hbuf as <- _.
      apply Hc in Hk. by injection Hk as -> -> ->.
    + destruct Hdel as [Hb _]. rewrite Hb in Hbuf. done.
  - intros slot root w1 id value n Hreg Hbuf.
    destruct (AwaitAggAttestation_register_spec slot root w Hinv)
      as (w1' & Hreg' & _ & _ & _ & Hdel).
    rewrite Hreg in Hreg'. injection Hreg' as <- ->.
    destruct (aggDuties (db w) !! _) as [v|] eqn:Hk.
    + destruct Hdel as [Hb _]. rewrite Hb in Hbuf. injection Hbuf as <- _.
      by apply Hg in Hk.
    + destruct Hdel as [Hb _]. rewrite Hb in Hbuf. done.
Qed.

(** ** Entries stay until their duty expires *)

Lemma keeps_entries_refl t (d : MemDB) : keeps_entries t d d.
Proof. destruct t; simpl; first [done|apply att_extends_refl]. Qed.

Lemma keeps_entries_trans t (d1 d2 d3 : MemDB) :
  keeps_entries t d1 d2 -> keeps_entries t d2 d3 -> keeps_entries t d1 d3.
Proof.
  destruct t; simpl; try done; first [apply att_extends_trans|by eauto].
Qed.

Lemma same_type_keeps t (d d' : MemDB) : same_type t d d' -> keeps_entries t d d'.
Proof.
  destruct t; simpl; try done.
  - unfold same_proposer. by intros ->.
  - intros (Ha & Hp & _). unfold att_extends. by rewrite Ha, Hp.
  - intros (-> & _). done.
  - intros (-> & _). done.
Qed.

Lemma storeProposalUnsafe_keeps_entries t ud (d d' : MemDB) r :
  storeProposalUnsafe ud d = (d', r) -> keeps_entries t d d'.
Proof.
  intros Hr. destruct (decide (t = DutyProposer)) as [->|Hne].
  - intros k v Hk. by eapply storeProposalUnsafe_keeps.
  - apply same_type_keeps. apply storeProposalUnsafe_frame in Hr as (? & ? & ?).
    by destruct t.
Qed.

Lemma storeAttestationUnsafe_keeps_entries t pubkey ud (d d' : MemDB) r :
  storeAttestationUnsafe pubkey ud d = (d', r) -> keeps_entries t d d'.
Proof.
  intros Hr. destruct (decide (t = DutyAttester)) as [->|Hne].
  - by eapply storeAttestationUnsafe_extends.
  - apply same_type_keeps. apply storeAttestationUnsafe_frame in Hr as (? & ? & ?).
    by destruct t.
Qed.

Lemma storeAggAttestationUnsafe_keeps_entries t ud (d d' : MemDB) r :
  storeAggAttestationUnsafe ud d = (d', r) -> keeps_entries t d d'.
Proof.
  intros Hr. destruct (decide (t = DutyAggregator)) as [->|Hne].
  - apply storeAggAttestationUnsafe_spec in Hr
      as [[-> _]|(aggAtt & data & key & _ & _ & _ & _ & [[_ ->]|[_ ->]])];
      intros k Hk; simpl; [done| |]; apply lookup_insert_is_Some'; by right.
  - apply same_type_keeps. apply storeAggAttestationUnsafe_frame in Hr as (? & ? & ?).
    by destruct t.
Qed.

Lemma storeSyncContributionUnsafe_keeps_entries t ud (d d' : MemDB) r :
  storeSyncContributionUnsafe ud d = (d', r) -> keeps_entries t d d'.
Proof.
  intros Hr. destruct (decide (t = DutySyncContribution)) as [->|Hne].
  - intros k v Hk. by eapply storeSyncContributionUnsafe_keeps.
  - apply same_type_keeps. apply storeSyncContributionUnsafe_frame in Hr as (? & ? & ?).
    by destruct t.
Qed.

(** X18. Entries stay until their duty expires. Over a run in which no
    store processes the expiration of a duty of some type, every entry of
    that type stays: a proposal, an attestation, a public key and a
    contribution with the value first stored, an aggregate with its key. *)
Theorem entries_stay_until_expiry (t : DutyType) (ops : list Op) (w w' : World) :
  Forall (expires_no t) ops -> run ops w = Some w' ->
  keeps_entries t (db w) (db w').
Proof.
  intros Hall Hrun.
  eapply (run_invariant (expires_no t) (fun x => keeps_entries t (db w) (db x)));
    [|exact Hall|apply keeps_entries_refl|exact Hrun].
  intros op w1 w2 HQ HP Hex.
  eapply (exec_maps_inv (fun d => keeps_entries t (db w) d) (expires_no t));
    [| | | | | |exact HQ|exact HP|exact Hex].
  - intros d d' Hm Hk. eapply keeps_entries_trans; [exact Hk|].
    apply same_type_keeps. by apply same_maps_type.
  - intros ud d d' r Hk Hr. eapply keeps_entries_trans; [exact Hk|].
    by eapply storeProposalUnsafe_keeps_entries.
  - intros _ _ _ _ _ _ p _ d d' r Hk Hr. eapply keeps_entries_trans; [exact Hk|].
    by eapply storeAttestationUnsafe_keeps_entries.
  - intros ud d d' r Hk Hr. eapply keeps_entries_trans; [exact Hk|].
    by eapply storeAggAttestationUnsafe_keeps_entries.
  - intros ud d d' r Hk Hr. eapply keeps_entries_trans; [exact Hk|].
    by eapply storeSyncContributionUnsafe_keeps_entries.
  - intros addOk expired duty unsignedSet Hexp x Hx d d' r Hk Hr.
    eapply keeps_entries_trans; [exact Hk|]. apply same_type_keeps.
    eapply deleteDutyUnsafe_other_type; [|exact Hr].
    simpl in Hexp. rewrite Forall_forall in Hexp. by apply Hexp.
Qed.

(** ** A store of nothing *)

(** X19. A [Store] of an empty set, for a duty type the package stores
    and with no expired duty to delete, succeeds in every run, writes
    nothing, and is one resolver pass of that type: afterwards no query of
    the type is queued for a key that is in the map. *)
Theorem empty_store_only_resolves (w : World) (duty : Duty.t) :
  reachable w -> is_stored_type (Duty.Type_ duty) = true ->
  exists w', Store true [] duty [] w = Some (w', Ok tt)
             /\ same_maps (db w) (db w')
             /\ none_waits_for_present (Duty.Type_ duty) w'
             /\ forall t, t ≠ Duty.Type_ duty -> same_waiters_of t w w'.
Proof.
  intros Hw Hty. pose proof (reachable_chan_inv _ Hw) as (Iatt & Ipro & Iagg & Icon & _).
  unfold Store. simpl. unfold storeResolveDelete. simpl. unfold ret.
  rewrite set_db_id.
  destruct (Duty.Type_ duty) eqn:Ht; try done.
  - simpl. unfold resolveProQueriesUnsafe.
    destruct (waiters_ok_pass (proDuties (db w)) (closed w) _ _ _ Ipro)
      as (heap' & Hres & _). rewrite Hres. simpl. eexists. split; [done|]. simpl.
    split; [by unfold same_maps|]. split.
    + intros q Hq. apply list_elem_of_filter in Hq as [Hq _].
      by apply stays_queued_spec in Hq as [_ ?].
    + intros t Hne. by destruct t.
  - unfold resolveAttQueriesUnsafe.
    destruct (waiters_ok_pass (attDuties (db w)) (closed w) _ _ _ Iatt)
      as (heap' & Hres & _). rewrite Hres. simpl. eexists. split; [done|]. simpl.
    split; [by unfold same_maps|]. split.
    + intros q Hq. apply list_elem_of_filter in Hq as [Hq _].
      by apply stays_queued_spec in Hq as [_ ?].
    + intros t Hne. by destruct t.
  - unfold resolveAggQueriesUnsafe.
    destruct (waiters_ok_pass (aggDuties (db w)) (closed w) _ _ _ Iagg)
      as (heap' & Hres & _). rewrite Hres. simpl. eexists. split; [done|]. simpl.
    split; [by unfold same_maps|]. split.
    + intros q Hq. apply list_elem_of_filter in Hq as [Hq _].
      by apply stays_queued_spec in Hq as [_ ?].
    + intros t Hne. by destruct t.
  - unfold resolveContribQueriesUnsafe.
    destruct (waiters_ok_pass (contribDuties (db w)) (closed w) _ _ _ Icon)
      as (heap' & Hres & _). rewrite Hres. simpl. eexists. split; [done|]. simpl.
    split; [by unfold same_maps|]. split.
    + intros q Hq. apply list_elem_of_filter in Hq as [Hq _].
      by apply stays_queued_spec in Hq as [_ ?].
    + intros t Hne. by destruct t.
Qed.


(** ** Storing and awaiting an aggregate *)







(** ** The waiters of an attestation *)

(** X21. An attester store serves the waiters of both committee indices.
    When a [Store] of attestations succeeds, every query that was queued
    and not cancelled, for the slot of a payload's data and either the
    committee index of its duty or committee index 0, has been sent an
    attestation that prints as the payload's data, and has left the
    queue. *)
Theorem attester_store_serves_both_indices (w w' : World) expired duty unsignedSet
    pubkey ud cloned (attData : AttestationData p0AttestationData) :
  reachable w -> Duty.Type_ duty = DutyAttester ->
  (pubkey, ud) ∈ unsignedSet ->
  Clone ud = Ok cloned -> asAttestationData cloned = Some attData ->
  Store true expired duty unsignedSet w = Some (w', Ok tt) ->
  forall q, q ∈ attQueries (db w) -> Cancel q ∉ closed w ->
    Key q = attKey.mk (att_Slot (Data attData))
                      (AttesterDuty.CommitteeIndex (Duty_ attData))
    \/ Key q = attKey.mk (att_Slot (Data attData)) 0 ->
    exists value,
      attResp w' !! Response q = Some (mkChan [value] 1)
      /\ att_String value = att_String (Data attData)
      /\ q ∉ attQueries (db w').
Proof.
  intros Hw Hty Hin Hc Ha Hst q Hq Hopen Hkey.
  pose proof (reachable_chan_inv _ Hw) as Hinv.
  unfold Store in Hst. simpl in Hst. rewrite Hty in Hst.
  apply storeResolveDelete_cases in Hst
    as [(d1 & e & _ & _ & ?)|(d1 & w2 & d3 & H1 & H2 & H3 & ->)]; [done|].
  destruct (forEach_att_ok _ _ _ _ _ _ _ H1 Hin Hc Ha) as (a_c & a_0 & Hdup).
  destruct Hdup as (Hkc & Hk0 & Hsc & Hs0 & _).
  assert (Hq1 : same_waiters (db w) d1).
  { eapply forEach_waiters; [|exact H1].
    intros x d0. apply storeAttestationUnsafe_waiters. }
  assert (Hdel : same_waiters (db w2) d3).
  { eapply forEach_waiters; [|exact H3]. intros x d0. apply deleteDutyUnsafe_waiters. }
  destruct Hq1 as (Hqa & _). destruct Hdel as (Hq3 & _).
  unfold resolveAttQueriesUnsafe in H2. simpl in H2. rewrite Hqa in H2.
  destruct Hinv as (Hatt & _).
  destruct (waiters_ok_pass (attDuties d1) (closed w) _ _ _ Hatt)
    as (heap' & Hres & Hsent & _).
  rewrite Hres in H2. injection H2 as <-. simpl in *.
  specialize (Hsent q Hq). apply cancelled_false in Hopen. rewrite Hopen in Hsent.
  assert (Hgone : forall value, attDuties d1 !! Key q = Some value ->
                                q ∉ attQueries d3).
  { intros value Hv. rewrite Hq3. intros Hmem.
    apply list_elem_of_filter in Hmem as [Hstay _].
    apply stays_queued_spec in Hstay as [_ Hnone]. congruence. }
  destruct Hkey as [Hkey|Hkey]; rewrite Hkey in Hsent, Hgone.
  - rewrite Hkc in Hsent. destruct Hsent as [_ Hafter].
    exists a_c. split; [done|]. split; [done|]. by eapply Hgone.
  - rewrite Hk0 in Hsent. destruct Hsent as [_ Hafter].
    exists a_0. split; [done|]. split; [done|]. by eapply Hgone.
Qed.


End Properties.

(** * Examples on the sample codec *)

Import Sample.


(** A call waits for the proposal of slot 100; the proposal is stored. The
    call is served by the store, and a call made afterwards by its own
    registration. *)
Lemma store_then_await_proposal_witness :
  match run [OpAwaitProposal 100] NewWorld with
  | Some w =>
      match Store true [] (Duty.mk 100 DutyProposer)
                  [("pk"%string, UProposal (100%N, 170%N))] w with
      | Some (w', Ok _) =>
          (forall q, q ∈ proQueries (db w) -> Key q = 100%N -> Cancel q ∉ closed w ->
                     proResp w !! Response q = Some (mkChan [] 0)
                     /\ proResp w' !! Response q = Some (mkChan [(100%N, 170%N)] 1)
                     /\ q ∉ proQueries (db w'))
          /\ proDuties (db w') !! 100%N = Some (100%N, 170%N)
          /\ await_proposal_yields 100 (100%N, 170%N) w'
      | _ => False
      end
  | None => False
  end.
Proof.
  assert (Hok : match run [OpAwaitProposal 100] NewWorld with
                | Some w =>
                    match Store true [] (Duty.mk 100 DutyProposer)
                                [("pk"%string, UProposal (100%N, 170%N))] w with
                    | Some (_, Ok _) => bool_decide (proDuties (db w) !! 100%N = None)
                    | _ => false
                    end
                | None => false
                end = true) by (vm_compute; reflexivity).
  destruct (run _ NewWorld) as [w|] eqn:Hrun; [|discriminate Hok].
  destruct (Store _ _ _ _ w) as [[w' [[]|e]]|] eqn:Hst; try discriminate Hok.
  apply bool_decide_eq_true in Hok.
  destruct (store_then_await_proposal w w' [] (Duty.mk 100 DutyProposer) "pk"
              (UProposal (100%N, 170%N)) (UProposal (100%N, 170%N)) (100%N, 170%N) 100%N)
    as (Hbefore & Hentry & Hafter); try reflexivity; [by eexists|exact Hst|].
  cbv zeta in Hbefore, Hentry, Hafter. rewrite Hok in Hbefore, Hentry, Hafter.
  simpl in Hbefore, Hentry, Hafter.
  assert (Hin : proDuties (db w') !! 100%N = Some (100%N, 170%N)).
  { apply Hentry. by intros ?%elem_of_nil. }
  split; [exact Hbefore|]. split; [exact Hin|].
  by apply (Hafter [] w').
Defined.

(** Slot 5 holds the proposal with root 204, the contribution key of slot
    11 a contribution with bits 1. A proposal with root 221 and a
    contribution with bits 2 clash; the same ones again do nothing. *)
Lemma second_store_clash_or_noop_witness :
  (storeProposalUnsafe (UProposal (5%N, 221%N)) db_proposal
   = (db_proposal, Err ErrClashingBlocks)
   /\ storeProposalUnsafe (UProposal (5%N, 204%N)) db_proposal = (db_proposal, Ok tt))
  /\ (storeSyncContributionUnsafe (UContribution (11%N, 0%N, 255%N, 2%N)) db_contrib
      = (db_contrib, Err ErrClashingSyncContributions)
      /\ storeSyncContributionUnsafe (UContribution (11%N, 0%N, 255%N, 1%N)) db_contrib
         = (db_contrib, Ok tt)).
Proof.
  split; split.
  - apply (proj1 (second_store_clash_or_noop (H := codec) (UProposal (5%N, 221%N)) _ db_proposal
                    eq_refl) (5%N, 221%N) 5%N (5%N, 204%N) 204%N 221%N);
      try reflexivity. done.
  - apply (proj1 (second_store_clash_or_noop (H := codec) (UProposal (5%N, 204%N)) _ db_proposal
                    eq_refl) (5%N, 204%N) 5%N (5%N, 204%N) 204%N 204%N);
      reflexivity.
  - eapply (proj2 (second_store_clash_or_noop (H := codec) (UContribution (11%N, 0%N, 255%N, 2%N)) _
                     db_contrib eq_refl) (11%N, 0%N, 255%N, 2%N) (11%N, 0%N, 255%N, 1%N));
      try reflexivity. vm_compute. done.
  - eapply (proj2 (second_store_clash_or_noop (H := codec) (UContribution (11%N, 0%N, 255%N, 1%N)) _
                     db_contrib eq_refl) (11%N, 0%N, 255%N, 1%N) (11%N, 0%N, 255%N, 1%N));
      reflexivity.
Defined.


(** The attestation of slot 42 for committee 3 and validator 7 is stored
    in a new database. *)
Lemma attester_store_duplicates_witness :
  match Store true [] (Duty.mk 42 DutyAttester)
              [("pk7"%string, attestation 42 187 42 3 7)] NewWorld with
  | Some (w', Ok _) =>
      exists a_c a_0,
        att_duplicated "pk7" (mkAttestationData (42%N, 187%N) (AttesterDuty.mk 42 3 7))
                       (db w') a_c a_0
        /\ await_attestation_yields 42 3 a_c w'
        /\ await_attestation_yields 42 0 a_0 w'
  | _ => False
  end.
Proof.
  assert (Hok : match Store true [] (Duty.mk 42 DutyAttester)
                            [("pk7"%string, attestation 42 187 42 3 7)] NewWorld with
                | Some (_, Ok _) => true
                | _ => false
                end = true) by (vm_compute; reflexivity).
  destruct (Store _ _ _ _ NewWorld) as [[w' [[]|e]]|] eqn:Hst; try discriminate Hok.
  eapply (proj2 (attester_store_duplicates (H := codec)) NewWorld w' []
            (Duty.mk 42 DutyAttester) _ "pk7"%string (attestation 42 187 42 3 7));
    try reflexivity; [by exists []|left|constructor|exact Hst].
Defined.



(** A call waits for the proposal of slot 100; the database is shut down.
    The call returns a shutdown error. *)
Lemma await_after_shutdown_witness :
  match run [OpAwaitProposal 100; OpShutdown] NewWorld with
  | Some w =>
      (exists w', AwaitProposal_return 0 None 0 w = Some (w', Err ErrShutdown))
      /\ forall pick w' r,
           AwaitProposal_return 0 None pick w = Some (w', r) -> r = Err ErrShutdown
  | None => False
  end.
Proof.
  assert (Hok : match run [OpAwaitProposal 100; OpShutdown] NewWorld with
                | Some w =>
                    shutdown (db w)
                    && match proResp w !! 0 with
                       | Some c => match buf c with [] => true | _ => false end
                       | None => false
                       end
                    && negb (cancelled (closed w) 0)
                | None => false
                end = true) by (vm_compute; reflexivity).
  destruct (run _ NewWorld) as [w|] eqn:Hrun; [|discriminate Hok].
  apply andb_prop in Hok as [Hok Hopen]. apply andb_prop in Hok as [Hsd Hbuf].
  apply negb_true_iff, cancelled_false in Hopen.
  destruct (proResp w !! 0) as [c|] eqn:Hc; [|discriminate Hbuf].
  destruct (buf c) eqn:Hb; [|discriminate Hbuf].
  destruct (await_after_shutdown w Hsd) as (_ & Hprompt & _ & (Hempty & _) & _).
  split.
  - destruct (Hprompt _ (proResp w) 0 None Hopen) as (heap' & w' & Hsel); [by eexists|].
    unfold AwaitProposal_return. rewrite Hsel. by eexists.
  - intros pick w' r Hret. apply (Hempty 0 pick w' r Hret).
    intros c' Hc'. rewrite Hc in Hc'. by injection Hc' as <-.
Defined.

(** The proposal of slot 100 is stored, the database is shut down, and
    then AwaitProposal(100) is called: its registration puts the proposal
    in its channel, so its select has two ready cases, and taking the
    second the call returns the proposal. *)
Lemma await_after_shutdown_may_return_payload :
  match run [OpStore true [] (Duty.mk 100 DutyProposer)
                     [("pk"%string, UProposal (100%N, 170%N))];
             OpShutdown; OpAwaitProposal 100] NewWorld with
  | Some w =>
      reachable w /\ shutdown (db w) = true
      /\ (exists w', AwaitProposal_return 0 None 1 w = Some (w', Ok (100%N, 170%N)))
      /\ ~ awaits_fail_after_shutdown w
  | None => False
  end.
Proof.
  assert (Hok : match run [OpStore true [] (Duty.mk 100 DutyProposer)
                                   [("pk"%string, UProposal (100%N, 170%N))];
                           OpShutdown; OpAwaitProposal 100] NewWorld with
                | Some w =>
                    match AwaitProposal_return 0 None 1 w with
                    | Some (_, Ok v) => shutdown (db w) && bool_decide (v = (100%N, 170%N))
                    | _ => false
                    end
                | None => false
                end = true) by (vm_compute; reflexivity).
  destruct (run _ NewWorld) as [w|] eqn:Hrun; [|discriminate Hok].
  destruct (AwaitProposal_return 0 None 1 w) as [[w' [v|e]]|] eqn:Hret;
    try discriminate Hok.
  apply andb_prop in Hok as [Hsd Hv]. apply bool_decide_eq_true in Hv. subst v.
  split; [by eexists|]. split; [exact Hsd|]. split; [by exists w'|].
  intros Hclaim. specialize (Hclaim Hsd 0 1 w' _ Hret). discriminate Hclaim.
Defined.

(** An aggregate is stored; the aggregate with more bits over the same
    data is stored at the same key. *)
Lemma aggregator_clash_unreachable_witness :
  match run [OpStore true [] (Duty.mk 9 DutyAggregator)
                     [("pk"%string, UAggregate (9%N, 238%N, 1%N))]] NewWorld with
  | Some w =>
      storeAggAttestationUnsafe (UAggregate (9%N, 238%N, 3%N)) (db w)
      = (set_aggDuties (<[aggKey.mk 9 (pair_code (9%N, 238%N)) := (9%N, 238%N, 3%N)]>
                          (aggDuties (db w))) (db w), Ok tt)
  | None => False
  end.
Proof.
  assert (Hok : match run [OpStore true [] (Duty.mk 9 DutyAggregator)
                                   [("pk"%string, UAggregate (9%N, 238%N, 1%N))]]
                          NewWorld with
                | Some w =>
                    bool_decide (is_Some (aggDuties (db w)
                                            !! aggKey.mk 9 (pair_code (9%N, 238%N))))
                | None => false
                end = true) by (vm_compute; reflexivity).
  destruct (run _ NewWorld) as [w|] eqn:Hrun; [|discriminate Hok].
  apply bool_decide_eq_true in Hok.
  destruct (aggregator_clash_unreachable w) as (_ & _ & Hover); [by eexists|].
  apply (Hover (UAggregate (9%N, 238%N, 3%N)) (UAggregate (9%N, 238%N, 3%N))
               (9%N, 238%N, 3%N) (9%N, 238%N) (pair_code (9%N, 238%N)));
    try reflexivity. exact Hok.
Defined.

(** Committee 3 of slot 42 holds an attestation with body 1; validator 7
    stores one with body 2: the store fails and leaves the new public
    key. In a batch, the payload of validator 8 fails after the payload of
    validator 7 was stored. *)
Lemma failing_attester_store_keeps_writes_witness :
  (exists d',
     storeAttestationUnsafe "pk7" (attestation 42 2 42 3 7) db_attestation
     = (d', Err (ErrClashingAttData (attKey.mk 42 3)))
     /\ attPubKeys db_attestation !! pkKey.mk 42 3 7 = None
     /\ attPubKeys d' !! pkKey.mk 42 3 7 = Some "pk7"%string)
  /\ (exists d',
        storeAttestationUnsafe "pk7" (attestation 42 1 42 3 7) db_pubkey
        = (d', Err (ErrClashingPubKey (pkKey.mk 42 0 7)))
        /\ attPubKeys d' !! pkKey.mk 42 3 7 = Some "pk7"%string
        /\ attDuties d' !! attKey.mk 42 3 = Some (42%N, 1%N))
  /\ (exists d2 e a_c a_0,
        Store true [] (Duty.mk 42 DutyAttester)
              [("pk7"%string, attestation 42 1 42 3 7);
               ("pk8"%string, attestation 42 2 42 3 8)] NewWorld
        = Some (set_db d2 NewWorld, Err e)
        /\ att_duplicated "pk7" (mkAttestationData (42%N, 1%N) (AttesterDuty.mk 42 3 7))
                          d2 a_c a_0).
Proof.
  split; [|split].
  - destruct (proj1 (failing_attester_store_keeps_writes (H := codec)) db_attestation
                "pk7"%string (attestation 42 2 42 3 7) (attestation 42 2 42 3 7)
                (mkAttestationData (42%N, 2%N) (AttesterDuty.mk 42 3 7)) (42%N, 1%N))
      as (d' & Hst & Hpk & _); try reflexivity; [vm_compute; done|].
    exists d'. split; [exact Hst|]. split; [reflexivity|exact Hpk].
  - destruct (proj1 (proj2 (failing_attester_store_keeps_writes (H := codec))) db_pubkey
                "pk7"%string (attestation 42 1 42 3 7) (attestation 42 1 42 3 7)
                (mkAttestationData (42%N, 1%N) (AttesterDuty.mk 42 3 7)) "other"%string)
      as (d' & Hst & Hpk & Hatt); try reflexivity; try done.
    by exists d'.
  - assert (Hok : match forEach (fun p => storeAttestationUnsafe (H := codec) p.1 p.2)
                                [("pk7"%string, attestation 42 1 42 3 7)]
                                (db NewWorld) with
                  | (d1, Ok _) =>
                      match storeAttestationUnsafe "pk8" (attestation 42 2 42 3 8) d1 with
                      | (_, Err _) => true
                      | _ => false
                      end
                  | _ => false
                  end = true) by (vm_compute; reflexivity).
    destruct (forEach _ _ (db NewWorld)) as [d1 [[]|e1]] eqn:H1; [|discriminate Hok].
    destruct (storeAttestationUnsafe "pk8" _ d1) as [d2 [[]|e]] eqn:H2;
      [discriminate Hok|].
    destruct (proj2 (proj2 (failing_attester_store_keeps_writes (H := codec)))
                NewWorld [] (Duty.mk 42 DutyAttester)
                [("pk7"%string, attestation 42 1 42 3 7)] []
                ("pk8"%string, attestation 42 2 42 3 8) d1 d2 e eq_refl H1 H2)
      as (Hst & _ & Hearlier).
    destruct (Hearlier "pk7"%string (attestation 42 1 42 3 7) (attestation 42 1 42 3 7)
                (mkAttestationData (42%N, 1%N) (AttesterDuty.mk 42 3 7)))
      as (a_c & a_0 & Hdup); try reflexivity; [left|].
    by exists d2, e, a_c, a_0.
Defined.

(** Validators 7 and 8 of committee 3 store the attestation of slot 42,
    validator 7 twice. *)
Lemma attester_index_when_slots_agree_witness :
  match run [OpStore true [] (Duty.mk 42 DutyAttester)
                     [("pk7"%string, attestation 42 1 42 3 7);
                      ("pk8"%string, attestation 42 1 42 3 8)];
             OpStore true [] (Duty.mk 42 DutyAttester)
                     [("pk7"%string, attestation 42 1 42 3 7)]] NewWorld with
  | Some w =>
      default [] (attKeysBySlot (db w) !! 42%N)
      = [pkKey.mk 42 3 7; pkKey.mk 42 0 7; pkKey.mk 42 3 8; pkKey.mk 42 0 8]
      /\ (forall t, NoDup (default [] (attKeysBySlot (db w) !! t)))
      /\ (forall slot, eviction_complete (Duty.mk slot DutyAttester) w)
  | None => False
  end.
Proof.
  assert (Hok : match run [OpStore true [] (Duty.mk 42 DutyAttester)
                                   [("pk7"%string, attestation 42 1 42 3 7);
                                    ("pk8"%string, attestation 42 1 42 3 8)];
                           OpStore true [] (Duty.mk 42 DutyAttester)
                                   [("pk7"%string, attestation 42 1 42 3 7)]]
                          NewWorld with
                | Some w =>
                    bool_decide
                      (default [] (attKeysBySlot (db w) !! 42%N)
                       = [pkKey.mk 42 3 7; pkKey.mk 42 0 7;
                          pkKey.mk 42 3 8; pkKey.mk 42 0 8])
                | None => false
                end = true) by (vm_compute; reflexivity).
  destruct (run _ NewWorld) as [w|] eqn:Hrun; [|discriminate Hok].
  apply bool_decide_eq_true in Hok. split; [exact Hok|].
  eassert (Hagree : Forall slots_agree _); [|
    destruct (proj2 (attester_index_when_slots_agree (H := codec)) _ w Hagree Hrun)
      as (Hnd & _ & _ & Hev); by split].
  repeat constructor; simpl; intros _ p cloned attData Hp Hc Ha;
    injection Hc as <-;
    repeat (apply elem_of_cons in Hp as [->|Hp]; [simpl in Ha; by injection Ha as <-|]);
    by apply elem_of_nil in Hp.
Defined.

(** ** Examples of the further properties *)

(** Two proposals for one proposer duty are refused by the sanity check;
    a proposal with another root for slot 5 clashes. *)
Lemma Store_error_origin_witness :
  error_origin true [] (Duty.mk 5 DutyProposer)
    [("a"%string, UProposal (5%N, 1%N)); ("b"%string, UProposal (5%N, 2%N))]
    NewWorld NewWorld (ErrProposerSetLength 2)
  /\ error_origin true [] (Duty.mk 5 DutyProposer) [("a"%string, UProposal (5%N, 221%N))]
       (set_db db_proposal NewWorld) (set_db db_proposal NewWorld) ErrClashingBlocks.
Proof.
  split.
  - apply (Store_error_origin (H := codec)). reflexivity.
  - apply (Store_error_origin (H := codec)). vm_compute. reflexivity.
Defined.

(** A call waits for the aggregate of slot 9; a store of that aggregate
    and of a payload of another type fails on the second payload: the
    aggregate is in the map and the call still waits. *)
Lemma failed_store_wakes_no_waiter_witness :
  match run [OpAwaitAggAttestation 9 (pair_code (9%N, 238%N))] NewWorld with
  | Some w =>
      match Store true [] (Duty.mk 9 DutyAggregator)
                  [("a"%string, UAggregate (9%N, 238%N, 1%N)); ("b"%string, UOther)] w with
      | Some (w', Err _) =>
          same_channels w w'
          /\ exists q, q ∈ aggQueries (db w') /\ is_Some (aggDuties (db w') !! Key q)
      | _ => False
      end
  | None => False
  end.
Proof.
  assert (Hok : match run [OpAwaitAggAttestation 9 (pair_code (9%N, 238%N))] NewWorld with
                | Some w =>
                    match Store true [] (Duty.mk 9 DutyAggregator)
                                [("a"%string, UAggregate (9%N, 238%N, 1%N));
                                 ("b"%string, UOther)] w with
                    | Some (w', Err e) =>
                        negb (is_delete_error e)
                        && match aggQueries (db w') with
                           | q :: _ => match aggDuties (db w') !! Key q with
                                       | Some _ => true
                                       | None => false
                                       end
                           | [] => false
                           end
                    | _ => false
                    end
                | None => false
                end = true) by (vm_compute; reflexivity).
  destruct (run _ NewWorld) as [w|] eqn:Hrun; [|discriminate Hok].
  destruct (Store _ _ _ _ w) as [[w' [[]|e]]|] eqn:Hst; try discriminate Hok.
  apply andb_true_iff in Hok as [Hne Hq]. apply negb_true_iff in Hne.
  split; [exact (failed_store_wakes_no_waiter _ _ _ _ _ _ _ Hst Hne)|].
  destruct (aggQueries (db w')) as [|q qs]; [discriminate Hq|].
  exists q. split; [by left|].
  destruct (aggDuties (db w') !! Key q); [by eexists|discriminate Hq].
Defined.

(** Two calls wait for the proposal of slot 100 and one for slot 7; after
    the proposal of slot 100 is stored no call waits for a slot that has a
    proposal. *)
Lemma successful_store_leaves_no_served_waiter_witness :
  match run [OpAwaitProposal 100; OpAwaitProposal 100; OpAwaitProposal 7] NewWorld with
  | Some w =>
      match Store true [] (Duty.mk 100 DutyProposer)
                  [("pk"%string, UProposal (100%N, 170%N))] w with
      | Some (w', Ok _) => none_waits_for_present DutyProposer w'
      | _ => False
      end
  | None => False
  end.
Proof.
  assert (Hok : match run [OpAwaitProposal 100; OpAwaitProposal 100; OpAwaitProposal 7]
                          NewWorld with
                | Some w =>
                    match Store true [] (Duty.mk 100 DutyProposer)
                                [("pk"%string, UProposal (100%N, 170%N))] w with
                    | Some (_, Ok _) => true
                    | _ => false
                    end
                | None => false
                end = true) by (vm_compute; reflexivity).
  destruct (run _ NewWorld) as [w|] eqn:Hrun; [|discriminate Hok].
  destruct (Store _ _ _ _ w) as [[w' [[]|e]]|] eqn:Hst; try discriminate Hok.
  exact (proj1 successful_store_leaves_no_served_waiter _ _ _ _ _ _ Hst).
Defined.

(** The attestation of slot 42 for committee 3 and validator 7, stored
    again in the database its first store left. *)
Lemma repeated_store_is_noop_witness :
  storeAttestationUnsafe "pk7" (attestation 42 187 42 3 7) db_attested
  = (db_attested, Ok tt).
Proof.
  apply (proj1 (repeated_store_is_noop (H := codec) NewMemDB db_attested
                  (attestation 42 187 42 3 7)) "pk7"%string).
  vm_compute. reflexivity.
Defined.

(** The proposal of slot 5 is deleted; deleting the duty again changes
    nothing. *)
Lemma delete_again_is_noop_witness :
  deleteDutyUnsafe (Duty.mk 5 DutyProposer) NewMemDB = (NewMemDB, Ok tt).
Proof.
  assert (Hdel : deleteDutyUnsafe (Duty.mk 5 DutyProposer) db_proposal = (NewMemDB, Ok tt))
    by (vm_compute; reflexivity).
  exact (proj2 (proj2 (delete_again_is_noop (H := codec) _ _ _) Hdel)).
Defined.

(** A proposal is stored while the deadliner yields a builder-proposer
    duty after the proposer duty of slot 3. *)
Lemma rejected_expiry_fails_store_late_witness :
  match Store true [Duty.mk 3 DutyProposer] (Duty.mk 5 DutyProposer)
              [("pk"%string, UProposal (5%N, 204%N))] NewWorld with
  | Some (w', Ok _) =>
      Store true [Duty.mk 3 DutyProposer; Duty.mk 4 DutyBuilderProposer;
                  Duty.mk 5 DutyProposer]
            (Duty.mk 5 DutyProposer) [("pk"%string, UProposal (5%N, 204%N))] NewWorld
      = Some (w', Err ErrDeprecatedDutyBuilderProposer)
      /\ proDuties (db w') !! 5%N = Some (5%N, 204%N)
  | _ => False
  end.
Proof.
  destruct (Store true [Duty.mk 3 DutyProposer] _ _ NewWorld) as [[w' [[]|e]]|] eqn:Hst.
  - split.
    + exact (rejected_expiry_fails_store_late (H := codec) true (Duty.mk 5 DutyProposer) _
               NewWorld w' [Duty.mk 3 DutyProposer] [Duty.mk 5 DutyProposer]
               (Duty.mk 4 DutyBuilderProposer) Hst eq_refl).
    + vm_compute in Hst. injection Hst as <-. reflexivity.
  - vm_compute in Hst. discriminate Hst.
  - vm_compute in Hst. discriminate Hst.
Defined.

(** A call waits for the attestation of slot 42; a proposal is stored. *)
Lemma store_touches_own_type_only_witness :
  match run [OpAwaitAttestation 42 3] NewWorld with
  | Some w =>
      match Store true [Duty.mk 3 DutyProposer] (Duty.mk 5 DutyProposer)
                  [("pk"%string, UProposal (5%N, 204%N))] w with
      | Some (w', _) =>
          same_waiters_of DutyAttester w w' /\ same_type DutyAttester (db w) (db w')
      | None => False
      end
  | None => False
  end.
Proof.
  assert (Hok : match run [OpAwaitAttestation 42 3] NewWorld with
                | Some w =>
                    match Store true [Duty.mk 3 DutyProposer] (Duty.mk 5 DutyProposer)
                                [("pk"%string, UProposal (5%N, 204%N))] w with
                    | Some _ => true
                    | None => false
                    end
                | None => false
                end = true) by (vm_compute; reflexivity).
  destruct (run _ NewWorld) as [w|] eqn:Hrun; [|discriminate Hok].
  destruct (Store _ _ _ _ w) as [[w' r]|] eqn:Hst; [|discriminate Hok].
  destruct (store_touches_own_type_only _ _ _ _ _ _ _ DutyAttester Hst) as [Hw Hm];
    [done|].
  split; [exact Hw|]. apply Hm. repeat constructor. done.
Defined.

(** Slot 42 holds an attestation with body 187; an attestation of slot 42
    with body 999 for another committee and validator is refused. *)
Lemma attester_slot_has_one_data_witness :
  exists d' e,
    storeAttestationUnsafe "pk8" (attestation 42 999 42 5 8) db_attested = (d', Err e)
    /\ (is_ClashingData e = true \/ is_ClashingPubKey e = true)
    /\ attDuties d' !! attKey.mk 42 0 = Some (42%N, 187%N).
Proof.
  apply (attester_slot_has_one_data (H := codec) db_attested "pk8"
           (attestation 42 999 42 5 8) (attestation 42 999 42 5 8)
           (mkAttestationData (42%N, 999%N) (AttesterDuty.mk 42 5 8)) (42%N, 187%N)).
  - reflexivity.
  - reflexivity.
  - vm_compute. reflexivity.
  - vm_compute. discriminate.
Defined.

(** Aggregates of slots 9 and 10 are stored; the duty of slot 9 expires. *)
Lemma eviction_spares_other_slots_witness :
  match run [OpStore true [] (Duty.mk 9 DutyAggregator)
                     [("a"%string, UAggregate (9%N, 238%N, 1%N))];
             OpStore true [] (Duty.mk 10 DutyAggregator)
                     [("a"%string, UAggregate (10%N, 17%N, 1%N))]] NewWorld with
  | Some w =>
      let d' := (deleteDutyUnsafe (Duty.mk 9 DutyAggregator) (db w)).1 in
      spares_other_slots (Duty.mk 9 DutyAggregator) (db w) d'
      /\ forall t, t ≠ DutyAggregator -> same_type t (db w) d'
  | None => False
  end.
Proof.
  destruct (run _ NewWorld) as [w|] eqn:Hrun.
  - apply (eviction_spares_other_slots _ w (Duty.mk 9 DutyAggregator) _
             (deleteDutyUnsafe (Duty.mk 9 DutyAggregator) (db w)).2 Hrun).
    + intros [=].
    + by destruct (deleteDutyUnsafe _ _).
  - vm_compute in Hrun. discriminate Hrun.
Defined.

(** A call waits for the contribution of slot 11, subcommittee 0 and
    block root 255; the contribution is stored. *)
Lemma store_then_await_sync_contribution_witness :
  match run [OpAwaitSyncContribution 11 0 255] NewWorld with
  | Some w =>
      match Store true [] (Duty.mk 11 DutySyncContribution)
                  [("pk"%string, UContribution (11%N, 0%N, 255%N, 1%N))] w with
      | Some (w', Ok _) =>
          exists stored,
            contribDuties (db w') !! contribKey.mk 11 0 255 = Some stored
            /\ await_contribution_yields (contribKey.mk 11 0 255) stored w'
      | _ => False
      end
  | None => False
  end.
Proof.
  assert (Hok : match run [OpAwaitSyncContribution 11 0 255] NewWorld with
                | Some w =>
                    match Store true [] (Duty.mk 11 DutySyncContribution)
                                [("pk"%string, UContribution (11%N, 0%N, 255%N, 1%N))] w with
                    | Some (_, Ok _) => true
                    | _ => false
                    end
                | None => false
                end = true) by (vm_compute; reflexivity).
  destruct (run _ NewWorld) as [w|] eqn:Hrun; [|discriminate Hok].
  destruct (Store _ _ _ _ w) as [[w' [[]|e]]|] eqn:Hst; try discriminate Hok.
  destruct (store_then_await_sync_contribution (H := codec) w w' []
              (Duty.mk 11 DutySyncContribution)
              [("pk"%string, UContribution (11%N, 0%N, 255%N, 1%N))] "pk"
              (UContribution (11%N, 0%N, 255%N, 1%N)) (UContribution (11%N, 0%N, 255%N, 1%N))
              (11%N, 0%N, 255%N, 1%N)) as (stored & _ & _ & _ & _ & Hafter);
    try reflexivity; [by eexists|by left|exact Hst|].
  exists stored. apply Hafter. by intros ?%elem_of_nil.
Defined.

(** In a new database a call for the proposal of slot 100 waits. *)
Lemma await_waits_for_absent_key_witness :
  exists w1, AwaitProposal_register 100 NewWorld = Some (w1, 0)
             /\ waits AwaitProposal_return 0 w1.
Proof.
  apply (proj1 (await_waits_for_absent_key (H := codec) NewWorld
                  (ex_intro _ [] eq_refl) eq_refl) 100%N).
  reflexivity.
Defined.

(** A call for the proposal of slot 100 is cancelled; the proposal is
    stored afterwards. *)
Lemma returned_call_is_left_alone_witness :
  match run [OpAwaitProposal 100; OpReturnProposal 0 (Some Canceled) 0] NewWorld with
  | Some w =>
      match run [OpStore true [] (Duty.mk 100 DutyProposer)
                         [("pk"%string, UProposal (100%N, 170%N))]] w with
      | Some w' => left_alone 0 w w'
      | None => False
      end
  | None => False
  end.
Proof.
  assert (Hok : match run [OpAwaitProposal 100; OpReturnProposal 0 (Some Canceled) 0]
                          NewWorld with
                | Some w =>
                    match run [OpStore true [] (Duty.mk 100 DutyProposer)
                                       [("pk"%string, UProposal (100%N, 170%N))]] w with
                    | Some _ => cancelled (closed w) 0
                    | None => false
                    end
                | None => false
                end = true) by (vm_compute; reflexivity).
  destruct (run _ NewWorld) as [w|] eqn:Hrun; [|discriminate Hok].
  destruct (run _ w) as [w'|] eqn:Hrun'; [|discriminate Hok].
  apply cancelled_true in Hok.
  exact (returned_call_is_left_alone w 0 _ (ex_intro _ _ Hrun) Hok w' Hrun').
Defined.

(** The proposal of slot 5 with root 204 is stored and its duty expires;
    a proposal of slot 5 with root 221 is then accepted. *)
Lemma eviction_frees_the_slot_witness :
  match run [OpStore true [] (Duty.mk 5 DutyProposer)
                     [("pk"%string, UProposal (5%N, 204%N))]] NewWorld with
  | Some w =>
      accepts_fresh (Duty.mk 5 DutyProposer) "pk" (UProposal (5%N, 221%N))
                    (UProposal (5%N, 221%N))
                    (deleteDutyUnsafe (Duty.mk 5 DutyProposer) (db w)).1
  | None => False
  end.
Proof.
  destruct (run _ NewWorld) as [w|] eqn:Hrun.
  - apply (eviction_frees_the_slot _ w (Duty.mk 5 DutyProposer) _ "pk"
             (UProposal (5%N, 221%N)) (UProposal (5%N, 221%N)) Hrun).
    + intros [=].
    + reflexivity.
    + reflexivity.
  - vm_compute in Hrun. discriminate Hrun.
Defined.

(** The pass of a registration, run again. *)
Lemma resolver_pass_idempotent_witness :
  match AwaitProposal_register 100 NewWorld with
  | Some (w1, _) => resolveProQueriesUnsafe w1 = Some w1
  | None => False
  end.
Proof.
  unfold AwaitProposal_register. simpl.
  destruct (resolveProQueriesUnsafe _) as [w1|] eqn:Hres.
  - exact (proj1 (resolver_pass_idempotent _ w1) Hres).
  - vm_compute in Hres. discriminate Hres.
Defined.

(** A proposal, an attestation and a contribution are stored. *)
Lemma entries_stored_under_own_key_witness :
  match run [OpStore true [] (Duty.mk 5 DutyProposer)
                     [("pk"%string, UProposal (5%N, 204%N))];
             OpStore true [] (Duty.mk 42 DutyAttester)
                     [("pk7"%string, attestation 42 187 42 3 7)];
             OpStore true [] (Duty.mk 11 DutySyncContribution)
                     [("pk"%string, UContribution (11%N, 0%N, 255%N, 1%N))]] NewWorld with
  | Some w => own_key_inv (db w)
  | None => False
  end.
Proof.
  destruct (run _ NewWorld) as [w|] eqn:Hrun.
  - exact (proj1 (entries_stored_under_own_key w (ex_intro _ _ Hrun))).
  - vm_compute in Hrun. discriminate Hrun.
Defined.

(** Slot 5 holds a proposal; a proposal of slot 6 is stored while an
    attester duty expires. *)
Lemma entries_stay_until_expiry_witness :
  match run [OpStore true [Duty.mk 5 DutyAttester] (Duty.mk 6 DutyProposer)
                     [("pk"%string, UProposal (6%N, 1%N))]]
            (set_db db_proposal NewWorld) with
  | Some w' => proDuties (db w') !! 5%N = Some (5%N, 204%N)
  | None => False
  end.
Proof.
  destruct (run _ (set_db db_proposal NewWorld)) as [w'|] eqn:Hrun.
  - assert (Hall : Forall (expires_no (H := codec) DutyProposer)
                       [OpStore true [Duty.mk 5 DutyAttester] (Duty.mk 6 DutyProposer)
                                [("pk"%string, UProposal (6%N, 1%N))]])
      by (repeat constructor; done).
    exact (entries_stay_until_expiry (H := codec) DutyProposer _ _ w' Hall Hrun
             5%N (5%N, 204%N) eq_refl).
  - vm_compute in Hrun. discriminate Hrun.
Defined.

(** A store of nothing for a proposer duty, in a new database. *)
Lemma empty_store_only_resolves_witness :
  exists w', Store true [] (Duty.mk 5 DutyProposer) [] NewWorld = Some (w', Ok tt)
             /\ same_maps (db NewWorld) (db w')
             /\ none_waits_for_present DutyProposer w'
             /\ forall t, t ≠ DutyProposer -> same_waiters_of t NewWorld w'.
Proof.
  apply (empty_store_only_resolves (H := codec) NewWorld (Duty.mk 5 DutyProposer)
           (ex_intro _ [] eq_refl) eq_refl).
Defined.


(** A call waits for the attestation of slot 42 and committee index 0;
    the attestation of slot 42 for committee 3 is stored. *)
Lemma attester_store_serves_both_indices_witness :
  match run [OpAwaitAttestation 42 0] NewWorld with
  | Some w =>
      match Store true [] (Duty.mk 42 DutyAttester)
                  [("pk7"%string, attestation 42 187 42 3 7)] w with
      | Some (w', Ok _) =>
          forall q, q ∈ attQueries (db w) -> Cancel q ∉ closed w ->
            Key q = attKey.mk 42 3 \/ Key q = attKey.mk 42 0 ->
            exists value,
              attResp w' !! Response q = Some (mkChan [value] 1)
              /\ att_String value = att_String (42%N, 187%N)
              /\ q ∉ attQueries (db w')
      | _ => False
      end
  | None => False
  end.
Proof.
  assert (Hok : match run [OpAwaitAttestation 42 0] NewWorld with
                | Some w =>
                    match Store true [] (Duty.mk 42 DutyAttester)
                                [("pk7"%string, attestation 42 187 42 3 7)] w with
                    | Some (_, Ok _) => true
                    | _ => false
                    end
                | None => false
                end = true) by (vm_compute; reflexivity).
  destruct (run _ NewWorld) as [w|] eqn:Hrun; [|discriminate Hok].
  destruct (Store _ _ _ _ w) as [[w' [[]|e]]|] eqn:Hst; try discriminate Hok.
  intros q Hq Hopen Hkey.
  exact (attester_store_serves_both_indices (H := codec) w w' []
           (Duty.mk 42 DutyAttester) [("pk7"%string, attestation 42 187 42 3 7)] "pk7"
           (attestation 42 187 42 3 7) (attestation 42 187 42 3 7)
           (mkAttestationData (42%N, 187%N) (AttesterDuty.mk 42 3 7))
           (ex_intro _ _ Hrun) eq_refl (list_elem_of_here _ _) eq_refl eq_refl Hst
           q Hq Hopen Hkey).
Defined.
